(** * st-agentskills: the call-protocol engine of [index.js]

    A shallow embedding of the parser, the argument coercer, the skill
    registry, the circuit breaker and the serial execution lane of
    [src/index.js], with the properties of the specification stated and
    proved over it.

    Conventions.
    - A JavaScript string is its sequence of UTF-16 code units ([list N]);
      [lit] turns an ASCII literal into such a sequence.
    - [Date.now()] is an integer number of milliseconds ([Z]). A time
      value is below 8.64 * 10^15 in magnitude: there [Math.floor(t / 1000)]
      is the quotient of the integers, and its text has all its digits.
    - A JavaScript [Number] is a binary64 value ([number]). A decimal
      literal is read as the nearest Number, ties to even; the text of a
      Number is the shortest decimal that reads back as it.
    - A value is a finite tree. An object is the list of its own
      properties in enumeration order: the array indices first,
      ascending, then the other keys in the order of their creation. The
      properties hold data: accessors, proxies and conversion hooks (an
      own [toJSON], [toString] or [valueOf] function) are outside the
      values written here, and the prototype of an object is not part of
      its value.
    - [Map] and the registry are [gmap]s keyed by the skill name. *)

From Stdlib Require Import ZArith NArith List String Ascii Bool Lia.
From Stdlib Require Import DecimalString Decimal.
From Stdlib Require DecimalZ DecimalPos.
From stdpp Require Import gmap list sorting.
Import ListNotations.

Set Default Proof Using "Type".
Set Warnings "-register-all".

(** ** JavaScript strings *)

Abbreviation jsstring := (list N).

Definition lit (s : string) : jsstring :=
  List.map N_of_ascii (list_ascii_of_string s).

(** The decimal writing of an integer: [String(n)] for a BigInt, and for
    an integral Number below 10^21. *)
Definition decimal (n : Z) : jsstring := lit (NilZero.string_of_int (Z.to_int n)).

(** The characters matched by [\s] and stripped by [String.prototype.trim]:
    WhiteSpace and LineTerminator of ECMAScript. *)
Definition is_space (c : N) : bool :=
  ((9 <=? c) && (c <=? 13) || (c =? 32) || (c =? 160) || (c =? 5760)
   || (8192 <=? c) && (c <=? 8202) || (c =? 8232) || (c =? 8233)
   || (c =? 8239) || (c =? 8287) || (c =? 12288) || (c =? 65279))%N.

Fixpoint trim_start (s : jsstring) : jsstring :=
  match s with
  | c :: r => if is_space c then trim_start r else s
  | [] => []
  end.

Definition trim_end (s : jsstring) : jsstring := rev (trim_start (rev s)).

Definition trim (s : jsstring) : jsstring := trim_end (trim_start s).

Definition starts_with_char (c : N) (s : jsstring) : bool :=
  match s with
  | x :: _ => (x =? c)%N
  | [] => false
  end.

Definition ends_with_char (c : N) (s : jsstring) : bool :=
  starts_with_char c (rev s).

(** [s.slice(1, -1)]. *)
Definition slice_1_m1 (s : jsstring) : jsstring :=
  match s with
  | _ :: r => removelast r
  | [] => []
  end.

(** [s.split(sep)] for a one-character separator; a non-empty list always. *)
Fixpoint split_on (sep : N) (s : jsstring) : list jsstring :=
  match s with
  | [] => [[]]
  | c :: r =>
      if (c =? sep)%N then [] :: split_on sep r
      else match split_on sep r with
           | p :: ps => (c :: p) :: ps
           | [] => [[c]]
           end
  end.

(** [s.indexOf(ch)], with [None] for [-1]. *)
Fixpoint index_of (ch : N) (s : jsstring) : option nat :=
  match s with
  | [] => None
  | c :: r => if (c =? ch)%N then Some 0%nat else option_map S (index_of ch r)
  end.

Definition is_digit (c : N) : bool := ((48 <=? c) && (c <=? 57))%N.

(** Case folding of the [/i] flag restricted to what an ASCII pattern can
    match: only the ASCII capitals fold. *)
Definition lower_ascii (c : N) : N :=
  if ((65 <=? c) && (c <=? 90))%N then (c + 32)%N else c.

Definition jsstring_eqb (a b : jsstring) : bool := bool_decide (a = b).

Definition eq_ignore_case (pat s : jsstring) : bool :=
  jsstring_eqb (List.map lower_ascii s) pat.

(** The digits at the head of [s], and what follows them. *)
Fixpoint span_digits (s : jsstring) : jsstring * jsstring :=
  match s with
  | c :: r =>
      if is_digit c then let '(ds, rest) := span_digits r in (c :: ds, rest)
      else ([], s)
  | [] => ([], [])
  end.

(** [Some rest] when [s] is [c] followed by [rest]. *)
Definition after_char (c : N) (s : jsstring) : option jsstring :=
  match s with
  | x :: r => if (x =? c)%N then Some r else None
  | [] => None
  end.

(** ** Numbers

    A Number is a binary64 value: [Finite s m e] is [(-1)^s * m * 2^e],
    written with an odd [m] (and [Finite s 0 0] for the two zeros). *)

Inductive number : Type :=
| NaN
| Infinity (negative : bool)
| Finite (negative : bool) (m e : Z).

#[global] Instance number_eq_dec : EqDecision number.
Proof. solve_decision. Defined.

(** The values a binary64 holds: 53 bits of mantissa, exponents from
    -1074, magnitudes below 2^1024. *)
Definition binary64 (x : number) : Prop :=
  match x with
  | Finite _ 0 e => e = 0%Z
  | Finite _ m e =>
      (0 < m /\ Z.odd m = true /\ Z.log2 m < 53 /\ -1074 <= e /\ Z.log2 m + e < 1024)%Z
  | _ => True
  end.

Fixpoint pos_odd_part (p : positive) : positive * Z :=
  match p with
  | xO p' => let '(q, j) := pos_odd_part p' in (q, (j + 1)%Z)
  | _ => (p, 0%Z)
  end.

(** [M = m * 2^j] with [m] odd. *)
Definition odd_part (M : Z) : Z * Z :=
  match M with
  | Zpos p => let '(q, j) := pos_odd_part p in (Zpos q, j)
  | _ => (M, 0%Z)
  end.

(** The Number of an integer that a binary64 holds exactly. *)
Definition int (z : Z) : number :=
  let '(m, j) := odd_part (Z.abs z) in Finite (z <? 0)%Z m j.

(** [x * b^k] for [0 <= k], [x] otherwise. *)
Definition scaled (b x k : Z) : Z := (x * b ^ Z.max 0 k)%Z.

(** [b^d <= n/den] *)
Definition reaches (b n den d : Z) : bool := (scaled b den d <=? scaled b n (- d))%Z.

(** The integer nearest to [n/den], the even one of two. *)
Definition div_nearest_even (n den : Z) : Z :=
  let q := (n / den)%Z in
  match (2 * (n mod den) ?= den)%Z with
  | Lt => q
  | Gt => (q + 1)%Z
  | Eq => if Z.even q then q else (q + 1)%Z
  end.

(** The Number value for the rational [n/den] ([0 <= n], [0 < den]), with
    the sign given: round to nearest, ties to even; from 2^1024 - 2^970 on
    it is an infinity. *)
Definition round64 (negative : bool) (n den : Z) : number :=
  if (n <=? 0)%Z then Finite negative 0 0
  else
    let d := (Z.log2 n - Z.log2 den)%Z in
    let E := if reaches 2 n den d then d else (d - 1)%Z in
    let q := Z.max (E - 52) (-1074) in
    let M := div_nearest_even (scaled 2 n (- q)) (scaled 2 den q) in
    if (M =? 0)%Z then Finite negative 0 0
    else if (1024 <=? Z.log2 M + q)%Z then Infinity negative
    else let '(m, j) := odd_part M in Finite negative m (q + j).

(** The Number value for [D * 10^p]. *)
Definition round64_dec (negative : bool) (D p : Z) : number :=
  round64 negative (scaled 10 D p) (scaled 10 1 (- p)).

(** The value of a row of decimal digits. *)
Definition digits_value (ds : jsstring) : Z :=
  fold_left (fun acc c => (acc * 10 + (Z.of_N c - 48))%Z) ds 0%Z.

(** *** Number::toString *)

(** The candidates with [k] digits for [n/den], [n0 - k] being the place
    of the last digit: the two neighbours [lo] and [lo + 1] of
    [n / (den * 10^(n0 - k))], a neighbour [10^k] being written [1] one
    place higher; of those that read back as [x], the nearer, the even one
    of two. *)
Definition digits_at (x : number) (n den n0 k : Z) : option (Z * Z) :=
  let p := (n0 - k)%Z in
  let A := scaled 10 n (- p) in
  let B := scaled 10 den p in
  let lo := (A / B)%Z in
  let c_lo := (lo, p) in
  let c_hi := if (lo + 1 =? 10 ^ k)%Z then (1%Z, n0) else ((lo + 1)%Z, p) in
  let valid (c : Z * Z) :=
    (0 <? c.1)%Z && bool_decide (round64_dec false c.1 c.2 = x) in
  match valid c_lo, valid c_hi with
  | true, true =>
      match (2 * (A mod B) ?= B)%Z with
      | Lt => Some c_lo
      | Gt => Some c_hi
      | Eq => Some (if Z.even lo then c_lo else c_hi)
      end
  | true, false => Some c_lo
  | false, true => Some c_hi
  | false, false => None
  end.

(** The shortest digits: [k = 1, 2, ...] until a candidate reads back. *)
Fixpoint shortest_from (fuel : nat) (x : number) (n den n0 k : Z) : option (Z * Z) :=
  match fuel with
  | O => None
  | S f =>
      match digits_at x n den n0 k with
      | Some c => Some c
      | None => shortest_from f x n den n0 (k + 1)
      end
  end.

Definition decimal_length (z : Z) : Z := Z.of_nat (length (decimal z)).

(** The digits [s] and the place [p] of the last one, for [m * 2^e]:
    [s * 10^p] reads back as [m * 2^e], with as few digits as can be. *)
Definition shortest (m e : Z) : option (Z * Z) :=
  let n := scaled 2 m e in
  let den := scaled 2 1 (- e) in
  let d := (decimal_length n - decimal_length den)%Z in
  let n0 := if reaches 10 n den d then (d + 1)%Z else d in
  shortest_from (Z.to_nat (Z.max 1 (n0 + Z.max 0 (- e)))) (Finite false m e) n den n0 1.

Definition zeros (n : Z) : jsstring := repeat 48%N (Z.to_nat n).

(** The text of [s * 10^p], [s] having [k] digits and [n = p + k]. *)
Definition render (s p : Z) : jsstring :=
  let ds := decimal s in
  let k := Z.of_nat (length ds) in
  let n := (p + k)%Z in
  if (k <=? n)%Z && (n <=? 21)%Z then ds ++ zeros (n - k)
  else if (0 <? n)%Z && (n <=? 21)%Z then
    take (Z.to_nat n) ds ++ [46%N] ++ drop (Z.to_nat n) ds
  else if (-6 <? n)%Z && (n <=? 0)%Z then lit "0." ++ zeros (- n) ++ ds
  else
    match ds with
    | [] => []
    | d :: r =>
        d :: match r with
             | [] => []
             | _ :: _ => 46%N :: r
             end
        ++ [101%N] ++ (if (0 <=? n - 1)%Z then [43%N] else [45%N])
        ++ decimal (Z.abs (n - 1))
    end.

Definition Number_toString (x : number) : jsstring :=
  match x with
  | NaN => lit "NaN"
  | Infinity false => lit "Infinity"
  | Infinity true => lit "-Infinity"
  | Finite negative m e =>
      if (m <=? 0)%Z then lit "0"
      else (if negative then [45%N] else [])
           ++ match shortest m e with
              | Some (s, p) => render s p
              | None => []
              end
  end.

(** *** Reading a number *)

(** The exponent of a number, from its [e] on: its sign, its digits and
    what follows them. *)
Definition parse_exponent (s : jsstring) : option (bool * jsstring * jsstring) :=
  match s with
  | c :: r =>
      if (c =? 101)%N || (c =? 69)%N then
        match r with
        | sg :: r1 =>
            if (sg =? 43)%N || (sg =? 45)%N
            then let '(ds, rest) := span_digits r1 in Some ((sg =? 45)%N, ds, rest)
            else let '(ds, rest) := span_digits r in Some (false, ds, rest)
        | [] => Some (false, [], [])
        end
      else None
  | [] => None
  end.

(** A JSON number: an optional minus, digits without a leading zero, an
    optional fraction and an optional exponent; its value is the Number
    value for the decimal it writes. *)
Definition parse_number (s : jsstring) : option (number * jsstring) :=
  let '(negative, s1) := match after_char 45 s with
                         | Some r => (true, r)
                         | None => (false, s)
                         end in
  let '(int_digits, s2) := span_digits s1 in
  match int_digits with
  | [] => None
  | d :: ds =>
      if (d =? 48)%N && negb (bool_decide (ds = [])) then None
      else
        let frac := option_map span_digits (after_char 46 s2) in
        let s3 := match frac with Some (_, r) => r | None => s2 end in
        let exp := parse_exponent s3 in
        let s4 := match exp with Some (_, r) => r | None => s3 end in
        match frac, exp with
        | Some ([], _), _ | _, Some (_, [], _) => None
        | _, _ =>
            let fd := match frac with Some (f, _) => f | None => [] end in
            let ex := match exp with
                      | Some (true, ed, _) => (- digits_value ed)%Z
                      | Some (false, ed, _) => digits_value ed
                      | None => 0%Z
                      end in
            Some (round64_dec negative (digits_value (int_digits ++ fd))
                              (ex - Z.of_nat (length fd)), s4)
        end
  end.

(** [Number(val)] on a string that matches [/^-?\d+(\.\d+)?$/]. *)
Definition Number_of_literal (val : jsstring) : number :=
  let '(negative, s1) := match after_char 45 val with
                         | Some r => (true, r)
                         | None => (false, val)
                         end in
  let '(int_digits, s2) := span_digits s1 in
  let fd := match after_char 46 s2 with
            | Some r => (span_digits r).1
            | None => []
            end in
  round64_dec negative (digits_value (int_digits ++ fd)) (- Z.of_nat (length fd)).

(** Where a row of digits stops. *)
Definition stops (rest : jsstring) : Prop :=
  match rest with
  | [] => True
  | c :: _ => is_digit c = false
  end.

(** The parts of a number as they are written: the fraction after the
    digits, the exponent with its sign ([true] for a minus), and the value
    of the exponent. *)
Definition fraction_text (fd : jsstring) : jsstring :=
  match fd with
  | [] => []
  | _ :: _ => 46%N :: fd
  end.

Definition exponent_text (ex : option (bool * jsstring)) : jsstring :=
  match ex with
  | Some (sg, ed) => 101%N :: (if sg : bool then 45%N else 43%N) :: ed
  | None => []
  end.

Definition exponent_value (ex : option (bool * jsstring)) : Z :=
  match ex with
  | Some (true, ed) => (- digits_value ed)%Z
  | Some (false, ed) => digits_value ed
  | None => 0%Z
  end.

(** The Numbers that [JSON.stringify] writes as themselves: the finite
    ones, but for the negative zero, which it writes [0]. *)
Definition json_number (x : number) : Prop :=
  match x with
  | Finite negative m _ => negative = false \/ (0 < m)%Z
  | _ => False
  end.

(** ** JavaScript values *)

Inductive jsval : Type :=
| JUndefined
| JNull
| JBool (b : bool)
| JNum (x : number)
| JBigInt (n : Z)
| JStr (s : jsstring)
| JArr (items : list jsval)
| JObj (fields : list (jsstring * jsval))   (* a plain object, own keys in order *)
| JFun (source : jsstring).

(** [String(value)]; an array joins its elements with commas, [null] and
    [undefined] elements giving the empty string. *)
Fixpoint to_String (v : jsval) : jsstring :=
  match v with
  | JUndefined => lit "undefined"
  | JNull => lit "null"
  | JBool true => lit "true"
  | JBool false => lit "false"
  | JNum x => Number_toString x
  | JBigInt n => decimal n
  | JStr s => s
  | JArr items =>
      (fix join (l : list jsval) : jsstring :=
         match l with
         | [] => []
         | x :: r =>
             match x with
             | JUndefined | JNull => []
             | _ => to_String x
             end ++ match r with
                    | [] => []
                    | _ :: _ => lit "," ++ join r
                    end
         end) items
  | JObj _ => lit "[object Object]"
  | JFun src => src
  end.

(** [x || fallback] on strings: the empty string is falsy. *)
Definition or_else (x fallback : jsstring) : jsstring :=
  match x with
  | [] => fallback
  | _ :: _ => x
  end.

(** [safeString(value, fallback)] (index.js:55). [String(value)] cannot
    throw on the values modelled here, so the [catch] is never taken. *)
Definition safeString (value : jsval) (fallback : jsstring) : jsstring :=
  match value with
  | JStr s => s
  | JNull | JUndefined => fallback
  | _ => to_String value
  end.

(** [isPlainObject(value)] (index.js:49). *)
Definition isPlainObject (value : jsval) : bool :=
  match value with
  | JObj _ => true
  | _ => false
  end.

Definition isArray (value : jsval) : bool :=
  match value with
  | JArr _ => true
  | _ => false
  end.

(** ** [JSON.stringify(value, null, gap)] *)

Definition hex_digit (n : N) : N := if (n <? 10)%N then (48 + n)%N else (87 + n)%N.

Definition hex4 (c : N) : jsstring :=
  [hex_digit (c / 4096 mod 16); hex_digit (c / 256 mod 16);
   hex_digit (c / 16 mod 16); hex_digit (c mod 16)]%N.

Definition is_high_surrogate (c : N) : bool := ((55296 <=? c) && (c <=? 56319))%N.
Definition is_low_surrogate (c : N) : bool := ((56320 <=? c) && (c <=? 57343))%N.

Definition unicode_escape (c : N) : jsstring := lit "\u" ++ hex4 c.

(** One code unit of QuoteJSONString, surrogates apart. *)
Definition escape_unit (c : N) : jsstring :=
  if (c =? 8)%N then lit "\b"
  else if (c =? 9)%N then lit "\t"
  else if (c =? 10)%N then lit "\n"
  else if (c =? 12)%N then lit "\f"
  else if (c =? 13)%N then lit "\r"
  else if (c =? 34)%N then [92; 34]%N
  else if (c =? 92)%N then [92; 92]%N
  else if (c <? 32)%N || is_low_surrogate c then unicode_escape c
  else [c].

Fixpoint quote_body (s : jsstring) : jsstring :=
  match s with
  | [] => []
  | c :: r =>
      if is_high_surrogate c then
        match r with
        | d :: r' =>
            if is_low_surrogate d then c :: d :: quote_body r'
            else unicode_escape c ++ quote_body r
        | [] => unicode_escape c
        end
      else escape_unit c ++ quote_body r
  end.

Definition JSON_quote (s : jsstring) : jsstring := [34%N] ++ quote_body s ++ [34%N].

Inductive serialized : Type :=
| SerStr (s : jsstring)
| SerUndefined
| SerThrow.

Definition spaces (n : nat) : jsstring := repeat 32%N n.

Fixpoint join_with (sep : jsstring) (parts : list jsstring) : jsstring :=
  match parts with
  | [] => []
  | [p] => p
  | p :: r => p ++ sep ++ join_with sep r
  end.

Definition wrap_members (gap indent : nat) (open close : N) (parts : list jsstring) : jsstring :=
  match parts with
  | [] => [open; close]
  | _ :: _ =>
      match gap with
      | O => [open] ++ join_with [44%N] parts ++ [close]
      | S _ =>
          [open; 10%N] ++ spaces (indent + gap)
          ++ join_with ([44%N; 10%N] ++ spaces (indent + gap)) parts
          ++ [10%N] ++ spaces indent ++ [close]
      end
  end.

Section SerializeStructures.
Context (ser : jsval -> serialized) (gap : nat).

(** The elements of an array: [undefined] and functions are written
    [null]. *)
Fixpoint ser_elements (l : list jsval) : option (list jsstring) :=
  match l with
  | [] => Some []
  | x :: r =>
      match ser x with
      | SerThrow => None
      | SerUndefined => option_map (cons (lit "null")) (ser_elements r)
      | SerStr s => option_map (cons s) (ser_elements r)
      end
  end.

(** The members of an object: those whose value is [undefined] or a
    function are left out. *)
Fixpoint ser_members (l : list (jsstring * jsval)) : option (list jsstring) :=
  match l with
  | [] => Some []
  | (k, x) :: r =>
      match ser x with
      | SerThrow => None
      | SerUndefined => ser_members r
      | SerStr s =>
          option_map
            (cons (JSON_quote k ++ [58%N]
                   ++ match gap with O => [] | S _ => [32%N] end ++ s))
            (ser_members r)
      end
  end.

End SerializeStructures.

(** SerializeJSONProperty: [indent] is the current indentation, [gap] the
    width of one level. The step that calls the [toJSON] method of a value
    is not written: the text is that of JavaScript for the values in which
    no object has a [toJSON] function of its own. *)
Fixpoint serialize (gap indent : nat) (v : jsval) : serialized :=
  match v with
  | JUndefined | JFun _ => SerUndefined
  | JNull => SerStr (lit "null")
  | JBool true => SerStr (lit "true")
  | JBool false => SerStr (lit "false")
  | JNum (Finite _ _ _ as x) => SerStr (Number_toString x)
  | JNum _ => SerStr (lit "null")
  | JBigInt _ => SerThrow
  | JStr s => SerStr (JSON_quote s)
  | JArr items =>
      match ser_elements (serialize gap (indent + gap)) items with
      | None => SerThrow
      | Some parts => SerStr (wrap_members gap indent 91%N 93%N parts)
      end
  | JObj fields =>
      match ser_members (serialize gap (indent + gap)) gap fields with
      | None => SerThrow
      | Some parts => SerStr (wrap_members gap indent 123%N 125%N parts)
      end
  end.

Definition JSON_stringify (gap : nat) (v : jsval) : serialized := serialize gap 0 v.

(** [safeJsonStringify(value)] (index.js:65); [None] is [undefined]. *)
Definition safeJsonStringify (value : jsval) : option jsstring :=
  match JSON_stringify 2 value with
  | SerStr s => Some s
  | SerUndefined => None
  | SerThrow => Some (safeString value [])
  end.

(** ** Skills, faults and the registry (index.js:303-365) *)

(** What a handler can throw or reject with: an [Error] instance with its
    [name], [message] and [stack] (empty when absent), or any other value. *)
Inductive fault : Type :=
| ErrorObject (name message stack : jsstring)
| Thrown (v : jsval).

Record action_ctx : Type := mkCtx {
  ctx_name : jsstring;
  ctx_args : jsval;
  ctx_rawArgs : jsstring
}.

(** How a call of [skill.action(ctx)] ends: with a value, with a
    synchronous throw, with a rejected promise, or never. *)
Inductive outcome : Type :=
| Returns (v : jsval)
| Throws (e : fault)
| Rejects (e : fault)
| Hangs.

Record skill : Type := mkSkill {
  name : jsstring;
  description : jsstring;
  action : action_ctx -> outcome;
  enabled : bool
}.

(** The [CallRequest] built by [extractFirstCall]. *)
Record call : Type := mkCall {
  skillName : jsstring;
  args : jsval;
  rawArgs : jsstring;
  rawTag : jsstring
}.

(** The fields that [normalizeConfig] reads from a plain object
    ([JUndefined] for a missing one), [cfg_action] being the function when
    [typeof cfg.action === 'function']. *)
Record skillConfig : Type := mkConfig {
  cfg_name : jsval;
  cfg_description : jsval;
  cfg_action : option (action_ctx -> outcome);
  cfg_enabled : jsval
}.

Definition empty_config : skillConfig := mkConfig JUndefined JUndefined None JUndefined.

Definition no_action : action_ctx -> outcome :=
  fun _ => Returns (JObj [(lit "ok", JBool false);
                          (lit "error", JStr (lit "No action() provided for this skill."))]).

(** What [normalizeConfig] finds when it reads its argument: the fields
    of a plain object ([None] for anything that is not one), or the
    exception that the reading throws: [Object.getPrototypeOf] on a revoked
    proxy, a getter or a proxy trap behind one of the four properties. *)
Inductive register_arg : Type :=
| Reads (skillConfig : option skillConfig)
| Unreadable (err : fault).

(** [normalizeConfig(skillConfig)] (index.js:306), [t] being [nowMs()];
    [inl] when it throws. *)
Definition normalizeConfig (arg : register_arg) (t : Z) : fault + skill :=
  match arg with
  | Unreadable err => inl err
  | Reads skillConfig =>
      let cfg := default empty_config skillConfig in
      let n := trim (safeString (cfg_name cfg) []) in
      let n := match n with
               | [] => lit "unnamed_" ++ decimal (t / 1000)
               | _ :: _ => n
               end in
      let d := or_else (trim (safeString (cfg_description cfg) [])) (lit "(no description)") in
      let a := default no_action (cfg_action cfg) in
      let en := match cfg_enabled cfg with
                | JBool b => b
                | _ => true
                end in
      inr (mkSkill n d a en)
  end.

(** [register(skillConfig)] (index.js:331): the registry after the call
    and what it returns, the name or, from the [catch], [null] ([None]). *)
Definition register (arg : register_arg) (t : Z) (reg : gmap jsstring skill)
  : gmap jsstring skill * option jsstring :=
  match normalizeConfig arg t with
  | inr normalized => (<[name normalized := normalized]> reg, Some (name normalized))
  | inl _ => (reg, None)
  end.

(** [registry.get] and [registry.remove]. *)
Definition registry_get (n : jsstring) (reg : gmap jsstring skill) : option skill :=
  reg !! n.

Definition registry_remove (n : jsstring) (reg : gmap jsstring skill)
  : gmap jsstring skill := delete n reg.

(** ** The circuit breaker (index.js:1232-1244) *)

Definition WINDOW_MS : Z := 30000.
Definition MAX_CALLS_PER_WINDOW : nat := 5.

(** The [while] loop of [bumpCircuitBreaker]: shift the head while it is
    older than the window. *)
Fixpoint prune (t : Z) (ts : list Z) : list Z :=
  match ts with
  | [] => []
  | x :: r => if (WINDOW_MS <? t - x)%Z then prune t r else ts
  end.

(** [bumpCircuitBreaker()] at time [t]: the new [recentCallTimestamps] and
    the returned count. *)
Definition bumpCircuitBreaker (t : Z) (ts : list Z) : list Z * nat :=
  let ts' := prune t (ts ++ [t]) in (ts', length ts').

(** ** The engine's effects *)

Record notice : Type := mkNotice {
  title : jsstring;
  subtitle : jsstring;
  level : jsstring;
  timeoutMs : Z
}.

(** The operations [runSkill] performs on the rest of the program. *)
Inductive op : Type -> Type :=
| Bump : op nat                                   (* bumpCircuitBreaker() *)
| RegistryGet (n : jsstring) : op (option skill)  (* registry.get(name) *)
| UiShow (n : notice) : op unit                   (* ui.show({...}) *)
| Dispose : op unit                               (* dispose?.() *)
| AddSystemMessage (text : jsstring) : op unit    (* await stApi.api.addSystemMessage?.(text) *)
| Action (sk : skill) (ctx : action_ctx) : op jsval  (* await skill.action(ctx) *)
| TriggerGenerate : op unit.                      (* await stApi.api.triggerGenerate?.() *)

(** A computation that performs operations, returns or throws. *)
Inductive prog (A : Type) : Type :=
| Ret (a : A)
| Raise (e : fault)
| Vis (X : Type) (o : op X) (k : fault + X -> prog A).

Arguments Ret {A} a.
Arguments Raise {A} e.
Arguments Vis {A X} o k.

Fixpoint bind {A B : Type} (p : prog A) (f : A -> prog B) : prog B :=
  match p with
  | Ret a => f a
  | Raise e => Raise e
  | Vis o k => Vis o (fun r => bind (k r) f)
  end.

Definition perform {X : Type} (o : op X) : prog X :=
  Vis o (fun r => match r with inl e => Raise e | inr x => Ret x end).

(** [try { p } catch (err) { h err }]. *)
Fixpoint try_catch {A : Type} (p : prog A) (h : fault -> prog A) : prog A :=
  match p with
  | Ret a => Ret a
  | Raise e => h e
  | Vis o k => Vis o (fun r => try_catch (k r) h)
  end.

(** [try { p } finally { f }]. *)
Fixpoint finally {A : Type} (p : prog A) (f : prog unit) : prog A :=
  match p with
  | Ret a => bind f (fun _ => Ret a)
  | Raise e => bind f (fun _ => Raise e)
  | Vis o k => Vis o (fun r => finally (k r) f)
  end.

#[global] Instance prog_ret : MRet prog := @Ret.
#[global] Instance prog_bind : MBind prog := fun A B f p => bind p f.

(** ** [runSkill] (index.js:1246-1336) *)

Definition window_seconds : jsstring := decimal (WINDOW_MS / 1000).

Definition breaker_notice : notice :=
  {| title := lit "Skill loop detected";
     subtitle := lit "Blocked after " ++ decimal (Z.of_nat MAX_CALLS_PER_WINDOW)
                 ++ lit " calls / " ++ window_seconds ++ lit "s";
     level := lit "error";
     timeoutMs := 4200 |}.

Definition breaker_message (count : nat) : jsstring :=
  lit "st-agentskills: Circuit breaker triggered. The model called skills too frequently ("
  ++ decimal (Z.of_nat count) ++ lit " calls within " ++ window_seconds
  ++ lit "s). Further calls are blocked to prevent infinite loops.".

Definition not_found_notice (found : bool) (skillName : jsstring) : notice :=
  {| title := lit "Skill not found";
     subtitle := if found then skillName ++ lit " is disabled" else skillName;
     level := lit "error";
     timeoutMs := 2400 |}.

Definition not_found_message (skillName : jsstring) : jsstring :=
  lit "Skill call failed: " ++ [34%N] ++ skillName ++ [34%N]
  ++ lit " is not registered or not enabled.".

Definition executing_notice (skillName : jsstring) : notice :=
  {| title := lit "Skill executing" ++ [8230%N];
     subtitle := skillName;
     level := lit "info";
     timeoutMs := 0 |}.

Definition failed_notice (skillName : jsstring) : notice :=
  {| title := lit "Skill failed";
     subtitle := skillName;
     level := lit "error";
     timeoutMs := 4200 |}.

(** The payload of a returned value (index.js:1293-1298); [None] is
    [undefined]. *)
Definition payload_of (result : jsval) : option jsstring :=
  match result with
  | JStr s => Some s
  | _ =>
      if isPlainObject result || isArray result then safeJsonStringify result
      else Some (safeString result [])
  end.

Definition lines3 (a b c : jsstring) : jsstring := a ++ [10%N] ++ b ++ [10%N] ++ c.

Definition empty_result_marker : jsstring := lit "(empty result)".

(** [payload || '(empty result)'] (index.js:1304). *)
Definition delivered_payload (result : jsval) : jsstring :=
  match payload_of result with
  | Some p => or_else p empty_result_marker
  | None => empty_result_marker
  end.

Definition result_message (skillName : jsstring) (result : jsval) : jsstring :=
  lines3 (lit "Skill result: " ++ skillName) (lit "---") (delivered_payload result).

(** The text of the [catch] block (index.js:1312-1315). *)
Definition errorText (err : fault) : jsstring :=
  match err with
  | ErrorObject n m stack => trim (n ++ lit ": " ++ m ++ [10%N] ++ stack)
  | Thrown v => safeString v []
  end.

Definition failure_message (skillName : jsstring) (err : fault) : jsstring :=
  lines3 (lit "Skill execution failed: " ++ skillName) (lit "---")
         (or_else (errorText err) (lit "(unknown error)")).

(** The part of [runSkill] behind the breaker: the registry lookup and the
    isolated call of the handler (index.js:1264-1335). *)
Definition lookup_and_execute (c : call) : prog unit :=
  sk ← perform (RegistryGet (skillName c));
  match sk with
  | Some s =>
      if enabled s then
        perform (UiShow (executing_notice (skillName c)));;
        finally
          (try_catch
             (result ← perform (Action s (mkCtx (skillName c) (args c) (rawArgs c)));
              perform (AddSystemMessage (result_message (skillName c) result));;
              perform TriggerGenerate)
             (fun err =>
                perform (UiShow (failed_notice (skillName c)));;
                perform (AddSystemMessage (failure_message (skillName c) err))))
          (try_catch (perform Dispose) (fun _ => Ret tt))
      else
        perform (UiShow (not_found_notice true (skillName c)));;
        perform (AddSystemMessage (not_found_message (skillName c)))
  | None =>
      perform (UiShow (not_found_notice false (skillName c)));;
      perform (AddSystemMessage (not_found_message (skillName c)))
  end.

Definition runSkill (c : call) : prog unit :=
  count ← perform Bump;
  if (MAX_CALLS_PER_WINDOW <? count)%nat then
    perform (UiShow breaker_notice);;
    perform (AddSystemMessage (breaker_message count))
  else
    lookup_and_execute c.

(** ** The environment of the engine *)

(** What an observer of the engine sees. *)
Inductive event : Type :=
| EEnqueue (c : call)                    (* engine.enqueue(call) *)
| EStart (c : call)                      (* the lane calls runSkill(call) *)
| EEnd (c : call) (fulfilled : bool)     (* the promise of runSkill(call) settles *)
| ESkip (c : call)                       (* a then-callback skipped by a rejection *)
| ELogError                              (* safeConsole.error('Engine failure (ignored)') *)
| EBump (t : Z) (count : nat)            (* a timestamp pushed, the count returned *)
| EUi (n : notice)                       (* a toast shown *)
| EDispose                               (* the 'executing' toast removed *)
| EMessage (text : jsstring)             (* stApi.api.addSystemMessage(text) *)
| EInvoke (sk : jsstring) (ctx : action_ctx)   (* skill.action(ctx) called *)
| EGenerate.                             (* stApi.api.triggerGenerate() *)

(** The one collaborator of [runSkill] that is not guarded by a [try]: the
    toast layer. [ui_fault n] is the exception [ui.show n] throws, if any. *)
Record host : Type := mkHost {
  ui_fault : notice -> option fault
}.

(** [ui.show] of index.js:111 reaches the DOM only behind its guards and
    always returns a disposer. *)
Definition index_ui : host := {| ui_fault := fun _ => None |}.

Record env : Type := mkEnv {
  now : Z;                               (* what nowMs() returns *)
  recentCallTimestamps : list Z;
  skills : gmap jsstring skill
}.

(** The answer to an operation: at once, after a suspension ([await]), or
    never (a handler whose promise never settles). *)
Inductive response (X : Type) : Type :=
| Now (r : fault + X)
| Later (r : fault + X)
| Never.

Arguments Now {X} r.
Arguments Later {X} r.
Arguments Never {X}.

Definition do_op (h : host) (e : env) {X : Type} (o : op X)
  : env * list event * response X :=
  match o in op X return env * list event * response X with
  | Bump =>
      let '(ts, count) := bumpCircuitBreaker (now e) (recentCallTimestamps e) in
      (mkEnv (now e) ts (skills e), [EBump (now e) count], Now (inr count))
  | RegistryGet n => (e, [], Now (inr (skills e !! n)))
  | UiShow n =>
      match ui_fault h n with
      | Some f => (e, [], Now (inl f))
      | None => (e, [EUi n], Now (inr tt))
      end
  | Dispose => (e, [EDispose], Now (inr tt))
  | AddSystemMessage text => (e, [EMessage text], Later (inr tt))
  | Action sk ctx =>
      (e, [EInvoke (name sk) ctx],
       match action sk ctx with
       | Returns v => Later (inr v)
       | Throws f => Now (inl f)
       | Rejects f => Later (inl f)
       | Hangs => Never
       end)
  | TriggerGenerate => (e, [EGenerate], Later (inr tt))
  end.

(** Run a computation to its end, whatever the suspensions; [None] when a
    handler never settles. *)
Fixpoint exec {A : Type} (h : host) (e : env) (p : prog A)
  : env * list event * option (fault + A) :=
  match p with
  | Ret a => (e, [], Some (inr a))
  | Raise f => (e, [], Some (inl f))
  | Vis o k =>
      let '(e', evs, r) := do_op h e o in
      match r with
      | Now r | Later r =>
          let '(e'', evs', res) := exec h e' (k r) in (e'', evs ++ evs', res)
      | Never => (e', evs, None)
      end
  end.

(** Where a computation stands after running up to its next suspension. *)
Inductive status : Type :=
| Finished (r : fault + unit)
| Suspended (rest : prog unit)
| Stalled.

Fixpoint advance (h : host) (e : env) (p : prog unit) : env * list event * status :=
  match p with
  | Ret a => (e, [], Finished (inr a))
  | Raise f => (e, [], Finished (inl f))
  | Vis o k =>
      let '(e', evs, r) := do_op h e o in
      match r with
      | Now r =>
          let '(e'', evs', st) := advance h e' (k r) in (e'', evs ++ evs', st)
      | Later r => (e', evs, Suspended (k r))
      | Never => (e', evs, Stalled)
      end
  end.

(** ** Invocation attempts in sequence *)

Definition at_time (t : Z) (e : env) : env :=
  mkEnv t (recentCallTimestamps e) (skills e).

(** [runSkill] run to its end for each attempt in turn, the clock showing
    the attempt's time: the events of every attempt and the final
    environment. *)
Fixpoint run_attempts (h : host) (e : env) (l : list (Z * call))
  : list (list event) * env :=
  match l with
  | [] => ([], e)
  | (t, c) :: r =>
      let '(e', evs, _) := exec h (at_time t e) (runSkill c) in
      let '(trs, e'') := run_attempts h e' r in
      (evs :: trs, e'')
  end.

(** What a refused attempt does: the toast and the breaker notice, and
    nothing else. *)
Definition blocked_trace (t : Z) (count : nat) : list event :=
  [EBump t count; EUi breaker_notice; EMessage (breaker_message count)].

(** What a permitted attempt does: the lookup and execution of the call,
    in the environment the breaker leaves. *)
Definition permitted_trace (h : host) (t : Z) (ts : list Z)
  (reg : gmap jsstring skill) (c : call) : list event :=
  EBump t (length ts) :: (exec h (mkEnv t ts reg) (lookup_and_execute c)).1.2.

(** The events of one attempt, from the state the breaker leaves. *)
Definition attempt_trace (t : Z) (ts : list Z) (reg : gmap jsstring skill) (c : call)
  : list event :=
  if (MAX_CALLS_PER_WINDOW <? length ts)%nat then blocked_trace t (length ts)
  else permitted_trace index_ui t ts reg c.

(** The timestamps of [times] that an attempt at time [t] still counts:
    those not older than the window. *)
Definition window_of (t : Z) (times : list Z) : list Z :=
  filter (fun x => (t - x <= WINDOW_MS)%Z) times.

(** ** The result contract as the specification words it

    "string passes through; structured values are serialized to text;
    undefined/null becomes an explicit empty-result marker". [None] where
    the sentence says nothing. *)
Definition claimed_payload (result : jsval) : option jsstring :=
  match result with
  | JStr s => Some s
  | JUndefined | JNull => Some empty_result_marker
  | JObj _ | JArr _ => safeJsonStringify result
  | _ => None
  end.

(** The invocation of [c] reaches the handler of [s]: the breaker lets it
    through and [s] is the enabled skill registered under its name. *)
Definition reaches_handler (e : env) (c : call) (s : skill) : Prop :=
  (length (prune (now e) (recentCallTimestamps e ++ [now e])) <= MAX_CALLS_PER_WINDOW)%nat
  /\ skills e !! skillName c = Some s
  /\ enabled s = true.

Definition ctx_of (c : call) : action_ctx := mkCtx (skillName c) (args c) (rawArgs c).

(** The success half of the result contract, as the specification words
    it. *)
Definition success_contract_as_stated : Prop :=
  forall (e : env) (c : call) (s : skill) (v : jsval) (p : jsstring),
    reaches_handler e c s ->
    action s (ctx_of c) = Returns v ->
    claimed_payload v = Some p ->
    EMessage (lines3 (lit "Skill result: " ++ skillName c) (lit "---") p)
      ∈ (exec index_ui e (runSkill c)).1.2.

(** ** Scenarios *)

(** The handler of the specification's scenario: it answers "Hello, X!". *)
Definition hello_skill : skill :=
  mkSkill (lit "hello") (lit "(no description)")
          (fun _ => Returns (JStr (lit "Hello, X!"))) true.

(** A handler that returns the empty string. *)
Definition silent_skill : skill :=
  mkSkill (lit "silent") (lit "(no description)") (fun _ => Returns (JStr [])) true.

(** A handler that throws a [TypeError]. *)
Definition broken_skill : skill :=
  mkSkill (lit "broken") (lit "(no description)")
          (fun _ => Throws (ErrorObject (lit "TypeError") (lit "boom") [])) true.

Definition demo_registry : gmap jsstring skill :=
  <[lit "hello" := hello_skill]>
    (<[lit "silent" := silent_skill]> (<[lit "broken" := broken_skill]> ∅)).

Definition call_of (n : string) : call := mkCall (lit n) (JObj []) (lit "{}") [].

(** A name is blank when trimming leaves nothing of it. *)
Definition blank_name (skillConfig : option skillConfig) : Prop :=
  trim (safeString (cfg_name (default empty_config skillConfig)) []) = [].

(** "Registering a skill with a blank name yields a non-blank, unique
    effective name", as the specification words it: a later blank-name
    registration never returns the name of an earlier one. *)
Definition generated_names_unique_as_stated : Prop :=
  forall (reg : gmap jsstring skill) (cfg1 cfg2 : option skillConfig) (t1 t2 : Z),
    blank_name cfg1 -> blank_name cfg2 -> (t1 <= t2)%Z ->
    (register (Reads cfg2) t2 (register (Reads cfg1) t1 reg).1).2
    <> (register (Reads cfg1) t1 reg).2.

(** ** The execution lane (index.js:1230, 1338-1345)

    [queue] is a promise built by [queue.then(() => runSkill(call))
    .catch(err => ...)]. A promise is modelled by the expression that built
    it, each node carrying its state. *)

Inductive then_state : Type :=
| TWaiting                     (* the callback has not been called *)
| TRunning (rest : prog unit)  (* runSkill is suspended at an await *)
| TStalled                     (* runSkill awaits a promise that never settles *)
| TFulfilled                   (* runSkill returned *)
| TRejected                    (* runSkill threw *)
| TSkipped.                    (* the parent was rejected: the callback is never called *)

Inductive promise : Type :=
| PResolved                                         (* Promise.resolve() *)
| PThen (p : promise) (c : call) (st : then_state)   (* p.then(() => runSkill(c)) *)
| PCatch (p : promise) (settled : bool).             (* p.catch(err => safeConsole.error(...)) *)

(** [Some true] for fulfilled, [Some false] for rejected, [None] for
    pending. The handler of [catch] only logs, behind its own [try], so a
    [catch] promise is never rejected. *)
Definition settled (q : promise) : option bool :=
  match q with
  | PResolved => Some true
  | PThen _ _ TFulfilled => Some true
  | PThen _ _ (TRejected | TSkipped) => Some false
  | PThen _ _ _ => None
  | PCatch _ true => Some true
  | PCatch _ false => None
  end.

(** [enqueue(call)] (index.js:1338). *)
Definition enqueue (c : call) (queue : promise) : promise :=
  PCatch (PThen queue c TWaiting) false.

Definition state_of (s : status) : then_state :=
  match s with
  | Finished (inr _) => TFulfilled
  | Finished (inl _) => TRejected
  | Suspended rest => TRunning rest
  | Stalled => TStalled
  end.

Definition end_events (c : call) (s : status) : list event :=
  match s with
  | Finished (inr _) => [EEnd c true]
  | Finished (inl _) => [EEnd c false]
  | _ => []
  end.

(** One turn of the event loop on the lane: the innermost reaction that
    can run does. A [then] callback runs when its parent is fulfilled and
    is skipped when it is rejected; a suspended [runSkill] resumes; a
    [catch] settles once its parent has. [None] when nothing can run. *)
Fixpoint lane_step (h : host) (e : env) (q : promise)
  : option (env * list event * promise) :=
  match q with
  | PResolved => None
  | PThen p c st =>
      match settled p with
      | None =>
          match lane_step h e p with
          | Some (e', evs, p') => Some (e', evs, PThen p' c st)
          | None => None
          end
      | Some true =>
          match st with
          | TWaiting =>
              let '(e', evs, s) := advance h e (runSkill c) in
              Some (e', EStart c :: evs ++ end_events c s, PThen p c (state_of s))
          | TRunning rest =>
              let '(e', evs, s) := advance h e rest in
              Some (e', evs ++ end_events c s, PThen p c (state_of s))
          | _ => None
          end
      | Some false =>
          match st with
          | TWaiting => Some (e, [ESkip c], PThen p c TSkipped)
          | _ => None
          end
      end
  | PCatch p b =>
      match settled p with
      | None =>
          match lane_step h e p with
          | Some (e', evs, p') => Some (e', evs, PCatch p' b)
          | None => None
          end
      | Some ok =>
          if b then None
          else Some (e, if ok then [] else [ELogError], PCatch p true)
      end
  end.

Record world : Type := mkWorld {
  w_env : env;
  queue : promise
}.

(** What the rest of the page does between two turns of the lane. *)
Inductive external : Type :=
| XEnqueue (c : call)                          (* a MESSAGE_RECEIVED with a call tag *)
| XClock (t : Z)                               (* time passes (or the clock is set) *)
| XRegister (arg : register_arg)               (* window.STAgentSkills.register(...) *)
| XRemove (n : jsstring).                      (* registry.remove(name) *)

Definition apply_external (x : external) (w : world) : world :=
  let e := w_env w in
  match x with
  | XEnqueue c => mkWorld e (enqueue c (queue w))
  | XClock t => mkWorld (at_time t e) (queue w)
  | XRegister arg =>
      mkWorld (mkEnv (now e) (recentCallTimestamps e) (register arg (now e) (skills e)).1)
              (queue w)
  | XRemove n =>
      mkWorld (mkEnv (now e) (recentCallTimestamps e) (registry_remove n (skills e)))
              (queue w)
  end.

Definition external_events (x : external) : list event :=
  match x with
  | XEnqueue c => [EEnqueue c]
  | _ => []
  end.

Inductive step (h : host) : world -> list event -> world -> Prop :=
| step_external (x : external) (w : world) :
    step h w (external_events x) (apply_external x w)
| step_lane (w : world) (e' : env) (evs : list event) (q' : promise) :
    lane_step h (w_env w) (queue w) = Some (e', evs, q') ->
    step h w evs (mkWorld e' q').

(** Executions: any interleaving of external events and lane turns. *)
Inductive steps (h : host) : world -> list event -> world -> Prop :=
| steps_refl (w : world) : steps h w [] w
| steps_snoc (w w' w'' : world) (tr evs : list event) :
    steps h w tr w' -> step h w' evs w'' -> steps h w (tr ++ evs) w''.

(** Turns of the lane alone. *)
Inductive lane_run (h : host) : world -> list event -> world -> Prop :=
| lane_run_refl (w : world) : lane_run h w [] w
| lane_run_step (w w'' : world) (e' : env) (evs tr : list event) (q' : promise) :
    lane_step h (w_env w) (queue w) = Some (e', evs, q') ->
    lane_run h (mkWorld e' q') tr w'' ->
    lane_run h w (evs ++ tr) w''.

(** The engine when the script is loaded, the clock showing [t0]. *)
Definition init (t0 : Z) : world := mkWorld (mkEnv t0 [] ∅) PResolved.

(** A schedule, for running the engine: external events and lane turns in
    a given order. *)
Inductive turn : Type :=
| External (x : external)
| Lane.

Fixpoint run_schedule (h : host) (sched : list turn) (w : world)
  : world * list event :=
  match sched with
  | [] => (w, [])
  | External x :: r =>
      let '(w', tr) := run_schedule h r (apply_external x w) in
      (w', external_events x ++ tr)
  | Lane :: r =>
      match lane_step h (w_env w) (queue w) with
      | Some (e', evs, q') =>
          let '(w', tr) := run_schedule h r (mkWorld e' q') in (w', evs ++ tr)
      | None => run_schedule h r w
      end
  end.

(** *** Reading a trace *)

Definition enqueued (tr : list event) : list call :=
  omap (fun ev => match ev with EEnqueue c => Some c | _ => None end) tr.

Definition started (tr : list event) : list call :=
  omap (fun ev => match ev with EStart c => Some c | _ => None end) tr.

Definition ended (tr : list event) : list call :=
  omap (fun ev => match ev with EEnd c _ => Some c | _ => None end) tr.

Definition skipped (tr : list event) : list call :=
  omap (fun ev => match ev with ESkip c => Some c | _ => None end) tr.

(** [serial_from busy tr final]: read from a lane that is running [busy],
    the trace [tr] never starts an invocation while another is running,
    ends only the one that is running, has every event of a handler body
    inside an invocation, and leaves the lane running [final]. *)
Fixpoint serial_from (busy : option call) (tr : list event) (final : option call) : Prop :=
  match tr with
  | [] => busy = final
  | EStart c :: r => busy = None /\ serial_from (Some c) r final
  | EEnd c _ :: r => busy = Some c /\ serial_from None r final
  | (EBump _ _ | EUi _ | EDispose | EMessage _ | EInvoke _ _ | EGenerate) :: r =>
      busy <> None /\ serial_from busy r final
  | (EEnqueue _ | ESkip _ | ELogError) :: r => serial_from busy r final
  end.

(** No two invocations overlap in [tr]. *)
Definition serial (tr : list event) : Prop := exists final, serial_from None tr final.

(** *** Reading the lane *)

Fixpoint calls (q : promise) : list call :=
  match q with
  | PResolved => []
  | PThen p c _ => calls p ++ [c]
  | PCatch p _ => calls p
  end.

Fixpoint started_calls (q : promise) : list call :=
  match q with
  | PResolved => []
  | PThen p c TWaiting => started_calls p
  | PThen p c _ => started_calls p ++ [c]
  | PCatch p _ => started_calls p
  end.

Fixpoint ended_calls (q : promise) : list call :=
  match q with
  | PResolved => []
  | PThen p c (TFulfilled | TRejected) => ended_calls p ++ [c]
  | PThen p c _ => ended_calls p
  | PCatch p _ => ended_calls p
  end.

Fixpoint active (q : promise) : option call :=
  match q with
  | PResolved => None
  | PThen p c (TRunning _ | TStalled) => Some c
  | PThen p c _ => active p
  | PCatch p _ => active p
  end.

(** The shape of a lane built by [enqueue] alone, and what its states can
    be: behind a link that has not settled nothing has started. *)
Fixpoint lane_ok (q : promise) : Prop :=
  match q with
  | PResolved => True
  | PCatch (PThen p c st) b =>
      lane_ok p
      /\ st <> TSkipped
      /\ match settled p with
         | Some true => b = true -> st = TFulfilled \/ st = TRejected
         | _ => st = TWaiting /\ b = false
         end
  | _ => False
  end.

(** The events of a handler body. *)
Definition is_body (ev : event) : Prop :=
  match ev with
  | EBump _ _ | EUi _ | EDispose | EMessage _ | EInvoke _ _ | EGenerate => True
  | _ => False
  end.

(** A toast layer that never throws, as the one of index.js. *)
Definition ui_works (h : host) : Prop := forall n, ui_fault h n = None.

Definition is_ok (r : fault + unit) : bool :=
  match r with
  | inr _ => true
  | inl _ => false
  end.

(** What the lane's [catch] does once [runSkill] has settled. *)
Definition catch_events (r : fault + unit) : list event :=
  if is_ok r then [] else [ELogError].

(** Turns of the lane until nothing can run, [fuel] at most. *)
Fixpoint drain (h : host) (fuel : nat) (w : world) : world * list event :=
  match fuel with
  | O => (w, [])
  | S n =>
      match lane_step h (w_env w) (queue w) with
      | Some (e', evs, q') =>
          let '(w', tr) := drain h n (mkWorld e' q') in (w', evs ++ tr)
      | None => (w, [])
      end
  end.

(** ** [JSON.parse] *)

Definition is_json_ws (c : N) : bool :=
  ((c =? 32) || (c =? 9) || (c =? 10) || (c =? 13))%N.

Fixpoint skip_ws (s : jsstring) : jsstring :=
  match s with
  | c :: r => if is_json_ws c then skip_ws r else s
  | [] => []
  end.

Definition hex_val (c : N) : option N :=
  if is_digit c then Some (c - 48)%N
  else if ((97 <=? c) && (c <=? 102))%N then Some (c - 87)%N
  else if ((65 <=? c) && (c <=? 70))%N then Some (c - 55)%N
  else None.

Definition hex4_val (a b c d : N) : option N :=
  match hex_val a, hex_val b, hex_val c, hex_val d with
  | Some x, Some y, Some z, Some w => Some (x * 4096 + y * 256 + z * 16 + w)%N
  | _, _, _, _ => None
  end.

(** The character a one-letter escape stands for. *)
Definition unescape (e : N) : option N :=
  if (e =? 34)%N then Some 34%N
  else if (e =? 92)%N then Some 92%N
  else if (e =? 47)%N then Some 47%N
  else if (e =? 98)%N then Some 8%N
  else if (e =? 102)%N then Some 12%N
  else if (e =? 110)%N then Some 10%N
  else if (e =? 114)%N then Some 13%N
  else if (e =? 116)%N then Some 9%N
  else None.

Definition cons_char (c : N) (r : option (jsstring * jsstring))
  : option (jsstring * jsstring) :=
  match r with
  | Some (s, rest) => Some (c :: s, rest)
  | None => None
  end.

(** The characters of a string literal after its opening quote, up to and
    including the closing quote: the string and what follows it. *)
Fixpoint parse_string_body (s : jsstring) : option (jsstring * jsstring) :=
  match s with
  | [] => None
  | c :: r =>
      if (c =? 34)%N then Some ([], r)
      else if (c =? 92)%N then
        match r with
        | e :: r' =>
            if (e =? 117)%N then
              match r' with
              | h1 :: h2 :: h3 :: h4 :: r'' =>
                  match hex4_val h1 h2 h3 h4 with
                  | Some u => cons_char u (parse_string_body r'')
                  | None => None
                  end
              | _ => None
              end
            else
              match unescape e with
              | Some u => cons_char u (parse_string_body r')
              | None => None
              end
        | [] => None
        end
      else if (c <? 32)%N then None
      else cons_char c (parse_string_body r)
  end.

(** An array index: the decimal writing, without a leading zero, of an
    integer below 2^32 - 1. *)
Definition array_index (k : jsstring) : option Z :=
  match k with
  | [] => None
  | c :: r =>
      if forallb is_digit k && negb ((c =? 48)%N && negb (bool_decide (r = [])))
      then if (digits_value k <? 4294967295)%Z then Some (digits_value k) else None
      else None
  end.

(** Whether a key comes before another when the properties of an object
    are enumerated, whatever the order of their creation: an array index
    comes before a greater one and before every other key. *)
Definition enumerated_before (k k' : jsstring) : bool :=
  match array_index k, array_index k' with
  | Some i, Some i' => (i <? i')%Z
  | Some _, None => true
  | None, _ => false
  end.

(** The value of an own property. *)
Definition own_property (k : jsstring) (fields : list (jsstring * jsval)) : option jsval :=
  snd <$> List.find (fun f => bool_decide (f.1 = k)) fields.

Fixpoint obj_replace (k : jsstring) (v : jsval) (fields : list (jsstring * jsval))
  : list (jsstring * jsval) :=
  match fields with
  | [] => []
  | (k', v') :: r =>
      if bool_decide (k' = k) then (k, v) :: r else (k', v') :: obj_replace k v r
  end.

Fixpoint obj_insert (k : jsstring) (v : jsval) (fields : list (jsstring * jsval))
  : list (jsstring * jsval) :=
  match fields with
  | [] => [(k, v)]
  | (k', v') :: r =>
      if enumerated_before k k' then (k, v) :: fields else (k', v') :: obj_insert k v r
  end.

(** Defining or assigning the data property [key] of an object: a
    property that is there keeps its place and takes the new value, a new
    one takes its place in the enumeration. *)
Definition obj_set (k : jsstring) (v : jsval) (fields : list (jsstring * jsval))
  : list (jsstring * jsval) :=
  match own_property k fields with
  | Some _ => obj_replace k v fields
  | None => obj_insert k v fields
  end.

Section JSONStructures.
Context (parse_value : jsstring -> option (jsval * jsstring)).

(** The elements of an array after its opening bracket, up to the
    closing one. *)
Fixpoint parse_elements (fuel : nat) (s : jsstring) : option (list jsval * jsstring) :=
  match fuel with
  | O => None
  | S n =>
      match parse_value s with
      | Some (v, r1) =>
          match after_char 44 (skip_ws r1) with
          | Some r2 =>
              match parse_elements n (skip_ws r2) with
              | Some (vs, r3) => Some (v :: vs, r3)
              | None => None
              end
          | None =>
              match after_char 93 (skip_ws r1) with
              | Some r2 => Some ([v], r2)
              | None => None
              end
          end
      | None => None
      end
  end.

(** The members of an object after its opening brace, up to the closing
    one. *)
Fixpoint parse_members (fuel : nat) (s : jsstring)
  : option (list (jsstring * jsval) * jsstring) :=
  match fuel with
  | O => None
  | S n =>
      match after_char 34 s with
      | Some r =>
          match parse_string_body r with
          | Some (k, r1) =>
              match after_char 58 (skip_ws r1) with
              | Some r2 =>
                  match parse_value (skip_ws r2) with
                  | Some (v, r3) =>
                      match after_char 44 (skip_ws r3) with
                      | Some r4 =>
                          match parse_members n (skip_ws r4) with
                          | Some (ms, r5) => Some ((k, v) :: ms, r5)
                          | None => None
                          end
                      | None =>
                          match after_char 125 (skip_ws r3) with
                          | Some r4 => Some ([(k, v)], r4)
                          | None => None
                          end
                      end
                  | None => None
                  end
              | None => None
              end
          | None => None
          end
      | None => None
      end
  end.

End JSONStructures.

Definition literal_prefix (word : jsstring) (s : jsstring) : option jsstring :=
  if bool_decide (take (length word) s = word) then Some (drop (length word) s)
  else None.

(** A JSON value at the head of [s], and what follows it. *)
Fixpoint parse_value (fuel : nat) (s : jsstring) : option (jsval * jsstring) :=
  match fuel with
  | O => None
  | S n =>
      match s with
      | [] => None
      | c :: r =>
          if (c =? 34)%N then
            match parse_string_body r with
            | Some (str, rest) => Some (JStr str, rest)
            | None => None
            end
          else if (c =? 91)%N then
            match after_char 93 (skip_ws r) with
            | Some r' => Some (JArr [], r')
            | None =>
                match parse_elements (parse_value n) n (skip_ws r) with
                | Some (vs, rest) => Some (JArr vs, rest)
                | None => None
                end
            end
          else if (c =? 123)%N then
            match after_char 125 (skip_ws r) with
            | Some r' => Some (JObj [], r')
            | None =>
                match parse_members (parse_value n) n (skip_ws r) with
                | Some (ms, rest) =>
                    Some (JObj (fold_left (fun o m => obj_set m.1 m.2 o) ms []), rest)
                | None => None
                end
            end
          else if (c =? 116)%N then
            option_map (pair (JBool true)) (literal_prefix (lit "true") s)
          else if (c =? 102)%N then
            option_map (pair (JBool false)) (literal_prefix (lit "false") s)
          else if (c =? 110)%N then
            option_map (pair JNull) (literal_prefix (lit "null") s)
          else
            match parse_number s with
            | Some (x, rest) => Some (JNum x, rest)
            | None => None
            end
      end
  end.

(** [JSON.parse(text)]; [None] when it throws a SyntaxError. *)
Definition JSON_parse (text : jsstring) : option jsval :=
  match parse_value (S (length text)) (skip_ws text) with
  | Some (v, rest) =>
      match skip_ws rest with
      | [] => Some v
      | _ :: _ => None
      end
  | None => None
  end.

(** ** Regular expressions

    The fragment of ECMAScript regular expressions that index.js uses,
    matched by backtracking with the priorities of the language: a greedy
    quantifier tries the longest repetition first, a lazy one the shortest,
    an alternation its left branch first. *)

Inductive regex : Type :=
| RClass (p : N -> bool)              (* one character of a class *)
| RStar (greedy : bool) (p : N -> bool)  (* class* and class*? *)
| RSeq (r1 r2 : regex)
| RAlt (r1 r2 : regex)
| ROpt (r : regex)                    (* (?:r)? *)
| RGroup (i : nat) (r : regex).       (* the capturing group number i *)

Definition RChar (c : N) : regex := RClass (N.eqb c).
Definition RPlus (p : N -> bool) : regex := RSeq (RClass p) (RStar true p).

Fixpoint RWord (w : jsstring) : regex :=
  match w with
  | [] => RStar true (fun _ => false)
  | [c] => RChar c
  | c :: r => RSeq (RChar c) (RWord r)
  end.

(** The captures so far, the latest first. *)
Definition captures : Type := list (nat * jsstring).

Definition capture (i : nat) (caps : captures) : option jsstring :=
  snd <$> List.find (fun c => Nat.eqb c.1 i) caps.

Section Matcher.
Context {A : Type}.

Fixpoint star_greedy (p : N -> bool) (s : jsstring) (k : jsstring -> option A)
  : option A :=
  match s with
  | c :: r =>
      if p c then
        match star_greedy p r k with
        | Some x => Some x
        | None => k s
        end
      else k s
  | [] => k s
  end.

Fixpoint star_lazy (p : N -> bool) (s : jsstring) (k : jsstring -> option A)
  : option A :=
  match k s with
  | Some x => Some x
  | None =>
      match s with
      | c :: r => if p c then star_lazy p r k else None
      | [] => None
      end
  end.

(** [rmatch r s caps k]: match [r] at the head of [s] and go on with [k]
    on the rest, backtracking into [r] when [k] fails. *)
Fixpoint rmatch (r : regex) (s : jsstring) (caps : captures)
  (k : jsstring -> captures -> option A) : option A :=
  match r with
  | RClass p =>
      match s with
      | c :: s' => if p c then k s' caps else None
      | [] => None
      end
  | RStar true p => star_greedy p s (fun s' => k s' caps)
  | RStar false p => star_lazy p s (fun s' => k s' caps)
  | RSeq r1 r2 => rmatch r1 s caps (fun s' caps' => rmatch r2 s' caps' k)
  | RAlt r1 r2 =>
      match rmatch r1 s caps k with
      | Some x => Some x
      | None => rmatch r2 s caps k
      end
  | ROpt r1 =>
      match rmatch r1 s caps k with
      | Some x => Some x
      | None => k s caps
      end
  | RGroup i r1 =>
      rmatch r1 s caps
             (fun s' caps' => k s' ((i, take (length s - length s') s) :: caps'))
  end.

End Matcher.

Record match_result : Type := mkMatch {
  m_index : nat;
  m_text : jsstring;       (* match[0] *)
  m_groups : captures
}.

(** [re.exec(input)] from [lastIndex = index]: the first position from
    which the expression matches. *)
Fixpoint regex_exec (r : regex) (index : nat) (s : jsstring) : option match_result :=
  match rmatch r s [] (fun s' caps => Some (s', caps)) with
  | Some (s', caps) => Some (mkMatch index (take (length s - length s') s) caps)
  | None =>
      match s with
      | [] => None
      | _ :: s' => regex_exec r (S index) s'
      end
  end.

(** [/^r$/.test(s)]. *)
Definition regex_test_whole (r : regex) (s : jsstring) : bool :=
  match rmatch r s [] (fun s' _ => match s' with [] => Some tt | _ => None end) with
  | Some _ => true
  | None => false
  end.

(** ** The parser (index.js:1136-1222) *)

Definition any_char (c : N) : bool := true.

Definition is_name_char (c : N) : bool :=
  ((97 <=? c) && (c <=? 122) || (65 <=? c) && (c <=? 90) || (48 <=? c) && (c <=? 57)
   || (c =? 95) || (c =? 46) || (c =? 45))%N.

(** [/\[\s*CALL\s*:\s*([a-zA-Z0-9_.-]+)\s*(?:\(\s*([\s\S]*?)\s*\))?\s*\]/g]. *)
Definition CALL_RE : regex :=
  RSeq (RChar 91)
  (RSeq (RStar true is_space)
  (RSeq (RWord (lit "CALL"))
  (RSeq (RStar true is_space)
  (RSeq (RChar 58)
  (RSeq (RStar true is_space)
  (RSeq (RGroup 1 (RPlus is_name_char))
  (RSeq (RStar true is_space)
  (RSeq (ROpt (RSeq (RChar 40)
              (RSeq (RStar true is_space)
              (RSeq (RGroup 2 (RStar false any_char))
              (RSeq (RStar true is_space)
                    (RChar 41))))))
  (RSeq (RStar true is_space)
        (RChar 93)))))))))).

(** [/^-?\d+(\.\d+)?$/]. *)
Definition NUMBER_RE : regex :=
  RSeq (ROpt (RChar 45))
  (RSeq (RPlus is_digit)
        (ROpt (RGroup 1 (RSeq (RChar 46) (RPlus is_digit))))).

Definition char_ignore_case (c : N) : regex :=
  RClass (fun x => (lower_ascii x =? lower_ascii c)%N).

Fixpoint word_ignore_case (w : jsstring) : regex :=
  match w with
  | [] => RStar true (fun _ => false)
  | [c] => char_ignore_case c
  | c :: r => RSeq (char_ignore_case c) (word_ignore_case r)
  end.

(** [/^(true|false)$/i], [/^true$/i] and [/^(null)$/i]. *)
Definition BOOLEAN_RE : regex :=
  RGroup 1 (RAlt (word_ignore_case (lit "true")) (word_ignore_case (lit "false"))).
Definition TRUE_RE : regex := word_ignore_case (lit "true").
Definition NULL_RE : regex := RGroup 1 (word_ignore_case (lit "null")).

(** The object that [tryParseArgs] fills: its own properties, and whether
    its prototype has been set to [null]. *)
Definition args_object : Type := list (jsstring * jsval) * bool.

(** [obj[key] = val] on the object of [tryParseArgs], [val] a scalar. The
    key [__proto__] reaches the prototype setter as long as the prototype
    is [Object.prototype]: the setter takes [null], which clears the
    prototype, and no other scalar. Once the prototype is [null] the key
    is a key like any other. *)
Definition obj_assign (k : jsstring) (v : jsval) (obj : args_object) : args_object :=
  if bool_decide (k = lit "__proto__") && negb obj.2 then
    match v with
    | JNull => (obj.1, true)
    | _ => obj
    end
  else (obj_set k v obj.1, obj.2).

Definition looksJson (s : jsstring) : bool :=
  let t := trim s in
  starts_with_char 123 t && ends_with_char 125 t
  || starts_with_char 91 t && ends_with_char 93 t
  || starts_with_char 34 t && ends_with_char 34 t.

(** The scalar of a [key=value] pair. *)
Definition scalar_of (val : jsstring) : jsval :=
  if starts_with_char 34 val && ends_with_char 34 val
     || starts_with_char 39 val && ends_with_char 39 val
  then JStr (slice_1_m1 val)
  else if regex_test_whole NUMBER_RE val then JNum (Number_of_literal val)
  else if regex_test_whole BOOLEAN_RE val then JBool (regex_test_whole TRUE_RE val)
  else if regex_test_whole NULL_RE val then JNull
  else JStr val.

(** One turn of the loop over the parts: the object and [parsedAny]. *)
Definition parse_part (acc : args_object * bool) (part : jsstring) : args_object * bool :=
  match index_of 61 part with
  | None | Some O => acc
  | Some idx =>
      let key := trim (take idx part) in
      let val := trim (drop (S idx) part) in
      match key with
      | [] => acc
      | _ :: _ => (obj_assign key (scalar_of val) acc.1, true)
      end
  end.

Record parsed_args : Type := mkParsed {
  p_args : jsval;
  p_raw : jsstring
}.

(** [tryParseArgs(raw)] (index.js:1150). *)
Definition tryParseArgs (raw : jsval) : parsed_args :=
  let text := trim (safeString raw []) in
  match text with
  | [] => mkParsed (JObj []) []
  | _ :: _ =>
      match (if looksJson text then JSON_parse text else None) with
      | Some v => mkParsed v text
      | None =>
          let parts := filter (fun p => p <> []) (List.map trim (split_on 44 text)) in
          let '(obj, parsedAny) := fold_left parse_part parts (([], false), false) in
          if parsedAny then mkParsed (JObj obj.1) text
          else mkParsed (JObj [(lit "_raw", JStr text)]) text
      end
  end.

(** [extractFirstCall(text)] (index.js:1205); [None] is [null]. *)
Definition extractFirstCall (text : jsval) : option call :=
  let input := safeString text [] in
  match regex_exec CALL_RE 0 input with
  | None => None
  | Some m =>
      let skillName := trim (safeString (from_option JStr JUndefined (capture 1 (m_groups m))) []) in
      let rawArgs := from_option JStr JUndefined (capture 2 (m_groups m)) in
      let parsed := tryParseArgs rawArgs in
      Some (mkCall skillName (p_args parsed) (p_raw parsed) (m_text m))
  end.

(** *** What a regular expression matches

    [matches r w caps caps']: the word [w] is in the language of [r], and
    matching it turns the captures [caps] into [caps']. *)
Inductive matches : regex -> jsstring -> captures -> captures -> Prop :=
| matches_class (p : N -> bool) (c : N) (caps : captures) :
    p c = true -> matches (RClass p) [c] caps caps
| matches_star (g : bool) (p : N -> bool) (w : jsstring) (caps : captures) :
    Forall (fun c => p c = true) w -> matches (RStar g p) w caps caps
| matches_seq (r1 r2 : regex) (w1 w2 : jsstring) (c0 c1 c2 : captures) :
    matches r1 w1 c0 c1 -> matches r2 w2 c1 c2 -> matches (RSeq r1 r2) (w1 ++ w2) c0 c2
| matches_alt_l (r1 r2 : regex) (w : jsstring) (c0 c1 : captures) :
    matches r1 w c0 c1 -> matches (RAlt r1 r2) w c0 c1
| matches_alt_r (r1 r2 : regex) (w : jsstring) (c0 c1 : captures) :
    matches r2 w c0 c1 -> matches (RAlt r1 r2) w c0 c1
| matches_opt_some (r : regex) (w : jsstring) (c0 c1 : captures) :
    matches r w c0 c1 -> matches (ROpt r) w c0 c1
| matches_opt_none (r : regex) (caps : captures) :
    matches (ROpt r) [] caps caps
| matches_group (i : nat) (r : regex) (w : jsstring) (c0 c1 : captures) :
    matches r w c0 c1 -> matches (RGroup i r) w c0 ((i, w) :: c1).

(** ** The tag grammar as the specification words it

    "[ optional-ws CALL optional-ws : optional-ws NAME optional-ws
    ( ( ANY-CONTENT ) )? optional-ws ]", NAME over [A-Za-z0-9_.-]+. The
    text between the parentheses is given without its blank margins. *)

Definition blank (ws : jsstring) : Prop := Forall (fun c => is_space c = true) ws.

Definition paren_text (p : option (jsstring * jsstring * jsstring)) : jsstring :=
  match p with
  | None => []
  | Some (wa, body, wb) => [40%N] ++ wa ++ body ++ wb ++ [41%N]
  end.

Definition tag_parts (w name : jsstring) (content : option jsstring) : Prop :=
  exists ws1 ws2 ws3 ws4 ws5 p,
    blank ws1 /\ blank ws2 /\ blank ws3 /\ blank ws4 /\ blank ws5
    /\ name <> [] /\ Forall (fun c => is_name_char c = true) name
    /\ match p with
       | None => content = None
       | Some (wa, body, wb) => blank wa /\ blank wb /\ content = Some body
       end
    /\ w = [91%N] ++ ws1 ++ lit "CALL" ++ ws2 ++ [58%N] ++ ws3 ++ name ++ ws4
           ++ paren_text p ++ ws5 ++ [93%N].

Definition call_tag (w : jsstring) : Prop := exists name content, tag_parts w name content.

(** [s] goes on with the end of a tag that has arguments, [)] and []]
    after blanks, and then with [rest]. *)
Definition closes (s rest : jsstring) : Prop :=
  exists y1 y2, blank y1 /\ blank y2 /\ s = y1 ++ [41%N] ++ y2 ++ [93%N] ++ rest.

(** ** The shapes of coerced arguments *)

Definition is_scalar (v : jsval) : Prop :=
  match v with
  | JStr _ | JNum _ | JBool _ | JNull => True
  | _ => False
  end.

Definition is_null (v : jsval) : bool :=
  match v with
  | JNull => true
  | _ => false
  end.

(** ** The key=value mapping as the specification words it

    "Split on top-level commas; for each comma-separated chunk look for
    the first [=]; treat the left side (non-empty) as a key and the right
    side as a value literal, applying scalar coercion rules." *)

(** A text that looks like JSON: between braces, brackets or quotes. *)
Definition between (open close : N) (text : jsstring) : Prop :=
  (exists r, text = open :: r) /\ (exists r, text = r ++ [close]).

Definition json_like (text : jsstring) : Prop :=
  between 123 125 text \/ between 91 93 text \/ between 34 34 text.

(** The comma-separated chunks of a text. *)
Definition chunks_of (text : jsstring) (chunks : list jsstring) : Prop :=
  chunks <> [] /\ Forall (fun c => 44%N ∉ c) chunks /\ text = join_with [44%N] chunks.

(** What a chunk is read as: the key before its first [=] and the value
    literal after it, both without their blank margins; nothing when the
    chunk has no [=] or no key. *)
Definition chunk_pair (chunk : jsstring) (p : option (jsstring * jsstring)) : Prop :=
  match p with
  | Some (k, v) =>
      exists a b,
        trim chunk = a ++ [61%N] ++ b /\ (61%N ∉ a) /\ k = trim a /\ k <> [] /\ v = trim b
  | None =>
      61%N ∉ trim chunk
      \/ exists a b, trim chunk = a ++ [61%N] ++ b /\ (61%N ∉ a) /\ trim a = []
  end.

(** "Scalars coerced from key=value text: quoted -> string,
    numeric-pattern -> number, true|false -> boolean, null -> null
    literal, else left as string." *)

(** A literal between two quotes of a kind. *)
Definition quoted (val : jsstring) : Prop := between 34 34 val \/ between 39 39 val.

(** The text without its first and its last character. *)
Definition stripped (val s : jsstring) : Prop :=
  (exists a b, val = [a] ++ s ++ [b]) \/ (s = [] /\ (length val <= 1)%nat).

(** The numeric pattern, an optional minus, digits and an optional
    fraction, and the Number it writes. *)
Definition numeric (val : jsstring) (x : number) : Prop :=
  exists (negative : bool) (i f : jsstring),
    val = (if negative then [45%N] else []) ++ i ++ fraction_text f
    /\ i <> []
    /\ Forall (fun c => is_digit c = true) i
    /\ Forall (fun c => is_digit c = true) f
    /\ x = round64_dec negative (digits_value (i ++ f)) (- Z.of_nat (length f)).

(** A word, whatever the case of its letters. *)
Definition word (w : string) (val : jsstring) : Prop :=
  List.map lower_ascii val = lit w.

(** The scalar a value literal is read as, the first rule that applies. *)
Definition scalar_reading (val : jsstring) (v : jsval) : Prop :=
  (quoted val /\ exists s, stripped val s /\ v = JStr s)
  \/ (~ quoted val
      /\ ((exists x, numeric val x /\ v = JNum x)
          \/ (~ (exists x, numeric val x)
              /\ ((word "true" val /\ v = JBool true)
                  \/ (word "false" val /\ v = JBool false)
                  \/ (word "null" val /\ v = JNull)
                  \/ (~ word "true" val /\ ~ word "false" val /\ ~ word "null" val
                      /\ v = JStr val))))).

(** The value literal last given for a key. *)
Definition last_given (k : jsstring) (pairs : list (jsstring * jsstring))
  : option jsstring :=
  snd <$> List.find (fun p => bool_decide (p.1 = k)) (rev pairs).

(** The mapping of a list of pairs: every key holds the scalar that the
    literal last given for it is read as, and a key that was not given is
    not there. *)
Definition key_value_mapping (pairs : list (jsstring * jsstring))
  (fields : list (jsstring * jsval)) : Prop :=
  NoDup fields.*1
  /\ forall k,
       match last_given k pairs with
       | Some literal => exists v, own_property k fields = Some v /\ scalar_reading literal v
       | None => own_property k fields = None
       end.

(** *** What the assignments [obj[key] = val] make of the pairs

    They make the mapping above, but for the key [__proto__], which the
    object inherits as an accessor (index.js:1198 assigns on an object
    literal). *)

(** The pairs that follow the first [__proto__=null], if there is one. *)
Fixpoint after_proto_null (pairs : list (jsstring * jsstring))
  : option (list (jsstring * jsstring)) :=
  match pairs with
  | [] => None
  | (k, v) :: r =>
      if bool_decide (k = lit "__proto__") && is_null (scalar_of v) then Some r
      else after_proto_null r
  end.

(** Every key but [__proto__] holds the scalar of the literal last given
    for it, and a key that was not given is not there. The key
    [__proto__] is an own property only once a [__proto__=null] has
    cleared the prototype; it holds the scalar last given for it after
    that. *)
Definition assigned_mapping (pairs : list (jsstring * jsstring))
  (fields : list (jsstring * jsval)) : Prop :=
  NoDup fields.*1
  /\ (forall k, k <> lit "__proto__" ->
        own_property k fields = scalar_of <$> last_given k pairs)
  /\ own_property (lit "__proto__") fields
     = scalar_of <$> (after_proto_null pairs ≫= last_given (lit "__proto__")).

(** ** JSON-serializable values

    What [JSON.stringify] writes and [JSON.parse] reads back: no
    [undefined], function or BigInt anywhere, Numbers that are finite and
    not the negative zero, 16-bit code units, and objects as they are:
    distinct keys in enumeration order. *)
Fixpoint every {A : Type} (P : A -> Prop) (l : list A) : Prop :=
  match l with
  | [] => True
  | x :: r => P x /\ every P r
  end.

Definition code_units (s : jsstring) : Prop := Forall (fun c => (c < 65536)%N) s.

(** The values whose serialization is between braces, brackets or
    quotes: objects, arrays and strings. *)
Definition structured_or_string (v : jsval) : bool :=
  match v with
  | JObj _ | JArr _ | JStr _ => true
  | _ => false
  end.

(** No key of the list is enumerated before an earlier one. *)
Definition enumeration_order (keys : list jsstring) : Prop :=
  StronglySorted (fun k k' => enumerated_before k' k = false) keys.

Fixpoint json_value (v : jsval) : Prop :=
  match v with
  | JNull | JBool _ => True
  | JNum x => binary64 x /\ json_number x
  | JStr s => code_units s
  | JArr items => every json_value items
  | JObj fields =>
      NoDup fields.*1 /\ enumeration_order fields.*1
      /\ every (fun f => code_units f.1 /\ json_value f.2) fields
  | JUndefined | JBigInt _ | JFun _ => False
  end.

(** What can follow a number: nothing that would continue it. *)
Definition number_end (rest : jsstring) : Prop :=
  match rest with
  | [] => True
  | c :: _ => is_digit c = false /\ c <> 46%N /\ c <> 101%N /\ c <> 69%N
  end.

(** What a serialized value starts with: no blank and no closing bracket. *)
Definition value_start (s : jsstring) : Prop :=
  match s with
  | [] => False
  | c :: _ => is_json_ws c = false /\ c <> 93%N /\ c <> 125%N
  end.

(** Insignificant white space of a JSON text. *)
Definition blanks (s : jsstring) : Prop := Forall (fun c => is_json_ws c = true) s.

(** [pv] reads the text [s] back as [v], whatever follows. *)
Definition reads_back (pv : jsstring -> option (jsval * jsstring)) (v : jsval)
  (s : jsstring) : Prop :=
  value_start s
  /\ forall rest, number_end rest -> pv (s ++ rest) = Some (v, rest).

(** ** More of the engine *)

(** The toasts removed in a trace. *)
Definition disposals (tr : list event) : nat :=
  length (omap (fun ev => match ev with EDispose => Some tt | _ => None end) tr).

(** The handlers called in a trace. *)
Definition invoked (tr : list event) : list (jsstring * action_ctx) :=
  omap (fun ev => match ev with EInvoke n ctx => Some (n, ctx) | _ => None end) tr.

(** A lane behind a [runSkill] that awaits a promise that never settles:
    the link of that call is pending for ever, and every link enqueued
    behind it waits. *)
Fixpoint stalled (q : promise) : Prop :=
  match q with
  | PResolved => False
  | PThen p _ TStalled => settled p = Some true
  | PThen p _ TWaiting => stalled p
  | PThen _ _ _ => False
  | PCatch p b => b = false /\ stalled p
  end.

(** What [JSON.stringify(value, null, 2)] writes for the result of the
    default action of index.js:321. *)
Definition no_action_text : jsstring :=
  lit "{" ++ [10%N] ++ lit "  " ++ JSON_quote (lit "ok") ++ lit ": false," ++ [10%N]
  ++ lit "  " ++ JSON_quote (lit "error") ++ lit ": "
  ++ JSON_quote (lit "No action() provided for this skill.") ++ [10%N] ++ lit "}".

(** A handler whose promise never settles. *)
Definition sleeper_skill : skill :=
  mkSkill (lit "sleeper") (lit "(no description)") (fun _ => Hangs) true.

(** ** Data

    A value that [JSON.stringify] writes by its own rules alone: it holds
    no BigInt, on which [JSON.stringify] throws, and no object in it has a
    [toJSON] function of its own, which [JSON.stringify] would call for
    the value to write. *)
Fixpoint plain_data (v : jsval) : Prop :=
  match v with
  | JBigInt _ => False
  | JArr items => every plain_data items
  | JObj fields =>
      (~ exists src, own_property (lit "toJSON") fields = Some (JFun src))
      /\ every (fun f => plain_data f.2) fields
  | _ => True
  end.

(** ** More of the parser *)

(** The text a scalar holds, when it is a string. *)
Definition text_of (v : jsval) : option jsstring :=
  match v with
  | JStr s => Some s
  | _ => None
  end.

(** A member of the object read from [key=value] text whose key and value
    hold no comma. *)
Definition comma_free (f : jsstring * jsval) : Prop :=
  (44%N ∉ fst f) /\ forall s, text_of (snd f) = Some s -> 44%N ∉ s.

(** The text [k1=v1, k2=v2, ...] of a list of keys and written values. *)
Definition pair_text (f : jsstring * jsstring) : jsstring := fst f ++ [61%N] ++ snd f.

Definition pairs_text (l : list (jsstring * jsstring)) : jsstring :=
  join_with (lit ", ") (List.map pair_text l).

(** A key that can be written in such a text: not empty, without blank
    margins, comma or equals sign, not [__proto__], and not a row of
    digits (an array index is enumerated before the other keys, wherever
    it was assigned). *)
Definition plain_key (k : jsstring) : Prop :=
  k <> [] /\ trim k = k /\ (44%N ∉ k) /\ (61%N ∉ k) /\ k <> lit "__proto__"
  /\ forallb is_digit k = false.

(** A written value: without blank margins or comma; it may be empty. *)
Definition plain_value (v : jsstring) : Prop := trim v = v /\ 44%N ∉ v.

(** How the result of the matcher on a text followed by [post] stands to
    its result on the text alone: both fail, or the first ends inside
    [post], or both end at the same place of the text with the same
    captures. *)
Definition agree (post : jsstring) (long short : option (jsstring * captures)) : Prop :=
  match long with
  | None => short = None
  | Some (rest, c) =>
      (length rest < length post)%nat
      \/ exists y, rest = y ++ post /\ short = Some (y, c)
  end.

(** A continuation of the matcher that only gives back a part of what it
    is given. *)
Definition bounded1 (k : jsstring -> option (jsstring * captures)) : Prop :=
  forall s rest c, k s = Some (rest, c) -> (length rest <= length s)%nat.

Definition bounded (k : jsstring -> captures -> option (jsstring * captures)) : Prop :=
  forall s caps rest c, k s caps = Some (rest, c) -> (length rest <= length s)%nat.

(** ** The registry as a [Map] (index.js:303-365)

    A [Map] is iterated in insertion order: [set] on a key that is present
    keeps the place of the key, on a new key it adds the entry at the end,
    and [delete] takes the entry out. The names are the keys. *)

Abbreviation skill_map := (list (jsstring * skill)).

(** [skills.set(key, value)]. *)
Fixpoint map_set (k : jsstring) (v : skill) (m : skill_map) : skill_map :=
  match m with
  | [] => [(k, v)]
  | (k', v') :: r =>
      if bool_decide (k' = k) then (k, v) :: r else (k', v') :: map_set k v r
  end.

(** [skills.get(key)] and [skills.has(key)]. *)
Definition map_get (k : jsstring) (m : skill_map) : option skill :=
  snd <$> List.find (fun e => bool_decide (fst e = k)) m.

Definition map_has (k : jsstring) (m : skill_map) : bool := bool_decide (k ∈ m.*1).

(** [skills.delete(key)]: the map without the entry, and whether there
    was one. *)
Definition map_delete (k : jsstring) (m : skill_map) : skill_map * bool :=
  (filter (fun e => fst e <> k) m, map_has k m).

(** [registry.register(skillConfig)] (index.js:331), [registry.get(name)],
    [registry.remove(name)] and [registry.listEnabled()] on the [Map]. *)
Definition registry_register (arg : register_arg) (t : Z) (m : skill_map)
  : skill_map * option jsstring :=
  match normalizeConfig arg t with
  | inr normalized => (map_set (name normalized) normalized m, Some (name normalized))
  | inl _ => (m, None)
  end.

Definition listEnabled (m : skill_map) : list skill :=
  filter (fun s => enabled s = true) m.*2.

(** What the page does to the registry. *)
Inductive registry_op : Type :=
| OpRegister (arg : register_arg) (t : Z)
| OpRemove (n : jsstring).

Definition apply_op (m : skill_map) (o : registry_op) : skill_map :=
  match o with
  | OpRegister arg t => (registry_register arg t m).1
  | OpRemove n => (map_delete n m).1
  end.

(** The same on the finite map the engine looks skills up in. *)
Definition apply_op_skills (reg : gmap jsstring skill) (o : registry_op)
  : gmap jsstring skill :=
  match o with
  | OpRegister arg t => (register arg t reg).1
  | OpRemove n => registry_remove n reg
  end.

(** The registry after a history of registrations and removals. *)
Definition registry_after (ops : list registry_op) : skill_map :=
  fold_left apply_op ops [].

Definition skills_after (ops : list registry_op) : gmap jsstring skill :=
  fold_left apply_op_skills ops ∅.

(** ** The prompt builder (index.js:1039-1073) *)

Definition skill_line (s : skill) : jsstring :=
  lit "- " ++ name s ++ lit ": " ++ description s.

Definition prompt_head : list jsstring :=
  [lit "You can call external skills via a strict text tag.";
   lit "When needed, output EXACTLY one call tag in this format:";
   lit "[CALL: skill_name({...json args...})]";
   [];
   lit "Available skills:"].

Definition prompt_rules : list jsstring :=
  [[];
   lit "Rules:";
   lit "- Only output the call tag when you need a skill.";
   lit "- Use JSON args when possible.";
   lit "- After you receive a system message with the result, continue normally."].

(** [buildSystemPrompt()]. *)
Definition buildSystemPrompt (m : skill_map) : jsstring :=
  match listEnabled m with
  | [] => []
  | en => join_with [10%N] (prompt_head ++ List.map skill_line en ++ prompt_rules)
  end.

Definition depth_note_head : jsstring :=
  lit "Author's Note (tool calling): If you need a skill, output a single tag like [CALL: skill_name({...})]. Skills: ".

(** [buildDepthNote()]: the names of the first 24 enabled skills. *)
Definition buildDepthNote (m : skill_map) : jsstring :=
  match listEnabled m with
  | [] => []
  | en => depth_note_head ++ join_with (lit ", ") (take 24 (List.map name en))
  end.

(** A registry of 24 enabled skills, [tool0] to [tool23]. *)
Definition crowded_registry : skill_map :=
  List.map (fun i => let n := lit "tool" ++ decimal (Z.of_nat i) in
                     (n, mkSkill n (lit "(no description)") no_action true))
           (seq 0 24).

(** ** Prompt injection (index.js:1075-1130)

    The data of the event is a value of the page; the properties read and
    written here ([messages], [role], [content], [prompt],
    [chat_completion_prompt], [text]) are own properties of plain objects,
    and are [undefined] on anything else. *)

Definition truthy (v : jsval) : bool :=
  match v with
  | JUndefined | JNull | JBool false | JNum NaN | JNum (Finite _ 0 _) | JBigInt 0
  | JStr [] => false
  | _ => true
  end.

(** [typeof v === 'object']. *)
Definition typeof_object (v : jsval) : bool :=
  match v with
  | JNull | JArr _ | JObj _ => true
  | _ => false
  end.

(** [obj[key]] and [obj?.[key]]. *)
Definition get_prop (key : jsstring) (obj : jsval) : jsval :=
  match obj with
  | JObj fields =>
      match List.find (fun f => bool_decide (fst f = key)) fields with
      | Some f => snd f
      | None => JUndefined
      end
  | _ => JUndefined
  end.

(** [obj[key] = v] on an object that has the property. *)
Definition set_prop (key : jsstring) (v : jsval) (obj : jsval) : jsval :=
  match obj with
  | JObj fields => JObj (obj_set key v fields)
  | _ => obj
  end.

(** [`${a}\n\n${b}`.trim()]. *)
Definition appended (a b : jsstring) : jsstring := trim (a ++ [10%N; 10%N] ++ b).

(** [safeAppendToStringField(obj, key, addition)]: the object after the
    call and the boolean returned. *)
Definition safeAppendToStringField (obj : jsval) (key addition : jsstring)
  : jsval * bool :=
  match addition with
  | [] => (obj, false)
  | _ :: _ =>
      if negb (truthy obj) || negb (typeof_object obj) then (obj, false)
      else match get_prop key obj with
           | JStr s => (set_prop key (JStr (appended s addition)) obj, true)
           | _ => (obj, false)
           end
  end.

(** [safePushMessage(messages, role, content)] on an array. *)
Definition safePushMessage (messages : list jsval) (role content : jsstring)
  : list jsval :=
  match content with
  | [] => messages
  | _ :: _ => messages ++ [JObj [(lit "role", JStr role); (lit "content", JStr content)]]
  end.

(** [v === s] for a string [s]. *)
Definition is_string (s : jsstring) (v : jsval) : bool :=
  match v with
  | JStr x => bool_decide (x = s)
  | _ => false
  end.

(** The test of the loop at index.js:1105, giving the content of a user
    message that is a string. *)
Definition user_text (m : jsval) : option jsstring :=
  if truthy m && is_string (lit "user") (get_prop (lit "role") m) then
    match get_prop (lit "content") m with
    | JStr s => Some s
    | _ => None
    end
  else None.

(** The loop at index.js:1103, from the last message down: the first
    message that passes the test takes the note, and the loop ends. *)
Fixpoint note_downwards (note : jsstring) (from_last : list jsval) : list jsval :=
  match from_last with
  | [] => []
  | m :: r =>
      match user_text m with
      | Some s => set_prop (lit "content") (JStr (appended s note)) m :: r
      | None => m :: note_downwards note r
      end
  end.

Definition note_last_user (note : jsstring) (messages : list jsval) : list jsval :=
  rev (note_downwards note (rev messages)).

(** [injectPrompt(data)], [m] being the registry: the data after the
    call. *)
Definition injectPrompt (m : skill_map) (data : jsval) : jsval :=
  let systemPrompt := buildSystemPrompt m in
  let depthNote := buildDepthNote m in
  match systemPrompt, depthNote with
  | [], [] => data
  | _, _ =>
      match get_prop (lit "messages") data with
      | JArr messages =>
          let pushed := safePushMessage messages (lit "system") systemPrompt in
          let noted := match depthNote with
                       | [] => pushed
                       | _ :: _ => note_last_user depthNote pushed
                       end in
          set_prop (lit "messages") (JArr noted) data
      | _ =>
          let '(d1, ok1) := safeAppendToStringField data (lit "prompt") systemPrompt in
          if ok1 then (safeAppendToStringField d1 (lit "prompt") depthNote).1
          else
            let '(d2, ok2) :=
              safeAppendToStringField data (lit "chat_completion_prompt") systemPrompt in
            if ok2
            then (safeAppendToStringField d2 (lit "chat_completion_prompt") depthNote).1
            else
              let '(d3, ok3) := safeAppendToStringField data (lit "text") systemPrompt in
              if ok3 then (safeAppendToStringField d3 (lit "text") depthNote).1
              else d3
      end
  end.

(** The message pushed by [safePushMessage]. *)
Definition system_message (content : jsstring) : jsval :=
  JObj [(lit "role", JStr (lit "system")); (lit "content", JStr content)].

Definition is_text (v : jsval) : bool :=
  match v with
  | JStr _ => true
  | _ => false
  end.

(** The fields a prompt can be appended to, as index.js:1115-1125 tries
    them. *)
Definition prompt_fields : list jsstring :=
  [lit "prompt"; lit "chat_completion_prompt"; lit "text"].

(** ** The MESSAGE_RECEIVED handler (index.js:1395-1410) *)

(** The text of a received message: the first of [data.mes],
    [data.message], [data.text] and [data.content] that gives a non-empty
    string. *)
Definition message_text (data : jsval) : jsstring :=
  or_else (safeString (get_prop (lit "mes") data) [])
    (or_else (safeString (get_prop (lit "message") data) [])
       (or_else (safeString (get_prop (lit "text") data) [])
          (safeString (get_prop (lit "content") data) []))).

(** The handler: the world after it and what an observer sees. *)
Definition on_message_received (data : jsval) (w : world) : world * list event :=
  match extractFirstCall (JStr (message_text data)) with
  | None => (w, [])
  | Some c => (apply_external (XEnqueue c) w, [EEnqueue c])
  end.

(** ** Delivering a system message (index.js:216-270)

    [api.addSystemMessage] tries what the page offers, in a fixed order,
    until one call succeeds. *)

(** A property of [window] or of the imported module, as the code tests
    it. What a call of a function does is told by its arguments: [true]
    when the call, awaited, succeeds, [false] when it throws or rejects. *)
Inductive host_value : Type :=
| HFalsy                                (* undefined, null or another falsy value *)
| HOther                                (* truthy, but not a function *)
| HFunction (f : list jsval -> bool).

(** [a || b]. *)
Definition or_value (a b : host_value) : host_value :=
  match a with
  | HFalsy => b
  | _ => a
  end.

Inductive sink : Type :=
| WindowSendSystemMessage
| ModuleSendSystemMessage
| WindowAddSystemMessage
| ModuleAddSystemMessage
| AddOneMessage.

Record page : Type := mkPage {
  window_sendSystemMessage : host_value;
  module_sendSystemMessage : host_value;    (* [HFalsy] when the import failed *)
  window_addSystemMessage : host_value;
  module_addSystemMessage : host_value;
  window_addOneMessage : host_value;
  module_addOneMessage : host_value;
  window_chat_is_array : bool
}.

Inductive api_event : Type :=
| Called (s : sink) (arguments : list jsval) (ok : bool)
| ChatPushed (message : jsval).             (* window.chat.push({role, content}) *)

(** The loops at index.js:228 and 253: the calls are made in turn, and the
    first that succeeds ends the function. *)
Fixpoint try_calls (calls : list (sink * (list jsval -> bool) * list jsval))
  : list api_event * bool :=
  match calls with
  | [] => ([], false)
  | (s, f, arguments) :: r =>
      if f arguments then ([Called s arguments true], true)
      else let '(evs, ok) := try_calls r in (Called s arguments false :: evs, ok)
  end.

(** [.filter((fn) => typeof fn === 'function')]. *)
Definition functions_of (l : list (sink * host_value))
  : list (sink * (list jsval -> bool)) :=
  omap (fun c => match snd c with
                 | HFunction f => Some (fst c, f)
                 | _ => None
                 end) l.

(** [api.addSystemMessage(content)]: what it does to the page. The
    promise it returns is always fulfilled. *)
Definition api_addSystemMessage (p : page) (content : jsval) : list api_event :=
  match safeString content [] with
  | [] => []
  | (_ :: _) as text =>
      let candidates :=
        functions_of [(WindowSendSystemMessage, window_sendSystemMessage p);
                      (ModuleSendSystemMessage, module_sendSystemMessage p);
                      (WindowAddSystemMessage, window_addSystemMessage p);
                      (ModuleAddSystemMessage, module_addSystemMessage p)] in
      let '(evs1, ok1) :=
        try_calls (List.map (fun c => (fst c, snd c, [JStr text])) candidates) in
      if ok1 then evs1
      else
        let '(evs2, ok2) :=
          match or_value (window_addOneMessage p) (module_addOneMessage p) with
          | HFunction f =>
              try_calls
                [(AddOneMessage, f,
                  [JObj [(lit "name", JStr (lit "system"));
                         (lit "is_user", JBool false);
                         (lit "is_system", JBool true);
                         (lit "mes", JStr text)]]);
                 (AddOneMessage, f, [JStr text; JStr (lit "system")]);
                 (AddOneMessage, f, [JStr text])]
          | _ => ([], false)
          end in
        if ok2 then evs1 ++ evs2
        else
          evs1 ++ evs2
          ++ (if window_chat_is_array p
              then [ChatPushed (JObj [(lit "role", JStr (lit "system"));
                                      (lit "content", JStr text)])]
              else [])
  end.

(** A call that failed, and an act that delivered the message. *)
Definition failed_call (ev : api_event) : Prop :=
  match ev with
  | Called _ _ false => True
  | _ => False
  end.

Definition delivery (ev : api_event) : Prop :=
  match ev with
  | Called _ _ true | ChatPushed _ => True
  | _ => False
  end.

(** The text an act carries to the page. *)
Definition carries (text : jsstring) (ev : api_event) : Prop :=
  match ev with
  | Called AddOneMessage (JObj fields :: _) _ =>
      List.find (fun f => bool_decide (fst f = lit "mes")) fields
      = Some (lit "mes", JStr text)
  | Called _ (JStr s :: _) _ => s = text
  | ChatPushed (JObj fields) =>
      List.find (fun f => bool_decide (fst f = lit "content")) fields
      = Some (lit "content", JStr text)
  | _ => False
  end.

(** * Properties *)

(** ** The circuit breaker *)

Lemma prune_head_fresh (t x : Z) (r : list Z) :
  (t - x <= WINDOW_MS)%Z -> prune t (x :: r) = x :: r.
Proof.
  intros H. simpl. destruct (WINDOW_MS <? t - x)%Z eqn:E; [|done].
  apply Z.ltb_lt in E. lia.
Qed.

Lemma prune_fresh (t : Z) (ts : list Z) :
  Forall (fun x => (t - x <= WINDOW_MS)%Z) ts -> prune t ts = ts.
Proof.
  destruct 1 as [|x r Hx _]; [done|]. by apply prune_head_fresh.
Qed.

Lemma prune_old (t : Z) (old rest : list Z) :
  Forall (fun x => (WINDOW_MS < t - x)%Z) old ->
  prune t (old ++ rest) = prune t rest.
Proof.
  induction 1 as [|x r Hx _ IH]; [done|].
  simpl. apply Z.ltb_lt in Hx. by rewrite Hx.
Qed.

Lemma prune_suffix (t : Z) (ts : list Z) : prune t ts `suffix_of` ts.
Proof.
  induction ts as [|x r IH]; simpl; [done|].
  destruct (WINDOW_MS <? t - x)%Z; [by apply suffix_cons_r|done].
Qed.

(** The timestamp just pushed is never pruned: it ends the new state. *)
Lemma prune_pushed (t : Z) (ts : list Z) :
  exists kept, prune t (ts ++ [t]) = kept ++ [t] /\ kept `suffix_of` ts.
Proof.
  induction ts as [|x r (kept & E & Hs)]; simpl.
  - exists []. rewrite Z.sub_diag. by split.
  - destruct (WINDOW_MS <? t - x)%Z.
    + exists kept. split; [done|by apply suffix_cons_r].
    + by exists (x :: r).
Qed.

Lemma exec_bind {A B : Type} (h : host) (e : env) (p : prog A) (f : A -> prog B) :
  exec h e (bind p f) =
    let '(e', evs, r) := exec h e p in
    match r with
    | Some (inr a) => let '(e'', evs', r') := exec h e' (f a) in (e'', evs ++ evs', r')
    | Some (inl x) => (e', evs, Some (inl x))
    | None => (e', evs, None)
    end.
Proof.
  revert e. induction p as [a|x|X o k IH]; intros e; simpl.
  - by destruct (exec h e (f a)) as [[??]?].
  - done.
  - destruct (do_op h e o) as [[e' evs] [r|r|]]; [| |done].
    + rewrite IH. destruct (exec h e' (k r)) as [[e1 evs1] [[x|a]|]]; [done| |done].
      destruct (exec h e1 (f a)) as [[??]?]. by rewrite app_assoc.
    + rewrite IH. destruct (exec h e' (k r)) as [[e1 evs1] [[x|a]|]]; [done| |done].
      destruct (exec h e1 (f a)) as [[??]?]. by rewrite app_assoc.
Qed.

(** Only [Bump] writes the environment. *)
Lemma exec_lookup_and_execute_env (h : host) (e : env) (c : call) :
  (exec h e (lookup_and_execute c)).1.1 = e.
Proof.
  unfold lookup_and_execute, mbind, prog_bind. simpl.
  destruct (skills e !! skillName c) as [s|]; simpl.
  - destruct (enabled s); simpl.
    + destruct (ui_fault h _); simpl; [done|].
      destruct (action s _) as [v|f|f|]; simpl; try done;
        destruct (ui_fault h _); done.
    + by destruct (ui_fault h _).
  - by destruct (ui_fault h _).
Qed.

(** One attempt under a toast layer that works: the timestamp is pushed
    and the window pruned first, then the count decides. *)
Lemma exec_runSkill_ui (h : host) (e : env) (c : call) :
  ui_works h ->
  exec h e (runSkill c) =
    let ts := prune (now e) (recentCallTimestamps e ++ [now e]) in
    if (MAX_CALLS_PER_WINDOW <? length ts)%nat
    then (mkEnv (now e) ts (skills e), blocked_trace (now e) (length ts), Some (inr tt))
    else (mkEnv (now e) ts (skills e),
          permitted_trace h (now e) ts (skills e) c,
          (exec h (mkEnv (now e) ts (skills e)) (lookup_and_execute c)).2).
Proof.
  intros Hui.
  unfold runSkill, mbind, prog_bind, permitted_trace. cbn [bind perform exec do_op].
  unfold bumpCircuitBreaker. cbn zeta. cbn [now recentCallTimestamps skills].
  set (ts := prune _ _). cbn [bind].
  destruct (MAX_CALLS_PER_WINDOW <? length ts)%nat.
  { cbn [bind perform exec do_op]. by rewrite Hui. }
  pose proof (exec_lookup_and_execute_env h (mkEnv (now e) ts (skills e)) c) as He.
  destruct (exec h _ (lookup_and_execute c)) as [[e1 evs1] r1].
  simpl in *. by subst.
Qed.

Lemma index_ui_works : ui_works index_ui.
Proof. by intros n. Qed.

Lemma exec_runSkill (e : env) (c : call) :
  exec index_ui e (runSkill c) =
    let ts := prune (now e) (recentCallTimestamps e ++ [now e]) in
    if (MAX_CALLS_PER_WINDOW <? length ts)%nat
    then (mkEnv (now e) ts (skills e), blocked_trace (now e) (length ts), Some (inr tt))
    else (mkEnv (now e) ts (skills e),
          permitted_trace index_ui (now e) ts (skills e) c,
          (exec index_ui (mkEnv (now e) ts (skills e)) (lookup_and_execute c)).2).
Proof. apply exec_runSkill_ui, index_ui_works. Qed.

Lemma run_attempts_cons (h : host) (e : env) (t : Z) (c : call) (r : list (Z * call)) :
  run_attempts h e ((t, c) :: r) =
    ((exec h (at_time t e) (runSkill c)).1.2
       :: (run_attempts h (exec h (at_time t e) (runSkill c)).1.1 r).1,
     (run_attempts h (exec h (at_time t e) (runSkill c)).1.1 r).2).
Proof.
  cbn [run_attempts]. destruct (exec h (at_time t e) (runSkill c)) as [[e' evs] res].
  cbn [fst snd]. by destruct (run_attempts h e' r).
Qed.

Lemma run_attempts_step (n0 : Z) (ts0 : list Z) (reg : gmap jsstring skill)
  (t : Z) (c : call) (r : list (Z * call)) :
  run_attempts index_ui (mkEnv n0 ts0 reg) ((t, c) :: r) =
    (attempt_trace t (prune t (ts0 ++ [t])) reg c
       :: (run_attempts index_ui (mkEnv t (prune t (ts0 ++ [t])) reg) r).1,
     (run_attempts index_ui (mkEnv t (prune t (ts0 ++ [t])) reg) r).2).
Proof.
  rewrite run_attempts_cons, exec_runSkill. unfold attempt_trace, at_time. simpl.
  by destruct (MAX_CALLS_PER_WINDOW <? _)%nat.
Qed.

(** When nothing is older than the window, nothing is pruned and the
    state is the whole history. *)
Lemma run_attempts_one_window (n0 : Z) (ts0 : list Z) (reg : gmap jsstring skill)
  (l : list (Z * call)) :
  (forall x t, x ∈ ts0 ++ l.*1 -> t ∈ l.*1 -> (t - x <= WINDOW_MS)%Z) ->
  forall i t c, l !! i = Some (t, c) ->
    (run_attempts index_ui (mkEnv n0 ts0 reg) l).1 !! i =
      Some (attempt_trace t (ts0 ++ (take (S i) l).*1) reg c).
Proof.
  revert n0 ts0. induction l as [|[t0 c0] r IH]; intros n0 ts0 Hw i t c Hi; [done|].
  rewrite run_attempts_step. cbn [fst].
  rewrite fmap_cons in Hw. cbn [fst] in Hw.
  assert (prune t0 (ts0 ++ [t0]) = ts0 ++ [t0]) as ->.
  { apply prune_fresh, Forall_forall. intros x Hx. apply Hw.
    - apply elem_of_app in Hx as [Hx|Hx%list_elem_of_singleton].
      + apply elem_of_app. by left.
      + subst. apply elem_of_app. right. by left.
    - by left. }
  destruct i as [|i]; simpl in Hi.
  - by simplify_eq.
  - assert (forall x t', x ∈ (ts0 ++ [t0]) ++ r.*1 -> t' ∈ r.*1 ->
                         (t' - x <= WINDOW_MS)%Z) as Hw'.
    { intros x t' Hx Ht'. apply Hw; [by rewrite <- app_assoc in Hx|by right]. }
    simpl. rewrite (IH t0 (ts0 ++ [t0]) Hw' i t c Hi).
    by rewrite <- app_assoc.
Qed.

(** C2. Attempts whose timestamps all lie in one window of WINDOW_MS, made
    on a fresh engine and for any mixture of skill names: the first
    MAX_CALLS_PER_WINDOW run the lookup and execution of their call, every
    later one only shows the toast and delivers the breaker notice. The
    count compared is the one taken after the push, [S i] for attempt [i]. *)
Theorem breaker_permits_exactly_max_calls
  (reg : gmap jsstring skill) (attempts : list (Z * call)) :
  (forall t t', t ∈ attempts.*1 -> t' ∈ attempts.*1 -> (t' - t <= WINDOW_MS)%Z) ->
  forall i t c, attempts !! i = Some (t, c) ->
    (run_attempts index_ui (mkEnv 0 [] reg) attempts).1 !! i =
      Some (if (i <? MAX_CALLS_PER_WINDOW)%nat
            then permitted_trace index_ui t (take (S i) attempts).*1 reg c
            else blocked_trace t (S i)).
Proof.
  intros Hw i t c Hi.
  rewrite (run_attempts_one_window 0 [] reg attempts) with (t := t) (c := c); [|auto|done].
  f_equal. unfold attempt_trace. cbn [app].
  assert (length (take (S i) attempts).*1 = S i) as ->.
  { rewrite length_fmap, length_take. apply lookup_lt_Some in Hi. lia. }
  unfold MAX_CALLS_PER_WINDOW.
  destruct (5 <? S i)%nat eqn:E1, (i <? 5)%nat eqn:E2; try done.
  - apply Nat.ltb_lt in E1, E2. lia.
  - apply Nat.ltb_ge in E1, E2. lia.
Qed.

Lemma breaker_permits_exactly_max_calls_witness :
  let a (n : Z) := (n, mkCall (decimal n) JNull [] []) in
  let attempts := [a 0%Z; a 100%Z; a 30000%Z; a 7%Z; a 29999%Z; a 5%Z; a 6%Z] in
  (run_attempts index_ui (mkEnv 0 [] ∅) attempts).1 !! 4%nat =
    Some (permitted_trace index_ui 29999 [0; 100; 30000; 7; 29999]%Z ∅ (a 29999%Z).2)
  /\ (run_attempts index_ui (mkEnv 0 [] ∅) attempts).1 !! 5%nat =
    Some (blocked_trace 5 6).
Proof.
  intros a attempts.
  assert (forall t t', t ∈ attempts.*1 -> t' ∈ attempts.*1 -> (t' - t <= WINDOW_MS)%Z) as Hw.
  { intros t t' Ht Ht'. unfold attempts, a, WINDOW_MS in *.
    repeat (rewrite fmap_cons in Ht, Ht'). rewrite fmap_nil in Ht, Ht'. cbn [fst] in Ht, Ht'.
    repeat (apply elem_of_cons in Ht as [->|Ht]);
      repeat (apply elem_of_cons in Ht' as [->|Ht']); try lia;
      try (by apply elem_of_nil in Ht); by apply elem_of_nil in Ht'. }
  split.
  - exact (breaker_permits_exactly_max_calls ∅ attempts Hw 4%nat _ _ eq_refl).
  - exact (breaker_permits_exactly_max_calls ∅ attempts Hw 5%nat _ _ eq_refl).
Defined.

Lemma run_attempts_app (h : host) (e : env) (l1 l2 : list (Z * call)) :
  run_attempts h e (l1 ++ l2) =
    ((run_attempts h e l1).1 ++ (run_attempts h (run_attempts h e l1).2 l2).1,
     (run_attempts h (run_attempts h e l1).2 l2).2).
Proof.
  revert e. induction l1 as [|[t c] r IH]; intros e.
  - simpl. by destruct (run_attempts h e l2).
  - rewrite <- app_comm_cons, !run_attempts_cons, IH. done.
Qed.

Lemma run_attempts_length (h : host) (e : env) (l : list (Z * call)) :
  length (run_attempts h e l).1 = length l.
Proof.
  revert e. induction l as [|[t c] r IH]; intros e; [done|].
  rewrite run_attempts_cons. simpl. by rewrite IH.
Qed.

(** The breaker state only ever holds timestamps of attempts made, and the
    attempts leave the registry alone. *)
Lemma run_attempts_state (n0 : Z) (ts0 : list Z) (reg : gmap jsstring skill)
  (l : list (Z * call)) :
  skills (run_attempts index_ui (mkEnv n0 ts0 reg) l).2 = reg
  /\ forall x, x ∈ recentCallTimestamps (run_attempts index_ui (mkEnv n0 ts0 reg) l).2 ->
               x ∈ ts0 ++ l.*1.
Proof.
  revert n0 ts0. induction l as [|[t c] r IH]; intros n0 ts0.
  - simpl. split; [done|]. intros x. by rewrite app_nil_r.
  - rewrite run_attempts_step. cbn [snd].
    destruct (IH t (prune t (ts0 ++ [t]))) as [IH1 IH2]. split; [done|].
    intros x Hx. apply IH2 in Hx. rewrite fmap_cons. cbn [fst].
    apply elem_of_app in Hx as [Hx|Hx].
    + pose proof (prune_suffix t (ts0 ++ [t])) as [pre Hpre].
      change (t :: r.*1) with ([t] ++ r.*1). rewrite app_assoc, Hpre.
      apply elem_of_app. left. apply elem_of_app. by right.
    + apply elem_of_app. right. by right.
Qed.

(** C7. There is no reset operation: the state is only changed by the push
    and the pruning of [bumpCircuitBreaker]. After any history of attempts,
    tripped or not, an attempt made when more than WINDOW_MS has passed
    since every earlier one finds all of them pruned: it is counted as the
    first, it is permitted, and the state is that one timestamp. *)
Theorem breaker_self_resets
  (reg : gmap jsstring skill) (history : list (Z * call)) (t : Z) (c : call) :
  (forall x, x ∈ history.*1 -> (WINDOW_MS < t - x)%Z) ->
  (run_attempts index_ui (mkEnv 0 [] reg) (history ++ [(t, c)])).1 !! length history =
    Some (permitted_trace index_ui t [t] reg c)
  /\ recentCallTimestamps
       (run_attempts index_ui (mkEnv 0 [] reg) (history ++ [(t, c)])).2 = [t].
Proof.
  intros Hold. rewrite run_attempts_app. cbn [fst snd].
  destruct (run_attempts_state 0 [] reg history) as [Hreg Hts].
  destruct (run_attempts index_ui (mkEnv 0 [] reg) history) as [trs [n1 ts1 reg1]] eqn:E.
  cbn [fst snd skills recentCallTimestamps] in *. subst reg1.
  rewrite run_attempts_step. cbn [fst snd run_attempts recentCallTimestamps].
  assert (prune t (ts1 ++ [t]) = [t]) as ->.
  { rewrite prune_old.
    - simpl. by rewrite Z.sub_diag.
    - apply Forall_forall. intros x Hx. by apply Hold, Hts. }
  split; [|done].
  assert (length trs = length history) as <-.
  { by rewrite <- (run_attempts_length index_ui (mkEnv 0 [] reg) history), E. }
  by rewrite list_lookup_middle.
Qed.

Lemma breaker_self_resets_witness :
  let a (n : Z) := (n, mkCall (lit "hello") JNull [] []) in
  let history := [a 0%Z; a 1%Z; a 2%Z; a 3%Z; a 4%Z; a 5%Z] in
  (run_attempts index_ui (mkEnv 0 [] ∅) history).1 !! 5%nat = Some (blocked_trace 5 6)
  /\ (run_attempts index_ui (mkEnv 0 [] ∅) (history ++ [a 30006%Z])).1 !! 6%nat =
       Some (permitted_trace index_ui 30006 [30006%Z] ∅ (a 0%Z).2).
Proof.
  intros a history. split; [reflexivity|].
  refine (proj1 (breaker_self_resets ∅ history 30006 (a 0%Z).2 _)).
  intros x Hx. unfold history, a, WINDOW_MS in *.
  repeat (rewrite fmap_cons in Hx). rewrite fmap_nil in Hx. cbn [fst] in Hx.
  repeat (apply elem_of_cons in Hx as [->|Hx]); try lia.
  by apply elem_of_nil in Hx.
Defined.

(** At the boundary the window is closed: a timestamp exactly WINDOW_MS
    old is kept, so six attempts at one instant still block the attempt
    made exactly WINDOW_MS later. *)
Example breaker_window_is_closed :
  let a (n : Z) := (n, mkCall (lit "hello") JNull [] []) in
  (run_attempts index_ui (mkEnv 0 [] ∅)
     [a 0%Z; a 0%Z; a 0%Z; a 0%Z; a 0%Z; a 0%Z; a WINDOW_MS]).1 !! 6%nat =
    Some (blocked_trace WINDOW_MS 7).
Proof. reflexivity. Qed.

(** On a non-decreasing history the head-first pruning keeps exactly the
    timestamps of the window. *)
Lemma prune_sorted (t : Z) (l : list Z) :
  StronglySorted Z.le l -> prune t l = window_of t l.
Proof.
  unfold window_of. induction 1 as [|x r Hr IH Hx]; [done|].
  simpl. rewrite filter_cons. destruct (WINDOW_MS <? t - x)%Z eqn:E.
  - apply Z.ltb_lt in E. rewrite decide_False by lia. done.
  - apply Z.ltb_ge in E. rewrite decide_True by done. f_equal.
    clear IH Hr. induction Hx as [|y r Hy _ IH]; [done|].
    rewrite filter_cons, decide_True by lia. by f_equal.
Qed.

Lemma window_of_sorted (t : Z) (l : list Z) :
  StronglySorted Z.le l -> StronglySorted Z.le (window_of t l).
Proof.
  unfold window_of. induction 1 as [|x r Hr IH Hx]; [constructor|].
  rewrite filter_cons. destruct (decide _); [|done].
  constructor; [done|]. apply Forall_forall. intros y Hy%list_elem_of_filter.
  rewrite Forall_forall in Hx. apply Hx, Hy.
Qed.

Lemma window_of_later (t0 t : Z) (l : list Z) :
  (t0 <= t)%Z -> window_of t (window_of t0 l) = window_of t l.
Proof.
  intros Ht. unfold window_of. rewrite list_filter_filter.
  apply list_filter_iff. intros x. lia.
Qed.

Lemma window_of_snoc (t : Z) (l : list Z) :
  window_of t (l ++ [t]) = window_of t l ++ [t].
Proof.
  unfold window_of. rewrite filter_app. f_equal.
  rewrite filter_cons, decide_True; [done|]. unfold WINDOW_MS. lia.
Qed.

Lemma run_attempts_sorted (past ts : list Z) (n0 : Z) (reg : gmap jsstring skill)
  (l : list (Z * call)) :
  StronglySorted Z.le (past ++ l.*1) ->
  (forall t, StronglySorted Z.le (past ++ [t]) ->
             prune t (ts ++ [t]) = window_of t (past ++ [t])) ->
  forall i t c, l !! i = Some (t, c) ->
    (run_attempts index_ui (mkEnv n0 ts reg) l).1 !! i =
      Some (attempt_trace t (window_of t (past ++ (take (S i) l).*1)) reg c).
Proof.
  revert past ts n0. induction l as [|[t0 c0] r IH]; intros past ts n0 Hs Hinv i t c Hi; [done|].
  rewrite run_attempts_step. cbn [fst].
  rewrite fmap_cons in Hs. cbn [fst] in Hs.
  change (t0 :: r.*1) with ([t0] ++ r.*1) in Hs. rewrite app_assoc in Hs.
  pose proof (StronglySorted_app_1_l _ _ _ Hs) as Hs0.
  rewrite (Hinv t0 Hs0).
  destruct i as [|i]; simpl in Hi.
  - by simplify_eq.
  - simpl. rewrite (IH (past ++ [t0]) _ t0 Hs) with (t := t) (c := c); [|..|done].
    + by rewrite <- app_assoc.
    + intros t' Hs'. rewrite prune_sorted.
      * rewrite !(window_of_snoc t'). f_equal. apply window_of_later.
        refine (StronglySorted_app_1_elem_of _ _ _ t0 t' Hs' _ _);
          [apply elem_of_app; right|]; by left.
      * apply StronglySorted_app in Hs' as (H1 & H2 & H3).
        apply StronglySorted_app_2; [|by apply window_of_sorted|done].
        intros x1 x2 Hx1 Hx2. apply H1; [|done].
        by apply list_elem_of_filter in Hx1 as [_ ?].
Qed.

(** C10. On a fresh engine and a clock that does not run backwards, the
    count an attempt is judged by is taken after its own timestamp is
    pushed, over the timestamps of all attempts of the window, whether they
    were permitted or refused. So an attempt that comes within WINDOW_MS
    of the attempt made MAX_CALLS_PER_WINDOW places before it is refused:
    while the attempts keep that rate the breaker stays tripped. *)
Theorem blocked_attempts_count_toward_window
  (reg : gmap jsstring skill) (attempts : list (Z * call)) :
  StronglySorted Z.le attempts.*1 ->
  forall i t c, attempts !! i = Some (t, c) ->
    let seen := window_of t (take (S i) attempts).*1 in
    last seen = Some t
    /\ (run_attempts index_ui (mkEnv 0 [] reg) attempts).1 !! i =
         Some (attempt_trace t seen reg c)
    /\ (forall t' c', (MAX_CALLS_PER_WINDOW <= i)%nat ->
          attempts !! (i - MAX_CALLS_PER_WINDOW)%nat = Some (t', c') ->
          (t - t' <= WINDOW_MS)%Z ->
          (run_attempts index_ui (mkEnv 0 [] reg) attempts).1 !! i =
            Some (blocked_trace t (length seen))).
Proof.
  intros Hs i t c Hi seen.
  assert ((take (S i) attempts).*1 = (take i attempts).*1 ++ [t]) as Htake.
  { by rewrite (take_S_r _ _ _ Hi), fmap_app. }
  assert ((run_attempts index_ui (mkEnv 0 [] reg) attempts).1 !! i =
            Some (attempt_trace t seen reg c)) as Hrun.
  { apply (run_attempts_sorted [] [] 0 reg attempts Hs); [|done].
    intros t0 _. apply prune_sorted. repeat constructor. }
  split; [|split; [done|]].
  - unfold seen. by rewrite Htake, window_of_snoc, last_snoc.
  - intros t' c' Hle Hi' Hw. rewrite Hrun. f_equal. unfold attempt_trace.
    assert (MAX_CALLS_PER_WINDOW < length seen)%nat as Hlen; [|by apply Nat.ltb_lt in Hlen as ->].
    set (k := (i - MAX_CALLS_PER_WINDOW)%nat) in *.
    assert (Forall (fun x => (t - x <= WINDOW_MS)%Z) (drop k (take (S i) attempts).*1)) as Hall.
    { apply Forall_forall. intros x Hx.
      apply list_elem_of_lookup in Hx as [j Hj]. rewrite lookup_drop in Hj.
      rewrite fmap_take, lookup_take_Some in Hj.
      destruct Hj as [Hj _].
      assert (attempts.*1 !! k = Some t') as Hk by (by rewrite list_lookup_fmap, Hi').
      enough (t' <= x)%Z by lia.
      destruct j as [|j]; [rewrite Nat.add_0_r in Hj; assert (x = t') by congruence; lia|].
      rewrite <- (take_drop_middle _ _ _ Hk) in Hs, Hj.
      apply StronglySorted_app_1_r, StronglySorted_cons in Hs as [Hs _].
      rewrite Forall_forall in Hs. apply Hs.
      rewrite lookup_app_r in Hj by (rewrite length_take; lia).
      rewrite length_take_le in Hj
        by (apply lookup_lt_Some in Hk; lia).
      replace (k + S j - k)%nat with (S j) in Hj by lia.
      simpl in Hj. by eapply list_elem_of_lookup_2. }
    unfold seen, window_of.
    rewrite <- (take_drop k (take (S i) attempts).*1), filter_app, length_app.
    assert (filter (fun x => (t - x <= WINDOW_MS)%Z) (drop k (take (S i) attempts).*1)
            = drop k (take (S i) attempts).*1) as ->.
    { clear -Hall. induction Hall as [|x r Hx _ IH]; [done|].
      by rewrite filter_cons, decide_True, IH. }
    rewrite length_drop, length_fmap, length_take.
    apply lookup_lt_Some in Hi. unfold k, MAX_CALLS_PER_WINDOW in *. lia.
Qed.

Lemma blocked_attempts_count_toward_window_witness :
  let a (n : Z) := (n, mkCall (lit "hello") JNull [] []) in
  let attempts := List.map (fun k => a (5000 * Z.of_nat k)%Z) (seq 0 10) in
  (run_attempts index_ui (mkEnv 0 [] ∅) attempts).1 !! 9%nat =
    Some (blocked_trace 45000 7).
Proof.
  intros a attempts.
  refine (proj2 (proj2 (blocked_attempts_count_toward_window ∅ attempts _ 9%nat 45000%Z
                          (a 0%Z).2 eq_refl)) 20000%Z (a 0%Z).2 _ eq_refl _).
  - unfold attempts, a. simpl. repeat constructor; lia.
  - unfold MAX_CALLS_PER_WINDOW. lia.
  - unfold WINDOW_MS. lia.
Defined.

(** ** The result of an invocation *)

Lemma exec_lookup_and_execute_ui (h : host) (e : env) (c : call) (s : skill) :
  ui_works h ->
  skills e !! skillName c = Some s ->
  enabled s = true ->
  exec h e (lookup_and_execute c) =
    (e,
     EUi (executing_notice (skillName c)) :: EInvoke (name s) (ctx_of c) ::
     match action s (ctx_of c) with
     | Returns v => [EMessage (result_message (skillName c) v); EGenerate; EDispose]
     | Throws f | Rejects f =>
         [EUi (failed_notice (skillName c));
          EMessage (failure_message (skillName c) f); EDispose]
     | Hangs => []
     end,
     match action s (ctx_of c) with
     | Hangs => None
     | _ => Some (inr tt)
     end).
Proof.
  intros Hui Hs Hen. unfold lookup_and_execute, mbind, prog_bind, ctx_of.
  cbn [bind perform exec do_op]. rewrite Hs. cbn [bind]. rewrite Hen.
  cbn [bind perform exec do_op finally try_catch]. rewrite !Hui.
  cbn [bind perform exec do_op finally try_catch].
  destruct (action s _); cbn [bind perform exec do_op finally try_catch];
    rewrite ?Hui; done.
Qed.

Lemma exec_lookup_and_execute (e : env) (c : call) (s : skill) :
  skills e !! skillName c = Some s ->
  enabled s = true ->
  (exec index_ui e (lookup_and_execute c)).1.2 =
    EUi (executing_notice (skillName c)) :: EInvoke (name s) (ctx_of c) ::
    match action s (ctx_of c) with
    | Returns v => [EMessage (result_message (skillName c) v); EGenerate; EDispose]
    | Throws f | Rejects f =>
        [EUi (failed_notice (skillName c));
         EMessage (failure_message (skillName c) f); EDispose]
    | Hangs => []
    end.
Proof.
  intros Hs Hen. by rewrite (exec_lookup_and_execute_ui index_ui e c s index_ui_works Hs Hen).
Qed.

Lemma or_else_nonempty (p fallback : jsstring) : p <> [] -> or_else p fallback = p.
Proof. by destruct p. Qed.

(** C6 (as amended). An invocation that reaches the handler of a
    registered, enabled skill. If the handler returns, the value's payload
    is delivered in one "Skill result" message, then the continuation is
    triggered and the toast disposed; a non-empty string is its own
    payload, a plain object or an array is serialized, and [undefined],
    [null] and the empty string give the marker "(empty result)". If the
    handler throws or rejects, one "Skill execution failed" message with
    the text of the fault (an Error's name, message and stack) is
    delivered and no continuation is triggered. *)
Theorem runSkill_delivers_outcome (e : env) (c : call) (s : skill) :
  reaches_handler e c s ->
  let ts := prune (now e) (recentCallTimestamps e ++ [now e]) in
  let events := (exec index_ui e (runSkill c)).1.2 in
  (forall v, action s (ctx_of c) = Returns v ->
     events = [EBump (now e) (length ts); EUi (executing_notice (skillName c));
               EInvoke (name s) (ctx_of c);
               EMessage (lines3 (lit "Skill result: " ++ skillName c) (lit "---")
                                (delivered_payload v));
               EGenerate; EDispose])
  /\ (forall f, action s (ctx_of c) = Throws f \/ action s (ctx_of c) = Rejects f ->
     events = [EBump (now e) (length ts); EUi (executing_notice (skillName c));
               EInvoke (name s) (ctx_of c);
               EUi (failed_notice (skillName c));
               EMessage (lines3 (lit "Skill execution failed: " ++ skillName c) (lit "---")
                                (or_else (errorText f) (lit "(unknown error)")));
               EDispose]
     /\ EGenerate ∉ events)
  /\ (forall p, p <> [] -> delivered_payload (JStr p) = p)
  /\ (forall v p, isPlainObject v || isArray v = true ->
        JSON_stringify 2 v = SerStr p -> delivered_payload v = p)
  /\ delivered_payload JUndefined = empty_result_marker
  /\ delivered_payload JNull = empty_result_marker
  /\ delivered_payload (JStr []) = empty_result_marker
  /\ (forall n m stack, errorText (ErrorObject n m stack)
                        = trim (n ++ lit ": " ++ m ++ [10%N] ++ stack)).
Proof.
  intros (Hcount & Hs & Hen) ts events.
  assert (events = EBump (now e) (length ts)
            :: (exec index_ui (mkEnv (now e) ts (skills e)) (lookup_and_execute c)).1.2) as Hev.
  { unfold events. rewrite exec_runSkill. fold ts. cbn zeta.
    apply Nat.ltb_ge in Hcount. fold ts in Hcount. by rewrite Hcount. }
  rewrite (exec_lookup_and_execute (mkEnv (now e) ts (skills e)) c s Hs Hen) in Hev.
  repeat split.
  - intros v Hv. by rewrite Hev, Hv.
  - destruct H as [Hf|Hf]; by rewrite Hev, Hf.
  - destruct H as [Hf|Hf]; rewrite Hev, Hf; intros Hin;
      repeat (apply elem_of_cons in Hin as [Hin|Hin]; [discriminate|]);
      by apply elem_of_nil in Hin.
  - intros p Hp. unfold delivered_payload. simpl. by apply or_else_nonempty.
  - intros v p Hv Hp. unfold delivered_payload, payload_of.
    assert (safeJsonStringify v = Some p) as Hsafe by (unfold safeJsonStringify; by rewrite Hp).
    assert (p <> []) as Hne.
    { intros ->. unfold JSON_stringify in Hp.
      destruct v; try discriminate; simpl in Hp.
      - destruct (ser_elements _ items) as [parts|] in Hp; [|discriminate].
        injection Hp as Hp. unfold wrap_members in Hp.
        destruct parts; [discriminate|]. discriminate.
      - destruct (ser_members _ _ fields) as [parts|] in Hp; [|discriminate].
        injection Hp as Hp. unfold wrap_members in Hp.
        destruct parts; [discriminate|]. discriminate. }
    destruct v; try discriminate; simpl; rewrite Hsafe; by apply or_else_nonempty.
Qed.

Lemma runSkill_delivers_outcome_witness :
  (exec index_ui (mkEnv 0 [] demo_registry) (runSkill (call_of "hello"))).1.2 =
    [EBump 0 1; EUi (executing_notice (lit "hello"));
     EInvoke (lit "hello") (ctx_of (call_of "hello"));
     EMessage (lit "Skill result: hello" ++ [10%N] ++ lit "---" ++ [10%N] ++ lit "Hello, X!");
     EGenerate; EDispose].
Proof.
  refine (proj1 (runSkill_delivers_outcome (mkEnv 0 [] demo_registry) (call_of "hello")
                   hello_skill _) (JStr (lit "Hello, X!")) eq_refl).
  repeat split. vm_compute. lia.
Defined.

(** C6, the claim as stated fails: a handler that returns the empty string
    gets the marker delivered, not its string. *)
Lemma success_contract_counterexample : ~ success_contract_as_stated.
Proof.
  intros H.
  specialize (H (mkEnv 0 [] demo_registry) (call_of "silent") silent_skill (JStr []) []).
  assert (reaches_handler (mkEnv 0 [] demo_registry) (call_of "silent") silent_skill) as Hr.
  { repeat split. vm_compute. lia. }
  specialize (H Hr eq_refl eq_refl).
  vm_compute in H.
  repeat (apply elem_of_cons in H as [H|H]; [discriminate|]).
  by apply elem_of_nil in H.
Qed.

(** ** Strings *)

Lemma lit_inj (a b : string) : lit a = lit b -> a = b.
Proof.
  unfold lit. intros H.
  rewrite <- (string_of_list_ascii_of_string a), <- (string_of_list_ascii_of_string b).
  f_equal. revert H. generalize (list_ascii_of_string a) (list_ascii_of_string b).
  induction l as [|x l IH]; intros [|y l'] H; try discriminate; [done|].
  injection H as Hxy Hl. f_equal; [|by apply IH].
  by rewrite <- (ascii_N_embedding x), <- (ascii_N_embedding y), Hxy.
Qed.

Lemma decimal_inj (a b : Z) : decimal a = decimal b -> a = b.
Proof.
  unfold decimal. intros H%lit_inj. apply DecimalZ.to_int_inj.
  assert (forall z, Z.to_int z <> Decimal.Pos Decimal.Nil /\ Z.to_int z <> Decimal.Neg Decimal.Nil) as Hnn.
  { intros [|p|p]; simpl; split; try discriminate;
      intros [= Hp]; by apply (DecimalPos.Unsigned.to_uint_nonnil p). }
  destruct (Hnn a) as [Ha1 Ha2], (Hnn b) as [Hb1 Hb2].
  pose proof (NilZero.isi _ Ha1 Ha2) as Ea. pose proof (NilZero.isi _ Hb1 Hb2) as Eb.
  rewrite H in Ea. congruence.
Qed.

Lemma trim_start_id (s : jsstring) :
  match s with [] => True | c :: _ => is_space c = false end -> trim_start s = s.
Proof. destruct s as [|c r]; [done|]. simpl. by intros ->. Qed.

Lemma trim_start_split (s : jsstring) :
  exists ws, s = ws ++ trim_start s /\ forallb is_space ws = true.
Proof.
  induction s as [|c r (ws & E & Hws)]; [by exists []|].
  simpl. destruct (is_space c) eqn:Ec.
  - exists (c :: ws). simpl. rewrite Ec. split; [by f_equal|done].
  - by exists [].
Qed.

Lemma trim_start_head (s : jsstring) :
  match trim_start s with [] => True | c :: _ => is_space c = false end.
Proof.
  induction s as [|c r IH]; [done|]. simpl. destruct (is_space c) eqn:Ec; [done|].
  by rewrite Ec.
Qed.

Lemma trim_start_blank_app (ws s : jsstring) :
  forallb is_space ws = true -> trim_start (ws ++ s) = trim_start s.
Proof.
  induction ws as [|c ws IH]; [done|]. cbn [forallb app trim_start].
  intros [-> H]%andb_true_iff. by apply IH.
Qed.

Lemma trim_start_idem (s : jsstring) : trim_start (trim_start s) = trim_start s.
Proof. apply trim_start_id, trim_start_head. Qed.

Lemma trim_end_split (s : jsstring) :
  exists ws, s = trim_end s ++ ws /\ forallb is_space ws = true.
Proof.
  destruct (trim_start_split (rev s)) as (ws & E & Hws).
  exists (rev ws). split.
  - unfold trim_end. rewrite <- rev_app_distr, <- E. by rewrite rev_involutive.
  - rewrite forallb_forall in *. intros x Hx%in_rev. by apply Hws.
Qed.

Lemma trim_end_idem (s : jsstring) : trim_end (trim_end s) = trim_end s.
Proof. unfold trim_end. by rewrite rev_involutive, trim_start_idem. Qed.

Lemma trim_end_head (c : N) (r : jsstring) :
  is_space c = false -> exists r', trim_end (c :: r) = c :: r'.
Proof.
  intros Hc. destruct (trim_end_split (c :: r)) as (ws & E & Hws).
  destruct (trim_end (c :: r)) as [|c' r'] eqn:Et.
  - simpl in E. subst ws. simpl in Hws. by rewrite Hc in Hws.
  - injection E as -> _. by exists r'.
Qed.

Lemma trim_idem (s : jsstring) : trim (trim s) = trim s.
Proof.
  unfold trim. pose proof (trim_start_head s) as Hh.
  destruct (trim_start s) as [|c r]; [done|].
  destruct (trim_end_head c r Hh) as [r' E].
  rewrite (trim_start_id (trim_end (c :: r))) by (by rewrite E).
  apply trim_end_idem.
Qed.

Lemma trim_id (c : N) (s : jsstring) :
  is_space c = false ->
  match rev (c :: s) with [] => True | d :: _ => is_space d = false end ->
  trim (c :: s) = c :: s.
Proof.
  intros Hc Hd. unfold trim. rewrite (trim_start_id (c :: s)) by done.
  unfold trim_end. rewrite trim_start_id by done. apply rev_involutive.
Qed.

Lemma trim_no_space (s : jsstring) :
  Forall (fun c => is_space c = false) s -> trim s = s.
Proof.
  intros H. destruct s as [|c r]; [done|].
  apply trim_id; [by inversion H|].
  apply Forall_rev in H. by destruct H.
Qed.

Lemma decimal_no_space (z : Z) : Forall (fun c => is_space c = false) (decimal z).
Proof.
  assert (forall d, Forall (fun c => is_space c = false) (lit (NilEmpty.string_of_uint d))) as Hu.
  { induction d; simpl; constructor; done. }
  assert (forall d, Forall (fun c => is_space c = false) (lit (NilZero.string_of_uint d))) as Hz.
  { intros d. destruct d; try apply Hu. by repeat constructor. }
  unfold decimal. destruct (Z.to_int z) as [d|d]; simpl; [apply Hz|].
  constructor; [done|apply Hz].
Qed.

(** ** The registry *)

Lemma generated_name_trimmed (t : Z) :
  trim (lit "unnamed_" ++ decimal (t / 1000)) = lit "unnamed_" ++ decimal (t / 1000).
Proof.
  apply trim_no_space, Forall_app. split; [by repeat constructor|apply decimal_no_space].
Qed.

(** C9 (as amended). [register] never throws; what it does depends on
    whether its argument can be read. When reading the argument throws (a
    throwing getter, a revoked proxy), it returns [null] and the registry
    is left as it was. For every other argument, a plain object or not,
    the descriptor it builds is stored under the name it returns, and
    nothing else in the registry changes. The name returned is not empty
    and has no blank margin; it is the trimmed name given, or, for a blank
    or missing one, "unnamed_" followed by the clock's second. Two
    blank-name registrations get different names exactly when the clock's
    second differs. *)
Theorem register_total (arg : register_arg) (t : Z) (reg : gmap jsstring skill) :
  let reg' := (register arg t reg).1 in
  let r := (register arg t reg).2 in
  match arg with
  | Unreadable _ => r = None /\ reg' = reg
  | Reads skillConfig =>
      let given := trim (safeString (cfg_name (default empty_config skillConfig)) []) in
      exists n s,
        r = Some n
        /\ normalizeConfig arg t = inr s
        /\ reg' !! n = Some s
        /\ name s = n
        /\ (forall k, k <> n -> reg' !! k = reg !! k)
        /\ n <> [] /\ trim n = n
        /\ (given <> [] -> n = given)
        /\ (blank_name skillConfig -> n = lit "unnamed_" ++ decimal (t / 1000))
        /\ description s <> []
        /\ (forall cfg2 t2, blank_name skillConfig -> blank_name cfg2 ->
              (register (Reads cfg2) t2 reg').2 = Some n <-> (t2 / 1000 = t / 1000)%Z)
  end.
Proof.
  intros reg' r. destruct arg as [skillConfig|err]; [|done].
  intros given. unfold r, reg', register. cbn [normalizeConfig fst snd].
  set (n := match trim (safeString (cfg_name (default empty_config skillConfig)) []) with
            | [] => lit "unnamed_" ++ decimal (t / 1000)
            | _ :: _ => trim (safeString (cfg_name (default empty_config skillConfig)) [])
            end).
  fold given in n.
  assert (forall cfg t0, blank_name cfg ->
            match trim (safeString (cfg_name (default empty_config cfg)) []) with
            | [] => lit "unnamed_" ++ decimal (t0 / 1000)
            | _ :: _ => trim (safeString (cfg_name (default empty_config cfg)) [])
            end = lit "unnamed_" ++ decimal (t0 / 1000)) as Hblank.
  { intros cfg t0 Hb. unfold blank_name in Hb. by rewrite Hb. }
  eexists n, _. split_and!; [done|done|..]; cbn [name description].
  - apply lookup_insert_eq.
  - done.
  - intros k Hk. by apply lookup_insert_ne.
  - unfold n. by destruct given.
  - unfold n. destruct given eqn:E; [apply generated_name_trimmed|].
    rewrite <- E. apply trim_idem.
  - unfold n. by destruct given.
  - intros Hb. by apply Hblank.
  - by destruct (trim (safeString (cfg_description _) [])).
  - intros cfg2 t2 Hb Hb2. unfold n, given.
    rewrite (Hblank cfg2 t2 Hb2), (Hblank skillConfig t Hb). split.
    + intros [= H]. by apply decimal_inj.
    + by intros ->.
Qed.

(** A call whose argument cannot be read is answered with [null], and the
    skills registered before are still there. *)
Example register_unreadable :
  register (Unreadable (ErrorObject (lit "TypeError") (lit "proxy has been revoked") []))
           0 demo_registry
  = (demo_registry, None).
Proof. reflexivity. Qed.

(** C9, the claim as stated fails: two blank-name registrations within
    one second of the clock return the same name, and the second
    descriptor replaces the first. *)
Lemma generated_names_unique_counterexample : ~ generated_names_unique_as_stated.
Proof.
  intros H.
  apply (H ∅ None (Some (mkConfig (JStr (lit "  ")) (JStr (lit "second")) None JUndefined))
           1000%Z 1999%Z); [reflexivity|reflexivity|lia|reflexivity].
Qed.

(** ** The execution lane *)

Lemma omap_app_event {B : Type} (f : event -> option B) (l1 l2 : list event) :
  omap f (l1 ++ l2) = omap f l1 ++ omap f l2.
Proof. apply omap_app. Qed.

Lemma body_projections (evs : list event) :
  Forall is_body evs ->
  enqueued evs = [] /\ started evs = [] /\ ended evs = [] /\ skipped evs = [].
Proof.
  induction 1 as [|ev r Hev _ (I1 & I2 & I3 & I4)]; [done|].
  unfold enqueued, started, ended, skipped in *.
  destruct ev; try done; cbn [omap list_omap]; by rewrite I1, I2, I3, I4.
Qed.

Lemma serial_from_app (a b c : option call) (tr1 tr2 : list event) :
  serial_from a tr1 b -> serial_from b tr2 c -> serial_from a (tr1 ++ tr2) c.
Proof.
  revert a. induction tr1 as [|ev r IH]; intros a H1 H2; simpl in *.
  - by subst.
  - destruct ev; try (destruct H1 as [H1 H1']; split; [done|]); by eapply IH.
Qed.

Lemma serial_from_body (c : call) (evs : list event) :
  Forall is_body evs -> serial_from (Some c) evs (Some c).
Proof.
  induction 1 as [|ev r Hev _ IH]; [done|].
  destruct ev; try done; simpl; by split.
Qed.

Lemma do_op_body (h : host) (e : env) {X : Type} (o : op X) :
  Forall is_body (do_op h e o).1.2.
Proof.
  destruct o; simpl; try (by repeat constructor).
  by destruct (ui_fault h n); repeat constructor.
Qed.

Lemma advance_body (h : host) (e : env) (p : prog unit) :
  Forall is_body (advance h e p).1.2.
Proof.
  revert e. induction p as [a|f|X o k IH]; intros e; simpl; try by constructor.
  pose proof (do_op_body h e o) as Ho.
  destruct (do_op h e o) as [[e' evs] [r|r|]]; simpl in *; try done.
  specialize (IH r e'). destruct (advance h e' (k r)) as [[e'' evs'] st].
  simpl in *. by apply Forall_app.
Qed.

Lemma exec_body {A : Type} (h : host) (e : env) (p : prog A) :
  Forall is_body (exec h e p).1.2.
Proof.
  revert e. induction p as [a|f|X o k IH]; intros e; simpl; try by constructor.
  pose proof (do_op_body h e o) as Ho.
  destruct (do_op h e o) as [[e' evs] [r|r|]]; simpl in *; try done.
  - specialize (IH r e'). destruct (exec h e' (k r)) as [[e'' evs'] st].
    simpl in *. by apply Forall_app.
  - specialize (IH r e'). destruct (exec h e' (k r)) as [[e'' evs'] st].
    simpl in *. by apply Forall_app.
Qed.

(** Induction along a lane built by [enqueue]. *)
Lemma lane_ok_induction (P : promise -> Prop) :
  P PResolved ->
  (forall p c st b, lane_ok p -> P p -> lane_ok (PCatch (PThen p c st) b) ->
                    P (PCatch (PThen p c st) b)) ->
  forall q, lane_ok q -> P q.
Proof.
  intros H0 H1. fix IH 1. intros [|p c st|[|p c st|p b'] b] Hq; try done.
  apply H1; [apply Hq|apply IH, Hq|done].
Qed.

Lemma lane_ok_settled (q : promise) : lane_ok q -> settled q <> Some false.
Proof. destruct q as [|p c st|p [|]]; simpl; done. Qed.

(** In a lane whose last promise is fulfilled everything has run. *)
Lemma lane_settled_all (q : promise) :
  lane_ok q -> settled q = Some true ->
  started_calls q = calls q /\ ended_calls q = calls q /\ active q = None
  /\ forall h e, lane_step h e q = None.
Proof.
  induction 1 as [|p c st b Hp IH Hq] using lane_ok_induction; [done|].
  intros Hs. destruct b; [|done]. destruct Hq as (_ & Hsk & Hst).
  destruct (settled p) as [[|]|] eqn:Ep; try (by destruct Hst).
  destruct (IH eq_refl) as (I1 & I2 & I3 & I4).
  destruct (Hst eq_refl) as [-> | ->]; simpl; rewrite ?I1, ?I2, ?I3, ?Ep; done.
Qed.

Lemma job_turn_facts (c : call) (evs : list event) (s : status) :
  Forall is_body evs ->
  enqueued (evs ++ end_events c s) = []
  /\ skipped (evs ++ end_events c s) = []
  /\ started (evs ++ end_events c s) = []
  /\ ended (evs ++ end_events c s) = match s with Finished _ => [c] | _ => [] end
  /\ serial_from (Some c) (evs ++ end_events c s)
       match s with Finished _ => None | _ => Some c end.
Proof.
  intros Hb. destruct (body_projections evs Hb) as (P1 & P2 & P3 & P4).
  unfold enqueued, started, ended, skipped in *.
  rewrite !omap_app, P1, P2, P3, P4.
  split_and!; try by destruct s as [[|]| |].
  eapply serial_from_app; [by apply serial_from_body|].
  by destruct s as [[|]| |].
Qed.

Lemma state_of_facts (s : status) :
  state_of s <> TSkipped /\ state_of s <> TWaiting
  /\ match s with
     | Finished _ => state_of s = TFulfilled \/ state_of s = TRejected
     | _ => settled (PThen PResolved (mkCall [] JNull [] []) (state_of s)) = None
     end.
Proof. destruct s as [[|]| |]; simpl; split_and!; try done; auto. Qed.

(** What one turn of the lane preserves and adds. *)
Lemma lane_step_inv (h : host) (e e' : env) (q q' : promise) (evs : list event) :
  lane_ok q ->
  lane_step h e q = Some (e', evs, q') ->
  lane_ok q' /\ settled q = None
  /\ calls q' = calls q
  /\ started_calls q' = started_calls q ++ started evs
  /\ ended_calls q' = ended_calls q ++ ended evs
  /\ enqueued evs = [] /\ skipped evs = []
  /\ serial_from (active q) evs (active q').
Proof.
  intros Hq. revert e' evs q'.
  induction Hq as [|p c st b Hp IH Hq] using lane_ok_induction; [done|].
  intros e' evs q' Hstep. destruct Hq as (_ & Hsk & Hst).
  destruct (settled p) as [[|]|] eqn:Ep; [| by destruct (lane_ok_settled p Hp) |].
  - (* the parent is fulfilled *)
    destruct (lane_settled_all p Hp Ep) as (A1 & A2 & A3 & _).
    destruct st as [|rest| | | |]; cbn [lane_step settled] in Hstep;
      rewrite ?Ep in Hstep; try done.
    + (* the callback is called *)
      assert (b = false) as -> by (destruct b; [by destruct Hst|done]).
      pose proof (advance_body h e (runSkill c)) as Hb.
      destruct (advance h e (runSkill c)) as [[e1 evs1] s]. simpl in Hb.
      injection Hstep as <- <- <-.
      destruct (job_turn_facts c evs1 s Hb) as (F1 & F2 & F3 & F4 & F5).
      destruct (state_of_facts s) as (S1 & S2 & S3).
      unfold enqueued, started, ended, skipped in *. cbn [omap list_omap].
      rewrite F1, F2, F3, F4. simpl. rewrite Ep, A3.
      split_and!; try done;
        destruct s as [[|]| |]; simpl in *; rewrite ?app_nil_r in *;
        rewrite ?A3; try done; auto.
    + (* runSkill resumes *)
      assert (b = false) as -> by (destruct b; [by destruct Hst|done]).
      pose proof (advance_body h e rest) as Hb.
      destruct (advance h e rest) as [[e1 evs1] s]. simpl in Hb.
      injection Hstep as <- <- <-.
      destruct (job_turn_facts c evs1 s Hb) as (F1 & F2 & F3 & F4 & F5).
      destruct (state_of_facts s) as (S1 & S2 & S3).
      rewrite F1, F2, F3, F4. simpl. rewrite Ep.
      split_and!; try done;
        destruct s as [[|]| |]; simpl in *; rewrite ?app_nil_r in *;
        rewrite ?A3; try done; auto.
    + (* the catch passes the fulfilment on *)
      destruct b; [done|]. injection Hstep as <- <- <-.
      simpl. rewrite Ep, !app_nil_r. split_and!; auto.
    + (* the catch absorbs the rejection *)
      destruct b; [done|]. injection Hstep as <- <- <-.
      simpl. rewrite Ep, !app_nil_r. split_and!; auto.
  - (* the parent is pending: the turn is taken inside it *)
    destruct Hst as [-> ->]. cbn [lane_step settled] in Hstep. rewrite Ep in Hstep.
    destruct (lane_step h e p) as [[[e1 evs1] p1]|] eqn:Estep; [|done].
    injection Hstep as <- <- <-.
    destruct (IH _ _ _ eq_refl) as (I1 & I2 & I3 & I4 & I5 & I6 & I7 & I8).
    simpl. rewrite I3. split_and!; try done.
    by destruct (settled p1) as [[|]|].
Qed.

Lemma lane_ok_enqueue (c : call) (q : promise) : lane_ok q -> lane_ok (enqueue c q).
Proof.
  intros Hq. simpl. split_and!; [done..|].
  pose proof (lane_ok_settled q Hq). by destruct (settled q) as [[|]|].
Qed.

(** What every execution keeps true: the lane mirrors the trace. *)
Lemma steps_inv (h : host) (t0 : Z) (tr : list event) (w : world) :
  steps h (init t0) tr w ->
  lane_ok (queue w)
  /\ enqueued tr = calls (queue w)
  /\ started tr = started_calls (queue w)
  /\ ended tr = ended_calls (queue w)
  /\ skipped tr = []
  /\ serial_from None tr (active (queue w)).
Proof.
  remember (init t0) as w0 eqn:E.
  induction 1 as [w|w w' w'' tr evs Hsteps IH Hstep]; subst; [done|].
  destruct (IH eq_refl) as (I1 & I2 & I3 & I4 & I5 & I6). clear IH.
  unfold enqueued, started, ended, skipped in *. rewrite !omap_app.
  destruct Hstep as [x w'|w' e' evs q' Hlane].
  - destruct x; simpl; rewrite ?app_nil_r; try done.
    rewrite I2, I3, I4, I5. split_and!; try done.
    + by apply (lane_ok_enqueue c).
    + by eapply serial_from_app.
  - destruct (lane_step_inv _ _ _ _ _ _ I1 Hlane) as (L1 & L2 & L3 & L4 & L5 & L6 & L7 & L8).
    unfold enqueued, started, ended, skipped in *. simpl.
    rewrite I2, I3, I4, I5, L3, L4, L5, L6, L7, !app_nil_r.
    split_and!; try done. by eapply serial_from_app.
Qed.

Lemma lane_order (q : promise) :
  lane_ok q ->
  started_calls q `prefix_of` calls q /\ ended_calls q `prefix_of` started_calls q.
Proof.
  induction 1 as [|p c st b Hp [IH1 IH2] Hq] using lane_ok_induction; [done|].
  destruct Hq as (_ & Hsk & Hst).
  destruct (settled p) as [[|]|] eqn:Ep.
  - destruct (lane_settled_all p Hp Ep) as (A1 & A2 & _).
    destruct st; simpl; rewrite ?A1, ?A2; split; try done;
      by apply prefix_app_r.
  - destruct Hst as [-> ->]. simpl. split; [by apply prefix_app_r|done].
  - destruct Hst as [-> ->]. simpl. split; [by apply prefix_app_r|done].
Qed.

Lemma run_schedule_steps (h : host) (sched : list turn) (w0 w : world) (tr0 : list event) :
  steps h w0 tr0 w ->
  steps h w0 (tr0 ++ (run_schedule h sched w).2) (run_schedule h sched w).1.
Proof.
  revert w tr0. induction sched as [|[x|] r IH]; intros w tr0 H; simpl.
  - by rewrite app_nil_r.
  - specialize (IH (apply_external x w) (tr0 ++ external_events x)).
    destruct (run_schedule h r (apply_external x w)) as [w' tr]. simpl in *.
    rewrite app_assoc. apply IH. eapply steps_snoc; [done|constructor].
  - destruct (lane_step h (w_env w) (queue w)) as [[[e' evs] q']|] eqn:E; [|by apply IH].
    specialize (IH (mkWorld e' q') (tr0 ++ evs)).
    destruct (run_schedule h r (mkWorld e' q')) as [w' tr]. simpl in *.
    rewrite app_assoc. apply IH. eapply steps_snoc; [done|by constructor].
Qed.

(** C1. In every execution, external events (among them further calls of
    [enqueue] while an invocation is running) and turns of the lane in any
    order, on any host and with any handlers: no invocation starts before
    the one running has ended, the invocations start in the order of their
    [enqueue], and they end in the order they started. *)
Theorem lane_is_serial_and_fifo (h : host) (t0 : Z) (tr : list event) (w : world) :
  steps h (init t0) tr w ->
  serial tr
  /\ started tr `prefix_of` enqueued tr
  /\ ended tr `prefix_of` started tr.
Proof.
  intros Hsteps.
  destruct (steps_inv h t0 tr w Hsteps) as (I1 & I2 & I3 & I4 & I5 & I6).
  destruct (lane_order (queue w) I1) as [O1 O2].
  rewrite I2, I3, I4. split_and!; [by eexists|done|done].
Qed.

Lemma lane_is_serial_and_fifo_witness :
  let sched := [External (XRegister (Reads (Some (mkConfig (JStr (lit "hello")) JUndefined
                                             (Some (action hello_skill)) JUndefined))));
                External (XEnqueue (call_of "hello")); Lane;
                External (XEnqueue (call_of "ghost"));
                External (XEnqueue (call_of "hello")); Lane; Lane; Lane; Lane; Lane; Lane] in
  let tr := (run_schedule index_ui sched (init 0)).2 in
  started tr = [call_of "hello"; call_of "ghost"]
  /\ serial tr
  /\ started tr `prefix_of` enqueued tr.
Proof.
  intros sched tr. split; [reflexivity|].
  pose proof (lane_is_serial_and_fifo index_ui 0 tr (run_schedule index_ui sched (init 0)).1
                (run_schedule_steps index_ui sched (init 0) (init 0) [] (steps_refl _ _)))
    as (H1 & H2 & _).
  by split.
Defined.

Lemma lane_step_running (h : host) (e : env) (q0 : promise) (c : call) (p : prog unit) :
  settled q0 = Some true ->
  lane_step h e (PCatch (PThen q0 c (TRunning p)) false) =
    Some ((advance h e p).1.1,
          (advance h e p).1.2 ++ end_events c (advance h e p).2,
          PCatch (PThen q0 c (state_of (advance h e p).2)) false).
Proof.
  intros Hq. cbn [lane_step settled]. rewrite Hq.
  by destruct (advance h e p) as [[e' evs] s].
Qed.

Lemma lane_step_waiting (h : host) (e : env) (q0 : promise) (c : call) :
  settled q0 = Some true ->
  lane_step h e (PCatch (PThen q0 c TWaiting) false) =
    Some ((advance h e (runSkill c)).1.1,
          EStart c :: (advance h e (runSkill c)).1.2
            ++ end_events c (advance h e (runSkill c)).2,
          PCatch (PThen q0 c (state_of (advance h e (runSkill c)).2)) false).
Proof.
  intros Hq. cbn [lane_step settled]. rewrite Hq.
  by destruct (advance h e (runSkill c)) as [[e' evs] s].
Qed.

Lemma lane_run_trans (h : host) (a b c : world) (tr1 tr2 : list event) :
  lane_run h a tr1 b -> lane_run h b tr2 c -> lane_run h a (tr1 ++ tr2) c.
Proof.
  induction 1 as [w|w w'' e' evs tr q' Hstep Hrun IH]; intros H2; [done|].
  rewrite <- app_assoc. eapply lane_run_step; [done|by apply IH].
Qed.

Lemma lane_run_inv (h : host) (w w'' : world) (tr : list event) :
  lane_run h w tr w'' ->
  (w = w'' /\ tr = [])
  \/ exists e' evs q' tr',
       lane_step h (w_env w) (queue w) = Some (e', evs, q')
       /\ lane_run h (mkWorld e' q') tr' w'' /\ tr = evs ++ tr'.
Proof. destruct 1; [by left|right; eauto 10]. Qed.

(** A suspended [runSkill] that does not hang runs to its end, turn after
    turn, with the events of [exec]. *)
Lemma lane_run_job (h : host) (q0 : promise) (c : call) (p : prog unit) :
  settled q0 = Some true ->
  forall e e2 evs r,
    exec h e p = (e2, evs, Some r) ->
    lane_run h (mkWorld e (PCatch (PThen q0 c (TRunning p)) false))
             (evs ++ [EEnd c (is_ok r)])
             (mkWorld e2 (PCatch (PThen q0 c (state_of (Finished r))) false)).
Proof.
  intros Hq. induction p as [a|f|X o k IH]; intros e e2 evs r Hexec.
  - injection Hexec as <- <- <-.
    rewrite <- (app_nil_r ([] ++ _)). eapply lane_run_step; [|constructor].
    cbn [w_env queue]. by rewrite lane_step_running.
  - injection Hexec as <- <- <-.
    rewrite <- (app_nil_r ([] ++ _)). eapply lane_run_step; [|constructor].
    cbn [w_env queue]. by rewrite lane_step_running.
  - cbn [exec] in Hexec.
    destruct (do_op h e o) as [[e' evs_o] [r0|r0|]] eqn:Eop; [| |done].
    + (* the operation answers at once: the same turn goes on *)
      destruct (exec h e' (k r0)) as [[e3 evs'] res] eqn:Ek.
      injection Hexec as <- <- ->.
      specialize (IH r0 e' e3 evs' r Ek).
      apply lane_run_inv in IH as [[Hw Htr]|(e1 & evs1 & q1 & tr' & Hstep & Htail & Htr)].
      { by destruct evs'. }
      cbn [w_env queue] in Hstep. rewrite lane_step_running in Hstep by done.
      injection Hstep as <- <- <-.
      rewrite <- app_assoc, Htr, app_assoc.
      eapply lane_run_step; [|done].
      cbn [w_env queue]. rewrite lane_step_running by done.
      cbn [advance]. rewrite Eop.
      destruct (advance h e' (k r0)) as [[e'' evs''] st]. cbn [fst snd].
      by rewrite <- app_assoc.
    + (* the operation is awaited: runSkill is suspended *)
      destruct (exec h e' (k r0)) as [[e3 evs'] res] eqn:Ek.
      injection Hexec as <- <- ->.
      specialize (IH r0 e' e3 evs' r Ek).
      rewrite <- app_assoc.
      eapply lane_run_step; [|done].
      cbn [w_env queue]. rewrite lane_step_running by done.
      cbn [advance]. rewrite Eop. cbn [fst snd end_events state_of].
      by rewrite app_nil_r.
Qed.

Lemma lane_step_enqueue (h : host) (e e' : env) (q q' : promise) (evs : list event)
  (c : call) :
  lane_ok q ->
  lane_step h e q = Some (e', evs, q') ->
  lane_step h e (enqueue c q) = Some (e', evs, enqueue c q').
Proof.
  intros Hq Hstep.
  destruct (lane_step_inv _ _ _ _ _ _ Hq Hstep) as (_ & Hs & _).
  unfold enqueue. cbn [lane_step settled]. by rewrite Hs, Hstep.
Qed.

Lemma lane_run_ok (h : host) (w w' : world) (tr : list event) :
  lane_run h w tr w' -> lane_ok (queue w) -> lane_ok (queue w').
Proof.
  induction 1 as [w|w w'' e' evs tr q' Hstep Hrun IH]; [done|].
  intros Hq. apply IH. by destruct (lane_step_inv _ _ _ _ _ _ Hq Hstep).
Qed.

(** A call enqueued behind pending work does not change that work. *)
Lemma lane_run_enqueue (h : host) (w w' : world) (tr : list event) (c : call) :
  lane_run h w tr w' ->
  lane_ok (queue w) ->
  lane_run h (apply_external (XEnqueue c) w) tr (apply_external (XEnqueue c) w').
Proof.
  induction 1 as [w|w w'' e' evs tr q' Hstep Hrun IH]; intros Hq; [constructor|].
  eapply lane_run_step.
  - cbn [apply_external w_env queue]. by apply lane_step_enqueue.
  - apply IH. by destruct (lane_step_inv _ _ _ _ _ _ Hq Hstep).
Qed.

(** A call enqueued on an idle lane is run at once, to its end, and the
    lane is idle again, whether [runSkill] returned or threw. *)
Lemma lane_run_call (h : host) (e e2 : env) (q0 : promise) (c : call)
  (evs : list event) (r : fault + unit) :
  settled q0 = Some true ->
  exec h e (runSkill c) = (e2, evs, Some r) ->
  lane_run h (mkWorld e (enqueue c q0))
           (EStart c :: evs ++ EEnd c (is_ok r) :: catch_events r)
           (mkWorld e2 (PCatch (PThen q0 c (state_of (Finished r))) true)).
Proof.
  intros Hq Hexec.
  pose proof (lane_run_job h q0 c (runSkill c) Hq e e2 evs r Hexec) as Hjob.
  apply lane_run_inv in Hjob as [[Hw Htr]|(e1 & evs1 & q1 & tr' & Hstep & Htail & Htr)].
  { by destruct evs. }
  cbn [w_env queue] in Hstep. rewrite lane_step_running in Hstep by done.
  destruct (advance h e (runSkill c)) as [[ea evsa] sa] eqn:Ea.
  cbn [fst snd] in Hstep. injection Hstep as <- <- <-.
  replace (EStart c :: evs ++ EEnd c (is_ok r) :: catch_events r)
    with ((EStart c :: evsa ++ end_events c sa) ++ tr' ++ catch_events r).
  2:{ rewrite <- app_comm_cons. f_equal. rewrite app_assoc, <- Htr.
      by rewrite <- app_assoc. }
  eapply lane_run_step.
  { cbn [w_env queue]. unfold enqueue. rewrite lane_step_waiting by done.
    by rewrite Ea. }
  eapply lane_run_trans; [done|].
  rewrite <- (app_nil_r (catch_events r)). eapply lane_run_step; [|constructor].
  cbn [w_env queue]. by destruct r.
Qed.

(** C3. In every execution, on any host and whatever the handlers of the
    calls enqueued so far did (returned, threw, rejected, or the engine
    itself threw): no callback of the lane was skipped and the promise in
    [queue] is not rejected. So a call enqueued next, once the lane has
    worked off what is pending, is run to its end with the events of
    [runSkill]; when it reaches a handler that returns, under a toast layer
    that works, its result is delivered and the continuation triggered. *)
Theorem lane_survives_faults (h : host) (t0 : Z) (tr : list event) (w : world) :
  steps h (init t0) tr w ->
  skipped tr = []
  /\ settled (queue w) <> Some false
  /\ forall (c : call) (tr1 : list event) (w1 : world) (e2 : env)
            (evs : list event) (r : fault + unit),
       lane_run h w tr1 w1 ->
       settled (queue w1) = Some true ->
       exec h (w_env w1) (runSkill c) = (e2, evs, Some r) ->
       lane_run h (apply_external (XEnqueue c) w)
                (tr1 ++ EStart c :: evs ++ EEnd c (is_ok r) :: catch_events r)
                (mkWorld e2 (PCatch (PThen (queue w1) c (state_of (Finished r))) true))
       /\ (ui_works h ->
           forall s v, reaches_handler (w_env w1) c s ->
                       action s (ctx_of c) = Returns v ->
             r = inr tt
             /\ evs = [EBump (now (w_env w1))
                         (length (prune (now (w_env w1))
                                    (recentCallTimestamps (w_env w1) ++ [now (w_env w1)])));
                       EUi (executing_notice (skillName c));
                       EInvoke (name s) (ctx_of c);
                       EMessage (result_message (skillName c) v);
                       EGenerate; EDispose]).
Proof.
  intros Hsteps.
  destruct (steps_inv h t0 tr w Hsteps) as (I1 & _ & _ & _ & I5 & _).
  split_and!; [done|by apply lane_ok_settled|].
  intros c tr1 w1 e2 evs r Hrun Hidle Hexec. split.
  - eapply lane_run_trans; [by apply lane_run_enqueue|].
    destruct w1 as [e1 q1]. by apply lane_run_call.
  - intros Hui s v (Hcount & Hs & Hen) Hv.
    rewrite (exec_runSkill_ui h _ c Hui) in Hexec. cbn zeta in Hexec.
    apply Nat.ltb_ge in Hcount. rewrite Hcount in Hexec.
    unfold permitted_trace in Hexec.
    rewrite (exec_lookup_and_execute_ui h (mkEnv _ _ (skills (w_env w1))) c s Hui Hs Hen),
      Hv in Hexec.
    cbn [fst snd] in Hexec. by injection Hexec as <- <- <-.
Qed.

Lemma drain_lane_run (h : host) (fuel : nat) (w : world) :
  lane_run h w (drain h fuel w).2 (drain h fuel w).1.
Proof.
  revert w. induction fuel as [|n IH]; intros w; simpl; [constructor|].
  destruct (lane_step h (w_env w) (queue w)) as [[[e' evs] q']|] eqn:E; [|constructor].
  specialize (IH (mkWorld e' q')). destruct (drain h n (mkWorld e' q')) as [w' tr].
  by eapply lane_run_step.
Qed.

Lemma lane_survives_faults_witness :
  let config (s : skill) :=
    External (XRegister (Reads (Some (mkConfig (JStr (name s)) JUndefined
                                               (Some (action s)) JUndefined)))) in
  let sched := [config broken_skill; config hello_skill;
                External (XEnqueue (call_of "broken")); Lane] in
  let w := (run_schedule index_ui sched (init 0)).1 in
  let tr := (run_schedule index_ui sched (init 0)).2 in
  let tr1 := (drain index_ui 8 w).2 in
  let w1 := (drain index_ui 8 w).1 in
  let c := call_of "hello" in
  EMessage (failure_message (lit "broken") (ErrorObject (lit "TypeError") (lit "boom") []))
    ∈ tr
  /\ lane_run index_ui (apply_external (XEnqueue c) w)
       (tr1 ++ EStart c ::
          [EBump 0 2; EUi (executing_notice (lit "hello"));
           EInvoke (lit "hello") (ctx_of c);
           EMessage (result_message (lit "hello") (JStr (lit "Hello, X!")));
           EGenerate; EDispose] ++ [EEnd c true])
       (mkWorld (mkEnv 0 [0; 0]%Z (skills (w_env w)))
                (PCatch (PThen (queue w1) c TFulfilled) true)).
Proof.
  intros config sched w tr tr1 w1 c. split.
  - vm_compute. do 6 right. left.
  - pose proof (lane_survives_faults index_ui 0 tr w
                  (run_schedule_steps index_ui sched (init 0) (init 0) [] (steps_refl _ _)))
      as (_ & _ & H).
    exact (proj1 (H c tr1 w1 _ _ (inr tt) (drain_lane_run index_ui 8 w) eq_refl eq_refl)).
Defined.

(** ** The backtracking matcher *)

Lemma star_greedy_sound {A : Type} (p : N -> bool) (s : jsstring)
  (k : jsstring -> option A) (x : A) :
  star_greedy p s k = Some x ->
  exists w s', s = w ++ s' /\ Forall (fun c => p c = true) w /\ k s' = Some x.
Proof.
  induction s as [|c r IH]; simpl.
  - intros H. by exists [], [].
  - destruct (p c) eqn:Ep; [|intros H; by exists [], (c :: r)].
    destruct (star_greedy p r k) as [y|] eqn:Er.
    + intros [= ->]. destruct (IH eq_refl) as (w & s' & -> & Hw & Hk).
      exists (c :: w), s'. split_and!; [done|by constructor|done].
    + intros H. by exists [], (c :: r).
Qed.

Lemma star_lazy_sound {A : Type} (p : N -> bool) (s : jsstring)
  (k : jsstring -> option A) (x : A) :
  star_lazy p s k = Some x ->
  exists w s', s = w ++ s' /\ Forall (fun c => p c = true) w /\ k s' = Some x.
Proof.
  induction s as [|c r IH]; simpl.
  - destruct (k []) eqn:Ek; [|done]. intros [= ->]. by exists [], [].
  - destruct (k (c :: r)) eqn:Ek.
    + intros [= ->]. by exists [], (c :: r).
    + destruct (p c) eqn:Ep; [|done]. intros H.
      destruct (IH H) as (w & s' & -> & Hw & Hk).
      exists (c :: w), s'. split_and!; [done|by constructor|done].
Qed.

Lemma star_greedy_complete {A : Type} (p : N -> bool) (w s' : jsstring)
  (k : jsstring -> option A) :
  Forall (fun c => p c = true) w -> k s' <> None -> star_greedy p (w ++ s') k <> None.
Proof.
  intros Hw Hk. induction Hw as [|c w Hc _ IH]; simpl.
  - destruct s' as [|c r]; simpl; [done|].
    destruct (p c); [|done]. by destruct (star_greedy p r k).
  - rewrite Hc. by destruct (star_greedy p (w ++ s') k).
Qed.

Lemma star_lazy_complete {A : Type} (p : N -> bool) (w s' : jsstring)
  (k : jsstring -> option A) :
  Forall (fun c => p c = true) w -> k s' <> None -> star_lazy p (w ++ s') k <> None.
Proof.
  intros Hw Hk. induction Hw as [|c w Hc _ IH]; simpl.
  - destruct s' as [|c r]; simpl; by destruct (k _).
  - destruct (k (c :: w ++ s')); [done|]. by rewrite Hc.
Qed.

(** Whatever the matcher finds is a word of the expression, with its
    captures. *)
Lemma rmatch_sound {A : Type} (r : regex) :
  forall (s : jsstring) (caps : captures) (k : jsstring -> captures -> option A) (x : A),
    rmatch r s caps k = Some x ->
    exists w s' caps', s = w ++ s' /\ matches r w caps caps' /\ k s' caps' = Some x.
Proof.
  induction r as [p|g p|r1 IH1 r2 IH2|r1 IH1 r2 IH2|r1 IH1|i r1 IH1];
    intros s caps k x H; simpl in H.
  - destruct s as [|c s']; [done|]. destruct (p c) eqn:Ep; [|done].
    exists [c], s', caps. split_and!; [done|by constructor|done].
  - destruct g.
    + apply star_greedy_sound in H as (w & s' & -> & Hw & Hk).
      exists w, s', caps. split_and!; [done|by constructor|done].
    + apply star_lazy_sound in H as (w & s' & -> & Hw & Hk).
      exists w, s', caps. split_and!; [done|by constructor|done].
  - apply IH1 in H as (w1 & s1 & c1 & -> & M1 & H).
    apply IH2 in H as (w2 & s2 & c2 & -> & M2 & H).
    exists (w1 ++ w2), s2, c2. rewrite <- app_assoc.
    split_and!; [done|by econstructor|done].
  - destruct (rmatch r1 s caps k) as [y|] eqn:E1.
    + injection H as ->. apply IH1 in E1 as (w & s' & c' & -> & M & H).
      exists w, s', c'. split_and!; [done|by apply matches_alt_l|done].
    + apply IH2 in H as (w & s' & c' & -> & M & H).
      exists w, s', c'. split_and!; [done|by apply matches_alt_r|done].
  - destruct (rmatch r1 s caps k) as [y|] eqn:E1.
    + injection H as ->. apply IH1 in E1 as (w & s' & c' & -> & M & H).
      exists w, s', c'. split_and!; [done|by apply matches_opt_some|done].
    + exists [], s, caps. split_and!; [done|by apply matches_opt_none|done].
  - apply IH1 in H as (w & s' & c' & -> & M & H).
    rewrite length_app, Nat.add_sub, take_app_length in H.
    exists w, s', ((i, w) :: c'). split_and!; [done|by constructor|done].
Qed.

(** The matcher finds a word whenever the continuation accepts what
    follows it. *)
Lemma rmatch_complete {A : Type} (r : regex) (w : jsstring) (c0 c1 : captures) :
  matches r w c0 c1 ->
  forall (s' : jsstring) (caps : captures) (k : jsstring -> captures -> option A),
    (forall c, k s' c <> None) -> rmatch r (w ++ s') caps k <> None.
Proof.
  induction 1 as [p c caps Hc|g p w caps Hw|r1 r2 w1 w2 c0 c1 c2 M1 IH1 M2 IH2
                 |r1 r2 w c0 c1 M IH|r1 r2 w c0 c1 M IH|r w c0 c1 M IH|r caps
                 |i r w c0 c1 M IH]; intros s' caps' k Hk; simpl.
  - by rewrite Hc.
  - destruct g; [by apply star_greedy_complete|by apply star_lazy_complete].
  - rewrite <- app_assoc. apply IH1. intros c. by apply IH2.
  - specialize (IH s' caps' k Hk). by destruct (rmatch r1 (w ++ s') caps' k).
  - specialize (IH s' caps' k Hk). by destruct (rmatch r1 (w ++ s') caps' k).
  - specialize (IH s' caps' k Hk). by destruct (rmatch r (w ++ s') caps' k).
  - by destruct (rmatch r s' caps' k).
  - apply IH. intros c. apply Hk.
Qed.

(** [exec] returns the match at the first position that has one. *)
Lemma regex_exec_sound (r : regex) (s : jsstring) :
  forall (index : nat) (m : match_result),
    regex_exec r index s = Some m ->
    exists pre post,
      s = pre ++ m_text m ++ post
      /\ m_index m = (index + length pre)%nat
      /\ matches r (m_text m) [] (m_groups m)
      /\ forall pre' w' post' c0 c1,
           s = pre' ++ w' ++ post' -> matches r w' c0 c1 -> (length pre <= length pre')%nat.
Proof.
  induction s as [|c s IH]; intros index m; cbn [regex_exec].
  - destruct (rmatch r [] [] _) as [[s' caps]|] eqn:E; [|done].
    apply rmatch_sound in E as (w & s'' & caps' & Hs & M & [= <- <-]).
    symmetry in Hs. apply app_eq_nil in Hs as [-> ->].
    intros [= <-]. exists [], []. simpl. split_and!; [done|lia|done|intros; lia].
  - destruct (rmatch r (c :: s) [] _) as [[s' caps]|] eqn:E.
    + apply rmatch_sound in E as (w & s'' & caps' & Hs & M & [= <- <-]).
      assert (take (length (c :: s) - length s'') (c :: s) = w) as Htake.
      { by rewrite Hs, length_app, Nat.add_sub, take_app_length. }
      rewrite Htake. intros [= <-]. exists [], s''. cbn [m_text m_index m_groups app].
      split_and!; [done|simpl; lia|done|intros; simpl; lia].
    + intros H. apply IH in H as (pre & post & Hs & Hi & M & Hmin).
      exists (c :: pre), post. split_and!.
      * simpl. by f_equal.
      * simpl. lia.
      * done.
      * intros [|c' pre'] w' post' c0 c1 Hs' M'.
        -- exfalso. simpl in Hs'.
           apply (rmatch_complete r w' c0 c1 M' post' []
                    (fun s' caps => Some (s', caps))); [done|].
           by rewrite <- Hs'.
        -- simpl in *. injection Hs' as -> Hs'.
           specialize (Hmin pre' w' post' c0 c1 Hs' M'). lia.
Qed.

Lemma regex_exec_none (r : regex) (s : jsstring) (index : nat) :
  regex_exec r index s = None ->
  forall pre w post c0 c1, s = pre ++ w ++ post -> ~ matches r w c0 c1.
Proof.
  revert index. induction s as [|c s IH]; intros index; cbn [regex_exec].
  - destruct (rmatch r [] [] _) as [[s' caps]|] eqn:E; [done|].
    intros _ pre w post c0 c1 Hs M.
    symmetry in Hs. apply app_eq_nil in Hs as [-> Hs].
    apply (rmatch_complete r w c0 c1 M post [] (fun s' caps => Some (s', caps))); [done|].
    simpl. by rewrite Hs.
  - destruct (rmatch r (c :: s) [] _) as [[s' caps]|] eqn:E; [done|].
    intros H [|c' pre] w post c0 c1 Hs M.
    + apply (rmatch_complete r w c0 c1 M post [] (fun s' caps => Some (s', caps))); [done|].
      simpl in Hs. by rewrite <- Hs.
    + simpl in Hs. injection Hs as -> Hs. by eapply IH.
Qed.

(** ** The matcher reads no further than its match *)

Section Locality.
Context (post : jsstring).

Lemma star_greedy_tail (p : N -> bool) (k : jsstring -> option (jsstring * captures)) (s : jsstring) :
  bounded1 k ->
  star_greedy p s k = k s
  \/ exists rest c, star_greedy p s k = Some (rest, c) /\ (length rest < length s)%nat.
Proof.
  intros Hk. induction s as [|c r IH]; [by left|]. simpl.
  destruct (p c); [|by left].
  destruct (star_greedy p r k) as [[rest c']|] eqn:E; [|by left].
  right. exists rest, c'. split; [done|].
  destruct IH as [IH|(rest' & c'' & [= <- <-] & Hlen)].
  - symmetry in IH. apply Hk in IH. simpl. lia.
  - simpl. lia.
Qed.

Lemma star_greedy_local (p : N -> bool) (kl ks : jsstring -> option (jsstring * captures)) (x : jsstring) :
  bounded1 kl ->
  (forall x', agree post (kl (x' ++ post)) (ks x')) ->
  agree post (star_greedy p (x ++ post) kl) (star_greedy p x ks).
Proof.
  intros Hb Hk. induction x as [|c x IH].
  - cbn [app]. replace (star_greedy p [] ks) with (ks []) by done.
    destruct (star_greedy_tail p kl post Hb) as [->|(rest & c & -> & Hlen)].
    + apply (Hk []).
    + by left.
  - cbn [app star_greedy]. destruct (p c); [|apply (Hk (c :: x))].
    destruct (star_greedy p (x ++ post) kl) as [[rest c']|].
    + destruct IH as [Hlen|(y & -> & ->)]; [by left|]. right. by exists y.
    + cbn [agree] in IH. rewrite IH. apply (Hk (c :: x)).
Qed.

Lemma star_lazy_tail (p : N -> bool) (k : jsstring -> option (jsstring * captures)) (s : jsstring) :
  bounded1 k ->
  k s = None ->
  star_lazy p s k = None
  \/ exists rest c, star_lazy p s k = Some (rest, c) /\ (length rest < length s)%nat.
Proof.
  intros Hk. induction s as [|c r IH]; intros Hs; simpl; rewrite Hs; [by left|].
  destruct (p c); [|by left].
  destruct (k r) as [[rest c']|] eqn:Er.
  - right. exists rest, c'. split; [by destruct r; simpl; rewrite Er|].
    apply Hk in Er. simpl. lia.
  - destruct (IH eq_refl) as [->|(rest & c' & -> & Hlen)]; [by left|].
    right. exists rest, c'. split; [done|]. simpl. lia.
Qed.

Lemma star_lazy_local (p : N -> bool) (kl ks : jsstring -> option (jsstring * captures)) (x : jsstring) :
  bounded1 kl ->
  (forall x', agree post (kl (x' ++ post)) (ks x')) ->
  agree post (star_lazy p (x ++ post) kl) (star_lazy p x ks).
Proof.
  intros Hb Hk. induction x as [|c x IH].
  - cbn [app]. pose proof (Hk []) as H0. cbn [app] in H0.
    assert (star_lazy p [] ks = ks []) as -> by (simpl; by destruct (ks [])).
    destruct (kl post) as [[rest c]|] eqn:El.
    + by destruct post; simpl; rewrite El.
    + cbn [agree] in H0. rewrite H0.
      destruct (star_lazy_tail p kl post Hb El) as [->|(rest & c & -> & Hlen)];
        [done|by left].
  - cbn [app star_lazy]. pose proof (Hk (c :: x)) as Hc. cbn [app] in Hc.
    destruct (kl (c :: x ++ post)) as [[rest c']|].
    + destruct Hc as [Hlen|(y & -> & ->)]; [by left|]. right. by exists y.
    + cbn [agree] in Hc. rewrite Hc. by destruct (p c).
Qed.

Lemma rmatch_bounded (r : regex) (k : jsstring -> captures -> option (jsstring * captures)) :
  bounded k -> bounded (fun s caps => rmatch r s caps k).
Proof.
  intros Hk s caps rest c H.
  apply rmatch_sound in H as (w & s' & caps' & -> & _ & H).
  apply Hk in H. rewrite length_app. lia.
Qed.

Lemma rmatch_local (r : regex) :
  forall (x : jsstring) (caps : captures) (kl ks : jsstring -> captures -> option (jsstring * captures)),
    bounded kl ->
    (forall x' caps', agree post (kl (x' ++ post) caps') (ks x' caps')) ->
    agree post (rmatch r (x ++ post) caps kl) (rmatch r x caps ks).
Proof.
  induction r as [p|g p|r1 IH1 r2 IH2|r1 IH1 r2 IH2|r1 IH1|i r1 IH1];
    intros x caps kl ks Hb Hk; cbn [rmatch].
  - destruct x as [|c x]; cbn [app].
    + destruct post as [|c post']; [done|]. destruct (p c); [|done].
      destruct (kl post' caps) as [[rest c']|] eqn:E; [|done].
      left. apply Hb in E. simpl. lia.
    + destruct (p c); [apply Hk|done].
  - destruct g.
    + apply star_greedy_local; [intros s rest c; apply Hb|intros x'; apply Hk].
    + apply star_lazy_local; [intros s rest c; apply Hb|intros x'; apply Hk].
  - apply IH1; [by apply rmatch_bounded|]. intros x' caps'. by apply IH2.
  - specialize (IH1 x caps kl ks Hb Hk).
    destruct (rmatch r1 (x ++ post) caps kl) as [[rest c]|].
    + destruct IH1 as [Hlen|(y & -> & ->)]; [by left|]. right. by exists y.
    + cbn [agree] in IH1. rewrite IH1. by apply IH2.
  - specialize (IH1 x caps kl ks Hb Hk).
    destruct (rmatch r1 (x ++ post) caps kl) as [[rest c]|].
    + destruct IH1 as [Hlen|(y & -> & ->)]; [by left|]. right. by exists y.
    + cbn [agree] in IH1. rewrite IH1. apply Hk.
  - apply IH1.
    + intros s caps' rest c. apply Hb.
    + intros x' caps'. rewrite !length_app.
      replace (length x + length post - (length x' + length post))%nat
        with (length x - length x')%nat by lia.
      rewrite take_app_le by lia. apply Hk.
Qed.

End Locality.

(** Where [exec] finds its match, the matcher ends on it. *)
Lemma regex_exec_at (r : regex) (s : jsstring) :
  forall (index : nat) (m : match_result),
    regex_exec r index s = Some m ->
    exists pre post,
      s = pre ++ m_text m ++ post
      /\ rmatch r (m_text m ++ post) [] (fun s' caps => Some (s', caps))
         = Some (post, m_groups m).
Proof.
  induction s as [|c s IH]; intros index m; cbn [regex_exec].
  - destruct (rmatch r [] [] _) as [[s' caps]|] eqn:E; [|done].
    pose proof E as E'.
    apply rmatch_sound in E' as (w & s'' & caps' & Hs & _ & [= <- <-]).
    symmetry in Hs. apply app_eq_nil in Hs as [-> ->].
    intros [= <-]. by exists [], [].
  - destruct (rmatch r (c :: s) [] _) as [[s' caps]|] eqn:E.
    + pose proof E as E'.
      apply rmatch_sound in E' as (w & s'' & caps' & Hs & _ & [= <- <-]).
      assert (take (length (c :: s) - length s'') (c :: s) = w) as Htake.
      { by rewrite Hs, length_app, Nat.add_sub, take_app_length. }
      rewrite Htake. intros [= <-]. exists [], s''. cbn [m_text m_groups app].
      by rewrite <- Hs.
    + intros H. apply IH in H as (pre & post & Hs & H).
      exists (c :: pre), post. split; [|done]. simpl. by f_equal.
Qed.

(** ** The call tag *)

Lemma matches_class_inv (p : N -> bool) (w : jsstring) (c0 c1 : captures) :
  matches (RClass p) w c0 c1 -> exists c, w = [c] /\ p c = true /\ c1 = c0.
Proof. inversion 1; subst. eauto. Qed.

Lemma matches_char_inv (c : N) (w : jsstring) (c0 c1 : captures) :
  matches (RChar c) w c0 c1 -> w = [c] /\ c1 = c0.
Proof.
  intros (x & -> & Hx & ->)%matches_class_inv. apply N.eqb_eq in Hx. by subst.
Qed.

Lemma matches_star_inv (g : bool) (p : N -> bool) (w : jsstring) (c0 c1 : captures) :
  matches (RStar g p) w c0 c1 -> Forall (fun c => p c = true) w /\ c1 = c0.
Proof. inversion 1; subst. eauto. Qed.

Lemma matches_seq_inv (r1 r2 : regex) (w : jsstring) (c0 c2 : captures) :
  matches (RSeq r1 r2) w c0 c2 ->
  exists w1 w2 c1, w = w1 ++ w2 /\ matches r1 w1 c0 c1 /\ matches r2 w2 c1 c2.
Proof. inversion 1; subst. eauto 10. Qed.

Lemma matches_opt_inv (r : regex) (w : jsstring) (c0 c1 : captures) :
  matches (ROpt r) w c0 c1 -> (w = [] /\ c1 = c0) \/ matches r w c0 c1.
Proof. inversion 1; subst; eauto. Qed.

Lemma matches_group_inv (i : nat) (r : regex) (w : jsstring) (c0 c1 : captures) :
  matches (RGroup i r) w c0 c1 -> exists c', matches r w c0 c' /\ c1 = (i, w) :: c'.
Proof. inversion 1; subst. eauto. Qed.

Lemma matches_plus_inv (p : N -> bool) (w : jsstring) (c0 c1 : captures) :
  matches (RPlus p) w c0 c1 -> w <> [] /\ Forall (fun c => p c = true) w /\ c1 = c0.
Proof.
  intros (w1 & w2 & c' & -> & (c & -> & Hc & ->)%matches_class_inv
          & [Hw ->]%matches_star_inv)%matches_seq_inv.
  split_and!; [done|by constructor|done].
Qed.

Lemma matches_plus (p : N -> bool) (w : jsstring) (caps : captures) :
  w <> [] -> Forall (fun c => p c = true) w -> matches (RPlus p) w caps caps.
Proof.
  intros Hne Hw. destruct Hw as [|c w Hc Hw]; [done|].
  change (c :: w) with ([c] ++ w). econstructor; by constructor.
Qed.

Lemma matches_word_inv (u w : jsstring) (c0 c1 : captures) :
  matches (RWord u) w c0 c1 -> w = u /\ c1 = c0.
Proof.
  revert w c0 c1. induction u as [|c u IH]; intros w c0 c1 M.
  - apply matches_star_inv in M as [Hw ->]. by destruct Hw.
  - destruct u as [|d u].
    + by apply matches_char_inv in M.
    + apply matches_seq_inv in M as (w1 & w2 & c' & -> & [-> ->]%matches_char_inv & M).
      apply IH in M as [-> ->]. done.
Qed.

Lemma matches_word (u : jsstring) (caps : captures) : matches (RWord u) u caps caps.
Proof.
  induction u as [|c u IH]; [by repeat constructor|].
  destruct u as [|d u].
  - constructor. apply N.eqb_refl.
  - change (c :: d :: u) with ([c] ++ d :: u). econstructor; [|done].
    constructor. apply N.eqb_refl.
Qed.

Lemma matches_char (c : N) (caps : captures) : matches (RChar c) [c] caps caps.
Proof. constructor. apply N.eqb_refl. Qed.

Lemma matches_blank (ws : jsstring) (caps : captures) :
  blank ws -> matches (RStar true is_space) ws caps caps.
Proof. by constructor. Qed.

(** What CALL_RE matches is a tag of the grammar, its name in group 1 and
    the text between its parentheses in group 2. *)
Lemma call_re_sound (w : jsstring) (caps : captures) :
  matches CALL_RE w [] caps ->
  exists name content,
    tag_parts w name content /\ capture 1 caps = Some name /\ capture 2 caps = content.
Proof.
  unfold CALL_RE. intros M.
  apply matches_seq_inv in M as (w1 & ? & ? & -> & [-> ->]%matches_char_inv & M).
  apply matches_seq_inv in M as (ws1 & ? & ? & -> & [H1 ->]%matches_star_inv & M).
  apply matches_seq_inv in M as (? & ? & ? & -> & [-> ->]%matches_word_inv & M).
  apply matches_seq_inv in M as (ws2 & ? & ? & -> & [H2 ->]%matches_star_inv & M).
  apply matches_seq_inv in M as (? & ? & ? & -> & [-> ->]%matches_char_inv & M).
  apply matches_seq_inv in M as (ws3 & ? & ? & -> & [H3 ->]%matches_star_inv & M).
  apply matches_seq_inv in M as (name & ? & ? & -> & (? & Mn & ->)%matches_group_inv & M).
  apply matches_plus_inv in Mn as (Hne & Hname & ->).
  apply matches_seq_inv in M as (ws4 & ? & ? & -> & [H4 ->]%matches_star_inv & M).
  apply matches_seq_inv in M as (par & ? & cp & -> & Mp & M).
  apply matches_seq_inv in M as (ws5 & ? & ? & -> & [H5 ->]%matches_star_inv
                                 & [-> ->]%matches_char_inv).
  apply matches_opt_inv in Mp as [[-> ->]|Mp].
  - exists name, None. split_and!; [|done..].
    exists ws1, ws2, ws3, ws4, ws5, None. by split_and!.
  - apply matches_seq_inv in Mp as (? & ? & ? & -> & [-> ->]%matches_char_inv & Mp).
    apply matches_seq_inv in Mp as (wa & ? & ? & -> & [Ha ->]%matches_star_inv & Mp).
    apply matches_seq_inv in Mp as (body & ? & ? & -> & (? & Mb & ->)%matches_group_inv & Mp).
    apply matches_star_inv in Mb as [_ ->].
    apply matches_seq_inv in Mp as (wb & ? & ? & -> & [Hb ->]%matches_star_inv
                                    & [-> ->]%matches_char_inv).
    exists name, (Some body). split_and!; [|done..].
    exists ws1, ws2, ws3, ws4, ws5, (Some (wa, body, wb)). by split_and!.
Qed.

(** Every tag of the grammar is matched by CALL_RE. *)
Lemma call_re_complete (w name : jsstring) (content : option jsstring) :
  tag_parts w name content -> exists caps, matches CALL_RE w [] caps.
Proof.
  intros (ws1 & ws2 & ws3 & ws4 & ws5 & p & H1 & H2 & H3 & H4 & H5 & Hne & Hname & Hp & ->).
  assert (exists c1, matches (ROpt (RSeq (RChar 40)
              (RSeq (RStar true is_space)
              (RSeq (RGroup 2 (RStar false any_char))
              (RSeq (RStar true is_space)
                    (RChar 41)))))) (paren_text p) [(1%nat, name)] c1) as [c1 Mp].
  { destruct p as [[[wa body] wb]|]; [|eexists; apply matches_opt_none].
    destruct Hp as (Ha & Hb & _). eexists. apply matches_opt_some. simpl.
    change (40%N :: wa ++ body ++ wb ++ [41%N])
      with ([40%N] ++ wa ++ body ++ wb ++ [41%N]).
    repeat (econstructor; [first [apply matches_char|by apply matches_blank
                                 |constructor; constructor; by apply Forall_true]|]).
    apply matches_char. }
  eexists. unfold CALL_RE.
  econstructor; [apply matches_char|].
  econstructor; [by apply matches_blank|].
  econstructor; [apply matches_word|].
  econstructor; [by apply matches_blank|].
  econstructor; [apply matches_char|].
  econstructor; [by apply matches_blank|].
  econstructor; [constructor; by apply matches_plus|].
  econstructor; [by apply matches_blank|].
  econstructor; [exact Mp|].
  econstructor; [by apply matches_blank|apply matches_char].
Qed.

Lemma name_char_not_space (c : N) : is_name_char c = true -> is_space c = false.
Proof.
  intros H. apply not_true_is_false. intros Hs. unfold is_name_char, is_space in *.
  repeat first [rewrite orb_true_iff in H | rewrite andb_true_iff in H
               | rewrite N.leb_le in H | rewrite N.eqb_eq in H].
  repeat first [rewrite orb_true_iff in Hs | rewrite andb_true_iff in Hs
               | rewrite N.leb_le in Hs | rewrite N.eqb_eq in Hs].
  lia.
Qed.

(** ** At one place the shortest tag is matched *)

(** A run of a class, followed by a character outside of it, is read in
    one way. *)
Lemma run_align (p : N -> bool) (a b : jsstring) (x y : N) (r r' : jsstring) :
  Forall (fun c => p c = true) a -> Forall (fun c => p c = true) b ->
  p x = false -> p y = false ->
  a ++ x :: r = b ++ y :: r' -> a = b /\ x = y /\ r = r'.
Proof.
  intros Ha. revert b. induction Ha as [|c a Hc Ha IH]; intros b Hb Hx Hy E.
  - destruct Hb as [|d b Hd Hb]; simpl in E.
    + by injection E.
    + injection E as -> _. congruence.
  - destruct Hb as [|d b Hd Hb]; simpl in E.
    + injection E as -> _. congruence.
    + injection E as -> E. by destruct (IH b Hb Hx Hy E) as (-> & -> & ->).
Qed.

Lemma blank_app (a b : jsstring) : blank a -> blank b -> blank (a ++ b).
Proof. apply Forall_app_2. Qed.

(** The head of a tag, up to the character after the name and the blanks
    that follow it, is read in one way. *)
Lemma tag_head_align (ws1 ws2 ws3 name u ws1' ws2' ws3' name' v : jsstring)
  (d d' : N) (r r' : jsstring) :
  blank ws1 -> blank ws2 -> blank ws3 -> blank u ->
  blank ws1' -> blank ws2' -> blank ws3' -> blank v ->
  name <> [] -> Forall (fun c => is_name_char c = true) name ->
  name' <> [] -> Forall (fun c => is_name_char c = true) name' ->
  is_space d = false -> is_name_char d = false ->
  is_space d' = false -> is_name_char d' = false ->
  [91%N] ++ ws1 ++ lit "CALL" ++ ws2 ++ [58%N] ++ ws3 ++ name ++ u ++ d :: r
  = [91%N] ++ ws1' ++ lit "CALL" ++ ws2' ++ [58%N] ++ ws3' ++ name' ++ v ++ d' :: r' ->
  name = name' /\ u = v /\ d = d' /\ r = r'.
Proof.
  intros H1 H2 H3 Hu H1' H2' H3' Hv Hne Hn Hne' Hn' Hd Hdn Hd' Hdn' E.
  change (lit "CALL") with [67; 65; 76; 76]%N in E. cbn [app] in E.
  injection E as E.
  apply (run_align is_space) in E as (_ & _ & E); [|done..].
  injection E as E.
  apply (run_align is_space) in E as (_ & _ & E); [|done..].
  destruct name as [|n0 name]; [done|]. destruct name' as [|n0' name']; [done|].
  apply Forall_cons in Hn as [Hn0 Hn]. apply Forall_cons in Hn' as [Hn0' Hn'].
  cbn [app] in E.
  apply (run_align is_space) in E as (_ & -> & E);
    [|done|done|by apply name_char_not_space..].
  assert (forall (w : jsstring) (x : N) (t : jsstring), blank w -> is_name_char x = false ->
            exists y t', w ++ x :: t = y :: t' /\ is_name_char y = false) as Hhead.
  { intros [|y w] x t Hw Hx; [by exists x, t|]. exists y, (w ++ x :: t).
    split; [done|]. apply Forall_cons in Hw as [Hy _].
    destruct (is_name_char y) eqn:Ey; [|done].
    apply name_char_not_space in Ey. congruence. }
  destruct (Hhead u d r Hu Hdn) as (y & t & Ey & Hy).
  destruct (Hhead v d' r' Hv Hdn') as (y' & t' & Ey' & Hy').
  rewrite Ey, Ey' in E.
  apply (run_align is_name_char) in E as (-> & -> & ->); [|done..].
  rewrite <- Ey' in Ey.
  apply (run_align is_space) in Ey as (-> & -> & ->); done.
Qed.

(** *** The end of a tag with arguments *)

Lemma closes_unique (s r1 r2 : jsstring) : closes s r1 -> closes s r2 -> r1 = r2.
Proof.
  intros (y1 & y2 & H1 & H2 & ->) (z1 & z2 & G1 & G2 & E). cbn [app] in E.
  apply (run_align is_space) in E as (_ & _ & E); [|done..].
  by apply (run_align is_space) in E as (_ & _ & E).
Qed.

Lemma closes_length (s rest : jsstring) : closes s rest -> (length rest < length s)%nat.
Proof. intros (y1 & y2 & _ & _ & ->). rewrite !length_app. simpl. lia. Qed.

Lemma closes_skip_blank (l m z : jsstring) : blank l -> closes (l ++ m) z -> closes m z.
Proof.
  induction 1 as [|c l Hc Hl IH]; [done|]. intros (y1 & y2 & H1 & H2 & E).
  destruct y1 as [|c' y1]; cbn [app] in E.
  - injection E as -> _. done.
  - injection E as -> E. apply Forall_cons in H1 as [_ H1].
    apply IH. by exists y1, y2.
Qed.

(** Further in the text a tag ends no earlier. *)
Lemma closes_later (u t rest z : jsstring) :
  closes (u ++ t) rest -> closes t z -> (length z <= length rest)%nat.
Proof.
  intros (y1 & y2 & H1 & H2 & E) Ht. revert y1 H1 E.
  induction u as [|c u IH]; intros y1 H1 E.
  - assert (rest = z) as ->; [|done]. eapply closes_unique; [|done].
    exists y1, y2. by rewrite <- E.
  - destruct y1 as [|c' y1]; cbn [app] in E.
    + injection E as -> E. clear IH H1. revert y2 H2 E.
      induction u as [|c u IH]; intros y2 H2 E.
      * exfalso. destruct Ht as (z1 & z2 & G1 & G2 & ->). cbn [app] in E.
        by apply (run_align is_space) in E as (_ & ? & _).
      * destruct y2 as [|c' y2]; cbn [app] in E.
        -- injection E as -> E. apply closes_length in Ht.
           apply (f_equal length) in E. rewrite length_app in E. lia.
        -- injection E as -> E. apply Forall_cons in H2 as [_ H2]. by eapply IH.
    + injection E as -> E. apply Forall_cons in H1 as [_ H1]. by eapply IH.
Qed.

(** *** What the matcher does with it *)

(** A greedy repetition that is followed by something outside of its
    class takes the whole run. *)
Lemma star_greedy_run {A : Type} (p : N -> bool) (k : jsstring -> option A)
  (a s : jsstring) :
  (forall c r, p c = true -> k (c :: r) = None) ->
  Forall (fun c => p c = true) a ->
  match s with [] => True | c :: _ => p c = false end ->
  star_greedy p (a ++ s) k = k s.
Proof.
  intros Hk Ha Hs. induction Ha as [|c a Hc Ha IH]; cbn [app star_greedy].
  - destruct s as [|c r]; [done|]. simpl. by rewrite Hs.
  - rewrite Hc, IH. destruct (k s) eqn:E; [done|]. by rewrite Hk.
Qed.

(** A lazy repetition stops at the first place where what follows
    matches. *)
Lemma star_lazy_first {A : Type} (p : N -> bool) (s : jsstring)
  (k : jsstring -> option A) (x : A) :
  star_lazy p s k = Some x ->
  exists w s', s = w ++ s' /\ k s' = Some x
    /\ forall w0 s0, s = w0 ++ s0 -> (length w0 < length w)%nat -> k s0 = None.
Proof.
  induction s as [|c r IH]; simpl.
  - destruct (k []) eqn:Ek; [|done]. intros [= ->]. exists [], [].
    split_and!; [done..|]. intros w0 s0 _ Hl. simpl in Hl. lia.
  - destruct (k (c :: r)) eqn:Ek.
    + intros [= ->]. exists [], (c :: r). split_and!; [done..|].
      intros w0 s0 _ Hl. simpl in Hl. lia.
    + destruct (p c) eqn:Ep; [|done]. intros H.
      destruct (IH H) as (w & s' & -> & Hk & Hfirst).
      exists (c :: w), s'. split_and!; [done..|].
      intros [|c0 w0] s0 E Hl; cbn [app] in E.
      * by subst s0.
      * injection E as -> E. apply (Hfirst w0 s0 E). simpl in Hl. lia.
Qed.

Lemma rmatch_seq {A : Type} (r1 r2 : regex) (s : jsstring) (caps : captures)
  (k : jsstring -> captures -> option A) :
  rmatch (RSeq r1 r2) s caps k = rmatch r1 s caps (fun s' caps' => rmatch r2 s' caps' k).
Proof. done. Qed.

Lemma rmatch_seq_sound {A : Type} (r1 r2 : regex) (s : jsstring) (caps : captures)
  (k : jsstring -> captures -> option A) (x : A) :
  rmatch (RSeq r1 r2) s caps k = Some x ->
  exists w s' caps', s = w ++ s' /\ matches r1 w caps caps' /\ rmatch r2 s' caps' k = Some x.
Proof. rewrite rmatch_seq. apply rmatch_sound. Qed.

Lemma rmatch_char {A : Type} (d : N) (s : jsstring) (caps : captures)
  (k : jsstring -> captures -> option A) :
  rmatch (RChar d) s caps k
  = match s with
    | c :: s' => if (d =? c)%N then k s' caps else None
    | [] => None
    end.
Proof. done. Qed.

(** The end of a tag with arguments: blanks, [)], blanks, []]. *)
Lemma rmatch_closing {A : Type} (s rest : jsstring) (caps : captures)
  (k : jsstring -> captures -> option A) :
  closes s rest ->
  rmatch (RSeq (RStar true is_space) (RChar 41)) s caps
    (fun s' caps' => rmatch (RSeq (RStar true is_space) (RChar 93)) s' caps' k)
  = k rest caps.
Proof.
  intros (y1 & y2 & H1 & H2 & ->). rewrite rmatch_seq.
  change (rmatch (RStar true is_space) ?s ?c ?k0)
    with (star_greedy is_space s (fun s' => k0 s' c)).
  rewrite star_greedy_run; [|intros c r Hc; rewrite rmatch_char|done|done].
  2:{ destruct (N.eqb_spec 41 c) as [<-|]; done. }
  rewrite rmatch_char. cbn [app]. rewrite N.eqb_refl, rmatch_seq.
  change (rmatch (RStar true is_space) ?s ?c ?k0)
    with (star_greedy is_space s (fun s' => k0 s' c)).
  rewrite star_greedy_run; [|intros c r Hc; rewrite rmatch_char|done|done].
  2:{ destruct (N.eqb_spec 93 c) as [<-|]; done. }
  rewrite rmatch_char. by rewrite N.eqb_refl.
Qed.

Lemma rmatch_closing_sound {A : Type} (s : jsstring) (caps : captures)
  (k : jsstring -> captures -> option A) (x : A) :
  rmatch (RSeq (RStar true is_space) (RChar 41)) s caps
    (fun s' caps' => rmatch (RSeq (RStar true is_space) (RChar 93)) s' caps' k)
  = Some x ->
  exists rest, closes s rest /\ k rest caps = Some x.
Proof.
  intros H.
  apply rmatch_sound in H as (w & s1 & c1 & -> & M & H).
  apply matches_seq_inv in M as (y1 & ? & ? & -> & [H1 ->]%matches_star_inv
                                 & [-> ->]%matches_char_inv).
  apply rmatch_sound in H as (w & rest & c2 & -> & M & H).
  apply matches_seq_inv in M as (y2 & ? & ? & -> & [H2 ->]%matches_star_inv
                                 & [-> ->]%matches_char_inv).
  exists rest. split; [|done]. exists y1, y2. split_and!; [done..|].
  by rewrite <- !app_assoc.
Qed.

(** Between the parentheses the matcher stops at the first place where
    the tag can end. *)
Lemma paren_shortest (s : jsstring) (caps : captures) (rest : jsstring) (c : captures) :
  rmatch (RSeq (RStar true is_space)
         (RSeq (RGroup 2 (RStar false any_char))
         (RSeq (RStar true is_space) (RChar 41)))) s caps
    (fun s' caps' => rmatch (RSeq (RStar true is_space) (RChar 93)) s' caps'
                       (fun s'' caps'' => Some (s'', caps'')))
  = Some (rest, c) ->
  forall x t z, s = x ++ t -> closes t z -> (length z <= length rest)%nat.
Proof.
  intros H x t z E Ht. rewrite rmatch_seq in H.
  change (rmatch (RStar true is_space) ?s ?c ?k0)
    with (star_greedy is_space s (fun s' => k0 s' c)) in H.
  apply star_greedy_sound in H as (wa & s' & -> & Hwa & H).
  rewrite rmatch_seq in H.
  change (rmatch (RGroup 2 (RStar false any_char)) ?s ?c ?k0)
    with (star_lazy any_char s (fun s'' => k0 s'' ((2%nat, take (length s - length s'') s) :: c)))
    in H.
  apply star_lazy_first in H as (body & s'' & -> & HK & Hfirst).
  apply rmatch_closing_sound in HK as (rest' & Hrest & [= -> <-]).
  assert (forall m z', closes m z' ->
            forall l, body ++ s'' = l ++ m -> (length l < length body)%nat -> False) as Hno.
  { intros m z' Hm l El Hl. specialize (Hfirst l m El Hl). cbn beta in Hfirst.
    by rewrite (rmatch_closing m z') in Hfirst. }
  apply app_eq_app in E as [l [[-> ->]|[-> E]]].
  - apply Forall_app in Hwa as [_ Hl]. apply closes_skip_blank in Ht; [|done].
    destruct body as [|b body].
    + by rewrite (closes_unique _ _ _ Ht Hrest).
    + exfalso. apply (Hno _ _ Ht []); [done|simpl; lia].
  - apply app_eq_app in E as [l' [[-> ->]|[-> ->]]].
    + destruct l' as [|b l'].
      * by rewrite (closes_unique _ _ _ Ht Hrest).
      * exfalso. apply (Hno _ _ Ht l); [by rewrite <- app_assoc|].
        rewrite length_app. simpl. lia.
    + by eapply closes_later.
Qed.

Lemma rmatch_opt_seq {A : Type} (r e : regex) (s : jsstring) (caps : captures)
  (k : jsstring -> captures -> option A) (x : A) :
  rmatch (RSeq (ROpt r) e) s caps k = Some x ->
  rmatch r s caps (fun s' c' => rmatch e s' c' k) = Some x \/ rmatch e s caps k = Some x.
Proof.
  rewrite rmatch_seq. cbn [rmatch].
  destruct (rmatch r s caps _); [intros [= ->]; by left|by right].
Qed.

Ltac tag_aligned E :=
  first [done | by apply blank_app
        | rewrite <- ?app_assoc in E; rewrite <- ?app_assoc; exact E].

(** Where CALL_RE matches, no tag of the grammar that starts at the same
    place ends earlier. *)
Lemma call_re_shortest (s rest : jsstring) (caps : captures) :
  rmatch CALL_RE s [] (fun s' caps' => Some (s', caps')) = Some (rest, caps) ->
  forall w' post', s = w' ++ post' -> call_tag w' -> (length post' <= length rest)%nat.
Proof.
  unfold CALL_RE. intros H w' post' E (name' & content' & Hparts).
  apply rmatch_seq_sound in H as (? & ? & ? & -> & [-> ->]%matches_char_inv & H).
  apply rmatch_seq_sound in H as (ws1 & ? & ? & -> & [H1 ->]%matches_star_inv & H).
  apply rmatch_seq_sound in H as (? & ? & ? & -> & [-> ->]%matches_word_inv & H).
  apply rmatch_seq_sound in H as (ws2 & ? & ? & -> & [H2 ->]%matches_star_inv & H).
  apply rmatch_seq_sound in H as (? & ? & ? & -> & [-> ->]%matches_char_inv & H).
  apply rmatch_seq_sound in H as (ws3 & ? & ? & -> & [H3 ->]%matches_star_inv & H).
  apply rmatch_seq_sound in H as (name & ? & ? & -> & (? & Mn & ->)%matches_group_inv & H).
  apply matches_plus_inv in Mn as (Hne & Hname & ->).
  apply rmatch_seq_sound in H as (ws4 & s5 & ? & -> & [H4 ->]%matches_star_inv & H).
  destruct Hparts as (ws1' & ws2' & ws3' & ws4' & ws5' & p' & H1' & H2' & H3' & H4' & H5'
                      & Hne' & Hname' & Hp' & ->).
  apply rmatch_opt_seq in H as [H|H].
  - apply rmatch_seq_sound in H as (? & s_a & ? & -> & [-> ->]%matches_char_inv & H).
    destruct p' as [[[wa' body'] wb']|]; cbn [paren_text] in E.
    + destruct Hp' as (Ha' & Hb' & _).
      destruct (tag_head_align ws1 ws2 ws3 name ws4 ws1' ws2' ws3' name' ws4' 40 40
                  s_a (wa' ++ body' ++ wb' ++ [41%N] ++ ws5' ++ [93%N] ++ post'))
        as (_ & _ & _ & Ea); try tag_aligned E.
      apply (paren_shortest _ _ _ _ H (wa' ++ body')
               (wb' ++ [41%N] ++ ws5' ++ [93%N] ++ post')).
      * rewrite Ea. by rewrite <- !app_assoc.
      * by exists wb', ws5'.
    + destruct (tag_head_align ws1 ws2 ws3 name ws4 ws1' ws2' ws3' name' (ws4' ++ ws5')
                  40 93 s_a post') as (_ & _ & ? & _); tag_aligned E.
  - apply rmatch_seq_sound in H as (ws5 & s6 & ? & -> & [H5 ->]%matches_star_inv & H).
    rewrite rmatch_char in H. destruct s6 as [|d s6]; [done|].
    destruct (N.eqb_spec 93 d) as [<-|]; [|done]. injection H as -> _.
    destruct p' as [[[wa' body'] wb']|]; cbn [paren_text] in E.
    + destruct (tag_head_align ws1 ws2 ws3 name (ws4 ++ ws5) ws1' ws2' ws3' name' ws4'
                  93 40 rest (wa' ++ body' ++ wb' ++ [41%N] ++ ws5' ++ [93%N] ++ post'))
        as (_ & _ & ? & _); tag_aligned E.
    + destruct (tag_head_align ws1 ws2 ws3 name (ws4 ++ ws5) ws1' ws2' ws3' name'
                  (ws4' ++ ws5') 93 93 rest post')
        as (_ & _ & _ & ->); tag_aligned E.
Qed.

(** *** A tag is read in one way *)

Lemma closing_align (m m' y y' : jsstring) :
  blank y -> blank y' ->
  m ++ [41%N] ++ y ++ [93%N] = m' ++ [41%N] ++ y' ++ [93%N] -> m = m'.
Proof.
  intros Hy Hy' E. apply (f_equal (@rev N)) in E.
  rewrite !rev_app_distr in E. cbn [rev app] in E. rewrite <- !app_assoc in E.
  cbn [app] in E. injection E as E.
  apply (run_align is_space) in E as (_ & _ & E); [|by apply Forall_rev..|done|done].
  rewrite <- (rev_involutive m), <- (rev_involutive m'). by rewrite E.
Qed.

Lemma blank_forallb (ws : jsstring) : blank ws <-> forallb is_space ws = true.
Proof.
  unfold blank. induction ws as [|c ws IH]; [done|].
  rewrite Forall_cons. cbn [forallb]. rewrite andb_true_iff. by rewrite IH.
Qed.

Lemma trim_start_blank (ws : jsstring) : blank ws -> trim_start ws = [].
Proof.
  induction 1 as [|c ws Hc _ IH]; [done|]. simpl. by rewrite Hc.
Qed.

Lemma trim_end_blank_app (s ws : jsstring) : blank ws -> trim_end (s ++ ws) = trim_end s.
Proof.
  intros Hws. unfold trim_end. rewrite rev_app_distr, trim_start_blank_app; [done|].
  apply blank_forallb. by apply Forall_rev.
Qed.

(** Blank margins do not count. *)
Lemma trim_margins (wa body wb : jsstring) :
  blank wa -> blank wb -> trim (wa ++ body ++ wb) = trim body.
Proof.
  intros Ha Hb. unfold trim.
  rewrite trim_start_blank_app by (by apply blank_forallb).
  destruct (trim_start_split body) as (ws & E & Hws%blank_forallb).
  pose proof (trim_start_head body) as Hh.
  rewrite E at 1. rewrite <- app_assoc, trim_start_blank_app by (by apply blank_forallb).
  destruct (trim_start body) as [|c r].
  - cbn [app]. by rewrite trim_start_blank.
  - rewrite (trim_start_id ((c :: r) ++ wb)) by done. by apply trim_end_blank_app.
Qed.

Lemma tag_parts_unique (w n1 n2 : jsstring) (c1 c2 : option jsstring) :
  tag_parts w n1 c1 -> tag_parts w n2 c2 ->
  n1 = n2
  /\ trim (safeString (from_option JStr JUndefined c1) [])
     = trim (safeString (from_option JStr JUndefined c2) []).
Proof.
  intros (ws1 & ws2 & ws3 & ws4 & ws5 & p & H1 & H2 & H3 & H4 & H5 & Hne & Hn & Hp & ->)
         (ws1' & ws2' & ws3' & ws4' & ws5' & p' & H1' & H2' & H3' & H4' & H5'
          & Hne' & Hn' & Hp' & E).
  destruct p as [[[wa body] wb]|], p' as [[[wa' body'] wb']|]; cbn [paren_text] in E.
  - destruct Hp as (Ha & Hb & ->), Hp' as (Ha' & Hb' & ->).
    destruct (tag_head_align ws1 ws2 ws3 n1 ws4 ws1' ws2' ws3' n2 ws4' 40 40
                (wa ++ body ++ wb ++ [41%N] ++ ws5 ++ [93%N])
                (wa' ++ body' ++ wb' ++ [41%N] ++ ws5' ++ [93%N]))
      as (-> & _ & _ & Ea); try tag_aligned E.
    split; [done|]. cbn [from_option safeString].
    rewrite <- (trim_margins wa body wb), <- (trim_margins wa' body' wb') by done.
    f_equal. apply (closing_align _ _ ws5 ws5'); [done|done|].
    rewrite <- !app_assoc. exact Ea.
  - destruct (tag_head_align ws1 ws2 ws3 n1 ws4 ws1' ws2' ws3' n2 (ws4' ++ ws5') 40 93
                (wa ++ body ++ wb ++ [41%N] ++ ws5 ++ [93%N]) [])
      as (_ & _ & ? & _); tag_aligned E.
  - destruct (tag_head_align ws1 ws2 ws3 n1 (ws4 ++ ws5) ws1' ws2' ws3' n2 ws4' 93 40
                [] (wa' ++ body' ++ wb' ++ [41%N] ++ ws5' ++ [93%N]))
      as (_ & _ & ? & _); tag_aligned E.
  - subst c1 c2.
    destruct (tag_head_align ws1 ws2 ws3 n1 (ws4 ++ ws5) ws1' ws2' ws3' n2 (ws4' ++ ws5')
                93 93 [] [])
      as (-> & _); tag_aligned E.
Qed.

Lemma tryParseArgs_trimmed (a b : jsval) :
  trim (safeString a []) = trim (safeString b []) -> tryParseArgs a = tryParseArgs b.
Proof. intros E. unfold tryParseArgs. by rewrite E. Qed.

(** *** [exec] at its match *)

Lemma regex_exec_first (r : regex) (s : jsstring) :
  forall (index : nat) (m : match_result),
    regex_exec r index s = Some m ->
    exists pre post,
      s = pre ++ m_text m ++ post
      /\ rmatch r (m_text m ++ post) [] (fun s' caps => Some (s', caps))
         = Some (post, m_groups m)
      /\ forall pre' w' post' c0 c1,
           s = pre' ++ w' ++ post' -> matches r w' c0 c1 -> (length pre <= length pre')%nat.
Proof.
  induction s as [|c s IH]; intros index m; cbn [regex_exec].
  - destruct (rmatch r [] [] _) as [[s' caps]|] eqn:E; [|done].
    pose proof E as E'.
    apply rmatch_sound in E' as (w & s'' & caps' & Hs & _ & [= <- <-]).
    symmetry in Hs. apply app_eq_nil in Hs as [-> ->].
    intros [= <-]. exists [], []. split_and!; [done|done|intros; simpl; lia].
  - destruct (rmatch r (c :: s) [] _) as [[s' caps]|] eqn:E.
    + pose proof E as E'.
      apply rmatch_sound in E' as (w & s'' & caps' & Hs & _ & [= <- <-]).
      assert (take (length (c :: s) - length s'') (c :: s) = w) as Htake.
      { by rewrite Hs, length_app, Nat.add_sub, take_app_length. }
      rewrite Htake. intros [= <-]. exists [], s''. cbn [m_text m_groups app].
      split_and!; [done|by rewrite <- Hs|intros; simpl; lia].
    + intros H. apply IH in H as (pre & post & Hs & H & Hmin).
      exists (c :: pre), post. split_and!; [simpl; by f_equal|done|].
      intros [|c' pre'] w' post' c0 c1 Hs' M'.
      * exfalso. simpl in Hs'.
        apply (rmatch_complete r w' c0 c1 M' post' []
                 (fun s' caps => Some (s', caps))); [done|].
        by rewrite <- Hs'.
      * simpl in *. injection Hs' as -> Hs'.
        specialize (Hmin pre' w' post' c0 c1 Hs' M'). lia.
Qed.

Lemma regex_exec_here (r : regex) (pre s rest : jsstring) (caps : captures) :
  (forall pre' w' post' c1,
     pre ++ s = pre' ++ w' ++ post' -> matches r w' [] c1 ->
     (length pre <= length pre')%nat) ->
  rmatch r s [] (fun s' caps' => Some (s', caps')) = Some (rest, caps) ->
  forall index,
    regex_exec r index (pre ++ s)
    = Some (mkMatch (index + length pre) (take (length s - length rest) s) caps).
Proof.
  intros Hfree H. induction pre as [|c pre IH]; intros index.
  - cbn [app length]. rewrite Nat.add_0_r.
    destruct s as [|c s]; cbn [regex_exec]; by rewrite H.
  - cbn [app regex_exec].
    destruct (rmatch r (c :: pre ++ s) [] _) as [[s' caps']|] eqn:E.
    + exfalso. apply rmatch_sound in E as (w & s'' & c1 & Hs & M & _).
      specialize (Hfree [] w s'' c1 Hs M). simpl in Hfree. lia.
    + rewrite IH.
      * cbn [length]. do 2 f_equal. lia.
      * intros pre' w' post' c1 Hs M.
        specialize (Hfree (c :: pre') w' post' c1). cbn [app length] in Hfree.
        rewrite Hs in Hfree. specialize (Hfree eq_refl M). lia.
Qed.

(** What follows a match does not change it. *)
Lemma call_re_whatever_follows (tag post post2 : jsstring) (caps : captures) :
  rmatch CALL_RE (tag ++ post) [] (fun s' caps' => Some (s', caps')) = Some (post, caps) ->
  rmatch CALL_RE (tag ++ post2) [] (fun s' caps' => Some (s', caps')) = Some (post2, caps).
Proof.
  intros H.
  assert (call_tag tag) as Htag.
  { pose proof H as H'. apply rmatch_sound in H' as (w & s' & c' & Hs & M & [= <- <-]).
    apply app_inv_tail in Hs as ->.
    apply call_re_sound in M as (name & content & Hparts & _). by exists name, content. }
  assert (rmatch CALL_RE tag [] (fun s' caps' => Some (s', caps')) = Some ([], caps))
    as Hshort.
  { pose proof (rmatch_local post CALL_RE tag []
                  (fun s' caps => Some (s', caps)) (fun s' caps => Some (s', caps))) as Hloc.
    rewrite H in Hloc. destruct Hloc as [Hlen|(y & Hy & Hshort)].
    - intros s' c rest c' [= <- <-]. done.
    - intros x' caps'. right. by exists x'.
    - lia.
    - assert (y = []) as ->; [|done].
      apply (f_equal length) in Hy. rewrite length_app in Hy.
      destruct y; [done|simpl in Hy; lia]. }
  pose proof (rmatch_local post2 CALL_RE tag []
                (fun s' caps => Some (s', caps)) (fun s' caps => Some (s', caps))) as Hloc.
  rewrite Hshort in Hloc.
  destruct (rmatch CALL_RE (tag ++ post2) [] _) as [[rest c]|] eqn:E.
  - destruct Hloc as [Hlen|(y & -> & [= <- <-])]; [| |exfalso|done].
    + intros s' c0 rest0 c' [= <- <-]. done.
    + intros x' caps'. right. by exists x'.
    + pose proof (call_re_shortest _ _ _ E tag post2 eq_refl Htag). lia.
  - cbn [agree] in Hloc. discriminate Hloc.
    + intros s' c0 rest0 c' [= <- <-]. done.
    + intros x' caps'. right. by exists x'.
Qed.

(** C4. On any text the parser returns at most one call. When it returns
    none, no part of the text is a tag of the grammar. When it returns
    one, its [rawTag] is a tag of the grammar and stands in the text: no
    tag starts further left, and of the tags that start at the same place
    none is shorter. The [skillName] is the NAME of that tag and the
    arguments are the coercion of the text between its parentheses (of
    [undefined] when the tag has none), however the tag is read. What
    follows the tag is not looked at: with any other text in its place
    the call is the same, as long as that text does not complete a tag
    that starts further left. *)
Theorem extractFirstCall_leftmost (text : jsstring) :
  match extractFirstCall (JStr text) with
  | None => forall pre w post, text = pre ++ w ++ post -> ~ call_tag w
  | Some c =>
      exists pre post content,
        text = pre ++ rawTag c ++ post
        /\ tag_parts (rawTag c) (skillName c) content
        /\ tryParseArgs (from_option JStr JUndefined content)
           = mkParsed (args c) (rawArgs c)
        /\ (forall pre' w' post',
              text = pre' ++ w' ++ post' -> call_tag w' ->
              (length pre <= length pre')%nat)
        /\ (forall w' post',
              rawTag c ++ post = w' ++ post' -> call_tag w' ->
              (length (rawTag c) <= length w')%nat)
        /\ (forall name' content',
              tag_parts (rawTag c) name' content' ->
              name' = skillName c
              /\ tryParseArgs (from_option JStr JUndefined content')
                 = mkParsed (args c) (rawArgs c))
        /\ (forall post2,
              (forall pre' w' post',
                 pre ++ rawTag c ++ post2 = pre' ++ w' ++ post' -> call_tag w' ->
                 (length pre <= length pre')%nat) ->
              extractFirstCall (JStr (pre ++ rawTag c ++ post2)) = Some c)
  end.
Proof.
  unfold extractFirstCall at 1. cbn [safeString].
  destruct (regex_exec CALL_RE 0 text) as [m|] eqn:E.
  - apply regex_exec_first in E as (pre & post & Hs & Hm & Hmin).
    pose proof Hm as M.
    apply rmatch_sound in M as (w & s' & c' & Hw & M & [= -> ->]).
    apply app_inv_tail in Hw. rewrite <- Hw in M. clear w Hw.
    apply call_re_sound in M as (name & content & Hparts & Hc1 & Hc2).
    exists pre, post, content. cbn [rawTag skillName args rawArgs].
    rewrite Hc1, Hc2. cbn [from_option safeString].
    assert (trim name = name) as Hname.
    { destruct Hparts as (? & ? & ? & ? & ? & ? & _ & _ & _ & _ & _ & _ & Hname & _).
      apply trim_no_space. eapply Forall_impl; [done|]. apply name_char_not_space. }
    rewrite Hname.
    assert (tryParseArgs (from_option JStr JUndefined content)
            = mkParsed (p_args (tryParseArgs (from_option JStr JUndefined content)))
                       (p_raw (tryParseArgs (from_option JStr JUndefined content))))
      as Hargs by (by destruct (tryParseArgs _)).
    split_and!; [done|done|done| | | |].
    + intros pre' w' post' Hs' (name' & content' & Hparts').
      destruct (call_re_complete _ _ _ Hparts') as [caps M'].
      by eapply Hmin.
    + intros w' post' Hs' Htag'.
      pose proof (call_re_shortest _ _ _ Hm w' post' Hs' Htag') as Hlen.
      apply (f_equal length) in Hs'. rewrite !length_app in Hs'. lia.
    + intros name' content' Hparts'.
      destruct (tag_parts_unique _ _ _ _ _ Hparts' Hparts) as [-> Htrim].
      split; [done|]. by rewrite (tryParseArgs_trimmed _ _ Htrim).
    + intros post2 Hfree. unfold extractFirstCall. cbn [safeString].
      rewrite (regex_exec_here CALL_RE pre (m_text m ++ post2) post2 (m_groups m)).
      * rewrite length_app, Nat.add_sub, take_app_length. cbn [m_groups m_text].
        rewrite Hc1, Hc2. cbn [from_option safeString]. by rewrite Hname.
      * intros pre' w' post' c1 Hs' M'.
        apply call_re_sound in M' as (name' & content' & Hparts' & _).
        apply (Hfree pre' w' post' Hs'). by exists name', content'.
      * by apply (call_re_whatever_follows _ post).
  - intros pre w post Hs (name & content & Hparts).
    destruct (call_re_complete _ _ _ Hparts) as [caps M].
    by eapply (regex_exec_none CALL_RE text 0 E).
Qed.

(** A tag inside the arguments of another: the match ends at the first
    [)] that a []] follows, and a tag that would only start there is not
    looked at. *)
Example extractFirstCall_shortest :
  extractFirstCall (JStr (lit "[CALL: a(x)] and [CALL: b(y)]"))
  = Some (mkCall (lit "a") (JObj [(lit "_raw", JStr (lit "x"))]) (lit "x")
                 (lit "[CALL: a(x)]")).
Proof. vm_compute. reflexivity. Qed.

(** The scenario of the specification, and a text with two tags. *)
Example extractFirstCall_scenario :
  extractFirstCall (JStr (lit "[CALL: hello({" ++ [34%N] ++ lit "name" ++ [34; 58; 34]%N
                          ++ lit "X" ++ [34%N] ++ lit "})]"))
  = Some (mkCall (lit "hello") (JObj [(lit "name", JStr (lit "X"))])
                 (lit "{" ++ [34%N] ++ lit "name" ++ [34; 58; 34]%N ++ lit "X" ++ [34%N]
                  ++ lit "}")
                 (lit "[CALL: hello({" ++ [34%N] ++ lit "name" ++ [34; 58; 34]%N
                  ++ lit "X" ++ [34%N] ++ lit "})]")).
Proof. vm_compute. reflexivity. Qed.

Example extractFirstCall_two_tags :
  extractFirstCall (JStr (lit "so **[ CALL : a.b ( k=1 ) ]** then [CALL: c()]"))
  = Some (mkCall (lit "a.b") (JObj [(lit "k", JNum (int 1))]) (lit "k=1")
                 (lit "[ CALL : a.b ( k=1 ) ]")).
Proof. vm_compute. reflexivity. Qed.

Example extractFirstCall_no_tag :
  extractFirstCall (JStr (lit "[call: a()] and [CALL a()] and CALL: a()")) = None.
Proof. vm_compute. reflexivity. Qed.

(** ** Decimal digits *)

Lemma lit_cons (a : ascii) (s : string) : lit (String a s) = N_of_ascii a :: lit s.
Proof. reflexivity. Qed.

Lemma uint_digits (d : Decimal.uint) :
  Forall (fun c => is_digit c = true) (lit (NilEmpty.string_of_uint d)).
Proof.
  induction d; [done|cbn [NilEmpty.string_of_uint]; rewrite lit_cons; by constructor..].
Qed.

Lemma to_uint_no_leading_zero (p : positive) (d : Decimal.uint) :
  Pos.to_uint p <> Decimal.D0 d.
Proof.
  intros E.
  pose proof (DecimalPos.Unsigned.to_of (Pos.to_uint p)) as H.
  rewrite DecimalPos.Unsigned.of_to in H. simpl in H.
  rewrite E in H. unfold Decimal.unorm in H. simpl in H.
  destruct (Decimal.nzhead d) eqn:En; try done.
  - injection H as ->. by apply (DecimalPos.Unsigned.to_uint_nonzero p).
  - by eapply DecimalFacts.nzhead_nonzero.
Qed.

Lemma uint_head (d : Decimal.uint) :
  d <> Decimal.Nil ->
  exists c ds, lit (NilEmpty.string_of_uint d) = c :: ds /\ is_digit c = true.
Proof.
  intros Hd. destruct d; [done|..]; eexists _, _; (split; [apply lit_cons|done]).
Qed.

Lemma after_char_other (c x : N) (r : jsstring) :
  x <> c -> after_char c (x :: r) = None.
Proof. intros H. simpl. by destruct (N.eqb_spec x c). Qed.

(** ** Numbers *)

Section NumberFacts.
Local Open Scope Z_scope.

Lemma scaled_up (b x k : Z) : 0 <= k -> scaled b x k = x * b ^ k.
Proof. intros H. unfold scaled. by rewrite Z.max_r. Qed.

Lemma scaled_down (b x k : Z) : k <= 0 -> scaled b x k = x.
Proof. intros H. unfold scaled. rewrite Z.max_l by done. simpl. lia. Qed.

Lemma scaled_pos (b x k : Z) : 0 < b -> 0 < x -> 0 < scaled b x k.
Proof. intros Hb Hx. unfold scaled. apply Z.mul_pos_pos; [done|]. apply Z.pow_pos_nonneg; lia. Qed.

Lemma scaled_mul (b x c k : Z) : scaled b (x * c) k = scaled b x k * c.
Proof. unfold scaled. ring. Qed.

Lemma round64_sign (negative : bool) (n den : Z) :
  round64 negative n den
  = match round64 false n den with
    | NaN => NaN
    | Infinity _ => Infinity negative
    | Finite _ m e => Finite negative m e
    end.
Proof.
  unfold round64. destruct (n <=? 0); [done|]. cbv zeta.
  destruct (div_nearest_even _ _ =? 0); [done|].
  destruct (1024 <=? _); [done|]. by destruct (odd_part _).
Qed.

Lemma reaches_scale (b n den c d : Z) :
  0 < c -> reaches b (n * c) (den * c) d = reaches b n den d.
Proof.
  intros Hc. unfold reaches. rewrite !scaled_mul.
  apply eq_iff_eq_true. rewrite !Z.leb_le. split; intros H.
  - by apply Z.mul_le_mono_pos_r in H.
  - by apply Z.mul_le_mono_pos_r.
Qed.

Lemma pow2_pos (a : Z) : 0 < 2 ^ a \/ a < 0.
Proof. destruct (Z.le_gt_cases 0 a); [left; by apply Z.pow_pos_nonneg|by right]. Qed.

Lemma reaches_up (b n den d : Z) :
  0 <= d -> reaches b n den d = (den * b ^ d <=? n).
Proof. intros H. unfold reaches. by rewrite scaled_up, scaled_down by lia. Qed.

Lemma reaches_down (b n den d : Z) :
  d <= 0 -> reaches b n den d = (den <=? n * b ^ (- d)).
Proof. intros H. unfold reaches. by rewrite scaled_down, scaled_up by lia. Qed.

(** [reaches b n den d] says [b^d <= n/den]; it holds up to one [d]. *)
Lemma reaches_below (b n den d d' : Z) :
  1 < b -> 0 < n -> 0 < den -> d <= d' ->
  reaches b n den d' = true -> reaches b n den d = true.
Proof.
  intros Hb Hn Hden Hd.
  destruct (Z.le_gt_cases 0 d) as [H0|H0].
  - rewrite !reaches_up by lia. rewrite !Z.leb_le. intros H.
    pose proof (Z.pow_le_mono_r b d d' ltac:(lia) Hd). nia.
  - destruct (Z.le_gt_cases 0 d') as [H1|H1].
    + rewrite reaches_up, reaches_down by lia. rewrite !Z.leb_le. intros H.
      pose proof (Z.pow_pos_nonneg b d' ltac:(lia) H1).
      pose proof (Z.pow_pos_nonneg b (- d) ltac:(lia) ltac:(lia)). nia.
    + rewrite !reaches_down by lia. rewrite !Z.leb_le. intros H.
      pose proof (Z.pow_le_mono_r b (- d') (- d) ltac:(lia) ltac:(lia)). nia.
Qed.

(** The binade of [n/den]: the one [E] with [2^E <= n/den < 2^(E+1)]. *)
Lemma binade_unique (b n den E E' : Z) :
  1 < b -> 0 < n -> 0 < den ->
  reaches b n den E = true -> reaches b n den (E + 1) = false ->
  reaches b n den E' = true -> reaches b n den (E' + 1) = false ->
  E = E'.
Proof.
  intros Hb Hn Hden H1 H2 H3 H4.
  destruct (Z.lt_trichotomy E E') as [Hlt|[->|Hlt]]; [|done|].
  - rewrite (reaches_below b n den (E + 1) E') in H2 by (done || lia). done.
  - rewrite (reaches_below b n den (E' + 1) E) in H4 by (done || lia). done.
Qed.

Lemma log2_bounds (n : Z) : 0 < n -> 2 ^ Z.log2 n <= n < 2 ^ (Z.log2 n + 1).
Proof. intros H. pose proof (Z.log2_spec n H). lia. Qed.

Lemma binade_found (n den : Z) :
  0 < n -> 0 < den ->
  let d := Z.log2 n - Z.log2 den in
  let E := if reaches 2 n den d then d else d - 1 in
  reaches 2 n den E = true /\ reaches 2 n den (E + 1) = false.
Proof.
  intros Hn Hden d E.
  pose proof (log2_bounds n Hn) as [N1 N2]. pose proof (log2_bounds den Hden) as [D1 D2].
  pose proof (Z.log2_nonneg n). pose proof (Z.log2_nonneg den).
  assert (reaches 2 n den (d - 1) = true) as Hlow.
  { destruct (Z.le_gt_cases 0 (d - 1)).
    - rewrite reaches_up by done. apply Z.leb_le.
      assert (2 ^ (Z.log2 den + 1) * 2 ^ (d - 1) = 2 ^ Z.log2 n) as Hp.
      { rewrite <- Z.pow_add_r by lia. f_equal. lia. }
      pose proof (Z.pow_pos_nonneg 2 (d - 1) ltac:(lia) ltac:(lia)). nia.
    - rewrite reaches_down by lia. apply Z.leb_le.
      assert (2 ^ Z.log2 n * 2 ^ (- (d - 1)) = 2 ^ (Z.log2 den + 1)) as Hp.
      { rewrite <- Z.pow_add_r by lia. f_equal. lia. }
      pose proof (Z.pow_pos_nonneg 2 (- (d - 1)) ltac:(lia) ltac:(lia)). nia. }
  assert (reaches 2 n den (d + 1) = false) as Hhigh.
  { destruct (Z.le_gt_cases 0 (d + 1)).
    - rewrite reaches_up by done. apply Z.leb_gt.
      assert (2 ^ Z.log2 den * 2 ^ (d + 1) = 2 ^ (Z.log2 n + 1)) as Hp.
      { rewrite <- Z.pow_add_r by lia. f_equal. lia. }
      pose proof (Z.pow_pos_nonneg 2 (d + 1) ltac:(lia) ltac:(lia)). nia.
    - rewrite reaches_down by lia. apply Z.leb_gt.
      assert (2 ^ (Z.log2 n + 1) * 2 ^ (- (d + 1)) = 2 ^ Z.log2 den) as Hp.
      { rewrite <- Z.pow_add_r by lia. f_equal. lia. }
      pose proof (Z.pow_pos_nonneg 2 (- (d + 1)) ltac:(lia) ltac:(lia)). nia. }
  unfold E. destruct (reaches 2 n den d) eqn:Hd.
  - by split.
  - split; [done|]. by replace (d - 1 + 1) with d by lia.
Qed.

Lemma div_nearest_even_scale (a b c : Z) :
  0 < b -> 0 < c -> div_nearest_even (a * c) (b * c) = div_nearest_even a b.
Proof.
  intros Hb Hc. unfold div_nearest_even.
  rewrite Z.div_mul_cancel_r by lia.
  rewrite Z.mul_mod_distr_r by lia.
  replace (2 * (a mod b * c)) with (2 * (a mod b) * c) by ring.
  by rewrite <- (Zmult_compare_compat_r _ _ c) by lia.
Qed.

(** The Number value depends on the rational only. *)
Lemma round64_scale (s : bool) (n den c : Z) :
  0 < den -> 0 < c -> round64 s (n * c) (den * c) = round64 s n den.
Proof.
  intros Hden Hc. unfold round64.
  destruct (Z.leb_spec n 0) as [Hn|Hn].
  - destruct (Z.leb_spec (n * c) 0); [done|nia].
  - destruct (Z.leb_spec (n * c) 0); [nia|].
    pose proof (binade_found n den Hn Hden) as [B1 B2].
    pose proof (binade_found (n * c) (den * c) ltac:(nia) ltac:(nia)) as [C1 C2].
    cbv zeta in *.
    set (E := if reaches 2 n den _ then _ else _) in *.
    set (E' := if reaches 2 (n * c) (den * c) _ then _ else _) in *.
    rewrite !reaches_scale in C1, C2 by done.
    assert (E' = E) as -> by (apply (binade_unique 2 n den); (done || lia)).
    rewrite !scaled_mul, div_nearest_even_scale; [done| |done].
    apply scaled_pos; lia.
Qed.

Lemma round64_same (s : bool) (n1 d1 n2 d2 : Z) :
  0 < d1 -> 0 < d2 -> n1 * d2 = n2 * d1 -> round64 s n1 d1 = round64 s n2 d2.
Proof.
  intros H1 H2 E.
  rewrite <- (round64_scale s n1 d1 d2), <- (round64_scale s n2 d2 d1) by done.
  rewrite E. f_equal. ring.
Qed.

Lemma odd_part_pow (m j : Z) :
  0 < m -> Z.odd m = true -> 0 <= j -> odd_part (m * 2 ^ j) = (m, j).
Proof.
  intros Hm Hodd Hj. revert j Hj. apply natlike_ind.
  - rewrite Z.mul_1_r. destruct m as [|p|p]; try done. simpl.
    destruct p; try done.
  - intros j Hj IH. rewrite Z.pow_succ_r by done.
    replace (m * (2 * 2 ^ j)) with (2 * (m * 2 ^ j)) by ring.
    pose proof (Z.pow_pos_nonneg 2 j ltac:(lia) Hj).
    destruct (m * 2 ^ j) as [|p|p] eqn:E; try nia.
    change (2 * Z.pos p) with (Z.pos (xO p)). cbn [odd_part pos_odd_part] in *.
    destruct (pos_odd_part p) as [q i]. injection IH as -> ->. f_equal; lia.
Qed.

Lemma odd_part_spec (M : Z) :
  0 < M ->
  0 < (odd_part M).1 /\ Z.odd (odd_part M).1 = true /\ 0 <= (odd_part M).2
  /\ M = (odd_part M).1 * 2 ^ (odd_part M).2.
Proof.
  destruct M as [|p|p]; try done. intros _. cbn [odd_part].
  induction p as [p _|p IH|].
  - cbn. split_and!; (done || lia).
  - cbn [pos_odd_part]. destruct (pos_odd_part p) as [q j]. cbn [fst snd] in *.
    destruct IH as (H1 & H2 & H3 & H4). split_and!; [done|done|lia|].
    rewrite Pos2Z.inj_xO, H4, (Z.pow_add_r 2 j 1) by lia. ring.
  - cbn. split_and!; (done || lia).
Qed.

(** [2^d <= (m * 2^e)] as [2^(d - e) <= m]. *)
Lemma reaches_shift (b m e d : Z) :
  1 < b -> 0 < m ->
  reaches b (scaled b m e) (scaled b 1 (- e)) d = reaches b m 1 (d - e).
Proof.
  intros Hb Hm. apply eq_iff_eq_true.
  assert (forall a, 0 <= a -> 0 < b ^ a) as Hpos by (intros; apply Z.pow_pos_nonneg; lia).
  assert (forall x y, 0 <= x -> 0 <= y -> b ^ (x + y) = b ^ x * b ^ y) as Hadd
    by (intros; by apply Z.pow_add_r).
  unfold reaches. rewrite !Z.leb_le.
  destruct (Z.le_gt_cases 0 e) as [He|He], (Z.le_gt_cases 0 d) as [Hd|Hd],
      (Z.le_gt_cases 0 (d - e)) as [Hde|Hde];
    rewrite ?(scaled_up b _ e), ?(scaled_down b _ e), ?(scaled_up b _ (- e)),
      ?(scaled_down b _ (- e)), ?(scaled_up b _ d), ?(scaled_down b _ d),
      ?(scaled_up b _ (- d)), ?(scaled_down b _ (- d)), ?(scaled_up b _ (d - e)),
      ?(scaled_down b _ (d - e)), ?(scaled_up b _ (- (d - e))),
      ?(scaled_down b _ (- (d - e))) by lia; try lia.
  - assert (b ^ d = b ^ (d - e) * b ^ e) as ->
      by (rewrite <- Z.pow_add_r by lia; f_equal; lia).
    pose proof (Hpos e He). split; intros; nia.
  - assert (b ^ e = b ^ (- (d - e)) * b ^ d) as ->
      by (rewrite <- Z.pow_add_r by lia; f_equal; lia).
    pose proof (Hpos d Hd). split; intros; nia.
  - assert (b ^ (d - e) = b ^ (- e) * b ^ d) as ->
      by (rewrite <- Z.pow_add_r by lia; f_equal; lia).
    split; intros; nia.
  - assert (b ^ (- e) = b ^ (d - e) * b ^ (- d)) as ->
      by (rewrite <- Z.pow_add_r by lia; f_equal; lia).
    pose proof (Hpos (- d) ltac:(lia)). split; intros; nia.
  - assert (b ^ (- d) = b ^ (- e) * b ^ (- (d - e))) as ->
      by (rewrite <- Z.pow_add_r by lia; f_equal; lia).
    pose proof (Hpos (- e) ltac:(lia)). split; intros; nia.
Qed.

Lemma div_nearest_even_multiple (x b : Z) : 0 < b -> div_nearest_even (x * b) b = x.
Proof.
  intros Hb. unfold div_nearest_even.
  rewrite Z.div_mul, Z.mod_mul by lia.
  by destruct (Z.compare_spec (2 * 0) b); try lia.
Qed.

(** A value that a binary64 holds is its own Number value. *)
Lemma round64_exact (s : bool) (m e : Z) :
  binary64 (Finite s m e) -> 0 < m ->
  round64 s (scaled 2 m e) (scaled 2 1 (- e)) = Finite s m e.
Proof.
  intros Hb Hm.
  assert (Z.odd m = true /\ Z.log2 m < 53 /\ -1074 <= e /\ Z.log2 m + e < 1024)
    as (Hodd & Hbits & Hmin & Hmax)
    by (destruct m; [done|by destruct Hb as (_ & ? & ? & ? & ?)|done]).
  set (n := scaled 2 m e). set (den := scaled 2 1 (- e)).
  assert (0 < n) as Hn by (apply scaled_pos; lia).
  assert (0 < den) as Hden by (apply scaled_pos; lia).
  pose proof (Z.log2_nonneg m) as HL. pose proof (log2_bounds m Hm) as [L1 L2].
  unfold round64. destruct (Z.leb_spec n 0); [lia|].
  pose proof (binade_found n den Hn Hden) as [B1 B2]. cbv zeta in *.
  set (E := if reaches 2 n den _ then _ else _) in *.
  assert (E = Z.log2 m + e) as ->.
  { apply (binade_unique 2 n den); try (done || lia); unfold n, den;
      rewrite reaches_shift by lia.
    - replace (Z.log2 m + e - e) with (Z.log2 m) by lia.
      rewrite reaches_up by done. apply Z.leb_le. lia.
    - replace (Z.log2 m + e + 1 - e) with (Z.log2 m + 1) by lia.
      rewrite reaches_up by lia. apply Z.leb_gt. lia. }
  set (q := Z.max (Z.log2 m + e - 52) (-1074)).
  assert (q <= e) as Hq by lia.
  assert (scaled 2 n (- q) = m * 2 ^ (e - q) * scaled 2 den q) as ->.
  { unfold n, den.
    assert (forall x y, 0 <= x -> 0 <= y -> 2 ^ (x + y) = 2 ^ x * 2 ^ y) as Hadd
      by (intros; by apply Z.pow_add_r).
    destruct (Z.le_gt_cases 0 e) as [He|He], (Z.le_gt_cases 0 q) as [Hq0|Hq0];
      rewrite ?(scaled_up 2 _ e), ?(scaled_down 2 _ e), ?(scaled_up 2 _ (- e)),
        ?(scaled_down 2 _ (- e)), ?(scaled_up 2 _ q), ?(scaled_down 2 _ q),
        ?(scaled_up 2 _ (- q)), ?(scaled_down 2 _ (- q)) by lia; try lia.
    - replace e with (e - q + q) at 1 by lia. rewrite Hadd by lia. ring.
    - replace (e - q) with (e + - q) by lia. rewrite Hadd by lia. ring.
    - replace (- q) with (e - q + - e) at 1 by lia. rewrite Hadd by lia. ring. }
  rewrite div_nearest_even_multiple by (apply scaled_pos; lia).
  pose proof (Z.pow_pos_nonneg 2 (e - q) ltac:(lia) ltac:(lia)).
  destruct (Z.eqb_spec (m * 2 ^ (e - q)) 0); [nia|].
  rewrite Z.log2_mul_pow2 by lia.
  destruct (Z.leb_spec 1024 (e - q + Z.log2 m + q)); [lia|].
  rewrite odd_part_pow by (done || lia). f_equal. lia.
Qed.

(** *** Rows of digits *)

Lemma digits_value_from (ds : jsstring) (acc : Z) :
  fold_left (fun a c => a * 10 + (Z.of_N c - 48)) ds acc
  = acc * 10 ^ Z.of_nat (length ds) + digits_value ds.
Proof.
  unfold digits_value. revert acc. induction ds as [|c r IH]; intros acc.
  - simpl. lia.
  - cbn [fold_left length]. rewrite (IH (acc * 10 + _)), (IH (0 * 10 + _)).
    rewrite Nat2Z.inj_succ, Z.pow_succ_r by lia. ring.
Qed.

Lemma digits_value_app (a b : jsstring) :
  digits_value (a ++ b) = digits_value a * 10 ^ Z.of_nat (length b) + digits_value b.
Proof. unfold digits_value at 1. rewrite fold_left_app. apply digits_value_from. Qed.

Lemma digits_value_zeros (j : Z) : digits_value (zeros j) = 0.
Proof.
  unfold zeros, digits_value. induction (Z.to_nat j) as [|i IH]; [done|]. exact IH.
Qed.

Lemma zeros_digits (j : Z) : Forall (fun c => is_digit c = true) (zeros j).
Proof. unfold zeros. induction (Z.to_nat j); by constructor. Qed.

Lemma zeros_length (j : Z) : 0 <= j -> Z.of_nat (length (zeros j)) = j.
Proof. intros H. unfold zeros. rewrite repeat_length. lia. Qed.

Lemma digits_value_of_uint_acc (d : Decimal.uint) (acc : positive) :
  fold_left (fun a c => a * 10 + (Z.of_N c - 48)) (lit (NilEmpty.string_of_uint d))
            (Z.pos acc)
  = Z.pos (Pos.of_uint_acc d acc).
Proof.
  revert acc. induction d as [|d IH|d IH|d IH|d IH|d IH|d IH|d IH|d IH|d IH|d IH];
    intros acc; [done|cbn [NilEmpty.string_of_uint Pos.of_uint_acc]; rewrite lit_cons;
                      cbn [fold_left]; rewrite <- IH; f_equal; cbn; lia..].
Qed.

Lemma digits_value_of_uint (d : Decimal.uint) :
  digits_value (lit (NilEmpty.string_of_uint d)) = Z.of_N (N.of_uint d).
Proof.
  unfold digits_value.
  induction d as [|d IH|d IH|d IH|d IH|d IH|d IH|d IH|d IH|d IH|d IH];
    [done|exact IH|cbn [NilEmpty.string_of_uint]; rewrite lit_cons; cbn [fold_left];
                    apply (digits_value_of_uint_acc d 1)
         |cbn [NilEmpty.string_of_uint]; rewrite lit_cons; cbn [fold_left];
          first [apply (digits_value_of_uint_acc d 2)|apply (digits_value_of_uint_acc d 3)
                |apply (digits_value_of_uint_acc d 4)|apply (digits_value_of_uint_acc d 5)
                |apply (digits_value_of_uint_acc d 6)|apply (digits_value_of_uint_acc d 7)
                |apply (digits_value_of_uint_acc d 8)|apply (digits_value_of_uint_acc d 9)]..].
Qed.

(** The decimal writing of a positive integer: digits, the first not a
    zero, of that value. *)
Lemma decimal_positive (s : Z) :
  0 < s ->
  exists c ds,
    decimal s = c :: ds /\ c <> 48%N
    /\ Forall (fun x => is_digit x = true) (c :: ds)
    /\ digits_value (c :: ds) = s.
Proof.
  destruct s as [|p|p]; try done. intros _.
  unfold decimal. cbn [Z.to_int NilZero.string_of_int].
  pose proof (DecimalPos.Unsigned.to_uint_nonnil p) as Hnn.
  assert (NilZero.string_of_uint (Pos.to_uint p) = NilEmpty.string_of_uint (Pos.to_uint p))
    as -> by (by destruct (Pos.to_uint p)).
  pose proof (uint_digits (Pos.to_uint p)) as Hdig.
  pose proof (digits_value_of_uint (Pos.to_uint p)) as Hval.
  rewrite (DecimalPos.Unsigned.of_to p : N.of_uint _ = _) in Hval.
  destruct (uint_head _ Hnn) as (c & ds & E & Hc).
  exists c, ds. rewrite <- E. split_and!; [done| |done|done].
  intros ->. destruct (Pos.to_uint p) as [|d| | | | | | | | |] eqn:Ep; try done.
  by apply (to_uint_no_leading_zero p d).
Qed.

Lemma decimal_nonneg (s : Z) :
  0 <= s ->
  decimal s <> [] /\ Forall (fun x => is_digit x = true) (decimal s)
  /\ digits_value (decimal s) = s.
Proof.
  intros H. destruct (Z.eq_dec s 0) as [->|].
  - split_and!; [done|by repeat constructor|done].
  - destruct (decimal_positive s ltac:(lia)) as (c & ds & -> & _ & ? & ?). done.
Qed.

(** *** Reading what was written *)

Lemma span_digits_stop (ds rest : jsstring) :
  Forall (fun c => is_digit c = true) ds -> stops rest ->
  span_digits (ds ++ rest) = (ds, rest).
Proof.
  intros Hds Hrest. induction Hds as [|c ds Hc _ IH]; simpl.
  - destruct rest as [|c r]; [done|]. simpl in *. by rewrite Hrest.
  - by rewrite Hc, IH.
Qed.

Lemma number_end_stops (rest : jsstring) : number_end rest -> stops rest.
Proof. destruct rest; [done|]. by intros [? _]. Qed.

(** A number written as digits, a fraction and an exponent is read as the
    Number value for the decimal it writes. *)
Lemma parse_number_parts (neg : bool) (c : N) (int fd : jsstring)
  (ex : option (bool * jsstring)) (rest : jsstring) :
  Forall (fun x => is_digit x = true) (c :: int) ->
  (c = 48%N -> int = []) ->
  Forall (fun x => is_digit x = true) fd ->
  match ex with
  | Some (_, ed) => ed <> [] /\ Forall (fun x => is_digit x = true) ed
  | None => True
  end ->
  number_end rest ->
  parse_number ((if neg then [45%N] else []) ++ (c :: int) ++ fraction_text fd
                ++ exponent_text ex ++ rest)
  = Some (round64_dec neg (digits_value ((c :: int) ++ fd))
                      (exponent_value ex - Z.of_nat (length fd)), rest).
Proof.
  intros Hint Hzero Hfd Hex Hrest.
  assert (is_digit c = true) as Hc by (by apply Forall_cons in Hint as [? _]).
  assert (stops (exponent_text ex ++ rest)) as Hstop_e.
  { destruct ex as [[sg ed]|]; [done|]. by apply number_end_stops. }
  assert (stops (fraction_text fd ++ exponent_text ex ++ rest)) as Hstop_f.
  { destruct fd; [done|]. done. }
  assert (after_char 46 (exponent_text ex ++ rest) = None) as Hnp.
  { destruct ex as [[sg ed]|]; [done|]. cbn [exponent_text app].
    destruct rest as [|x r]; [done|]. destruct Hrest as (_ & ? & _).
    simpl. by destruct (N.eqb_spec x 46). }
  assert (parse_exponent (exponent_text ex ++ rest)
          = match ex with
            | Some (sg, ed) => Some (sg, ed, rest)
            | None => None
            end) as Hpe.
  { destruct ex as [[sg ed]|].
    - destruct Hex as [Hne Hed]. cbn [exponent_text app parse_exponent].
      change (101 =? 101)%N with true. cbn [orb].
      rewrite (span_digits_stop ed rest Hed (number_end_stops _ Hrest)).
      by destruct sg.
    - cbn [exponent_text app]. destruct rest as [|x r]; [done|].
      destruct Hrest as (_ & _ & ? & ?). simpl.
      destruct (N.eqb_spec x 101); [done|]. by destruct (N.eqb_spec x 69). }
  assert ((c =? 48)%N && negb (bool_decide (int = [])) = false) as Hlead.
  { destruct (N.eqb_spec c 48) as [->|]; [|done]. by rewrite (Hzero eq_refl). }
  unfold parse_number.
  assert (after_char 45 ((if neg then [45%N] else []) ++ (c :: int) ++ fraction_text fd
                         ++ exponent_text ex ++ rest)
          = if neg then Some ((c :: int) ++ fraction_text fd ++ exponent_text ex ++ rest)
            else None) as ->.
  { destruct neg; [done|]. cbn [app after_char].
    destruct (N.eqb_spec c 45) as [->|]; done. }
  destruct neg; cbv iota beta;
    rewrite ?app_nil_l, (span_digits_stop (c :: int) _ Hint Hstop_f), Hlead;
    (destruct fd as [|f fd];
     [cbn [fraction_text app]; rewrite Hnp; cbn [option_map]; rewrite Hpe;
      destruct ex as [[[] ed]|]; [destruct Hex as [? _]; by destruct ed..|done]
     |cbn [fraction_text app after_char]; change (46 =? 46)%N with true;
      cbn [option_map];
      rewrite (span_digits_stop (f :: fd) _ Hfd Hstop_e
               : span_digits (f :: fd ++ exponent_text ex ++ rest) = _), Hpe;
      destruct ex as [[[] ed]|]; [destruct Hex as [? _]; by destruct ed..|done]]).
Qed.

Lemma round64_dec_same (neg : bool) (D D' p p' : Z) :
  scaled 10 D p = scaled 10 D' p' -> scaled 10 1 (- p) = scaled 10 1 (- p') ->
  round64_dec neg D p = round64_dec neg D' p'.
Proof. unfold round64_dec. by intros -> ->. Qed.

(** What [render] writes is read back as the Number value for [s * 10^p]. *)
Lemma render_parse (neg : bool) (s p : Z) (rest : jsstring) :
  0 < s -> number_end rest ->
  parse_number ((if neg then [45%N] else []) ++ render s p ++ rest)
  = Some (round64_dec neg s p, rest).
Proof.
  intros Hs Hrest.
  destruct (decimal_positive s Hs) as (c & ds & E & Hc & Hdig & Hval).
  unfold render. rewrite E.
  set (k := Z.of_nat (length (c :: ds))). set (n := p + k).
  assert (1 <= k) as Hk by (unfold k; cbn [length]; lia).
  assert (Z.of_nat (length ds) = k - 1) as Hlen by (unfold k; cbn [length]; lia).
  apply Forall_cons in Hdig as Hdig'. destruct Hdig' as [Hcd Hds].
  destruct ((k <=? n) && (n <=? 21)) eqn:C1.
  { (* digits and zeros *)
    apply andb_true_iff in C1 as [Hkn%Z.leb_le Hn21%Z.leb_le].
    replace (((c :: ds) ++ zeros (n - k)) ++ rest)
      with ((c :: ds ++ zeros (n - k)) ++ fraction_text [] ++ exponent_text None ++ rest)
      by reflexivity.
    rewrite parse_number_parts; [|constructor; [done|by apply Forall_app; split;
                                                     [|apply zeros_digits]]
                                 |by intros ->|done|done|done].
    f_equal. f_equal. rewrite app_nil_r.
    change (c :: ds ++ zeros (n - k)) with ((c :: ds) ++ zeros (n - k)).
    rewrite digits_value_app, digits_value_zeros, Hval, zeros_length by lia.
    cbn [exponent_value length]. change (0 - Z.of_nat 0) with 0.
    apply round64_dec_same.
    + rewrite (scaled_up 10 _ 0), (scaled_up 10 s p) by lia.
      replace (n - k) with p by lia. rewrite Z.pow_0_r. lia.
    + by rewrite !scaled_down by lia. }
  apply andb_false_iff in C1. rewrite !Z.leb_gt in C1.
  destruct ((0 <? n) && (n <=? 21)) eqn:C2.
  { (* a point inside the digits *)
    apply andb_true_iff in C2 as [Hn0%Z.ltb_lt Hn21%Z.leb_le].
    assert (exists i, Z.to_nat n = S i /\ (i < length ds)%nat) as (i & Ei & Hi)
      by (exists (Z.to_nat (n - 1)); lia).
    rewrite Ei. cbn [take drop].
    assert (drop i ds <> []) as Hdrop.
    { intros Hd. apply (f_equal length) in Hd. rewrite length_drop in Hd.
      simpl in Hd. lia. }
    replace (((c :: take i ds) ++ [46%N] ++ drop i ds) ++ rest)
      with ((c :: take i ds) ++ fraction_text (drop i ds) ++ exponent_text None ++ rest)
      by (destruct (drop i ds); [done|]; cbn [fraction_text exponent_text app];
          by rewrite <- ?app_assoc).
    rewrite parse_number_parts;
      [|constructor; [done|by apply Forall_take]
       |intros ->; done|by apply Forall_drop|done|done].
    f_equal. f_equal.
    change ((c :: take i ds) ++ drop i ds) with (c :: take i ds ++ drop i ds).
    rewrite take_drop, Hval, length_drop. cbn [exponent_value]. f_equal. lia. }
  apply andb_false_iff in C2. rewrite Z.ltb_ge, Z.leb_gt in C2.
  destruct ((-6 <? n) && (n <=? 0)) eqn:C3.
  { (* zeros before the digits *)
    apply andb_true_iff in C3 as [Hn6%Z.ltb_lt Hn0%Z.leb_le].
    replace ((lit "0." ++ zeros (- n) ++ c :: ds) ++ rest)
      with ((48%N :: []) ++ fraction_text (zeros (- n) ++ c :: ds)
            ++ exponent_text None ++ rest).
    2:{ cbn [exponent_text app]. destruct (zeros (- n) ++ c :: ds) eqn:Ez.
        - by destruct (zeros (- n)).
        - cbn [fraction_text]. rewrite <- Ez.
          change (lit "0.") with [48%N; 46%N]. cbn [app].
          by rewrite <- app_assoc. }
    rewrite parse_number_parts;
      [|by repeat constructor|done
       |by apply Forall_app; split; [apply zeros_digits|]|done|done].
    f_equal. f_equal. cbn [app exponent_value].
    change (48%N :: zeros (- n) ++ c :: ds) with ([48%N] ++ zeros (- n) ++ c :: ds).
    rewrite !digits_value_app, digits_value_zeros, Hval.
    rewrite length_app, Nat2Z.inj_add, zeros_length by lia.
    change (digits_value [48%N]) with 0. f_equal; unfold k in *; cbn [length] in *; lia. }
  apply andb_false_iff in C3. rewrite Z.ltb_ge, Z.leb_gt in C3.
  (* the exponent form *)
  destruct (decimal_nonneg (Z.abs (n - 1)) ltac:(lia)) as (Hne & Hed & Hev).
  replace ((c :: match ds with [] => [] | _ :: _ => 46%N :: ds end
                 ++ [101%N] ++ (if 0 <=? n - 1 then [43%N] else [45%N])
                 ++ decimal (Z.abs (n - 1))) ++ rest)
    with ((c :: []) ++ fraction_text ds
          ++ exponent_text (Some (negb (0 <=? n - 1), decimal (Z.abs (n - 1)))) ++ rest)
    by (destruct ds, (0 <=? n - 1); cbn [fraction_text exponent_text app negb];
        by rewrite <- ?app_assoc).
  rewrite parse_number_parts; [|by repeat constructor|done|done|done|done].
  f_equal. f_equal. f_equal; [by rewrite <- Hval|].
  destruct (Z.leb_spec 0 (n - 1)); cbn [negb exponent_value]; rewrite Hev, Hlen; lia.
Qed.

Lemma digits_at_sound (x : number) (n den n0 k : Z) (c : Z * Z) :
  digits_at x n den n0 k = Some c -> 0 < c.1 /\ round64_dec false c.1 c.2 = x.
Proof.
  unfold digits_at. cbv zeta. intros H.
  repeat case_match; try done; simplify_eq; cbn [fst snd] in *;
    repeat match goal with
           | Hv : _ && _ = true |- _ =>
               apply andb_true_iff in Hv as [?%Z.ltb_lt ?%bool_decide_eq_true]
           end; by split.
Qed.

Lemma shortest_from_sound (fuel : nat) (x : number) (n den n0 k : Z) (c : Z * Z) :
  shortest_from fuel x n den n0 k = Some c ->
  0 < c.1 /\ round64_dec false c.1 c.2 = x.
Proof.
  revert k. induction fuel as [|f IH]; intros k; [done|]. cbn [shortest_from].
  destruct (digits_at x n den n0 k) as [c'|] eqn:E.
  - intros [= <-]. by eapply digits_at_sound.
  - apply IH.
Qed.

(** Where the decimal expansion of [n/den] ends, a candidate is the value
    itself. *)
Lemma digits_at_exact (x : number) (n den n0 k : Z) :
  0 < n -> 0 < den -> round64 false n den = x ->
  (scaled 10 den (n0 - k) | scaled 10 n (- (n0 - k))) ->
  is_Some (digits_at x n den n0 k).
Proof.
  intros Hn Hden Hx [lo Hlo]. unfold digits_at. cbv zeta.
  set (p := n0 - k) in *. set (A := scaled 10 n (- p)) in *.
  set (B := scaled 10 den p) in *.
  assert (0 < A) as HA by (apply scaled_pos; lia).
  assert (0 < B) as HB by (apply scaled_pos; lia).
  assert (A / B = lo) as -> by (rewrite Hlo; apply Z.div_mul; lia).
  cbn [fst snd].
  assert ((0 <? lo) && bool_decide (round64_dec false lo p = x) = true) as ->.
  { apply andb_true_iff. split; [apply Z.ltb_lt; nia|]. apply bool_decide_eq_true.
    rewrite <- Hx. unfold round64_dec. apply round64_same; [apply scaled_pos; lia|done|].
    unfold A, B, scaled in *.
    replace (lo * 10 ^ Z.max 0 p * den) with (lo * (den * 10 ^ Z.max 0 p)) by ring.
    rewrite <- Hlo. ring. }
  cbn [fst snd]. by repeat case_match.
Qed.

Lemma shortest_from_some (fuel : nat) (x : number) (n den n0 k : Z) (j : nat) :
  (j < fuel)%nat -> is_Some (digits_at x n den n0 (k + Z.of_nat j)) ->
  is_Some (shortest_from fuel x n den n0 k).
Proof.
  revert k j. induction fuel as [|f IH]; intros k j Hj Hsome; [lia|].
  cbn [shortest_from]. destruct (digits_at x n den n0 k) as [c|] eqn:E; [done|].
  destruct j as [|j].
  - rewrite Z.add_0_r, E in Hsome. by destruct Hsome.
  - apply (IH (k + 1) j); [lia|]. by replace (k + 1 + Z.of_nat j) with (k + Z.of_nat (S j)) by lia.
Qed.

(** Every binary64 value has its shortest digits. *)
Lemma shortest_total (m e : Z) :
  binary64 (Finite false m e) -> 0 < m ->
  exists s p, shortest m e = Some (s, p)
              /\ 0 < s /\ round64_dec false s p = Finite false m e.
Proof.
  intros Hb Hm.
  assert (is_Some (shortest m e)) as [[s p] E].
  { unfold shortest. cbv zeta.
    set (n := scaled 2 m e). set (den := scaled 2 1 (- e)).
    set (n0 := if reaches 10 n den _ then _ else _).
    set (K := Z.max 1 (n0 + Z.max 0 (- e))).
    apply (shortest_from_some _ _ _ _ _ _ (Z.to_nat (K - 1))); [lia|].
    replace (1 + Z.of_nat (Z.to_nat (K - 1))) with K by lia.
    apply digits_at_exact; [apply scaled_pos; lia..|by apply round64_exact|].
    rewrite scaled_down, scaled_up by lia. unfold den, scaled.
    set (a := Z.max 0 (- e)). set (j := - (n0 - K)).
    assert (0 <= a <= j) as [Ha Haj] by lia.
    exists (n * 5 ^ j * 2 ^ (j - a)).
    replace 10 with (2 * 5) at 1 by done. rewrite Z.pow_mul_l.
    replace j with (j - a + a) at 1 by lia. rewrite Z.pow_add_r by lia. ring. }
  exists s, p. split; [done|]. by apply (shortest_from_sound _ _ _ _ _ _ (s, p)) in E.
Qed.

(** The text of a Number is read back as the Number. *)
Lemma Number_toString_parse (x : number) (rest : jsstring) :
  binary64 x -> json_number x -> number_end rest ->
  parse_number (Number_toString x ++ rest) = Some (x, rest).
Proof.
  intros Hb Hj Hrest. destruct x as [|?|neg m e]; [done..|].
  cbn [Number_toString]. destruct (Z.leb_spec m 0) as [Hm|Hm].
  - destruct m as [|p|p]; [|lia|by destruct Hb as [? _]]. cbn in Hb. subst e.
    destruct Hj as [->|]; [|lia].
    apply (parse_number_parts false 48 [] [] None rest); by repeat constructor.
  - assert (binary64 (Finite false m e)) as Hb' by (by destruct m).
    destruct (shortest_total m e Hb' Hm) as (s & p & -> & Hs & Hround).
    rewrite <- app_assoc, render_parse by done. f_equal. f_equal.
    unfold round64_dec in *. rewrite round64_sign, Hround. done.
Qed.

Lemma Number_toString_head (x : number) :
  binary64 x -> json_number x ->
  exists c r, Number_toString x = c :: r /\ (is_digit c = true \/ c = 45%N).
Proof.
  intros Hb Hj. pose proof (Number_toString_parse x [] Hb Hj I) as H.
  rewrite app_nil_r in H. destruct (Number_toString x) as [|c r]; [done|].
  exists c, r. split; [done|]. unfold parse_number in H. cbn [after_char] in H.
  destruct (N.eqb_spec c 45); [by right|left].
  cbn [span_digits] in H. by destruct (is_digit c).
Qed.

(** The integers a binary64 holds exactly are their own Number value. *)
Lemma int_binary64 (z : Z) : Z.abs z <= 9007199254740992 -> binary64 (int z).
Proof.
  intros Hz. unfold int. destruct (Z.eq_dec z 0) as [->|Hnz]; [done|].
  pose proof (odd_part_spec (Z.abs z) ltac:(lia)) as (H1 & H2 & H3 & H4).
  destruct (odd_part (Z.abs z)) as [m j]. cbn [fst snd] in *.
  assert (Z.log2 m + j < 1024 /\ Z.log2 m < 53) as [? ?].
  { pose proof (Z.log2_mul_pow2 m j H1 H3) as E. rewrite <- H4 in E.
    pose proof (Z.log2_le_mono (Z.abs z) 9007199254740992 Hz) as Hl.
    change (Z.log2 9007199254740992) with 53 in Hl.
    pose proof (Z.log2_nonneg m).
    destruct (Z.eq_dec (Z.log2 m + j) 53) as [E53|]; [|lia].
    split; [lia|].
    (* |z| = m 2^j with log2 = 53 and |z| <= 2^53: m = 1 *)
    pose proof (log2_bounds m H1) as [L1 _].
    assert (2 ^ (Z.log2 m + j) <= Z.abs z) as Hlow.
    { rewrite Z.pow_add_r, H4 by lia.
      pose proof (Z.pow_pos_nonneg 2 j ltac:(lia) H3). nia. }
    rewrite E53 in Hlow. change (2 ^ 53) with 9007199254740992 in Hlow.
    assert (Z.abs z = 2 ^ 53) as Ez by (change (2 ^ 53) with 9007199254740992; lia).
    assert (Z.log2 m = 0 \/ 0 < Z.log2 m) as [E0|Hpos] by lia; [lia|].
    (* m odd and greater than 1 cannot divide a power of two *)
    exfalso. rewrite H4 in Ez.
    assert (j < 53) as Hj by lia.
    assert (m * 2 ^ j = 2 ^ (53 - j) * 2 ^ j) as Em
      by (rewrite <- Z.pow_add_r by lia; rewrite Ez; f_equal; lia).
    pose proof (Z.pow_pos_nonneg 2 j ltac:(lia) H3).
    assert (m = 2 ^ (53 - j)) as -> by nia.
    rewrite Z.odd_pow in H2 by lia. done. }
  destruct m as [|p|p]; [lia| |lia]. split_and!; (done || lia).
Qed.

Lemma round64_int (z : Z) :
  Z.abs z <= 9007199254740992 -> round64 (z <? 0) (Z.abs z) 1 = int z.
Proof.
  intros Hz. pose proof (int_binary64 z Hz) as Hb. unfold int in *.
  destruct (Z.eq_dec z 0) as [->|Hnz]; [done|].
  pose proof (odd_part_spec (Z.abs z) ltac:(lia)) as (H1 & H2 & H3 & H4).
  destruct (odd_part (Z.abs z)) as [m j]. cbn [fst snd] in *.
  rewrite <- (round64_exact (z <? 0) m j Hb H1).
  rewrite scaled_up, scaled_down by lia. by rewrite H4.
Qed.

End NumberFacts.

(** ** Argument coercion *)

Lemma scalar_of_is_scalar (val : jsstring) : is_scalar (scalar_of val).
Proof.
  unfold scalar_of.
  repeat match goal with
         | |- is_scalar (if ?b then _ else _) => destruct b
         end; done.
Qed.

Lemma join_with_cons (sep p : jsstring) (q : jsstring) (r : list jsstring) :
  join_with sep (p :: q :: r) = p ++ sep ++ join_with sep (q :: r).
Proof. reflexivity. Qed.

(** *** Own properties *)

Lemma own_property_cons (k k' : jsstring) (v' : jsval) (r : list (jsstring * jsval)) :
  own_property k ((k', v') :: r) = if bool_decide (k' = k) then Some v' else own_property k r.
Proof. unfold own_property. cbn [List.find fst]. by case_bool_decide. Qed.

Lemma own_property_None (k : jsstring) (fields : list (jsstring * jsval)) :
  own_property k fields = None <-> k ∉ fields.*1.
Proof.
  induction fields as [|[k' v'] r IH]; [split; [by intros _ ?%elem_of_nil|done]|].
  rewrite own_property_cons, fmap_cons, not_elem_of_cons. cbn [fst].
  case_bool_decide; [by split; [|intros [? _]]|]. rewrite IH. by split; [|intros [_ ?]].
Qed.

Lemma obj_replace_keys (k : jsstring) (v : jsval) (fields : list (jsstring * jsval)) :
  (obj_replace k v fields).*1 = fields.*1.
Proof.
  induction fields as [|[k' v'] r IH]; [done|]. cbn [obj_replace].
  case_bool_decide; [by subst|]. by rewrite !fmap_cons, IH.
Qed.

Lemma obj_insert_keys (k : jsstring) (v : jsval) (fields : list (jsstring * jsval)) :
  (obj_insert k v fields).*1 ≡ₚ k :: fields.*1.
Proof.
  induction fields as [|[k' v'] r IH]; [done|]. cbn [obj_insert].
  destruct (enumerated_before k k'); [done|].
  rewrite !fmap_cons, IH. cbn [fst]. apply Permutation_swap.
Qed.

Lemma obj_set_NoDup (k : jsstring) (v : jsval) (fields : list (jsstring * jsval)) :
  NoDup fields.*1 -> NoDup (obj_set k v fields).*1.
Proof.
  intros Hnd. unfold obj_set. destruct (own_property k fields) eqn:E.
  - by rewrite obj_replace_keys.
  - rewrite obj_insert_keys. apply NoDup_cons. by rewrite <- own_property_None.
Qed.

Lemma own_property_replace (k k0 : jsstring) (v : jsval) (fields : list (jsstring * jsval)) :
  own_property k0 (obj_replace k v fields)
  = if bool_decide (k0 = k) then (fun _ => v) <$> own_property k fields
    else own_property k0 fields.
Proof.
  induction fields as [|[k' v'] r IH]; [by case_bool_decide|]. cbn [obj_replace].
  destruct (decide (k' = k)) as [->|Hk'].
  - rewrite bool_decide_eq_true_2 by done. rewrite !own_property_cons.
    rewrite (bool_decide_eq_true_2 (k = k)) by done.
    case_bool_decide; [by subst; rewrite bool_decide_eq_true_2|].
    by rewrite bool_decide_eq_false_2 by done.
  - rewrite bool_decide_eq_false_2 by done. rewrite !own_property_cons, IH.
    rewrite (bool_decide_eq_false_2 (k' = k)) by done.
    case_bool_decide as E1; [|done]. case_bool_decide; [congruence|done].
Qed.

Lemma own_property_insert (k k0 : jsstring) (v : jsval) (fields : list (jsstring * jsval)) :
  own_property k fields = None ->
  own_property k0 (obj_insert k v fields)
  = if bool_decide (k0 = k) then Some v else own_property k0 fields.
Proof.
  induction fields as [|[k' v'] r IH]; intros Hk.
  - cbn [obj_insert]. rewrite own_property_cons.
    case_bool_decide; case_bool_decide; congruence.
  - rewrite own_property_cons in Hk. case_bool_decide as Hk'; [done|].
    cbn [obj_insert]. destruct (enumerated_before k k').
    + rewrite own_property_cons. case_bool_decide; case_bool_decide; congruence.
    + rewrite !own_property_cons, IH by done.
      case_bool_decide; [|done]. case_bool_decide; congruence.
Qed.

(** Assigning a property sets it and leaves the others. *)
Lemma own_property_set (k k0 : jsstring) (v : jsval) (fields : list (jsstring * jsval)) :
  own_property k0 (obj_set k v fields)
  = if bool_decide (k0 = k) then Some v else own_property k0 fields.
Proof.
  unfold obj_set. destruct (own_property k fields) eqn:E.
  - rewrite own_property_replace, E. done.
  - by apply own_property_insert.
Qed.

Lemma obj_set_keeps (P : jsstring * jsval -> Prop) (k : jsstring) (v : jsval)
  (fields : list (jsstring * jsval)) :
  P (k, v) -> Forall P fields -> Forall P (obj_set k v fields).
Proof.
  intros Hv Hf. unfold obj_set. destruct (own_property k fields).
  - induction Hf as [|[k' v'] r Hx Hr IH]; [done|]. cbn [obj_replace].
    case_bool_decide; by constructor.
  - induction Hf as [|[k' v'] r Hx Hr IH]; [by repeat constructor|]. cbn [obj_insert].
    destruct (enumerated_before k k'); repeat constructor; done.
Qed.

(** A new key that nothing is enumerated after goes to the end. *)
Lemma obj_set_last (k : jsstring) (v : jsval) (fields : list (jsstring * jsval)) :
  k ∉ fields.*1 -> Forall (fun k' => enumerated_before k k' = false) fields.*1 ->
  obj_set k v fields = fields ++ [(k, v)].
Proof.
  intros Hk%own_property_None Hlast. unfold obj_set. rewrite Hk. clear Hk.
  induction fields as [|[k' v'] r IH]; [done|].
  rewrite fmap_cons in Hlast. apply Forall_cons in Hlast as [H1 H2]. cbn [fst] in H1.
  cbn [obj_insert]. by rewrite H1, IH.
Qed.

Lemma array_index_digits (k : jsstring) (i : Z) :
  array_index k = Some i -> forallb is_digit k = true.
Proof.
  unfold array_index. destruct k as [|c r]; [done|].
  destruct (forallb is_digit (c :: r)); [done|]. by rewrite andb_false_l.
Qed.

Lemma obj_set_fresh (k : jsstring) (v : jsval) (fields : list (jsstring * jsval)) :
  k ∉ fields.*1 -> forallb is_digit k = false -> obj_set k v fields = fields ++ [(k, v)].
Proof.
  intros Hk Hd. apply obj_set_last; [done|]. apply Forall_forall. intros k' _.
  unfold enumerated_before. destruct (array_index k) eqn:E; [|done].
  apply array_index_digits in E. congruence.
Qed.

(** *** The [key=value] branch *)

Lemma split_on_chunks (text : jsstring) : chunks_of text (split_on 44 text).
Proof.
  unfold chunks_of. induction text as [|c r (Hne & Hall & Hjoin)].
  - split_and!; [done|constructor; [by intros ?%elem_of_nil|constructor]|done].
  - cbn [split_on]. destruct (N.eqb_spec c 44) as [->|Hc].
    + split_and!; [done|constructor; [by intros ?%elem_of_nil|done]|].
      destruct (split_on 44 r); [done|]. rewrite join_with_cons. cbn [app]. by f_equal.
    + destruct (split_on 44 r) as [|p ps]; [done|].
      apply Forall_cons in Hall as [Hp Hps]. split_and!; [done| |].
      * constructor; [|done]. by intros [E|?]%elem_of_cons; [apply Hc|].
      * destruct ps; [cbn [join_with] in *; by f_equal|].
        rewrite !join_with_cons in *. rewrite <- app_comm_cons. by f_equal.
Qed.

Lemma split_on_single (sep : N) (p : jsstring) :
  sep ∉ p -> split_on sep p = [p].
Proof.
  induction p as [|c r IH]; [done|]. intros Hp. simpl.
  destruct (N.eqb_spec c sep) as [->|_]; [by destruct Hp; left|].
  rewrite IH; [done|]. intros ?. apply Hp. by right.
Qed.

Lemma split_on_app (sep : N) (p rest : jsstring) :
  sep ∉ p -> split_on sep (p ++ sep :: rest) = p :: split_on sep rest.
Proof.
  induction p as [|c r IH]; intros Hp; simpl.
  - by rewrite N.eqb_refl.
  - destruct (N.eqb_spec c sep) as [->|_]; [by destruct Hp; left|].
    rewrite IH; [done|]. intros ?. apply Hp. by right.
Qed.

(** A text is cut at its commas in one way. *)
Lemma chunks_of_split (text : jsstring) (chunks : list jsstring) :
  chunks_of text chunks -> split_on 44 text = chunks.
Proof.
  intros (Hne & Hall & ->). induction Hall as [|p ps Hp Hps IH]; [done|].
  destruct ps as [|q r]; [by apply split_on_single|].
  rewrite join_with_cons. cbn [app]. rewrite split_on_app by done.
  f_equal. by apply IH.
Qed.

Lemma index_of_split (ch : N) (s : jsstring) :
  match index_of ch s with
  | Some i => s = take i s ++ [ch] ++ drop (S i) s /\ (ch ∉ take i s) /\ length (take i s) = i
  | None => ch ∉ s
  end.
Proof.
  induction s as [|c r IH]; [by intros ?%elem_of_nil|]. cbn [index_of].
  destruct (N.eqb_spec c ch) as [->|Hc].
  - split_and!; [done|by intros ?%elem_of_nil|done].
  - destruct (index_of ch r) as [i|]; cbn [option_map].
    + destruct IH as (E & Hno & Hlen). cbn [take drop]. split_and!.
      * by rewrite <- app_comm_cons, <- E.
      * by intros [->|?]%elem_of_cons.
      * cbn [length]. by rewrite Hlen.
    + by intros [->|?]%elem_of_cons.
Qed.

Lemma index_of_first (ch : N) (a b : jsstring) :
  ch ∉ a -> index_of ch (a ++ ch :: b) = Some (length a).
Proof.
  induction a as [|c a IH]; intros Ha; simpl.
  - by rewrite N.eqb_refl.
  - destruct (N.eqb_spec c ch) as [->|_]; [by destruct Ha; left|].
    rewrite IH; [done|]. intros ?. apply Ha. by right.
Qed.

Lemma Forall2_exists {A B : Type} (R : A -> B -> Prop) (l : list A) :
  (forall x, exists y, R x y) -> exists l', Forall2 R l l'.
Proof.
  intros H. induction l as [|x l [l' IH]]; [by exists []|].
  destruct (H x) as [y Hy]. exists (y :: l'). by constructor.
Qed.

(** Every chunk is read one way. *)
Lemma chunk_pair_total (chunk : jsstring) : exists p, chunk_pair chunk p.
Proof.
  pose proof (index_of_split 61 (trim chunk)) as H.
  destruct (index_of 61 (trim chunk)) as [i|]; [|exists None; by left].
  destruct H as (E & Hno & _).
  destruct (trim (take i (trim chunk))) as [|c k] eqn:Ek.
  - exists None. right. by exists (take i (trim chunk)), (drop (S i) (trim chunk)).
  - exists (Some (c :: k, trim (drop (S i) (trim chunk)))).
    exists (take i (trim chunk)), (drop (S i) (trim chunk)). by rewrite Ek.
Qed.

(** One turn of the loop is the assignment of the pair the chunk is read
    as. *)
Lemma parse_part_chunk (acc : args_object * bool) (chunk : jsstring)
  (p : option (jsstring * jsstring)) :
  chunk_pair chunk p ->
  parse_part acc (trim chunk)
  = match p with
    | Some (k, v) => (obj_assign k (scalar_of v) acc.1, true)
    | None => acc
    end.
Proof.
  unfold parse_part.
  assert (forall a b, 61%N ∉ a -> trim chunk = a ++ [61%N] ++ b ->
            index_of 61 (trim chunk) = Some (length a)
            /\ take (length a) (trim chunk) = a
            /\ drop (S (length a)) (trim chunk) = b) as Hsplit.
  { intros a b Ha ->. split_and!.
    - by apply index_of_first.
    - by rewrite take_app_length.
    - rewrite <- (Nat.add_1_r (length a)), <- drop_drop. by rewrite drop_app_length. }
  destruct p as [[k v]|].
  - intros (a & b & E & Ha & -> & Hk & ->).
    destruct (Hsplit a b Ha E) as (-> & Et & Ed).
    destruct a as [|c a]; [done|]. cbn [length] in *. rewrite Et, Ed.
    by destruct (trim (c :: a)).
  - intros [Hno|(a & b & E & Ha & Hk)].
    + pose proof (index_of_split 61 (trim chunk)) as H.
      destruct (index_of 61 (trim chunk)) as [i|]; [|done].
      destruct H as (E & _). destruct Hno. rewrite E.
      apply elem_of_app. right. by left.
    + destruct (Hsplit a b Ha E) as (-> & Et & Ed).
      destruct a as [|c a]; [done|]. cbn [length] in *. by rewrite Et, Hk.
Qed.

(** The assignments of a list of pairs, in order. *)
Lemma fold_parse_part_pairs (chunks : list jsstring)
  (read : list (option (jsstring * jsstring))) (acc : args_object * bool) :
  Forall2 chunk_pair chunks read ->
  fold_left parse_part (filter (fun p => p <> []) (List.map trim chunks)) acc
  = (fold_left (fun o p => obj_assign p.1 (scalar_of p.2) o) (omap id read) acc.1,
     match omap id read with [] => acc.2 | _ :: _ => true end).
Proof.
  intros H. revert acc. induction H as [|c p cs ps Hp _ IH]; intros acc; [by destruct acc|].
  cbn [List.map]. destruct (decide (trim c = [])) as [Ec|Ec].
  - rewrite filter_cons_False by (by intros ?). rewrite IH.
    destruct p as [[k v]|]; [|done].
    destruct Hp as (a & b & E & _). rewrite Ec in E. by destruct a.
  - rewrite filter_cons_True by done. cbn [fold_left].
    rewrite (parse_part_chunk acc c p Hp), IH.
    destruct p as [[k v]|]; simpl; [|done].
    f_equal. by destruct (omap id ps).
Qed.

Lemma last_given_snoc (k k' v : jsstring) (pairs : list (jsstring * jsstring)) :
  last_given k (pairs ++ [(k', v)])
  = if bool_decide (k' = k) then Some v else last_given k pairs.
Proof.
  unfold last_given. rewrite rev_app_distr. cbn [rev app List.find fst].
  by case_bool_decide.
Qed.

Lemma after_proto_null_snoc (k v : jsstring) (pairs : list (jsstring * jsstring)) :
  after_proto_null (pairs ++ [(k, v)])
  = match after_proto_null pairs with
    | Some r => Some (r ++ [(k, v)])
    | None =>
        if bool_decide (k = lit "__proto__") && is_null (scalar_of v) then Some [] else None
    end.
Proof.
  induction pairs as [|[k' v'] r IH]; [done|]. cbn [app after_proto_null].
  by destruct (bool_decide (k' = lit "__proto__") && is_null (scalar_of v')).
Qed.

(** What the loop of [tryParseArgs] builds is the mapping of the pairs. *)
Lemma assignments_mapping (pairs : list (jsstring * jsstring)) :
  let obj := fold_left (fun o p => obj_assign p.1 (scalar_of p.2) o) pairs ([], false) in
  assigned_mapping pairs obj.1 /\ obj.2 = bool_decide (is_Some (after_proto_null pairs)).
Proof.
  induction pairs as [|[k v] pairs IH] using rev_ind.
  { split; [|done]. split_and!; [constructor|done|done]. }
  cbv zeta in *. rewrite fold_left_app. cbn [fold_left fst snd].
  destruct (fold_left (fun o p => obj_assign p.1 (scalar_of p.2) o) pairs ([], false))
    as [fields bare].
  destruct IH as ((Hnd & Hkeys & Hproto) & Hbare). cbn [fst snd] in *.
  unfold assigned_mapping. rewrite after_proto_null_snoc.
  unfold obj_assign. cbn [fst snd].
  destruct (decide (k = lit "__proto__")) as [->|Hk].
  - rewrite bool_decide_eq_true_2 by done. cbn [andb].
    destruct (after_proto_null pairs) as [r|] eqn:Ea.
    + (* the prototype is null already: an assignment like any other *)
      rewrite Hbare, bool_decide_eq_true_2 by done. cbn [negb fst snd].
      split; [|by rewrite bool_decide_eq_true_2]. split_and!.
      * by apply obj_set_NoDup.
      * intros k0 Hk0. rewrite own_property_set, last_given_snoc.
        rewrite !bool_decide_eq_false_2 by done. by apply Hkeys.
      * rewrite own_property_set, bool_decide_eq_true_2 by done.
        cbn [mbind option_bind]. rewrite last_given_snoc.
        by rewrite bool_decide_eq_true_2.
    + rewrite Hbare, bool_decide_eq_false_2 by (by intros [? ?]). cbn [negb].
      assert (forall k0, k0 <> lit "__proto__" ->
                last_given k0 (pairs ++ [(lit "__proto__", v)]) = last_given k0 pairs)
        as Hsame.
      { intros k0 Hk0. rewrite last_given_snoc. by rewrite bool_decide_eq_false_2. }
      destruct (scalar_of v) eqn:Ev; cbn [is_null fst snd];
        (split; [|by rewrite ?bool_decide_eq_false_2 by (by intros [? ?]);
                        rewrite ?bool_decide_eq_true_2 by done]);
        (split_and!; [done|intros k0 Hk0; rewrite Hsame by done; by apply Hkeys|done]).
  - rewrite bool_decide_eq_false_2 by done. cbn [andb fst snd].
    split.
    + split_and!.
      * by apply obj_set_NoDup.
      * intros k0 Hk0. rewrite own_property_set, last_given_snoc.
        destruct (decide (k0 = k)) as [->|Hne]; [by rewrite !bool_decide_eq_true_2|].
        rewrite (bool_decide_eq_false_2 (k0 = k)), (bool_decide_eq_false_2 (k = k0))
          by congruence.
        by apply Hkeys.
      * rewrite own_property_set, bool_decide_eq_false_2 by done. rewrite Hproto.
        destruct (after_proto_null pairs); [|done]. cbn [mbind option_bind].
        rewrite last_given_snoc. by rewrite bool_decide_eq_false_2.
    + rewrite Hbare. by destruct (after_proto_null pairs).
Qed.

Lemma looksJson_like (text : jsstring) :
  trim text = text -> looksJson text = true <-> json_like text.
Proof.
  intros Et. unfold looksJson, json_like, between. rewrite Et.
  assert (forall c, starts_with_char c text = true <-> exists r, text = c :: r) as Hs.
  { intros c. destruct text as [|x r]; [by split; [|intros [? ?]]|]. cbn.
    rewrite N.eqb_eq. split; [intros ->; by eexists|by intros [? [= -> _]]]. }
  assert (forall c, ends_with_char c text = true <-> exists r, text = r ++ [c]) as He.
  { intros c. unfold ends_with_char.
    assert (text = rev (rev text)) as E by (by rewrite rev_involutive).
    destruct (rev text) as [|x r]; cbn in *.
    - split; [done|]. intros [r Er]. rewrite E in Er. by destruct r.
    - rewrite N.eqb_eq. split.
      + intros ->. by exists (rev r).
      + intros [r' Er]. rewrite E in Er. by apply app_inj_tail in Er as [_ ->]. }
  rewrite !orb_true_iff, !andb_true_iff, !Hs, !He. tauto.
Qed.

(** *** The scalar of a value literal *)

Lemma starts_with_char_spec (c : N) (s : jsstring) :
  starts_with_char c s = true <-> exists r, s = c :: r.
Proof.
  destruct s as [|x r]; [by split; [|intros [? ?]]|]. cbn.
  rewrite N.eqb_eq. split; [intros ->; by eexists|by intros [? [= -> _]]].
Qed.

Lemma ends_with_char_spec (c : N) (s : jsstring) :
  ends_with_char c s = true <-> exists r, s = r ++ [c].
Proof.
  unfold ends_with_char.
  assert (s = rev (rev s)) as E by (by rewrite rev_involutive).
  destruct (rev s) as [|x r]; cbn in *.
  - split; [done|]. intros [r Er]. rewrite E in Er. by destruct r.
  - rewrite N.eqb_eq. split.
    + intros ->. by exists (rev r).
    + intros [r' Er]. rewrite E in Er. by apply app_inj_tail in Er as [_ ->].
Qed.

Lemma quoted_spec (val : jsstring) :
  starts_with_char 34 val && ends_with_char 34 val
  || starts_with_char 39 val && ends_with_char 39 val = true <-> quoted val.
Proof.
  unfold quoted, between.
  rewrite orb_true_iff, !andb_true_iff, !starts_with_char_spec, !ends_with_char_spec.
  tauto.
Qed.

Lemma slice_stripped (val : jsstring) : stripped val (slice_1_m1 val).
Proof.
  destruct val as [|a r]; [right; split; [done|simpl; lia]|]. cbn [slice_1_m1].
  destruct r as [|b r] using rev_ind; [right; split; [done|simpl; lia]|].
  left. exists a, b. by rewrite removelast_last.
Qed.

Lemma stripped_unique (val s1 s2 : jsstring) :
  stripped val s1 -> stripped val s2 -> s1 = s2.
Proof.
  intros [(a & b & ->)|[-> H1]] [(a' & b' & E)|[-> H2]]; [| | |done].
  - cbn [app] in E. injection E as _ E. by apply app_inj_tail in E as [? _].
  - rewrite !length_app in H2. simpl in H2. lia.
  - rewrite E, !length_app in H1. simpl in H1. lia.
Qed.

Lemma regex_test_whole_sound (r : regex) (w : jsstring) :
  regex_test_whole r w = true -> exists c1, matches r w [] c1.
Proof.
  unfold regex_test_whole.
  destruct (rmatch r w [] _) as [[]|] eqn:E; [|done]. intros _.
  apply rmatch_sound in E as (w' & s' & caps' & -> & M & Hk).
  destruct s'; [|done]. rewrite app_nil_r. by exists caps'.
Qed.

Lemma regex_test_whole_matches (r : regex) (w : jsstring) (c1 : captures) :
  matches r w [] c1 -> regex_test_whole r w = true.
Proof.
  intros M. unfold regex_test_whole.
  pose proof (rmatch_complete r w [] c1 M [] []
                (fun s' _ => match s' with [] => Some tt | _ => None end)) as H.
  rewrite app_nil_r in H. destruct (rmatch r w [] _); [done|]. by destruct H.
Qed.

(** What [/^-?\d+(\.\d+)?$/] matches. *)
Lemma number_re_shape (val : jsstring) :
  regex_test_whole NUMBER_RE val = true
  <-> exists (negative : bool) (i f : jsstring),
        val = (if negative then [45%N] else []) ++ i ++ fraction_text f
        /\ i <> []
        /\ Forall (fun c => is_digit c = true) i
        /\ Forall (fun c => is_digit c = true) f.
Proof.
  split.
  - intros [c1 M]%regex_test_whole_sound. unfold NUMBER_RE in M.
    apply matches_seq_inv in M as (sg & ? & ? & -> & Msg & M).
    apply matches_seq_inv in M as (i & fr & ? & -> & (Hne & Hi & ->)%matches_plus_inv & M).
    assert (exists negative : bool, sg = if negative then [45%N] else []) as [negative ->].
    { apply matches_opt_inv in Msg as [[-> _]|[-> _]%matches_char_inv];
        [by exists false|by exists true]. }
    apply matches_opt_inv in M as [[-> _]|M].
    + exists negative, i, []. by split_and!.
    + apply matches_group_inv in M as (? & M & _).
      apply matches_seq_inv in M as (? & f & ? & -> & [-> ->]%matches_char_inv
                                     & (Hf & Hfd & _)%matches_plus_inv).
      exists negative, i, f. split_and!; [|done..]. by destruct f.
  - intros (negative & i & f & -> & Hne & Hi & Hf).
    assert (exists c1, matches (ROpt (RGroup 1 (RSeq (RChar 46) (RPlus is_digit))))
                               (fraction_text f) [] c1) as [c1 Mf].
    { destruct f as [|d f]; [eexists; apply matches_opt_none|].
      eexists. apply matches_opt_some. constructor.
      change (fraction_text (d :: f)) with ([46%N] ++ d :: f).
      econstructor; [apply matches_char|by apply matches_plus]. }
    apply (regex_test_whole_matches _ _ c1). unfold NUMBER_RE.
    apply matches_seq with (c1 := []).
    + destruct negative; [apply matches_opt_some, matches_char|apply matches_opt_none].
    + apply matches_seq with (c1 := []); [by apply matches_plus|done].
Qed.

(** [Number] of a text of that pattern: the Number nearest to the decimal
    it writes. *)
Lemma Number_of_literal_parts (negative : bool) (i f : jsstring) :
  i <> [] ->
  Forall (fun c => is_digit c = true) i ->
  Forall (fun c => is_digit c = true) f ->
  Number_of_literal ((if negative then [45%N] else []) ++ i ++ fraction_text f)
  = round64_dec negative (digits_value (i ++ f)) (- Z.of_nat (length f)).
Proof.
  intros Hne Hi Hf. unfold Number_of_literal.
  assert (match after_char 45 ((if negative then [45%N] else []) ++ i ++ fraction_text f)
          with
          | Some r => (true, r)
          | None => (false, (if negative then [45%N] else []) ++ i ++ fraction_text f)
          end = (negative, i ++ fraction_text f)) as ->.
  { destruct negative; [done|]. cbn [app]. destruct i as [|c i]; [done|].
    apply Forall_cons in Hi as [Hc _]. cbn [app]. rewrite after_char_other; [done|].
    intros ->. done. }
  rewrite span_digits_stop; [|done|by destruct f].
  destruct f as [|d f]; cbn [fraction_text after_char].
  - by rewrite app_nil_r.
  - rewrite N.eqb_refl.
    assert (span_digits (d :: f) = (d :: f, [])) as ->; [|done].
    rewrite <- (app_nil_r (d :: f)) at 1. by apply span_digits_stop.
Qed.

Lemma numeric_spec (val : jsstring) :
  (regex_test_whole NUMBER_RE val = true -> numeric val (Number_of_literal val))
  /\ (regex_test_whole NUMBER_RE val = false -> ~ exists x, numeric val x).
Proof.
  split.
  - intros (negative & i & f & -> & Hne & Hi & Hf)%number_re_shape.
    exists negative, i, f. split_and!; [done..|]. by apply Number_of_literal_parts.
  - intros Hno (x & negative & i & f & E & Hne & Hi & Hf & _).
    assert (regex_test_whole NUMBER_RE val = true) as Hyes; [|congruence].
    apply number_re_shape. by exists negative, i, f.
Qed.

Lemma numeric_unique (val : jsstring) (x1 x2 : number) :
  numeric val x1 -> numeric val x2 -> x1 = x2.
Proof.
  intros (n1 & i1 & f1 & -> & Hne1 & Hi1 & Hf1 & ->)
         (n2 & i2 & f2 & E & Hne2 & Hi2 & Hf2 & ->).
  assert (n1 = n2 /\ i1 ++ fraction_text f1 = i2 ++ fraction_text f2) as [-> E'].
  { destruct i1 as [|c1 i1]; [done|]. destruct i2 as [|c2 i2]; [done|].
    apply Forall_cons in Hi1 as [Hc1 _]. apply Forall_cons in Hi2 as [Hc2 _].
    destruct n1, n2; cbn [app] in E.
    - split; [done|]. cbn [app]. congruence.
    - injection E as <- _. done.
    - injection E as -> _. done.
    - split; [done|exact E]. }
  assert (span_digits (i1 ++ fraction_text f1) = (i1, fraction_text f1)) as S1.
  { apply span_digits_stop; [done|by destruct f1]. }
  assert (span_digits (i2 ++ fraction_text f2) = (i2, fraction_text f2)) as S2.
  { apply span_digits_stop; [done|by destruct f2]. }
  rewrite E', S2 in S1. injection S1 as -> Ef.
  assert (f1 = f2) as ->; [|done].
  destruct f1, f2; cbn [fraction_text] in Ef; congruence.
Qed.

Lemma matches_alt_inv (r1 r2 : regex) (w : jsstring) (c0 c1 : captures) :
  matches (RAlt r1 r2) w c0 c1 -> matches r1 w c0 c1 \/ matches r2 w c0 c1.
Proof. inversion 1; subst; eauto. Qed.

(** What a word of a pattern with the [i] flag matches. *)
Lemma word_ignore_case_inv (u w : jsstring) (c0 c1 : captures) :
  matches (word_ignore_case u) w c0 c1 ->
  List.map lower_ascii w = List.map lower_ascii u.
Proof.
  revert w c0 c1. induction u as [|c u IH]; intros w c0 c1 M.
  - apply matches_star_inv in M as [Hw _]. by destruct Hw.
  - destruct u as [|d u].
    + apply matches_class_inv in M as (x & -> & Hx%N.eqb_eq & _). cbn. by rewrite Hx.
    + apply matches_seq_inv in M as (w1 & w2 & c' & -> & M1 & M2).
      apply matches_class_inv in M1 as (x & -> & Hx%N.eqb_eq & _).
      apply IH in M2. cbn [app List.map]. by rewrite Hx, M2.
Qed.

Lemma word_ignore_case_matches (u w : jsstring) (caps : captures) :
  u <> [] -> List.map lower_ascii w = List.map lower_ascii u ->
  matches (word_ignore_case u) w caps caps.
Proof.
  revert w. induction u as [|c u IH]; intros w Hne E; [done|].
  destruct w as [|x w]; [done|]. cbn [List.map] in E. injection E as Ex E.
  destruct u as [|d u].
  - destruct w; [|done]. constructor. by apply N.eqb_eq.
  - change (x :: w) with ([x] ++ w). econstructor.
    + constructor. by apply N.eqb_eq.
    + by apply IH.
Qed.

Lemma word_test (re : regex) (ws : list string) (val : jsstring) :
  (forall w c0 c1, matches re w c0 c1 ->
     Exists (fun u => List.map lower_ascii w = lit u) ws) ->
  (forall u w, u ∈ ws -> List.map lower_ascii w = lit u -> exists c1, matches re w [] c1) ->
  regex_test_whole re val = true <-> Exists (fun u => word u val) ws.
Proof.
  intros Hinv Hmatch. split.
  - intros [c1 M]%regex_test_whole_sound. by eapply Hinv.
  - intros (u & Hu & Hw)%Exists_exists.
    destruct (Hmatch u val Hu Hw) as [c1 M]. by eapply regex_test_whole_matches.
Qed.

Lemma boolean_re_spec (val : jsstring) :
  regex_test_whole BOOLEAN_RE val = true <-> word "true" val \/ word "false" val.
Proof.
  rewrite (word_test BOOLEAN_RE ["true"%string; "false"%string]).
  - rewrite !Exists_cons, Exists_nil. tauto.
  - intros w c0 c1 (c' & [M|M]%matches_alt_inv & _)%matches_group_inv.
    + left. exact (word_ignore_case_inv _ _ _ _ M).
    + right. left. exact (word_ignore_case_inv _ _ _ _ M).
  - intros u w Hu Hw. eexists. constructor.
    apply elem_of_cons in Hu as [->|Hu%list_elem_of_singleton].
    + apply matches_alt_l. by apply word_ignore_case_matches.
    + subst u. apply matches_alt_r. by apply word_ignore_case_matches.
Qed.

Lemma true_re_spec (val : jsstring) :
  regex_test_whole TRUE_RE val = true <-> word "true" val.
Proof.
  rewrite (word_test TRUE_RE ["true"%string]).
  - rewrite Exists_cons, Exists_nil. tauto.
  - intros w c0 c1 M. left. exact (word_ignore_case_inv _ _ _ _ M).
  - intros u w ->%list_elem_of_singleton Hw. eexists.
    by apply word_ignore_case_matches.
Qed.

Lemma null_re_spec (val : jsstring) :
  regex_test_whole NULL_RE val = true <-> word "null" val.
Proof.
  rewrite (word_test NULL_RE ["null"%string]).
  - rewrite Exists_cons, Exists_nil. tauto.
  - intros w c0 c1 (c' & M & _)%matches_group_inv. left.
    exact (word_ignore_case_inv _ _ _ _ M).
  - intros u w ->%list_elem_of_singleton Hw. eexists. constructor.
    by apply word_ignore_case_matches.
Qed.

(** The scalar inferred is the scalar the literal is read as. *)
Lemma scalar_of_reading (val : jsstring) : scalar_reading val (scalar_of val).
Proof.
  unfold scalar_of, scalar_reading.
  pose proof (quoted_spec val) as Hq.
  destruct (_ || _).
  { left. split; [by apply Hq|]. exists (slice_1_m1 val). split; [|done].
    apply slice_stripped. }
  right. split; [intros H; by apply Hq in H|].
  destruct (numeric_spec val) as [Hn1 Hn0].
  destruct (regex_test_whole NUMBER_RE val).
  { left. eexists. split; [by apply Hn1|done]. }
  right. split; [by apply Hn0|].
  pose proof (boolean_re_spec val) as Hb. pose proof (true_re_spec val) as Ht.
  pose proof (null_re_spec val) as Hnull.
  destruct (regex_test_whole BOOLEAN_RE val).
  { destruct (regex_test_whole TRUE_RE val).
    - left. split; [by apply Ht|done].
    - right. left. split; [|done].
      destruct (proj1 Hb eq_refl) as [H|H]; [|done]. by apply Ht in H. }
  destruct (regex_test_whole NULL_RE val).
  { right. right. left. split; [by apply Hnull|done]. }
  right. right. right. split_and!; [| | |done].
  - intros H. assert (false = true); [|done]. apply Hb. by left.
  - intros H. assert (false = true); [|done]. apply Hb. by right.
  - intros H. assert (false = true); [|done]. by apply Hnull.
Qed.

(** A literal is read in one way. *)
Lemma scalar_reading_unique (val : jsstring) (v1 v2 : jsval) :
  scalar_reading val v1 -> scalar_reading val v2 -> v1 = v2.
Proof.
  assert (forall a b : string, lit a <> lit b -> word a val -> word b val -> False) as Hw.
  { unfold word. intros a b Hab Ha Hb. by rewrite Ha in Hb. }
  intros [[Hq (s1 & Hs1 & ->)]|[Hnq H1]] [[Hq' (s2 & Hs2 & ->)]|[Hnq' H2]];
    [by rewrite (stripped_unique _ _ _ Hs1 Hs2)|done|done|].
  destruct H1 as [(x1 & Hx1 & ->)|[Hnn H1]], H2 as [(x2 & Hx2 & ->)|[Hnn' H2]].
  - by rewrite (numeric_unique _ _ _ Hx1 Hx2).
  - destruct Hnn'. by exists x1.
  - destruct Hnn. by exists x2.
  - destruct H1 as [[W1 ->]|[[W1 ->]|[[W1 ->]|(N1 & N2 & N3 & ->)]]],
             H2 as [[W2 ->]|[[W2 ->]|[[W2 ->]|(M1 & M2 & M3 & ->)]]];
      try done; exfalso; try tauto;
      (eapply Hw; [|exact W1|exact W2]); by vm_compute.
Qed.


(** Without the key [__proto__] the assignments make the mapping of the
    pairs. *)
Lemma assigned_mapping_plain (pairs : list (jsstring * jsstring))
  (fields : list (jsstring * jsval)) :
  lit "__proto__" ∉ pairs.*1 ->
  assigned_mapping pairs fields -> key_value_mapping pairs fields.
Proof.
  intros Hno (Hnd & Hkeys & Hproto). split; [done|]. intros k.
  assert (own_property k fields = scalar_of <$> last_given k pairs) as ->.
  { destruct (decide (k = lit "__proto__")) as [->|Hk]; [|by apply Hkeys].
    rewrite Hproto.
    assert (forall l : list (jsstring * jsstring), lit "__proto__" ∉ l.*1 ->
              after_proto_null l = None) as Hnone.
    { induction l as [|[k v] r IH]; [done|]. rewrite fmap_cons.
      intros [Hk Hr]%not_elem_of_cons. cbn [after_proto_null fst] in *.
      rewrite bool_decide_eq_false_2 by congruence. by apply IH. }
    rewrite Hnone by done. cbn [mbind option_bind fmap option_fmap option_map].
    assert (forall l : list (jsstring * jsstring), lit "__proto__" ∉ l.*1 ->
              last_given (lit "__proto__") l = None) as Hlast.
    { induction l as [|[k v] l IH] using rev_ind; [done|]. rewrite fmap_app.
      intros [Hl Hk]%not_elem_of_app. rewrite last_given_snoc.
      rewrite bool_decide_eq_false_2; [by apply IH|].
      intros ->. apply Hk. by left. }
    by rewrite Hlast. }
  destruct (last_given k pairs) as [literal|]; [|done].
  exists (scalar_of literal). split; [done|apply scalar_of_reading].
Qed.

(** C5. [tryParseArgs] is a function of its argument alone: whatever the
    input, a string or not, it returns an object or the value that
    [JSON.parse] read, and the one operation of it that can throw,
    [JSON.parse], only makes it go on when it does. With [text] the
    trimmed input, which is the raw text returned: an empty text gives the
    empty object; a text between braces, brackets or quotes that
    [JSON.parse] reads gives the value read; any other text is cut at its
    commas, each chunk read as a key and a value literal around its first
    [=], and gives the object that the assignments of those pairs make,
    which is their mapping, every key with the scalar that the literal
    last given for it is read as, when no key is [__proto__]; and a text
    without any such pair is wrapped as it is under [_raw]. *)
Theorem tryParseArgs_fallback_chain (raw : jsval) :
  let text := trim (safeString raw []) in
  let r := tryParseArgs raw in
  p_raw r = text
  /\ match text with
     | [] => p_args r = JObj []
     | _ :: _ =>
         (forall v, json_like text -> JSON_parse text = Some v -> p_args r = v)
         /\ (~ json_like text \/ JSON_parse text = None ->
             (exists chunks read, chunks_of text chunks /\ Forall2 chunk_pair chunks read)
             /\ forall chunks read,
                  chunks_of text chunks -> Forall2 chunk_pair chunks read ->
                  match omap id read with
                  | [] => p_args r = JObj [(lit "_raw", JStr text)]
                  | pairs =>
                      exists fields,
                        p_args r = JObj fields
                        /\ assigned_mapping pairs fields
                        /\ (lit "__proto__" ∉ pairs.*1 -> key_value_mapping pairs fields)
                        /\ Forall (fun f => is_scalar f.2) fields
                  end)
     end.
Proof.
  intros text r.
  assert (trim text = text) as Htrim by apply trim_idem.
  unfold r, tryParseArgs. fold text.
  destruct text as [|c t] eqn:Et; [done|]. rewrite <- Et in *.
  pose proof (looksJson_like text Htrim) as Hlike.
  assert (p_raw (match (if looksJson text then JSON_parse text else None) with
                 | Some v => mkParsed v text
                 | None =>
                     let '(obj, parsedAny) :=
                       fold_left parse_part
                         (filter (fun p => p <> []) (List.map trim (split_on 44 text)))
                         ([], false, false) in
                     if parsedAny then mkParsed (JObj obj.1) text
                     else mkParsed (JObj [(lit "_raw", JStr text)]) text
                 end) = text) as Hraw.
  { destruct (if looksJson text then JSON_parse text else None); [done|].
    destruct (fold_left _ _ _) as [obj []]; done. }
  split; [exact Hraw|]. split.
  - intros v Hj Hv. apply Hlike in Hj. by rewrite Hj, Hv.
  - intros Hno.
    assert ((if looksJson text then JSON_parse text else None) = None) as ->.
    { destruct (looksJson text); [|done]. destruct Hno as [Hno|Hno]; [|done].
      destruct Hno. by apply Hlike. }
    split.
    { destruct (Forall2_exists chunk_pair (split_on 44 text) chunk_pair_total)
        as [read Hread].
      exists (split_on 44 text), read. split; [apply split_on_chunks|done]. }
    intros chunks read Hchunks Hread. rewrite (chunks_of_split text chunks Hchunks).
    rewrite (fold_parse_part_pairs _ read _ Hread). cbn [fst snd].
    pose proof (assignments_mapping (omap id read)) as [Hmap _]. cbv zeta in Hmap.
    destruct (omap id read) as [|p ps] eqn:Ep; [done|].
    eexists. split; [done|]. split; [exact Hmap|].
    split; [intros Hplain; by apply assigned_mapping_plain|].
    clear. generalize (p :: ps). intros pairs.
    assert (forall (o : args_object), Forall (fun f => is_scalar f.2) o.1 ->
              Forall (fun f => is_scalar f.2)
                     (fold_left (fun o p => obj_assign p.1 (scalar_of p.2) o) pairs o).1)
      as H; [|by apply H].
    induction pairs as [|[k v] pairs IH]; intros o Ho; [done|]. cbn [fold_left].
    apply IH. unfold obj_assign. cbn [fst snd].
    destruct (bool_decide (k = lit "__proto__") && negb o.2).
    + by destruct (scalar_of v).
    + apply obj_set_keeps; [apply scalar_of_is_scalar|done].
Qed.

Example tryParseArgs_empty :
  tryParseArgs JUndefined = mkParsed (JObj []) []
  /\ tryParseArgs (JStr (lit "  ")) = mkParsed (JObj []) [].
Proof. split; reflexivity. Qed.

(** A key given twice and the key [__proto__]. *)
Example tryParseArgs_pairs :
  tryParseArgs (JStr (lit "a=1, b = 'x y' , a=true, =3, c"))
  = mkParsed (JObj [(lit "a", JBool true); (lit "b", JStr (lit "x y"))])
             (lit "a=1, b = 'x y' , a=true, =3, c")
  /\ tryParseArgs (JStr (lit "__proto__=1")) = mkParsed (JObj []) (lit "__proto__=1").
Proof. split; vm_compute; reflexivity. Qed.

Example tryParseArgs_malformed_json :
  tryParseArgs (JStr (lit "{oops, a=1}"))
  = mkParsed (JObj [(lit "a", JStr (lit "1}"))]) (lit "{oops, a=1}")
  /\ tryParseArgs (JStr (lit "{oops}"))
     = mkParsed (JObj [(lit "_raw", JStr (lit "{oops}"))]) (lit "{oops}").
Proof. split; vm_compute; reflexivity. Qed.


(** ** [JSON.parse] reads back what [JSON.stringify] writes *)

Lemma hex_digit_val (n : N) : (n < 16)%N -> hex_val (hex_digit n) = Some n.
Proof.
  intros H. rewrite <- (N2Nat.id n) in *.
  generalize dependent (N.to_nat n). clear n. intros k Hk.
  do 16 (destruct k as [|k]; [reflexivity|]). lia.
Qed.

Lemma hex4_val_hex4 (c : N) :
  (c < 65536)%N ->
  hex4_val (hex_digit (c / 4096 mod 16)) (hex_digit (c / 256 mod 16))
           (hex_digit (c / 16 mod 16)) (hex_digit (c mod 16)) = Some c.
Proof.
  intros H. unfold hex4_val.
  rewrite !hex_digit_val by (apply N.mod_lt; discriminate).
  f_equal. zify. Z.to_euclidean_division_equations. lia.
Qed.

Lemma parse_unicode_escape (c : N) (tail : jsstring) :
  (c < 65536)%N ->
  parse_string_body (unicode_escape c ++ tail) = cons_char c (parse_string_body tail).
Proof.
  intros H. unfold unicode_escape, hex4.
  set (h1 := hex_digit _). set (h2 := hex_digit _).
  set (h3 := hex_digit _). set (h4 := hex_digit _).
  change (parse_string_body (92 :: 117 :: h1 :: h2 :: h3 :: h4 :: tail)%N
          = cons_char c (parse_string_body tail)).
  cbn [parse_string_body]. change (92 =? 34)%N with false. change (92 =? 92)%N with true.
  change (117 =? 117)%N with true. cbv iota.
  unfold h1, h2, h3, h4. by rewrite hex4_val_hex4.
Qed.

Lemma parse_plain_char (c : N) (tail : jsstring) :
  c <> 34%N -> c <> 92%N -> (32 <= c)%N ->
  parse_string_body (c :: tail) = cons_char c (parse_string_body tail).
Proof.
  intros H1 H2 H3. cbn [parse_string_body].
  destruct (N.eqb_spec c 34); [done|]. destruct (N.eqb_spec c 92); [done|].
  destruct (N.ltb_spec c 32); [lia|done].
Qed.

Lemma parse_escape_unit (c : N) (tail : jsstring) :
  (c < 65536)%N ->
  parse_string_body (escape_unit c ++ tail) = cons_char c (parse_string_body tail).
Proof.
  intros H. unfold escape_unit.
  destruct (N.eqb_spec c 8) as [->|?]; [done|].
  destruct (N.eqb_spec c 9) as [->|?]; [done|].
  destruct (N.eqb_spec c 10) as [->|?]; [done|].
  destruct (N.eqb_spec c 12) as [->|?]; [done|].
  destruct (N.eqb_spec c 13) as [->|?]; [done|].
  destruct (N.eqb_spec c 34) as [->|?]; [done|].
  destruct (N.eqb_spec c 92) as [->|?]; [done|].
  destruct (N.ltb_spec c 32); simpl; [by apply parse_unicode_escape|].
  destruct (is_low_surrogate c); [by apply parse_unicode_escape|].
  by apply parse_plain_char.
Qed.

(** A quoted string is read back as the string. *)
Lemma parse_string_quote (s : jsstring) :
  code_units s ->
  forall rest, parse_string_body (quote_body s ++ 34%N :: rest) = Some (s, rest).
Proof.
  remember (length s) as n eqn:Hn. revert s Hn.
  induction n as [n IH] using lt_wf_ind. intros s Hn Hs rest.
  destruct s as [|c r]; [done|].
  apply Forall_cons in Hs as [Hc Hr]. cbn [quote_body].
  assert (parse_string_body (quote_body r ++ 34%N :: rest) = Some (r, rest)) as IHr.
  { apply (IH (length r)); [simpl in Hn; lia|done|done]. }
  destruct (is_high_surrogate c) eqn:Ehigh.
  - assert (c <> 34 /\ c <> 92 /\ 32 <= c)%N as (? & ? & ?).
    { unfold is_high_surrogate in Ehigh. apply andb_true_iff in Ehigh as [?%N.leb_le _]. lia. }
    destruct r as [|d r'].
    + by rewrite parse_unicode_escape.
    + destruct (is_low_surrogate d) eqn:Elow.
      * apply Forall_cons in Hr as [Hd Hr'].
        assert (d <> 34 /\ d <> 92 /\ 32 <= d)%N as (? & ? & ?).
        { unfold is_low_surrogate in Elow. apply andb_true_iff in Elow as [?%N.leb_le _]. lia. }
        rewrite <- !app_comm_cons, !parse_plain_char by done.
        rewrite (IH (length r')); [done|simpl in Hn; lia|done|done].
      * rewrite <- app_assoc, parse_unicode_escape by done. by rewrite IHr.
  - rewrite <- app_assoc, parse_escape_unit by done. by rewrite IHr.
Qed.


Lemma jsval_induction (P : jsval -> Prop) :
  P JUndefined -> P JNull -> (forall b, P (JBool b)) -> (forall x, P (JNum x)) ->
  (forall n, P (JBigInt n)) -> (forall s, P (JStr s)) ->
  (forall items, Forall P items -> P (JArr items)) ->
  (forall fields, Forall (fun f => P f.2) fields -> P (JObj fields)) ->
  (forall s, P (JFun s)) ->
  forall v, P v.
Proof.
  intros H1 H2 H3 H4 H6 H7 H8 H9 H10. fix IH 1.
  intros [| |b|x|n|s|items|fields|s];
    [apply H1|apply H2|apply H3|apply H4|apply H6|apply H7| | |apply H10].
  - apply H8. induction items as [|x r IHr]; constructor; [apply IH|apply IHr].
  - apply H9. induction fields as [|[k x] r IHr]; constructor; [apply IH|apply IHr].
Qed.

Lemma skip_ws_start (s : jsstring) : value_start s -> skip_ws s = s.
Proof. destruct s as [|c r]; [done|]. intros (H & _). simpl. by rewrite H. Qed.

Lemma value_start_app (s t : jsstring) : value_start s -> value_start (s ++ t).
Proof. by destruct s. Qed.

Lemma skip_ws_blanks (ws s : jsstring) : blanks ws -> skip_ws (ws ++ s) = skip_ws s.
Proof. induction 1 as [|c r Hc _ IH]; [done|]. simpl. by rewrite Hc. Qed.

Lemma blanks_spaces (n : nat) : blanks (spaces n).
Proof. induction n; by constructor. Qed.

Lemma number_end_blanks (ws : jsstring) (c : N) (rest : jsstring) :
  blanks ws -> c = 44%N \/ c = 93%N \/ c = 125%N -> number_end (ws ++ c :: rest).
Proof.
  intros [|b r Hb _] Hc.
  - simpl. destruct Hc as [->|[->| ->]]; done.
  - simpl. unfold is_json_ws in Hb.
    repeat (apply orb_true_iff in Hb as [Hb|Hb]); apply N.eqb_eq in Hb as ->; done.
Qed.

(** The elements of an array are read back in order, whatever white space
    follows the commas and precedes the closing bracket. *)
Lemma parse_elements_join (pv : jsstring -> option (jsval * jsstring))
  (sep close : jsstring) (xs : list jsval) (parts : list jsstring) :
  blanks sep -> blanks close ->
  Forall2 (reads_back pv) xs parts -> xs <> [] ->
  forall k rest, (length xs <= k)%nat ->
    parse_elements pv k (join_with (44%N :: sep) parts ++ close ++ 93%N :: rest)
    = Some (xs, rest).
Proof.
  intros Hsep Hclose.
  induction 1 as [|x s xs parts [Hstart Hread] Hrest IH]; [done|].
  intros _ k rest Hk. destruct k as [|k]; [simpl in Hk; lia|].
  destruct Hrest as [|x2 s2 xs' parts' H2 Hrest'].
  - cbn [join_with parse_elements].
    rewrite (Hread (close ++ 93%N :: rest)) by (apply number_end_blanks; auto).
    rewrite skip_ws_blanks by done. done.
  - rewrite join_with_cons. cbn [parse_elements]. rewrite <- !app_assoc.
    rewrite (Hread ((44%N :: sep) ++ _)) by done. cbn [app skip_ws].
    change (is_json_ws 44) with false. cbv iota. cbn [after_char].
    change (44 =? 44)%N with true. cbv iota.
    rewrite skip_ws_blanks by done. rewrite skip_ws_start.
    + rewrite IH; [done|done|simpl in *; lia].
    + apply value_start_app. destruct H2 as [H2 _]. destruct parts'; [done|].
      by apply value_start_app.
Qed.

(** The members of an object are read back in order, likewise. *)
Lemma parse_members_join (pv : jsstring -> option (jsval * jsstring))
  (pad sep close : jsstring) (fields : list (jsstring * jsval)) (parts : list jsstring) :
  blanks pad -> blanks sep -> blanks close ->
  Forall2 (fun f part => code_units f.1
                         /\ exists s, part = JSON_quote f.1 ++ [58%N] ++ pad ++ s
                                      /\ reads_back pv f.2 s) fields parts ->
  fields <> [] ->
  forall k rest, (length fields <= k)%nat ->
    parse_members pv k (join_with (44%N :: sep) parts ++ close ++ 125%N :: rest)
    = Some (fields, rest).
Proof.
  intros Hpad Hsep Hclose.
  induction 1 as [|[key x] part fields parts (Hkey & s & -> & Hstart & Hread) Hrest IH];
    [done|].
  intros _ k rest Hk. destruct k as [|k]; [simpl in Hk; lia|].
  cbn [fst snd] in *.
  assert (forall tail, number_end tail ->
            parse_members pv (S k) (JSON_quote key ++ [58%N] ++ pad ++ s ++ tail)
            = match after_char 44 (skip_ws tail) with
              | Some r4 =>
                  match parse_members pv k (skip_ws r4) with
                  | Some (ms, r5) => Some ((key, x) :: ms, r5)
                  | None => None
                  end
              | None =>
                  match after_char 125 (skip_ws tail) with
                  | Some r4 => Some ([(key, x)], r4)
                  | None => None
                  end
              end) as Hone.
  { intros tail Htail. unfold JSON_quote. cbn [parse_members app after_char].
    change (34 =? 34)%N with true. cbv iota.
    rewrite <- !app_assoc. cbn [app].
    rewrite (parse_string_quote key Hkey). cbn [skip_ws].
    change (is_json_ws 58) with false. cbv iota. cbn [after_char].
    change (58 =? 58)%N with true. cbv iota.
    rewrite skip_ws_blanks by done.
    rewrite skip_ws_start by (by apply value_start_app).
    by rewrite (Hread tail Htail). }
  destruct Hrest as [|[key2 x2] part2 fields' parts' H2 Hrest'].
  - cbn [join_with]. rewrite <- !app_assoc.
    rewrite (Hone (close ++ 125%N :: rest)) by (apply number_end_blanks; auto).
    rewrite skip_ws_blanks by done. done.
  - rewrite join_with_cons. rewrite <- !app_assoc.
    rewrite (Hone ((44%N :: sep) ++ _)) by done.
    cbn [app skip_ws].
    change (is_json_ws 44) with false. cbv iota. cbn [after_char].
    change (44 =? 44)%N with true. cbv iota.
    rewrite skip_ws_blanks by done. rewrite skip_ws_start.
    + rewrite IH; [done|done|simpl in *; lia].
    + destruct H2 as (_ & s2 & -> & _). by destruct parts'.
Qed.

(** Objects are read back key by key: the properties created in
    enumeration order stand in the order of their creation. *)
Lemma fold_obj_set_ordered (ms acc : list (jsstring * jsval)) :
  NoDup (acc.*1 ++ ms.*1) -> enumeration_order (acc.*1 ++ ms.*1) ->
  fold_left (fun o m => obj_set m.1 m.2 o) ms acc = acc ++ ms.
Proof.
  revert acc. induction ms as [|[k v] r IH]; intros acc Hnd Hord; simpl.
  - by rewrite app_nil_r.
  - rewrite fmap_cons in Hnd, Hord. cbn [fst] in Hnd, Hord.
    rewrite obj_set_last.
    + rewrite IH; [by rewrite <- app_assoc|..];
        rewrite fmap_app; simpl; by rewrite <- app_assoc.
    + apply NoDup_app in Hnd as (_ & Hd & _). intros Hin. apply (Hd k Hin). by left.
    + apply Forall_forall. intros k' Hk'.
      apply (StronglySorted_app_1_elem_of _ _ _ k' k Hord); [done|by left].
Qed.

Lemma join_with_length (sep : jsstring) (parts : list jsstring) :
  Forall (fun p => p <> []) parts ->
  (length parts <= length (join_with sep parts))%nat
  /\ Forall (fun p => (length p <= length (join_with sep parts))%nat) parts.
Proof.
  induction 1 as [|p r Hp Hr [IH1 IH2]]; [by split|].
  destruct r as [|q r].
  - simpl. split; [destruct p; [done|simpl; lia]|by repeat constructor].
  - rewrite join_with_cons, !length_app. split.
    + destruct p; [done|]. cbn [length] in *. lia.
    + constructor; [lia|]. eapply Forall_impl; [exact IH2|]. intros x Hx.
      cbn beta in Hx. lia.
Qed.

Lemma Forall2_with_r {A B : Type} (Q : A -> B -> Prop) (P : B -> Prop)
  (xs : list A) (ys : list B) :
  Forall2 Q xs ys -> Forall P ys -> Forall2 (fun x y => Q x y /\ P y) xs ys.
Proof.
  induction 1 as [|x y xs ys Hxy _ IH]; intros Hys; [constructor|].
  apply Forall_cons in Hys as [Hy Hys]. constructor; [done|by apply IH].
Qed.

Lemma decimal_head (n : Z) :
  exists c ds, decimal n = c :: ds /\ (is_digit c = true \/ c = 45%N).
Proof.
  unfold decimal. destruct n as [|p|p]; cbn [Z.to_int NilZero.string_of_int].
  - exists 48%N, []. by split; [|left].
  - pose proof (DecimalPos.Unsigned.to_uint_nonnil p) as Hnn.
    assert (NilZero.string_of_uint (Pos.to_uint p) = NilEmpty.string_of_uint (Pos.to_uint p))
      as -> by (by destruct (Pos.to_uint p)).
    destruct (uint_head _ Hnn) as (c & ds & E & Hc).
    exists c, ds. by split; [|left].
  - rewrite lit_cons. eexists _, _. by split; [|right].
Qed.

Lemma parse_value_number (fuel : nat) (c : N) (s : jsstring) :
  is_digit c = true \/ c = 45%N ->
  parse_value (S fuel) (c :: s)
  = match parse_number (c :: s) with
    | Some (x, rest) => Some (JNum x, rest)
    | None => None
    end.
Proof.
  intros Hc. cbn [parse_value].
  assert (c <> 34 /\ c <> 91 /\ c <> 123 /\ c <> 116 /\ c <> 102 /\ c <> 110)%N
    as (? & ? & ? & ? & ? & ?).
  { destruct Hc as [Hc| ->]; [|done]. unfold is_digit in Hc.
    apply andb_true_iff in Hc as [?%N.leb_le ?%N.leb_le]. lia. }
  repeat match goal with
         | |- context [(c =? ?k)%N] => destruct (N.eqb_spec c k); [done|]
         end.
  done.
Qed.

Lemma literal_prefix_app (word rest : jsstring) :
  literal_prefix word (word ++ rest) = Some rest.
Proof.
  unfold literal_prefix. rewrite take_app_length, drop_app_length.
  by rewrite bool_decide_eq_true_2.
Qed.

(** What [JSON.stringify] writes for a JSON value, [JSON.parse] reads back
    as that value. *)
Lemma wrap_members_layout (gap indent : nat) (open close : N)
  (p : jsstring) (ps : list jsstring) :
  exists pre sep post,
    blanks pre /\ blanks sep /\ blanks post
    /\ wrap_members gap indent open close (p :: ps)
       = [open] ++ pre ++ join_with (44%N :: sep) (p :: ps) ++ post ++ [close].
Proof.
  destruct gap as [|g].
  - exists [], [], []. split_and!; [constructor..|done].
  - exists (10%N :: spaces (indent + S g)), (10%N :: spaces (indent + S g)),
      (10%N :: spaces indent).
    split_and!; try (constructor; [done|apply blanks_spaces]).
    unfold wrap_members. cbn [app]. done.
Qed.

Lemma member_pad_blanks (gap : nat) :
  blanks (match gap with O => [] | S _ => [32%N] end).
Proof. destruct gap; by repeat constructor. Qed.

(** What [JSON.stringify] writes for a serializable value, at any
    indentation, [JSON.parse] reads back as that value. *)
Lemma serialize_reads_back (gap : nat) (v : jsval) :
  json_value v ->
  forall indent, exists s,
    serialize gap indent v = SerStr s
    /\ value_start s
    /\ forall fuel rest, (length s <= fuel)%nat -> number_end rest ->
         parse_value fuel (s ++ rest) = Some (v, rest).
Proof.
  induction v as [| |b|x|n|str|items IH|fields IH|src] using jsval_induction;
    intros Hj indent; try done.
  - (* null *)
    exists (lit "null"). split_and!; [done|done|].
    intros [|fuel] rest Hf _; [simpl in Hf; lia|].
    change (parse_value (S fuel) (lit "null" ++ rest))
      with (option_map (pair JNull) (literal_prefix (lit "null") (lit "null" ++ rest))).
    by rewrite literal_prefix_app.
  - (* booleans *)
    destruct b.
    + exists (lit "true"). split_and!; [done|done|].
      intros [|fuel] rest Hf _; [simpl in Hf; lia|].
      change (parse_value (S fuel) (lit "true" ++ rest))
        with (option_map (pair (JBool true))
                         (literal_prefix (lit "true") (lit "true" ++ rest))).
      by rewrite literal_prefix_app.
    + exists (lit "false"). split_and!; [done|done|].
      intros [|fuel] rest Hf _; [simpl in Hf; lia|].
      change (parse_value (S fuel) (lit "false" ++ rest))
        with (option_map (pair (JBool false))
                         (literal_prefix (lit "false") (lit "false" ++ rest))).
      by rewrite literal_prefix_app.
  - (* numbers *)
    destruct Hj as [Hb Hjn].
    exists (Number_toString x). destruct (Number_toString_head x Hb Hjn) as (c & ds & E & Hc).
    split_and!; [by destruct x| |].
    + rewrite E. simpl. destruct Hc as [Hc| ->]; [|done].
      unfold is_digit in Hc. apply andb_true_iff in Hc as [?%N.leb_le ?%N.leb_le].
      unfold is_json_ws. split_and!; try lia.
      repeat (apply orb_false_intro); apply N.eqb_neq; lia.
    + intros [|fuel] rest Hf Hrest; [rewrite E in Hf; simpl in Hf; lia|].
      rewrite E, <- app_comm_cons, parse_value_number by done.
      rewrite app_comm_cons, <- E. by rewrite Number_toString_parse.
  - (* strings *)
    exists (JSON_quote str). split_and!; [done|done|].
    intros [|fuel] rest Hf _; [simpl in Hf; lia|].
    unfold JSON_quote. cbn [app parse_value]. change (34 =? 34)%N with true. cbv iota.
    rewrite <- app_assoc. cbn [app]. by rewrite parse_string_quote.
  - (* arrays *)
    cbn [json_value] in Hj.
    assert (exists parts,
              ser_elements (serialize gap (indent + gap)) items = Some parts
              /\ Forall2 (fun x s =>
                            value_start s
                            /\ forall fuel rest, (length s <= fuel)%nat -> number_end rest ->
                                 parse_value fuel (s ++ rest) = Some (x, rest))
                         items parts) as (parts & Hser & Hparts).
    { clear -IH Hj. induction IH as [|x r Hx _ IHr]; [by exists []|].
      destruct Hj as [Hjx Hjr]. destruct (IHr Hjr) as (parts & Hser & Hparts).
      destruct (Hx Hjx (indent + gap)%nat) as (s & Hs & Hstart & Hread).
      exists (s :: parts). cbn [ser_elements]. rewrite Hs, Hser.
      split; [done|]. by constructor. }
    cbn [serialize]. rewrite Hser. eexists. split; [done|].
    destruct Hparts as [|x s0 items' parts' [Hstart Hread] Hrest].
    + split; [done|]. intros [|fuel] rest Hf _; [simpl in Hf; lia|]. done.
    + destruct (wrap_members_layout gap indent 91 93 s0 parts')
        as (pre & sep & post & Hpre & Hsep & Hpost & ->).
      set (xs := x :: items'). set (ps := s0 :: parts').
      assert (Forall2 (fun x s =>
                         value_start s
                         /\ forall fuel rest, (length s <= fuel)%nat -> number_end rest ->
                              parse_value fuel (s ++ rest) = Some (x, rest)) xs ps) as Hall
        by (by constructor).
      assert (value_start (join_with (44%N :: sep) ps)) as Hjoin.
      { unfold ps. destruct parts'; [done|]. rewrite join_with_cons.
        by apply value_start_app. }
      split; [done|].
      intros [|fuel] rest Hf Hrest'; [simpl in Hf; lia|].
      rewrite <- !app_assoc. cbn [app parse_value].
      change (91 =? 34)%N with false. change (91 =? 91)%N with true. cbv iota.
      rewrite skip_ws_blanks by done.
      rewrite skip_ws_start by (by apply value_start_app).
      assert (after_char 93 (join_with (44%N :: sep) ps ++ post ++ 93%N :: rest) = None)
        as ->.
      { destruct (join_with (44%N :: sep) ps) as [|c r]; [done|].
        destruct Hjoin as (_ & Hc & _). by apply after_char_other. }
      destruct (join_with_length (44%N :: sep) ps) as [L1 L2].
      { eapply Forall2_Forall_r; [exact Hall|]. apply Forall_true.
        intros y z [Hz _] ->. done. }
      rewrite !length_app in Hf. cbn [length] in Hf.
      rewrite (parse_elements_join (parse_value fuel) sep post xs ps); [done..| |done|].
      * eapply Forall2_impl; [exact (Forall2_with_r _ _ _ _ Hall L2)|].
        intros y z [[Hz Hr] Hlen]. split; [done|].
        intros rest0 Hrest0. apply Hr; [lia|done].
      * rewrite (Forall2_length _ _ _ Hall). lia.
  - (* objects *)
    cbn [json_value] in Hj. destruct Hj as (Hnd & Hord & Hj).
    pose proof (member_pad_blanks gap) as Hpad.
    set (pad := match gap with O => [] | S _ => [32%N] end) in *.
    assert (exists parts,
              ser_members (serialize gap (indent + gap)) gap fields = Some parts
              /\ Forall2 (fun f part =>
                            code_units f.1
                            /\ exists s, part = JSON_quote f.1 ++ [58%N] ++ pad ++ s
                                 /\ value_start s
                                 /\ forall fuel rest, (length s <= fuel)%nat ->
                                      number_end rest ->
                                      parse_value fuel (s ++ rest) = Some (f.2, rest))
                         fields parts) as (parts & Hser & Hparts).
    { clear -IH Hj. induction IH as [|[k x] r Hx _ IHr]; [by exists []|].
      destruct Hj as [[Hk Hjx] Hjr]. destruct (IHr Hjr) as (parts & Hser & Hparts).
      destruct (Hx Hjx (indent + gap)%nat) as (s & Hs & Hstart & Hread).
      cbn [fst snd] in *. eexists. cbn [ser_members]. rewrite Hs, Hser.
      split; [done|]. constructor; [|done]. split; [done|]. by exists s. }
    cbn [serialize]. rewrite Hser. eexists. split; [done|].
    destruct Hparts as [|f p fields' parts' Hf0 Hrest].
    + split; [done|]. intros [|fuel] rest Hf _; [simpl in Hf; lia|]. done.
    + destruct (wrap_members_layout gap indent 123 125 p parts')
        as (pre & sep & post & Hpre & Hsep & Hpost & ->).
      set (fs := f :: fields') in *. set (ps := p :: parts').
      assert (Forall2 (fun f part =>
                         code_units f.1
                         /\ exists s, part = JSON_quote f.1 ++ [58%N] ++ pad ++ s
                              /\ value_start s
                              /\ forall fuel rest, (length s <= fuel)%nat ->
                                   number_end rest ->
                                   parse_value fuel (s ++ rest) = Some (f.2, rest))
                      fs ps) as Hall
        by (by constructor).
      split; [done|].
      intros [|fuel] rest Hf Hrest'; [simpl in Hf; lia|].
      assert (exists r, join_with (44%N :: sep) ps = 34%N :: r) as [r Er].
      { unfold ps. destruct Hf0 as (_ & s & -> & _).
        destruct parts'; [by eexists|]. rewrite join_with_cons. by eexists. }
      rewrite <- !app_assoc. cbn [app parse_value].
      change (123 =? 34)%N with false. change (123 =? 91)%N with false.
      change (123 =? 123)%N with true. cbv iota.
      rewrite skip_ws_blanks by done.
      rewrite skip_ws_start by (by rewrite Er).
      assert (after_char 125 (join_with (44%N :: sep) ps ++ post ++ 125%N :: rest) = None)
        as -> by (by rewrite Er).
      destruct (join_with_length (44%N :: sep) ps) as [L1 L2].
      { eapply Forall2_Forall_r; [exact Hall|]. apply Forall_true.
        intros y z (_ & s & -> & _). done. }
      rewrite !length_app in Hf. cbn [length] in Hf.
      rewrite (parse_members_join (parse_value fuel) pad sep post fs ps);
        [|done..| |done|].
      * rewrite fold_obj_set_ordered; [done|done|done].
      * eapply Forall2_impl; [exact (Forall2_with_r _ _ _ _ Hall L2)|].
        intros y z [(Hk & s & -> & Hz & Hr) Hlen]. split; [done|].
        exists s. split; [done|]. split; [done|].
        intros rest0 Hrest0. apply Hr; [|done].
        cbn beta in Hlen. rewrite !length_app in Hlen. lia.
      * rewrite (Forall2_length _ _ _ Hall). lia.
Qed.

Lemma bounded_trim (c d : N) (body : jsstring) :
  is_space c = false -> is_space d = false ->
  trim (c :: body ++ [d]) = c :: body ++ [d].
Proof.
  intros Hc Hd. apply trim_id; [done|]. by rewrite app_comm_cons, rev_unit.
Qed.

Lemma looksJson_bounded (c d : N) (body : jsstring) :
  is_space c = false -> is_space d = false ->
  (c = 123 /\ d = 125 \/ c = 91 /\ d = 93 \/ c = 34 /\ d = 34)%N ->
  looksJson (c :: body ++ [d]) = true.
Proof.
  intros Hc Hd Hcd. unfold looksJson. rewrite bounded_trim by done.
  unfold ends_with_char. rewrite app_comm_cons, rev_unit.
  cbn [starts_with_char]. by destruct Hcd as [[-> ->]|[[-> ->]|[-> ->]]].
Qed.

(** The serialization of an object, an array or a string has no blank at
    either end and looks like JSON. *)
Lemma serialized_bounded (gap indent : nat) (v : jsval) (s : jsstring) :
  structured_or_string v = true -> serialize gap indent v = SerStr s ->
  s <> [] /\ trim s = s /\ looksJson s = true.
Proof.
  intros Hv Hs. destruct v as [| |?|?|?|str|items|fields|?]; try done;
    cbn [serialize] in Hs.
  - injection Hs as <-. split_and!; [done|by apply (bounded_trim 34 34)|].
    apply looksJson_bounded; [done|done|tauto].
  - destruct (ser_elements _ items) as [[|p ps]|]; [by injection Hs as <-| |done].
    destruct (wrap_members_layout gap indent 91 93 p ps)
      as (pre & sep & post & _ & _ & _ & Hw).
    rewrite Hw in Hs. injection Hs as <-. cbn [app]. rewrite !app_assoc.
    split_and!; [done|by apply (bounded_trim 91 93)|].
    apply looksJson_bounded; [done|done|tauto].
  - destruct (ser_members _ _ fields) as [[|p ps]|]; [by injection Hs as <-| |done].
    destruct (wrap_members_layout gap indent 123 125 p ps)
      as (pre & sep & post & _ & _ & _ & Hw).
    rewrite Hw in Hs. injection Hs as <-. cbn [app]. rewrite !app_assoc.
    split_and!; [done|by apply (bounded_trim 123 125)|].
    apply looksJson_bounded; [done|done|tauto].
Qed.

(** [JSON.parse(JSON.stringify(v, null, gap))] is [v]. *)
Lemma JSON_parse_stringify (gap : nat) (v : jsval) (s : jsstring) :
  json_value v -> JSON_stringify gap v = SerStr s -> JSON_parse s = Some v.
Proof.
  intros Hj Hs. destruct (serialize_reads_back gap v Hj 0) as (s' & Hs' & Hstart & Hread).
  unfold JSON_stringify in Hs. rewrite Hs in Hs'. injection Hs' as <-.
  unfold JSON_parse. rewrite skip_ws_start by done.
  specialize (Hread (S (length s)) [] ltac:(lia) I). rewrite app_nil_r in Hread.
  by rewrite Hread.
Qed.

(** C8. Round trip through the JSON branch. Every JSON-serializable value
    has a serialization, at any indentation, and [JSON.parse] reads it
    back as the value. The serialization of an object, an array or a
    string is between braces, brackets or quotes, so [tryParseArgs] takes
    it for JSON: the arguments read from it are the value itself, and the
    raw text is the serialization. *)
Theorem tryParseArgs_json_round_trip (gap : nat) (v : jsval) :
  json_value v ->
  exists s,
    JSON_stringify gap v = SerStr s
    /\ JSON_parse s = Some v
    /\ (structured_or_string v = true ->
        looksJson s = true /\ tryParseArgs (JStr s) = mkParsed v s).
Proof.
  intros Hj. destruct (serialize_reads_back gap v Hj 0) as (s & Hs & _).
  exists s. split; [done|].
  pose proof (JSON_parse_stringify gap v s Hj Hs) as Hparse. split; [done|].
  intros Hv. destruct (serialized_bounded gap 0 v s Hv Hs) as (Hne & Ht & Hlooks).
  split; [done|]. unfold tryParseArgs. cbn [safeString]. rewrite Ht.
  destruct s as [|c r]; [done|]. by rewrite Hlooks, Hparse.
Qed.

Lemma tryParseArgs_json_round_trip_witness :
  exists s,
    JSON_stringify 0 (JArr [JNum (round64_dec false 15 (-1)); JNull; JBool true]) = SerStr s
    /\ JSON_parse s = Some (JArr [JNum (round64_dec false 15 (-1)); JNull; JBool true])
    /\ (structured_or_string (JArr [JNum (round64_dec false 15 (-1)); JNull; JBool true])
        = true ->
        looksJson s = true
        /\ tryParseArgs (JStr s)
           = mkParsed (JArr [JNum (round64_dec false 15 (-1)); JNull; JBool true]) s).
Proof.
  apply (tryParseArgs_json_round_trip
           0 (JArr [JNum (round64_dec false 15 (-1)); JNull; JBool true])).
  assert (round64_dec false 15 (-1) = Finite false 3 (-1)) as -> by by vm_compute.
  cbn [json_value every binary64 json_number]. repeat split; solve [lia | by left].
Defined.

(** The same through [safeJsonStringify], which indents by two. *)
Example safeJsonStringify_round_trip :
  let v := JObj [(lit "city", JStr (lit "Oslo"));
                 (lit "days", JArr [JNum (int 3); JNum (int (-1)); JNull]);
                 (lit "temperature", JNum (round64_dec false 7 (-1)))] in
  exists s, safeJsonStringify v = Some s /\ tryParseArgs (JStr s) = mkParsed v s.
Proof. eexists. split; [by vm_compute|]. by vm_compute. Qed.

(** * Further properties of the engine *)

(** ** Invocations that do not reach a handler *)

Lemma exec_lookup_unavailable (h : host) (e : env) (c : call) :
  ui_works h ->
  (forall s, skills e !! skillName c = Some s -> enabled s = false) ->
  exec h e (lookup_and_execute c) =
    (e,
     [EUi (not_found_notice (bool_decide (is_Some (skills e !! skillName c))) (skillName c));
      EMessage (not_found_message (skillName c))],
     Some (inr tt)).
Proof.
  intros Hui Hoff. unfold lookup_and_execute, mbind, prog_bind.
  cbn [bind perform exec do_op].
  destruct (skills e !! skillName c) as [s|] eqn:Hs; cbn [bind].
  - rewrite (Hoff s eq_refl). cbn [bind perform exec do_op]. rewrite Hui.
    by rewrite bool_decide_eq_true_2.
  - cbn [bind perform exec do_op]. rewrite Hui.
    rewrite bool_decide_eq_false_2; [done|]. by intros [? [=]].
Qed.

(** X1. A call of a skill that is not registered, or is registered but
    disabled, is answered by the "not found" toast and one system message
    naming the skill, and nothing else: no handler is called and no
    continuation is triggered. The attempt has been counted by the
    breaker all the same. *)
Theorem runSkill_skill_unavailable (h : host) (e : env) (c : call) :
  ui_works h ->
  (length (prune (now e) (recentCallTimestamps e ++ [now e]))
   <= MAX_CALLS_PER_WINDOW)%nat ->
  (forall s, skills e !! skillName c = Some s -> enabled s = false) ->
  exec h e (runSkill c) =
    (mkEnv (now e) (prune (now e) (recentCallTimestamps e ++ [now e])) (skills e),
     [EBump (now e) (length (prune (now e) (recentCallTimestamps e ++ [now e])));
      EUi (not_found_notice (bool_decide (is_Some (skills e !! skillName c)))
                            (skillName c));
      EMessage (not_found_message (skillName c))],
     Some (inr tt)).
Proof.
  intros Hui Hcount Hoff. rewrite exec_runSkill_ui by done. cbn zeta.
  set (ts := prune _ _) in *.
  destruct (Nat.ltb_spec MAX_CALLS_PER_WINDOW (length ts)) as [?|_]; [lia|].
  unfold permitted_trace.
  by rewrite (exec_lookup_unavailable h (mkEnv (now e) ts (skills e)) c Hui Hoff).
Qed.

Lemma runSkill_skill_unavailable_witness :
  exec index_ui (mkEnv 7 [] demo_registry) (runSkill (call_of "weather")) =
    (mkEnv 7 [7%Z] demo_registry,
     [EBump 7 1;
      EUi (not_found_notice false (lit "weather"));
      EMessage (not_found_message (lit "weather"))],
     Some (inr tt)).
Proof.
  refine (runSkill_skill_unavailable index_ui (mkEnv 7 [] demo_registry)
            (call_of "weather") index_ui_works _ _).
  - vm_compute. lia.
  - intros s Hs. vm_compute in Hs. discriminate.
Defined.

(** ** The toast of an invocation *)

Lemma executing_notice_title (n : jsstring) (m : notice) :
  title m <> lit "Skill executing" ++ [8230%N] -> EUi (executing_notice n) <> EUi m.
Proof. intros Ht [= <-]. by apply Ht. Qed.

Ltac engine_step :=
  cbn [bind perform exec do_op finally try_catch fst snd app skills now recentCallTimestamps].

Ltac other_toast :=
  repeat match goal with
         | H : _ ∈ _ :: _ |- _ => apply elem_of_cons in H as [H|H]
         | H : _ ∈ [] |- _ => by apply elem_of_nil in H
         | H : EUi (executing_notice _) = EUi ?m |- _ =>
             apply executing_notice_title in H; [done|by vm_compute]
         | H : EUi _ = _ |- _ => discriminate H
         end.

Ltac toast_shown :=
  match goal with
  | |- _ ∈ _ => repeat first [apply list_elem_of_here | apply list_elem_of_further]
  end.

(** X2. The "executing" toast never outlives its invocation: whatever the
    handler does and whatever the toast layer throws, an invocation that
    showed it and has ended removed it, once, as its last act; it is left
    on screen only while a handler never settles. *)
Theorem executing_toast_is_disposed (h : host) (e : env) (c : call) :
  let evs := (exec h e (runSkill c)).1.2 in
  let r := (exec h e (runSkill c)).2 in
  (EUi (executing_notice (skillName c)) ∈ evs -> r <> None ->
     disposals evs = 1%nat /\ last evs = Some EDispose)
  /\ (EUi (executing_notice (skillName c)) ∉ evs \/ r = None -> disposals evs = 0%nat).
Proof.
  unfold runSkill, lookup_and_execute, mbind, prog_bind. engine_step.
  destruct (bumpCircuitBreaker _ _) as [ts count]. engine_step.
  destruct (MAX_CALLS_PER_WINDOW <? count)%nat; engine_step.
  { destruct (ui_fault h breaker_notice); engine_step;
      (split; [intros Hin; other_toast|done]). }
  destruct (skills e !! skillName c) as [s|]; engine_step.
  2:{ destruct (ui_fault h _); engine_step; (split; [intros Hin; other_toast|done]). }
  destruct (enabled s); engine_step.
  2:{ destruct (ui_fault h _); engine_step; (split; [intros Hin; other_toast|done]). }
  destruct (ui_fault h (executing_notice _)); engine_step.
  { split; [intros Hin; other_toast|done]. }
  destruct (action s _) as [v|f|f|]; engine_step.
  - split; [done|]. intros [Hn|[=]]. exfalso. apply Hn. toast_shown.
  - destruct (ui_fault h (failed_notice _)); engine_step;
      (split; [done|]; intros [Hn|[=]]; exfalso; apply Hn; toast_shown).
  - destruct (ui_fault h (failed_notice _)); engine_step;
      (split; [done|]; intros [Hn|[=]]; exfalso; apply Hn; toast_shown).
  - split; [by intros _ []|done].
Qed.

(** ** What [runSkill] lets out *)



(** ** A handler that never settles *)

Lemma stalled_pending (q : promise) : stalled q -> settled q = None.
Proof.
  destruct q as [|p c st|p b]; [done| |].
  - by destruct st.
  - by intros [-> _].
Qed.

Lemma stalled_no_turn (h : host) (e : env) (q : promise) :
  stalled q -> lane_step h e q = None.
Proof.
  induction q as [|p IH c st|p IH b]; [done| |].
  - destruct st; try done; cbn [stalled lane_step].
    + intros Hp. by rewrite (stalled_pending p Hp), (IH Hp).
    + by intros ->.
  - intros [-> Hp]. cbn [lane_step]. by rewrite (stalled_pending p Hp), (IH Hp).
Qed.

Lemma stalled_external (x : external) (w : world) :
  stalled (queue w) -> stalled (queue (apply_external x w)).
Proof. by destruct x. Qed.

Lemma stalled_steps (h : host) (w w' : world) (tr : list event) :
  steps h w tr w' -> stalled (queue w) ->
  stalled (queue w') /\ started tr = [] /\ ended tr = [] /\ Forall (fun ev => ~ is_body ev) tr.
Proof.
  induction 1 as [w|w w1 w2 tr evs _ IH Hstep]; intros Hw; [by repeat split|].
  destruct (IH Hw) as (Hw1 & Hs & He & Hb).
  inversion Hstep as [x w0|w0 e' evs0 q' Hturn]; subst.
  - split; [by apply stalled_external|].
    unfold started, ended in *. rewrite !omap_app, Hs, He.
    rewrite Forall_app.
    destruct x; (split_and!; [done..|]); repeat constructor; by intros [].
  - by rewrite (stalled_no_turn h _ _ Hw1) in Hturn.
Qed.

(** X4. Nothing bounds the time a handler takes. When an invocation reaches a
    handler whose promise never settles, the lane is stalled for good: the
    calls enqueued afterwards are accepted, but none of them is ever
    started, and the engine does nothing more. *)
Theorem hanging_handler_stalls_lane (h : host) (e : env) (q0 : promise)
  (c : call) (s : skill) :
  ui_works h ->
  settled q0 = Some true ->
  reaches_handler e c s ->
  action s (ctx_of c) = Hangs ->
  exists e1 evs q1,
    lane_step h e (enqueue c q0) = Some (e1, EStart c :: evs, q1)
    /\ forall tr w', steps h (mkWorld e1 q1) tr w' ->
         started tr = [] /\ ended tr = [] /\ Forall (fun ev => ~ is_body ev) tr
         /\ lane_step h (w_env w') (queue w') = None.
Proof.
  intros Hui Hq0 (Hcount & Hs & Hen) Hhang.
  unfold enqueue. rewrite lane_step_waiting by done.
  assert (advance h e (runSkill c) =
            (mkEnv (now e) (prune (now e) (recentCallTimestamps e ++ [now e])) (skills e),
             [EBump (now e) (length (prune (now e) (recentCallTimestamps e ++ [now e])));
              EUi (executing_notice (skillName c)); EInvoke (name s) (ctx_of c)],
             Stalled)) as ->.
  { unfold runSkill, lookup_and_execute, mbind, prog_bind.
    cbn [bind perform advance do_op]. unfold bumpCircuitBreaker. cbn zeta.
    cbn [bind]. rewrite (proj2 (Nat.ltb_ge _ _) Hcount).
    cbn [bind perform advance do_op skills now recentCallTimestamps].
    rewrite Hs. cbn [bind]. rewrite Hen.
    cbn [bind perform advance do_op finally try_catch]. rewrite Hui.
    cbn [bind perform advance do_op finally try_catch].
    fold (ctx_of c). by rewrite Hhang. }
  eexists _, _, _. split; [reflexivity|].
  intros tr w' Hsteps.
  destruct (stalled_steps h _ _ _ Hsteps) as (Hw' & ? & ? & ?); [by split|].
  repeat split; try done. by apply stalled_no_turn.
Qed.

Lemma hanging_handler_stalls_lane_witness :
  exists e1 evs q1,
    lane_step index_ui (mkEnv 0 [] {[ lit "sleeper" := sleeper_skill ]})
              (enqueue (call_of "sleeper") PResolved)
    = Some (e1, EStart (call_of "sleeper") :: evs, q1)
    /\ forall tr w', steps index_ui (mkWorld e1 q1) tr w' ->
         started tr = [] /\ ended tr = [] /\ Forall (fun ev => ~ is_body ev) tr
         /\ lane_step index_ui (w_env w') (queue w') = None.
Proof.
  apply (hanging_handler_stalls_lane index_ui _ PResolved (call_of "sleeper")
           sleeper_skill index_ui_works eq_refl); [|reflexivity].
  split_and!; [vm_compute; lia|reflexivity|reflexivity].
Defined.

(** ** A skill registered without a handler *)

Lemma no_action_payload :
  delivered_payload (JObj [(lit "ok", JBool false);
                           (lit "error", JStr (lit "No action() provided for this skill."))])
  = no_action_text.
Proof. reflexivity. Qed.

(** X5. A skill registered without an [action] function (and not disabled) is
    callable: its call is run like any other and ends as a success. The
    object [{ok: false, error: "No action() provided for this skill."}]
    is delivered, serialized, as the skill's result, and the continuation
    is triggered. *)
Theorem skill_without_action_succeeds (h : host) (cfg : option skillConfig)
  (t : Z) (reg : gmap jsstring skill) (e : env) (c : call) :
  ui_works h ->
  cfg_action (default empty_config cfg) = None ->
  cfg_enabled (default empty_config cfg) <> JBool false ->
  skills e = (register (Reads cfg) t reg).1 ->
  Some (skillName c) = (register (Reads cfg) t reg).2 ->
  (length (prune (now e) (recentCallTimestamps e ++ [now e]))
   <= MAX_CALLS_PER_WINDOW)%nat ->
  (exec h e (runSkill c)).1.2 =
    [EBump (now e) (length (prune (now e) (recentCallTimestamps e ++ [now e])));
     EUi (executing_notice (skillName c));
     EInvoke (skillName c) (ctx_of c);
     EMessage (lines3 (lit "Skill result: " ++ skillName c) (lit "---") no_action_text);
     EGenerate; EDispose].
Proof.
  intros Hui Hact Hen Hreg Hname Hcount.
  rewrite exec_runSkill_ui by done. cbn zeta.
  rewrite (proj2 (Nat.ltb_ge _ _) Hcount). cbn [fst snd]. unfold permitted_trace.
  assert (exists s, normalizeConfig (Reads cfg) t = inr s
                    /\ enabled s = true /\ action s = no_action) as (s & Es & Hens & Ha).
  { eexists. split; [reflexivity|]. cbn [enabled action]. rewrite Hact.
    split; [|done]. destruct (cfg_enabled _) as [| |[|]| | | | | |]; done. }
  unfold register in Hreg, Hname. rewrite Es in Hreg, Hname. cbn [fst snd] in Hreg, Hname.
  injection Hname as Hname.
  assert (skills e !! skillName c = Some s) as Hs.
  { rewrite Hname, Hreg. apply lookup_insert_eq. }
  rewrite (exec_lookup_and_execute_ui h (mkEnv _ _ (skills e)) c s Hui Hs Hens).
  cbn [fst snd].
  rewrite Ha. unfold no_action, result_message. rewrite no_action_payload.
  by rewrite Hname.
Qed.

Lemma skill_without_action_succeeds_witness :
  let cfg := Some (mkConfig (JStr (lit " ping ")) JUndefined None JUndefined) in
  let e := mkEnv 0 [] (register (Reads cfg) 0 ∅).1 in
  (exec index_ui e (runSkill (call_of "ping"))).1.2 =
    [EBump 0 1;
     EUi (executing_notice (lit "ping"));
     EInvoke (lit "ping") (ctx_of (call_of "ping"));
     EMessage (lines3 (lit "Skill result: ping") (lit "---") no_action_text);
     EGenerate; EDispose].
Proof.
  intros cfg e.
  refine (skill_without_action_succeeds index_ui cfg 0 ∅ e (call_of "ping")
            index_ui_works eq_refl _ eq_refl eq_refl _).
  - discriminate.
  - vm_compute. lia.
Defined.

(** * Further properties of the parser *)

(** ** The raw text of the arguments *)

(** X6. The raw text kept beside the coerced arguments carries all of them:
    coercing it again gives the same result. So, for every call the
    parser extracts, [args] is the coercion of [rawArgs]. *)
Theorem tryParseArgs_raw_is_enough (raw : jsval) :
  tryParseArgs (JStr (p_raw (tryParseArgs raw))) = tryParseArgs raw
  /\ forall text c, extractFirstCall text = Some c ->
       tryParseArgs (JStr (rawArgs c)) = mkParsed (args c) (rawArgs c).
Proof.
  assert (forall raw, tryParseArgs (JStr (p_raw (tryParseArgs raw))) = tryParseArgs raw)
    as Hraw.
  { clear raw. intros raw.
    assert (p_raw (tryParseArgs raw) = trim (safeString raw [])) as Ep.
    { unfold tryParseArgs. destruct (trim (safeString raw [])) as [|c t] eqn:Et; [done|].
      destruct (if looksJson _ then _ else None); [done|].
      destruct (fold_left _ _ _) as [obj []]; done. }
    rewrite Ep. unfold tryParseArgs. cbn [safeString]. by rewrite trim_idem. }
  split; [apply Hraw|].
  intros text c. unfold extractFirstCall.
  destruct (regex_exec CALL_RE 0 _) as [m|]; [|done].
  intros [= <-]. cbn [rawArgs args]. rewrite Hraw. by destruct (tryParseArgs _).
Qed.

(** ** Scalars *)

Lemma decimal_shape (z : Z) :
  exists (d : Decimal.uint),
    d <> Decimal.Nil
    /\ decimal z = (if (z <? 0)%Z then [45%N] else []) ++ lit (NilEmpty.string_of_uint d)
    /\ Z.abs z = Z.of_N (N.of_uint d).
Proof.
  unfold decimal. destruct z as [|p|p]; cbn [Z.to_int NilZero.string_of_int Z.ltb Z.compare].
  - by exists (Decimal.D0 Decimal.Nil).
  - pose proof (DecimalPos.Unsigned.to_uint_nonnil p) as Hnn.
    assert (NilZero.string_of_uint (Pos.to_uint p) = NilEmpty.string_of_uint (Pos.to_uint p))
      as -> by (by destruct (Pos.to_uint p)).
    exists (Pos.to_uint p). split_and!; [done|done|].
    by rewrite (DecimalPos.Unsigned.of_to p : N.of_uint _ = _).
  - pose proof (DecimalPos.Unsigned.to_uint_nonnil p) as Hnn.
    assert (NilZero.string_of_uint (Pos.to_uint p) = NilEmpty.string_of_uint (Pos.to_uint p))
      as -> by (by destruct (Pos.to_uint p)).
    exists (Pos.to_uint p). split_and!; [done|by rewrite lit_cons|].
    by rewrite (DecimalPos.Unsigned.of_to p : N.of_uint _ = _).
Qed.

Lemma index_of_none (ch : N) (s : jsstring) :
  Forall (fun c => c <> ch) s -> index_of ch s = None.
Proof.
  induction 1 as [|c r Hc _ IH]; [done|]. simpl.
  destruct (N.eqb_spec c ch); [done|]. by rewrite IH.
Qed.

Lemma digit_not (c ch : N) :
  is_digit c = true -> (ch < 48 \/ 57 < ch)%N -> c <> ch.
Proof.
  unfold is_digit. intros [?%N.leb_le ?%N.leb_le]%andb_true_iff. lia.
Qed.

(** [Number] of the decimal writing of an integer that a Number holds. *)
Lemma Number_of_decimal (z : Z) :
  (Z.abs z <= 9007199254740992)%Z -> Number_of_literal (decimal z) = int z.
Proof.
  intros Hz. destruct (decimal_shape z) as (d & Hd & E & Hval).
  pose proof (uint_digits d) as Hdig.
  destruct (uint_head d Hd) as (c & ds & Ec & Hc).
  assert (span_digits (lit (NilEmpty.string_of_uint d))
          = (lit (NilEmpty.string_of_uint d), [])) as Hspan.
  { rewrite <- (app_nil_r (lit _)) at 1. by apply span_digits_stop. }
  assert (match after_char 45 (decimal z) with
          | Some r => (true, r)
          | None => (false, decimal z)
          end = ((z <? 0)%Z, lit (NilEmpty.string_of_uint d))) as Hsign.
  { rewrite E. destruct (z <? 0)%Z; cbn [app]; [done|].
    rewrite Ec, after_char_other; [done|]. apply (digit_not c 45 Hc). lia. }
  unfold Number_of_literal. rewrite Hsign, Hspan. cbn [after_char length].
  rewrite app_nil_r, digits_value_of_uint, <- Hval.
  rewrite <- (round64_int z Hz). unfold round64_dec.
  by rewrite scaled_down, scaled_up, Z.mul_1_r by done.
Qed.

Lemma scalar_of_decimal (z : Z) :
  (Z.abs z <= 9007199254740992)%Z -> scalar_of (decimal z) = JNum (int z).
Proof.
  intros Hz. destruct (decimal_shape z) as (d & Hd & E & Hval).
  pose proof (uint_digits d) as Hdig.
  destruct (uint_head d Hd) as (c & ds & Ec & Hc).
  assert (matches NUMBER_RE (decimal z) [] []) as M.
  { rewrite E. unfold NUMBER_RE.
    apply matches_seq with (c1 := []).
    - destruct (z <? 0)%Z; [apply matches_opt_some, matches_char|apply matches_opt_none].
    - rewrite <- (app_nil_r (lit _)). apply matches_seq with (c1 := []).
      + apply matches_plus; [by rewrite Ec|done].
      + apply matches_opt_none. }
  assert (starts_with_char 34 (decimal z) = false
          /\ starts_with_char 39 (decimal z) = false) as [Hq1 Hq2].
  { rewrite E, Ec. destruct (z <? 0)%Z; [done|]. cbn [app starts_with_char].
    split; apply N.eqb_neq, (digit_not c _ Hc); lia. }
  unfold scalar_of. rewrite Hq1, Hq2. cbn [andb orb].
  by rewrite (regex_test_whole_matches _ _ _ M), Number_of_decimal.
Qed.

Lemma lower_ascii_letter (c l : N) :
  (97 <= l <= 122)%N -> lower_ascii c = l -> c = l \/ c = (l - 32)%N.
Proof.
  unfold lower_ascii. intros Hl.
  destruct ((65 <=? c) && (c <=? 90))%N eqn:Ec; [|lia].
  apply andb_true_iff in Ec as [?%N.leb_le ?%N.leb_le]. lia.
Qed.

Lemma map_lower_word (w : jsstring) (word : string) :
  Forall (fun l => 97 <= l <= 122)%N (lit word) ->
  List.map lower_ascii w = lit word ->
  Forall2 (fun c l => c = l \/ c = (l - 32)%N) w (lit word).
Proof.
  generalize (lit word). clear word. intros ls Hls.
  revert w. induction Hls as [|l ls Hl _ IH]; intros [|c w] [=]; constructor.
  - by apply lower_ascii_letter.
  - by apply IH.
Qed.

Ltac word_cases H :=
  repeat match type of H with
         | Forall2 _ _ (_ :: _) =>
             let Hc := fresh "Hc" in
             apply Forall2_cons_inv_r in H as (? & ? & Hc & H & ->);
             destruct Hc as [->| ->]
         | Forall2 _ _ [] => apply Forall2_nil_inv_r in H as ->
         end.

(** X7. The scalar read from the value of a [key=value] pair: the decimal
    writing of an integer (one that a Number holds exactly) gives that
    integer, the words [true], [false] and [null] give their value
    whatever their case, and a value between two quotes of a kind gives
    the text between them. *)
Theorem scalar_of_reads_literals :
  (forall z : Z, (Z.abs z <= 9007199254740991)%Z -> scalar_of (decimal z) = JNum (int z))
  /\ (forall w, List.map lower_ascii w = lit "true" -> scalar_of w = JBool true)
  /\ (forall w, List.map lower_ascii w = lit "false" -> scalar_of w = JBool false)
  /\ (forall w, List.map lower_ascii w = lit "null" -> scalar_of w = JNull)
  /\ (forall q s, q = 34%N \/ q = 39%N -> scalar_of ([q] ++ s ++ [q]) = JStr s).
Proof.
  split_and!.
  - intros z Hz. apply scalar_of_decimal. lia.
  - intros w H. apply (map_lower_word w "true") in H; [|by repeat constructor].
    change (lit "true") with [116; 114; 117; 101]%N in H.
    word_cases H; reflexivity.
  - intros w H. apply (map_lower_word w "false") in H; [|by repeat constructor].
    change (lit "false") with [102; 97; 108; 115; 101]%N in H.
    word_cases H; reflexivity.
  - intros w H. apply (map_lower_word w "null") in H; [|by repeat constructor].
    change (lit "null") with [110; 117; 108; 108]%N in H.
    word_cases H; reflexivity.
  - intros q s Hq.
    assert (ends_with_char q ([q] ++ s ++ [q]) = true) as Hend.
    { unfold ends_with_char. cbn [app]. rewrite app_comm_cons, rev_unit.
      apply N.eqb_refl. }
    assert (slice_1_m1 ([q] ++ s ++ [q]) = s) as Hslice
      by apply removelast_last.
    unfold scalar_of. rewrite Hslice.
    destruct Hq as [-> | ->]; rewrite Hend; reflexivity.
Qed.

(** ** The parts of a [key=value] text *)

Lemma split_on_free (sep : N) (s : jsstring) :
  Forall (fun p => sep ∉ p) (split_on sep s).
Proof.
  induction s as [|c r IH]; simpl.
  - repeat constructor. by intros ?%elem_of_nil.
  - destruct (N.eqb_spec c sep) as [->|Hc].
    + constructor; [by intros ?%elem_of_nil|done].
    + destruct (split_on sep r) as [|p ps]; [repeat constructor|].
      * intros [?|?%elem_of_nil]%elem_of_cons; done.
      * apply Forall_cons in IH as [Hp Hps]. constructor; [|done].
        intros [?|?]%elem_of_cons; done.
Qed.

Lemma trim_start_within (x : N) (s : jsstring) : x ∈ trim_start s -> x ∈ s.
Proof.
  destruct (trim_start_split s) as (ws & E & _). intros H. rewrite E.
  apply elem_of_app. by right.
Qed.

Lemma trim_within (x : N) (s : jsstring) : x ∈ trim s -> x ∈ s.
Proof.
  unfold trim, trim_end. rewrite !list_elem_of_In. intros H%in_rev.
  apply list_elem_of_In, trim_start_within, list_elem_of_In, in_rev in H.
  by apply list_elem_of_In, trim_start_within, list_elem_of_In.
Qed.

Lemma removelast_within (x : N) (s : jsstring) : x ∈ removelast s -> x ∈ s.
Proof.
  induction s as [|c [|d r] IH]; simpl; [done|by intros ?%elem_of_nil|].
  intros [->|H]%elem_of_cons; [by left|]. right. by apply IH.
Qed.

Lemma scalar_of_free (ch : N) (val s : jsstring) :
  ch ∉ val -> text_of (scalar_of val) = Some s -> ch ∉ s.
Proof.
  intros Hval. unfold scalar_of.
  destruct (_ || _).
  { intros [= <-] Hin. apply Hval. destruct val as [|c r]; [done|].
    right. by apply removelast_within. }
  destruct (regex_test_whole NUMBER_RE val); [done|].
  destruct (regex_test_whole BOOLEAN_RE val); [done|].
  destruct (regex_test_whole NULL_RE val); [done|]. by intros [= <-].
Qed.

Lemma parse_part_free (acc : args_object * bool) (part : jsstring) :
  44%N ∉ part ->
  Forall comma_free acc.1.1 ->
  Forall comma_free (parse_part acc part).1.1.
Proof.
  intros Hpart Hacc. unfold parse_part.
  destruct (index_of 61 part) as [[|i]|]; [done| |done].
  destruct (trim (take (S i) part)) as [|c key] eqn:Ek; [done|].
  cbn [fst]. unfold obj_assign.
  destruct (bool_decide (c :: key = lit "__proto__") && negb acc.1.2).
  { by destruct (scalar_of _). }
  cbn [fst]. apply obj_set_keeps; [|done]. split; cbn [fst snd].
  - rewrite <- Ek. intros Hin%trim_within. apply Hpart.
    rewrite <- (take_drop (S i) part). apply elem_of_app. by left.
  - intros s. apply scalar_of_free. intros Hin%trim_within. apply Hpart.
    rewrite <- (take_drop (S (S i)) part). apply elem_of_app. by right.
Qed.

Lemma fold_parse_part_free (parts : list jsstring) (acc : args_object * bool) :
  Forall (fun p => 44%N ∉ p) parts ->
  Forall comma_free acc.1.1 ->
  Forall comma_free (fold_left parse_part parts acc).1.1.
Proof.
  intros Hparts. revert acc.
  induction Hparts as [|p r Hp _ IH]; intros acc Hacc; [done|].
  apply IH. by apply parse_part_free.
Qed.

(** X8. A comma always ends a [key=value] part, quotes or not: in the object
    read from [key=value] text no key and no value holds a comma. (A value
    that needs one has to be given as JSON.) The one object of this branch
    that can hold a comma is the wrapper [{_raw: text}] of a text without
    any pair. *)
Theorem key_value_pairs_hold_no_comma (raw : jsval) :
  let text := trim (safeString raw []) in
  (if looksJson text then JSON_parse text else None) = None ->
  p_args (tryParseArgs raw) = JObj [(lit "_raw", JStr text)]
  \/ exists fields,
       p_args (tryParseArgs raw) = JObj fields
       /\ Forall comma_free fields.
Proof.
  intros text. unfold tryParseArgs. fold text. clearbody text. intros Hjson.
  destruct text as [|c t] eqn:Et; [right; by exists []|]. rewrite <- Et in *.
  rewrite Hjson.
  assert (Forall comma_free
                 (fold_left parse_part
                    (filter (fun p => p <> []) (List.map trim (split_on 44 text)))
                    ([], false, false)).1.1) as Hall.
  { apply fold_parse_part_free; [|constructor].
    apply Forall_forall. intros p [_ (q & -> & Hq)%list_elem_of_fmap]%list_elem_of_filter.
    pose proof (split_on_free 44 text) as Hfree. rewrite Forall_forall in Hfree.
    intros H%trim_within. by apply (Hfree q). }
  destruct (fold_left parse_part _ _) as [obj [|]]; [|by left].
  right. by exists obj.1.
Qed.

Lemma key_value_pairs_hold_no_comma_witness :
  let raw := JStr (lit "city='Oslo, Norway', days=3") in
  p_args (tryParseArgs raw) = JObj [(lit "_raw", JStr (trim (safeString raw [])))]
  \/ exists fields,
       p_args (tryParseArgs raw) = JObj fields
       /\ Forall comma_free fields.
Proof.
  apply (key_value_pairs_hold_no_comma (JStr (lit "city='Oslo, Norway', days=3"))).
  reflexivity.
Defined.

(** ** Writing and reading [key=value] text *)

(** A text without blank margins. *)
Lemma trim_fixed_ends (s : jsstring) :
  trim s = s ->
  match s with [] => True | c :: _ => is_space c = false end
  /\ match rev s with [] => True | d :: _ => is_space d = false end.
Proof.
  intros E. split.
  - pose proof (trim_start_head s) as Hh. unfold trim in E.
    destruct (trim_start s) as [|c r]; [by rewrite <- E|].
    destruct (trim_end_head c r Hh) as [r' Er]. by rewrite <- E, Er.
  - replace (rev s) with (trim_start (rev (trim_start s))); [apply trim_start_head|].
    rewrite <- E at 2. unfold trim, trim_end. by rewrite rev_involutive.
Qed.

Lemma tight_app (a b : jsstring) :
  match a with [] => False | c :: _ => is_space c = false end ->
  match rev b with [] => False | d :: _ => is_space d = false end ->
  trim (a ++ b) = a ++ b.
Proof.
  destruct a as [|c a]; [done|]. intros Hc Hb. apply trim_id; [done|].
  rewrite app_comm_cons, rev_app_distr. by destruct (rev b).
Qed.

Lemma pair_text_tight (k v : jsstring) :
  plain_key k -> plain_value v ->
  match pair_text (k, v) with [] => False | c :: _ => is_space c = false end
  /\ match rev (pair_text (k, v)) with [] => False | d :: _ => is_space d = false end.
Proof.
  intros (Hk & Etk & _) (Etv & _). unfold pair_text. cbn [fst snd].
  destruct (trim_fixed_ends k Etk) as [Hk1 _].
  destruct (trim_fixed_ends v Etv) as [_ Hv2].
  split.
  - by destruct k.
  - rewrite !rev_app_distr. destruct (rev v); [|done]. done.
Qed.

Lemma join_with_tight (sep : jsstring) (parts : list jsstring) :
  parts <> [] ->
  Forall (fun p => match p with [] => False | c :: _ => is_space c = false end
                   /\ match rev p with [] => False | d :: _ => is_space d = false end)
         parts ->
  match join_with sep parts with [] => False | c :: _ => is_space c = false end
  /\ match rev (join_with sep parts) with [] => False | d :: _ => is_space d = false end.
Proof.
  intros Hne Hall. induction Hall as [|p r [Hp1 Hp2] Hr IH]; [done|].
  destruct r as [|q r]; [done|]. rewrite join_with_cons.
  destruct IH as [_ IH2]; [done|]. split.
  - by destruct p.
  - rewrite !rev_app_distr. by destruct (rev (join_with sep (q :: r))).
Qed.

Lemma join_with_head_app (sep a q : jsstring) (r : list jsstring) :
  join_with sep ((a ++ q) :: r) = a ++ join_with sep (q :: r).
Proof. destruct r; [done|]. by rewrite !join_with_cons, <- app_assoc. Qed.

Lemma split_on_join (sep : N) (pad p : jsstring) (r : list jsstring) :
  Forall (fun p => sep ∉ p) (p :: r) -> sep ∉ pad ->
  split_on sep (join_with (sep :: pad) (p :: r)) = p :: List.map (app pad) r.
Proof.
  intros Hall Hpad. revert p Hall.
  induction r as [|q r IH]; intros p [Hp Hr]%Forall_cons.
  - cbn [join_with]. by rewrite split_on_single.
  - rewrite join_with_cons. cbn [app]. rewrite split_on_app by done.
    rewrite <- join_with_head_app. apply Forall_cons in Hr as [Hq Hr].
    rewrite IH; [done|]. constructor; [|done].
    intros [?|?]%elem_of_app; done.
Qed.

Lemma pair_text_trimmed (k v : jsstring) :
  plain_key k -> plain_value v ->
  pair_text (k, v) <> [] /\ trim (pair_text (k, v)) = pair_text (k, v).
Proof.
  intros Hk Hv. destruct (pair_text_tight k v Hk Hv) as [H1 H2].
  destruct (pair_text (k, v)) as [|c r] eqn:E; [done|]. split; [done|].
  apply trim_id; [done|]. by destruct (rev (c :: r)).
Qed.

Lemma parse_part_pair (acc : args_object) (b : bool) (k v : jsstring) :
  plain_key k -> plain_value v -> k ∉ acc.1.*1 ->
  parse_part (acc, b) (pair_text (k, v)) = ((acc.1 ++ [(k, scalar_of v)], acc.2), true).
Proof.
  intros (Hk & Etk & _ & Heq & Hproto & Hdig) (Etv & _) Hfresh.
  unfold parse_part, pair_text. cbn [fst snd app].
  rewrite index_of_first by done.
  destruct k as [|c k]; [done|]. cbn [length].
  rewrite (take_app_length (c :: k)).
  replace (drop (S (S (length k))) ((c :: k) ++ 61%N :: v)) with v.
  2:{ change (S (S (length k))) with (S (length (c :: k))).
      rewrite <- (Nat.add_1_r (length (c :: k))), <- drop_drop.
      by rewrite drop_app_length. }
  rewrite Etk, Etv. unfold obj_assign.
  rewrite bool_decide_eq_false_2 by done. cbn [andb]. by rewrite obj_set_fresh.
Qed.

Lemma fold_parse_pairs (l : list (jsstring * jsstring)) :
  forall (acc : args_object) (b : bool),
    NoDup (acc.1.*1 ++ l.*1) ->
    Forall (fun f => plain_key f.1 /\ plain_value f.2) l ->
    fold_left parse_part (List.map pair_text l) (acc, b)
    = ((acc.1 ++ List.map (fun f => (f.1, scalar_of f.2)) l, acc.2),
       match l with [] => b | _ :: _ => true end).
Proof.
  induction l as [|[k v] r IH]; intros acc b Hnd Hall; cbn [List.map fold_left].
  - rewrite app_nil_r. by destruct acc.
  - apply Forall_cons in Hall as [[Hk Hv] Hr]. cbn [fst snd] in *.
    rewrite fmap_cons in Hnd. cbn [fst] in Hnd.
    rewrite parse_part_pair; [|done|done|].
    2:{ apply NoDup_app in Hnd as (_ & Hd & _). intros Hin. apply (Hd k Hin). by left. }
    rewrite IH; [|by cbn [fst]; rewrite fmap_app, <- app_assoc|done].
    cbn [fst snd]. rewrite <- app_assoc. by destruct r.
Qed.

Lemma filter_nonempty (parts : list jsstring) :
  Forall (fun p => p <> []) parts -> filter (fun p => p <> []) parts = parts.
Proof.
  induction 1 as [|p r Hp _ IH]; [done|].
  rewrite filter_cons_True by done. by rewrite IH.
Qed.

(** X9. Text written as [k1=v1, k2=v2, ...] is read back pair by pair: with
    distinct plain keys, values without comma or blank margins, and a text
    that is not taken for JSON, the arguments are the object of the keys
    in order, each with the scalar of its value. *)
Theorem key_value_round_trip (l : list (jsstring * jsstring)) :
  l <> [] ->
  NoDup l.*1 ->
  Forall (fun f => plain_key f.1 /\ plain_value f.2) l ->
  looksJson (pairs_text l) = false ->
  tryParseArgs (JStr (pairs_text l))
  = mkParsed (JObj (List.map (fun f => (f.1, scalar_of f.2)) l)) (pairs_text l).
Proof.
  intros Hne Hnd Hall Hjson.
  assert (Forall (fun p => p <> [] /\ trim p = p /\ 44%N ∉ p) (List.map pair_text l))
    as Hparts.
  { apply Forall_forall. intros p ([k v] & -> & Hin)%list_elem_of_fmap.
    rewrite Forall_forall in Hall. destruct (Hall _ Hin) as [Hk Hv]. cbn [fst snd] in *.
    destruct (pair_text_trimmed k v Hk Hv) as [? ?]. split_and!; [done..|].
    unfold pair_text. cbn [fst snd].
    destruct Hk as (_ & _ & ? & _). destruct Hv as [_ ?].
    intros [?|[?%list_elem_of_singleton|?]%elem_of_app]%elem_of_app; done. }
  assert (trim (pairs_text l) = pairs_text l /\ pairs_text l <> []) as [Et Hnil].
  { destruct (join_with_tight (lit ", ") (List.map pair_text l)) as [H1 H2].
    - by destruct l.
    - apply Forall_forall. intros p ([k v] & -> & Hin)%list_elem_of_fmap.
      rewrite Forall_forall in Hall. destruct (Hall _ Hin) as [Hk Hv].
      by apply pair_text_tight.
    - unfold pairs_text. destruct (join_with _ _) as [|c r]; [done|].
      split; [|done]. apply trim_id; [done|]. by destruct (rev (c :: r)). }
  assert (filter (fun p => p <> []) (List.map trim (split_on 44 (pairs_text l)))
          = List.map pair_text l) as Esplit.
  { unfold pairs_text. change (lit ", ") with (44%N :: [32%N]).
    destruct (List.map pair_text l) as [|p r] eqn:El; [by destruct l|].
    rewrite split_on_join.
    - assert (List.map trim (p :: List.map (app [32%N]) r) = p :: r) as ->.
      { apply Forall_cons in Hparts as [(_ & Ep & _) Hr]. cbn [List.map]. rewrite Ep.
        f_equal. clear -Hr. induction Hr as [|q r' (_ & Eq & _) _ IH]; [done|].
        cbn [List.map]. change (trim ([32%N] ++ q)) with (trim q).
        by rewrite Eq, IH. }
      apply filter_nonempty. eapply Forall_impl; [exact Hparts|]. by intros q (? & _).
    - eapply Forall_impl; [exact Hparts|]. by intros q (_ & _ & ?).
    - by intros [=]%list_elem_of_singleton. }
  unfold tryParseArgs. cbn [safeString]. rewrite Et.
  destruct (pairs_text l) as [|c t] eqn:Etext; [done|]. rewrite <- Etext in *.
  rewrite Hjson, Esplit.
  pose proof (fold_parse_pairs l ([], false) false Hnd Hall) as Hfold.
  cbn [app fst snd] in Hfold. unfold args_object in *. rewrite Hfold.
  by destruct l.
Qed.

Lemma key_value_round_trip_witness :
  tryParseArgs (JStr (lit "city=Oslo, days=3, fast=TRUE"))
  = mkParsed (JObj [(lit "city", JStr (lit "Oslo")); (lit "days", JNum (int 3));
                    (lit "fast", JBool true)])
             (lit "city=Oslo, days=3, fast=TRUE").
Proof.
  refine (key_value_round_trip
            [(lit "city", lit "Oslo"); (lit "days", lit "3"); (lit "fast", lit "TRUE")]
            _ _ _ eq_refl); [done|..].
  - apply (bool_decide_unpack _). vm_compute. exact I.
  - constructor; [|constructor; [|constructor; [|constructor]]];
      unfold plain_key, plain_value; cbn [fst snd];
      split_and!; try reflexivity; apply (bool_decide_unpack _); vm_compute; exact I.
Defined.

(** ** A match does not depend on what follows it *)

Lemma regex_exec_alone (r : regex) (s : jsstring) (index : nat) (m : match_result) :
  regex_exec r index s = Some m ->
  regex_exec r 0 (m_text m) = Some (mkMatch 0 (m_text m) (m_groups m)).
Proof.
  intros H. apply regex_exec_at in H as (pre & post & _ & H).
  pose proof (rmatch_local post r (m_text m) []
                (fun s' caps => Some (s', caps)) (fun s' caps => Some (s', caps))) as Hloc.
  rewrite H in Hloc. destruct Hloc as [Hlen|(y & Hy & Hshort)].
  - intros s' caps rest c [= <- <-]. done.
  - intros x' caps'. right. by exists x'.
  - lia.
  - assert (y = []) as ->.
    { apply (f_equal length) in Hy. rewrite length_app in Hy.
      destruct y; [done|simpl in Hy; lia]. }
    destruct (m_text m) as [|c w]; cbn [regex_exec]; rewrite Hshort; [done|].
    rewrite Nat.sub_0_r. by rewrite (firstn_all (c :: w)).
Qed.

(** X10. The tag of a call is all the parser needs: [extractFirstCall] applied
    to the [rawTag] of a call it extracted, alone, gives the same call,
    with the same name, arguments and raw text. *)
Theorem extractFirstCall_of_rawTag (text : jsval) (c : call) :
  extractFirstCall text = Some c ->
  extractFirstCall (JStr (rawTag c)) = Some c.
Proof.
  unfold extractFirstCall. cbn [safeString].
  destruct (regex_exec CALL_RE 0 (safeString text [])) as [m|] eqn:E; [|done].
  intros [= <-]. cbn [rawTag].
  by rewrite (regex_exec_alone _ _ _ _ E).
Qed.

Lemma extractFirstCall_of_rawTag_witness :
  extractFirstCall (JStr (lit "[ CALL : hello ( n=1 ) ]"))
  = Some (mkCall (lit "hello") (JObj [(lit "n", JNum (int 1))]) (lit "n=1")
                 (lit "[ CALL : hello ( n=1 ) ]")).
Proof.
  exact (extractFirstCall_of_rawTag
           (JStr (lit "Sure: **[ CALL : hello ( n=1 ) ]** and [CALL: other]"))
           (mkCall (lit "hello") (JObj [(lit "n", JNum (int 1))]) (lit "n=1")
                   (lit "[ CALL : hello ( n=1 ) ]"))
           eq_refl).
Defined.

(** * The registry and the prompts *)

(** ** The registry as a [Map] *)

Lemma map_set_keys (k : jsstring) (v : skill) (m : skill_map) :
  (map_set k v m).*1 = if map_has k m then m.*1 else m.*1 ++ [k].
Proof.
  unfold map_has. induction m as [|[k' v'] r IH]; [done|]. cbn [map_set].
  rewrite fmap_cons. cbn [fst].
  destruct (decide (k' = k)) as [->|Hne].
  - rewrite bool_decide_eq_true_2 by done.
    rewrite (bool_decide_eq_true_2 (k ∈ k :: r.*1)) by (by left). done.
  - rewrite bool_decide_eq_false_2 by done. rewrite fmap_cons, IH. cbn [fst].
    destruct (decide (k ∈ r.*1)) as [Hin|Hnin].
    + rewrite !bool_decide_eq_true_2; [done|by right|done].
    + rewrite !bool_decide_eq_false_2; [done| |done].
      intros [?|?]%elem_of_cons; done.
Qed.

Lemma list_to_map_set (k : jsstring) (v : skill) (m : skill_map) :
  (list_to_map (map_set k v m) : gmap jsstring skill) = <[k:=v]> (list_to_map m).
Proof.
  induction m as [|[k' v'] r IH]; [done|]. cbn [map_set].
  case_bool_decide as Hk.
  - subst k'. cbn [list_to_map foldr]. cbn. by rewrite insert_insert_eq.
  - cbn. rewrite IH. by apply insert_insert_ne.
Qed.

Lemma list_to_map_delete (k : jsstring) (m : skill_map) :
  (list_to_map (filter (fun e => fst e <> k) m) : gmap jsstring skill)
  = delete k (list_to_map m).
Proof.
  induction m as [|[k' v'] r IH]; [symmetry; apply delete_empty|].
  destruct (decide (k' = k)) as [->|Hne].
  - rewrite filter_cons_False by (by intros []). cbn. rewrite IH.
    by rewrite delete_insert_eq.
  - rewrite filter_cons_True by done. cbn. rewrite IH.
    by rewrite delete_insert_ne.
Qed.

Lemma map_get_lookup (k : jsstring) (m : skill_map) :
  map_get k m = (list_to_map m : gmap jsstring skill) !! k.
Proof.
  unfold map_get. induction m as [|[k' v'] r IH]; [done|]. cbn.
  case_bool_decide as Hk.
  - subst. by rewrite lookup_insert_eq.
  - by rewrite lookup_insert_ne.
Qed.

(** The entries of a registry: one for a name, under the name of its
    skill. *)
Lemma registry_after_ok (ops : list registry_op) :
  NoDup (registry_after ops).*1
  /\ Forall (fun e => fst e = name (snd e)) (registry_after ops)
  /\ list_to_map (registry_after ops) = skills_after ops.
Proof.
  unfold registry_after, skills_after.
  induction ops as [|o ops (Hnd & Hkeys & Hmap)] using rev_ind.
  - split_and!; [constructor|constructor|done].
  - rewrite !fold_left_app. cbn [fold_left].
    set (m := fold_left apply_op ops []) in *.
    destruct o as [cfg t|n]; cbn [apply_op apply_op_skills].
    + unfold registry_register, register.
      destruct (normalizeConfig cfg t) as [err|s]; [done|]. cbn [fst]. split_and!.
      * rewrite map_set_keys. unfold map_has. case_bool_decide; [done|].
        apply NoDup_app. split_and!; [done| |apply NoDup_singleton].
        intros x Hx ->%list_elem_of_singleton. done.
      * clear -Hkeys. induction Hkeys as [|[k v] r Hk Hr IH]; cbn [map_set].
        -- by repeat constructor.
        -- case_bool_decide; constructor; done.
      * by rewrite list_to_map_set, Hmap.
    + cbn [map_delete fst]. unfold registry_remove. split_and!.
      * clear -Hnd. induction m as [|[k v] r IH]; [done|].
        apply NoDup_cons in Hnd as [Hk Hr].
        destruct (decide (k = n)) as [->|Hne].
        -- rewrite filter_cons_False by (by intros []). by apply IH.
        -- rewrite filter_cons_True by done. rewrite fmap_cons. apply NoDup_cons.
           split; [|by apply IH]. cbn [fst].
           intros ((k' & v') & -> & [_ Hin]%list_elem_of_filter)%list_elem_of_fmap.
           apply Hk. apply list_elem_of_fmap. by exists (k', v').
      * rewrite Forall_forall in *. intros e [_ He]%list_elem_of_filter. by apply Hkeys.
      * by rewrite list_to_map_delete, Hmap.
Qed.

(** X11. Registration never reorders the registry: a name that is registered
    again keeps its place in the listing, a new name goes to the end, a
    registration that returns [null] leaves the names as they are, and a
    removal takes one name out and leaves the others where they are. *)
Theorem registry_keeps_order (m : skill_map) :
  (forall arg t,
     (registry_register arg t m).1.*1
     = match (registry_register arg t m).2 with
       | Some n => if map_has n m then m.*1 else m.*1 ++ [n]
       | None => m.*1
       end)
  /\ (forall n, (map_delete n m).1.*1 = filter (fun k => k <> n) m.*1).
Proof.
  split.
  - intros arg t. unfold registry_register.
    destruct (normalizeConfig arg t) as [err|s]; [done|]. cbn [fst snd].
    apply map_set_keys.
  - intros n. cbn [map_delete fst]. induction m as [|[k v] r IH]; [done|].
    rewrite fmap_cons. cbn [fst].
    destruct (decide (k = n)) as [->|Hne].
    + rewrite !filter_cons_False; [done|by intros []|by intros []].
    + rewrite !filter_cons_True by done. by rewrite fmap_cons, IH.
Qed.

(** X12. After any history of registrations and removals, the skills announced
    to the model are those the engine would run: a skill is listed by
    [listEnabled] exactly when the engine finds it under its name and it
    is enabled. No name is listed twice. *)
Theorem listEnabled_is_what_runs (ops : list registry_op) :
  NoDup (List.map name (listEnabled (registry_after ops)))
  /\ forall s, s ∈ listEnabled (registry_after ops)
               <-> skills_after ops !! name s = Some s /\ enabled s = true.
Proof.
  destruct (registry_after_ok ops) as (Hnd & Hkeys & Hmap).
  rewrite <- Hmap. set (m := registry_after ops) in *. clearbody m. clear Hmap.
  assert (List.map name m.*2 = m.*1) as Hnames.
  { clear Hnd. induction Hkeys as [|[k v] r Hk _ IH]; [done|].
    cbn in *. by rewrite IH, Hk. }
  split.
  - unfold listEnabled. rewrite <- Hnames in Hnd. clear -Hnd.
    induction m.*2 as [|s r IH]; [constructor|].
    cbn [List.map] in Hnd. apply NoDup_cons in Hnd as [Hs Hr].
    destruct (decide (enabled s = true)).
    + rewrite filter_cons_True by done. cbn [List.map]. apply NoDup_cons.
      split; [|by apply IH]. intros Hin. apply Hs.
      apply list_elem_of_fmap in Hin as (s' & E & [_ Hin]%list_elem_of_filter).
      apply list_elem_of_fmap. by exists s'.
    + rewrite filter_cons_False by done. by apply IH.
  - intros s. unfold listEnabled. rewrite list_elem_of_filter.
    split.
    + intros [Hen Hin]. split; [|done].
      apply list_elem_of_fmap in Hin as ([k v] & -> & Hin). cbn [snd].
      rewrite Forall_forall in Hkeys. pose proof (Hkeys _ Hin) as Hk. cbn in Hk.
      rewrite <- Hk. by apply elem_of_list_to_map_1.
    + intros [Hlook Hen]. split; [done|].
      apply elem_of_list_to_map_2 in Hlook.
      apply list_elem_of_fmap. by exists (name s, s).
Qed.

(** ** The prompts *)

Lemma normalizeConfig_name (arg : register_arg) (t : Z) (s : skill) :
  normalizeConfig arg t = inr s -> name s <> [] /\ trim (name s) = name s.
Proof.
  destruct arg as [cfg|err]; [|done]. unfold normalizeConfig. intros [= <-]. cbn [name].
  destruct (trim (safeString _ [])) as [|c r] eqn:E.
  - split; [done|]. apply generated_name_trimmed.
  - split; [done|]. rewrite <- E. apply trim_idem.
Qed.

Lemma registry_after_names (ops : list registry_op) :
  Forall (fun e => name (snd e) <> [] /\ trim (name (snd e)) = name (snd e))
         (registry_after ops).
Proof.
  unfold registry_after. induction ops as [|o ops IH] using rev_ind; [constructor|].
  rewrite fold_left_app. cbn [fold_left]. set (m := fold_left apply_op ops []) in *.
  destruct o as [arg t|n]; cbn [apply_op].
  - unfold registry_register.
    pose proof (normalizeConfig_name arg t) as Hn.
    destruct (normalizeConfig arg t) as [err|s]; [done|]. cbn [fst].
    specialize (Hn s eq_refl).
    clearbody m. induction IH as [|[k v] r Hk Hr IH]; cbn [map_set].
    + constructor; [done|constructor].
    + case_bool_decide; constructor; done.
  - cbn [map_delete fst]. rewrite Forall_forall in *.
    intros e [_ He]%list_elem_of_filter. by apply IH.
Qed.

Lemma join_with_elem (sep p : jsstring) (parts : list jsstring) :
  p ∈ parts -> exists pre post, join_with sep parts = pre ++ p ++ post.
Proof.
  induction parts as [|q r IH]; [by intros ?%elem_of_nil|].
  intros [->|Hin]%elem_of_cons.
  - destruct r as [|q' r']; [exists [], []; by rewrite app_nil_r|].
    rewrite join_with_cons. by exists [], (sep ++ join_with sep (q' :: r')).
  - destruct r as [|q' r']; [by apply elem_of_nil in Hin|].
    destruct (IH Hin) as (pre & post & E). rewrite join_with_cons, E.
    exists (q ++ sep ++ pre), post. by rewrite <- !app_assoc.
Qed.

Lemma join_with_nonempty (sep : jsstring) (parts : list jsstring) (p : jsstring) :
  p ∈ parts -> p <> [] -> join_with sep parts <> [].
Proof.
  intros Hin Hp. destruct (join_with_elem sep p parts Hin) as (pre & post & ->).
  intros H. apply app_eq_nil in H as [_ H]. by apply app_eq_nil in H as [? _].
Qed.

Lemma join_with_snoc (sep p : jsstring) (parts : list jsstring) :
  exists pre, join_with sep (parts ++ [p]) = pre ++ p.
Proof.
  induction parts as [|q r [pre IH]]; [by exists []|].
  destruct r as [|q' r'].
  - exists (q ++ sep). cbn. by rewrite <- app_assoc.
  - cbn [app] in *. rewrite join_with_cons, IH. exists (q ++ sep ++ pre).
    by rewrite <- !app_assoc.
Qed.

Lemma listEnabled_names (ops : list registry_op) :
  Forall (fun s => name s <> [] /\ trim (name s) = name s)
         (listEnabled (registry_after ops)).
Proof.
  pose proof (registry_after_names ops) as H. rewrite Forall_forall in H.
  apply Forall_forall. intros s [_ ([k v] & -> & Hin)%list_elem_of_fmap]%list_elem_of_filter.
  by apply (H (k, v)).
Qed.

Lemma buildSystemPrompt_trimmed (m : skill_map) :
  listEnabled m <> [] ->
  buildSystemPrompt m <> [] /\ trim (buildSystemPrompt m) = buildSystemPrompt m.
Proof.
  intros Hen. unfold buildSystemPrompt. destruct (listEnabled m) as [|s en]; [done|].
  set (lines := List.map skill_line (s :: en)).
  assert (prompt_head ++ lines ++ prompt_rules
          = lit "You can call external skills via a strict text tag."
            :: (tail prompt_head ++ lines ++ removelast prompt_rules)
            ++ [lit "- After you receive a system message with the result, continue normally."])
    as ->.
  { cbn [prompt_head prompt_rules tail removelast app]. f_equal.
    by rewrite <- !app_assoc. }
  destruct (join_with_snoc [10%N]
              (lit "- After you receive a system message with the result, continue normally.")
              (tail prompt_head ++ lines ++ removelast prompt_rules)) as [pre E].
  destruct (tail prompt_head ++ lines ++ removelast prompt_rules) as [|q r] eqn:Er; [done|].
  cbn [app] in *. rewrite join_with_cons, E. split; [done|].
  apply tight_app; [done|]. by rewrite !rev_app_distr.
Qed.

Lemma buildDepthNote_trimmed (ops : list registry_op) :
  listEnabled (registry_after ops) <> [] ->
  buildDepthNote (registry_after ops) <> []
  /\ trim (buildDepthNote (registry_after ops)) = buildDepthNote (registry_after ops).
Proof.
  intros Hen. pose proof (listEnabled_names ops) as Hnames.
  unfold buildDepthNote. destruct (listEnabled _) as [|s en]; [done|].
  split; [done|]. apply tight_app; [done|].
  apply (join_with_tight (lit ", ") (take 24 (List.map name (s :: en)))); [done|].
  apply Forall_take, Forall_fmap. eapply Forall_impl; [exact Hnames|].
  intros s' [Hne Ht]. cbn. destruct (trim_fixed_ends _ Ht) as [H1 H2].
  split.
  - by destruct (name s').
  - destruct (rev (name s')) eqn:Er; [|done].
    apply (f_equal (@rev N)) in Er. rewrite rev_involutive in Er. done.
Qed.

(** X13. The two prompts go together: with no enabled skill both are empty and
    nothing is injected; with one or more, both are there, neither has a
    blank margin, and the system prompt holds the line ["- name:
    description"] of every enabled skill. *)
Theorem prompts_announce_enabled (ops : list registry_op) :
  (listEnabled (registry_after ops) = [] ->
     buildSystemPrompt (registry_after ops) = []
     /\ buildDepthNote (registry_after ops) = [])
  /\ (listEnabled (registry_after ops) <> [] ->
        buildSystemPrompt (registry_after ops) <> []
        /\ buildDepthNote (registry_after ops) <> []
        /\ trim (buildSystemPrompt (registry_after ops))
           = buildSystemPrompt (registry_after ops)
        /\ trim (buildDepthNote (registry_after ops))
           = buildDepthNote (registry_after ops))
  /\ forall s, s ∈ listEnabled (registry_after ops) ->
       exists pre post,
         buildSystemPrompt (registry_after ops) = pre ++ skill_line s ++ post.
Proof.
  split_and!.
  - intros E. unfold buildSystemPrompt, buildDepthNote. by rewrite E.
  - intros Hen.
    destruct (buildSystemPrompt_trimmed _ Hen) as [? ?].
    destruct (buildDepthNote_trimmed _ Hen) as [? ?]. done.
  - intros s Hs. unfold buildSystemPrompt.
    destruct (listEnabled (registry_after ops)) as [|s0 en] eqn:E;
      [by apply elem_of_nil in Hs|].
    apply join_with_elem. apply elem_of_app. right. apply elem_of_app. left.
    apply list_elem_of_fmap. by exists s.
Qed.

(** X14. The depth note names the first 24 enabled skills and no more: once 24
    skills are enabled, registering one under a new name changes nothing
    in it (the system prompt still lists them all). *)
Theorem depth_note_stops_at_24 (arg : register_arg) (t : Z) (m : skill_map) :
  (24 <= length (listEnabled m))%nat ->
  match (registry_register arg t m).2 with
  | Some n => map_has n m = false
  | None => True
  end ->
  buildDepthNote (registry_register arg t m).1 = buildDepthNote m.
Proof.
  intros Hlen Hnew. unfold registry_register in *.
  destruct (normalizeConfig arg t) as [err|s]; [done|]. cbn [fst snd] in *.
  assert (map_set (name s) s m = m ++ [(name s, s)]) as ->.
  { unfold map_has in Hnew. apply bool_decide_eq_false in Hnew.
    clear Hlen. induction m as [|[k v] r IH]; [done|]. cbn [map_set].
    rewrite fmap_cons in Hnew. apply not_elem_of_cons in Hnew as [Hk Hr].
    rewrite bool_decide_eq_false_2 by done. by rewrite IH. }
  unfold buildDepthNote, listEnabled in *. rewrite fmap_app, filter_app.
  destruct (filter _ m.*2) as [|s0 en] eqn:E; [simpl in Hlen; lia|].
  cbn [app]. rewrite (app_comm_cons en _ s0), map_app.
  by rewrite take_app_le by (rewrite length_map; exact Hlen).
Qed.

Lemma depth_note_stops_at_24_witness :
  buildDepthNote
    (registry_register
       (Reads (Some (mkConfig (JStr (lit "late")) JUndefined None JUndefined)))
       0 crowded_registry).1
  = buildDepthNote crowded_registry.
Proof.
  apply depth_note_stops_at_24; [vm_compute; lia|vm_compute; reflexivity].
Defined.

(** ** Prompt injection *)

Lemma note_downwards_spec (note : jsstring) (l : list jsval) :
  (Forall (fun x => user_text x = None) l /\ note_downwards note l = l)
  \/ exists a u b text,
       l = a ++ u :: b /\ Forall (fun x => user_text x = None) a
       /\ user_text u = Some text
       /\ note_downwards note l
          = a ++ set_prop (lit "content") (JStr (appended text note)) u :: b.
Proof.
  induction l as [|m r IH]; [left; by split|]. cbn [note_downwards].
  destruct (user_text m) as [text|] eqn:Em.
  - right. exists [], m, r, text. by split_and!.
  - destruct IH as [[Hall E]|(a & u & b & text & -> & Ha & Hu & E)].
    + left. split; [by constructor|by rewrite E].
    + right. exists (m :: a), u, b, text. split_and!; [done|by constructor|done|].
      by rewrite E.
Qed.

Lemma buildDepthNote_nonempty (m : skill_map) :
  listEnabled m <> [] -> buildDepthNote m <> [].
Proof. unfold buildDepthNote. by destruct (listEnabled m). Qed.

Lemma injectPrompt_on_messages (m : skill_map) (data : jsval) (msgs : list jsval) :
  buildSystemPrompt m <> [] -> buildDepthNote m <> [] ->
  get_prop (lit "messages") data = JArr msgs ->
  injectPrompt m data
  = set_prop (lit "messages")
             (JArr (note_last_user (buildDepthNote m)
                                   (msgs ++ [system_message (buildSystemPrompt m)])))
             data.
Proof.
  intros Hsys Hnote Hmsgs. unfold injectPrompt. rewrite Hmsgs.
  destruct (buildSystemPrompt m) as [|c sys]; [done|].
  by destruct (buildDepthNote m) as [|d note].
Qed.

(** X15. On a chat-completion payload ([data.messages] an array) and with a
    skill enabled, injection does two things and no more. It adds one
    system message, the system prompt, at the end. And it appends the depth
    note to the content of the last message of role [user] whose content
    is a string, if there is one. No message is removed or moved, no other
    message and no other field of the data is changed. *)
Theorem injectPrompt_messages (m : skill_map) (data : jsval) (msgs : list jsval) :
  listEnabled m <> [] ->
  get_prop (lit "messages") data = JArr msgs ->
  exists msgs',
    injectPrompt m data
    = set_prop (lit "messages")
               (JArr (msgs' ++ [system_message (buildSystemPrompt m)])) data
    /\ ((Forall (fun x => user_text x = None) msgs /\ msgs' = msgs)
        \/ exists before u after text,
             msgs = before ++ u :: after
             /\ user_text u = Some text
             /\ Forall (fun x => user_text x = None) after
             /\ msgs' = before
                        ++ set_prop (lit "content")
                                    (JStr (appended text (buildDepthNote m))) u
                        :: after).
Proof.
  intros Hen Hmsgs.
  destruct (buildSystemPrompt_trimmed m Hen) as [Hsys _].
  pose proof (buildDepthNote_nonempty m Hen) as Hnote.
  rewrite (injectPrompt_on_messages m data msgs Hsys Hnote Hmsgs).
  unfold note_last_user. rewrite rev_unit. cbn [note_downwards].
  replace (user_text (system_message (buildSystemPrompt m))) with (@None jsstring)
    by reflexivity.
  cbn [rev].
  destruct (note_downwards_spec (buildDepthNote m) (rev msgs))
    as [[Hall E]|(a & u & b & text & Hl & Ha & Hu & E)].
  - exists msgs. rewrite E, rev_involutive. split; [done|]. left. split; [|done].
    apply Forall_rev in Hall. by rewrite rev_involutive in Hall.
  - exists (rev b ++ set_prop (lit "content") (JStr (appended text (buildDepthNote m))) u
                  :: rev a).
    rewrite E. split.
    + rewrite rev_app_distr. cbn [rev]. by rewrite <- !app_assoc.
    + right. exists (rev b), u, (rev a), text. split_and!; [|done| |done].
      * apply (f_equal (@rev jsval)) in Hl. rewrite rev_involutive in Hl.
        rewrite Hl, rev_app_distr. cbn [rev]. by rewrite <- app_assoc.
      * by apply Forall_rev.
Qed.

Lemma injectPrompt_messages_witness :
  let m := [(lit "hello", hello_skill)] in
  let hi := JObj [(lit "role", JStr (lit "user")); (lit "content", JStr (lit "hi"))] in
  let data := JObj [(lit "model", JStr (lit "x")); (lit "messages", JArr [hi])] in
  exists msgs',
    injectPrompt m data
    = set_prop (lit "messages")
               (JArr (msgs' ++ [system_message (buildSystemPrompt m)])) data
    /\ ((Forall (fun x => user_text x = None) [hi] /\ msgs' = [hi])
        \/ exists before u after text,
             [hi] = before ++ u :: after
             /\ user_text u = Some text
             /\ Forall (fun x => user_text x = None) after
             /\ msgs' = before
                        ++ set_prop (lit "content")
                                    (JStr (appended text (buildDepthNote m))) u
                        :: after).
Proof.
  intros m hi data. apply (injectPrompt_messages m data [hi]); [|reflexivity].
  by vm_compute.
Defined.

Lemma safeAppend_spec (obj : jsval) (key addition : jsstring) :
  addition <> [] ->
  safeAppendToStringField obj key addition
  = match get_prop key obj with
    | JStr s => (set_prop key (JStr (appended s addition)) obj, true)
    | _ => (obj, false)
    end.
Proof.
  intros Hadd. unfold safeAppendToStringField.
  destruct addition as [|c r]; [done|].
  destruct obj as [| |b|x|n|s|items|fields|src]; try done.
  - by destruct b.
  - by destruct x as [| |? [] ?].
  - by destruct n.
  - by destruct s.
Qed.

Lemma find_obj_set (key : jsstring) (v : jsval) (fields : list (jsstring * jsval)) :
  List.find (fun f => bool_decide (fst f = key)) (obj_set key v fields) = Some (key, v).
Proof.
  pose proof (own_property_set key key v fields) as H. unfold own_property in H.
  rewrite bool_decide_eq_true_2 in H by done.
  destruct (List.find _ (obj_set key v fields)) as [[k x]|] eqn:E; [|done].
  injection H as ->. apply find_some in E as [_ Hk%bool_decide_eq_true_1].
  cbn [fst] in Hk. by subst.
Qed.

Lemma obj_set_twice (key : jsstring) (v1 v2 : jsval) (fields : list (jsstring * jsval)) :
  obj_set key v2 (obj_set key v1 fields) = obj_set key v2 fields.
Proof.
  unfold obj_set at 1. rewrite own_property_set, bool_decide_eq_true_2 by done.
  unfold obj_set. destruct (own_property key fields) eqn:E.
  - clear E. induction fields as [|[k x] r IH]; [done|]. cbn [obj_replace].
    destruct (decide (k = key)) as [->|Hne].
    + rewrite !bool_decide_eq_true_2 by done. cbn [obj_replace].
      by rewrite bool_decide_eq_true_2.
    + rewrite !bool_decide_eq_false_2 by done. cbn [obj_replace].
      by rewrite bool_decide_eq_false_2, IH.
  - induction fields as [|[k x] r IH]; cbn [obj_insert obj_replace].
    + by rewrite bool_decide_eq_true_2.
    + rewrite own_property_cons in E. case_bool_decide as Hk; [done|].
      destruct (enumerated_before key k); cbn [obj_replace].
      * by rewrite bool_decide_eq_true_2.
      * rewrite bool_decide_eq_false_2 by done. by rewrite IH.
Qed.

Lemma append_twice (data : jsval) (key s a b : jsstring) :
  a <> [] -> b <> [] ->
  get_prop key data = JStr s ->
  (safeAppendToStringField
     (safeAppendToStringField data key a).1 key b).1
  = set_prop key (JStr (appended (appended s a) b)) data
  /\ (safeAppendToStringField data key a).2 = true.
Proof.
  intros Ha Hb Hs. rewrite (safeAppend_spec data key a Ha), Hs. cbn [fst snd].
  split; [|done]. rewrite (safeAppend_spec _ key b Hb).
  destruct data as [| |?|?|?|?|?|fields|?]; try done.
  cbn [set_prop get_prop]. rewrite find_obj_set. cbn [snd fst].
  by rewrite obj_set_twice.
Qed.

(** X16. On data without a [messages] array and with a skill enabled, the
    prompts go to one field at most: the first of [prompt],
    [chat_completion_prompt] and [text] that holds a string takes the
    system prompt and then the depth note, each after a blank line; the
    rest of the data is left as it is, and data without such a field is
    not changed at all. *)
Theorem injectPrompt_fallback (m : skill_map) (data : jsval) :
  listEnabled m <> [] ->
  (forall msgs, get_prop (lit "messages") data <> JArr msgs) ->
  match List.find (fun k => is_text (get_prop k data)) prompt_fields with
  | None => injectPrompt m data = data
  | Some k =>
      exists s, get_prop k data = JStr s
        /\ injectPrompt m data
           = set_prop k (JStr (appended (appended s (buildSystemPrompt m))
                                        (buildDepthNote m))) data
  end.
Proof.
  intros Hen Hmsgs.
  destruct (buildSystemPrompt_trimmed m Hen) as [Hsys _].
  pose proof (buildDepthNote_nonempty m Hen) as Hnote.
  assert (injectPrompt m data
          = let '(d1, ok1) := safeAppendToStringField data (lit "prompt")
                                (buildSystemPrompt m) in
            if ok1 then (safeAppendToStringField d1 (lit "prompt") (buildDepthNote m)).1
            else
              let '(d2, ok2) := safeAppendToStringField data (lit "chat_completion_prompt")
                                  (buildSystemPrompt m) in
              if ok2
              then (safeAppendToStringField d2 (lit "chat_completion_prompt")
                      (buildDepthNote m)).1
              else
                let '(d3, ok3) := safeAppendToStringField data (lit "text")
                                    (buildSystemPrompt m) in
                if ok3 then (safeAppendToStringField d3 (lit "text") (buildDepthNote m)).1
                else d3) as ->.
  { unfold injectPrompt.
    destruct (buildSystemPrompt m) as [|c sys]; [done|].
    destruct (buildDepthNote m) as [|d note]; [done|].
    destruct (get_prop (lit "messages") data) eqn:E; try done. by destruct (Hmsgs items). }
  cbn [prompt_fields List.find].
  assert (forall key, is_text (get_prop key data) = false ->
            safeAppendToStringField data key (buildSystemPrompt m) = (data, false))
    as Hskip.
  { intros key Hk. rewrite (safeAppend_spec data key _ Hsys).
    by destruct (get_prop key data). }
  assert (forall key, is_text (get_prop key data) = true ->
            exists s d, get_prop key data = JStr s
              /\ safeAppendToStringField data key (buildSystemPrompt m) = (d, true)
              /\ (safeAppendToStringField d key (buildDepthNote m)).1
                 = set_prop key (JStr (appended (appended s (buildSystemPrompt m))
                                                (buildDepthNote m))) data)
    as Htake.
  { intros key Hk. destruct (get_prop key data) as [| |?|?|?|s|?|?|?] eqn:E; try done.
    destruct (append_twice data key s _ _ Hsys Hnote E) as [Hres Hok].
    destruct (safeAppendToStringField data key (buildSystemPrompt m)) as [d ok].
    cbn [fst snd] in *. subst ok. by exists s, d. }
  destruct (is_text (get_prop (lit "prompt") data)) eqn:E1.
  { destruct (Htake _ E1) as (s & d & Hs & -> & Hres). by exists s. }
  rewrite (Hskip _ E1).
  destruct (is_text (get_prop (lit "chat_completion_prompt") data)) eqn:E2.
  { destruct (Htake _ E2) as (s & d & Hs & -> & Hres). by exists s. }
  rewrite (Hskip _ E2).
  destruct (is_text (get_prop (lit "text") data)) eqn:E3.
  { destruct (Htake _ E3) as (s & d & Hs & -> & Hres). by exists s. }
  by rewrite (Hskip _ E3).
Qed.

Lemma injectPrompt_fallback_witness :
  let m := [(lit "hello", hello_skill)] in
  let data := JObj [(lit "text", JStr (lit "t")); (lit "prompt", JStr (lit "p"))] in
  exists s, get_prop (lit "prompt") data = JStr s
    /\ injectPrompt m data
       = set_prop (lit "prompt")
                  (JStr (appended (appended s (buildSystemPrompt m)) (buildDepthNote m)))
                  data.
Proof.
  intros m data. apply (injectPrompt_fallback m data); [by vm_compute|].
  intros msgs. vm_compute. discriminate.
Defined.

(** What [`${a}\n\n${b}`.trim()] is when [b] has no blank margin: [a]
    without its leading blanks, a blank line, then [b]; or [b] alone when
    [a] is blank. *)
Lemma appended_tight (a b : jsstring) :
  b <> [] -> trim b = b ->
  appended a b = match trim_start a with
                 | [] => b
                 | c :: kept => c :: kept ++ [10%N; 10%N] ++ b
                 end.
Proof.
  intros Hb Etb. destruct (trim_fixed_ends b Etb) as [Hb1 Hb2].
  unfold appended, trim.
  destruct (trim_start_split a) as (ws & Ea & Hws).
  rewrite Ea at 1. rewrite <- app_assoc, trim_start_blank_app by done.
  pose proof (trim_start_head a) as Hh.
  destruct (trim_start a) as [|c kept].
  - cbn [app]. change (trim_start (10%N :: 10%N :: b)) with (trim_start b).
    exact Etb.
  - cbn [app]. rewrite trim_start_id by done.
    unfold trim_end. rewrite trim_start_id; [apply rev_involutive|].
    cbn [rev]. rewrite rev_app_distr. cbn [rev].
    destruct (rev b) as [|d r] eqn:Er; [|done].
    apply (f_equal (@rev N)) in Er. rewrite rev_involutive in Er. done.
Qed.

(** X17. The text a prompt is appended to is kept, but for its leading blanks,
    which the final [trim()] removes: after injection the content of the
    user message (or the prompt field) is the old text from its first
    non-blank character on, a blank line, and the note; a text that was
    blank is replaced by the note. *)
Theorem injection_keeps_the_text (ops : list registry_op) (text : jsstring) :
  listEnabled (registry_after ops) <> [] ->
  appended text (buildDepthNote (registry_after ops))
  = match trim_start text with
    | [] => buildDepthNote (registry_after ops)
    | c :: kept => c :: kept ++ [10%N; 10%N] ++ buildDepthNote (registry_after ops)
    end
  /\ appended text (buildSystemPrompt (registry_after ops))
     = match trim_start text with
       | [] => buildSystemPrompt (registry_after ops)
       | c :: kept => c :: kept ++ [10%N; 10%N] ++ buildSystemPrompt (registry_after ops)
       end.
Proof.
  intros Hen.
  destruct (buildSystemPrompt_trimmed _ Hen) as [? ?].
  destruct (buildDepthNote_trimmed _ Hen) as [? ?].
  split; by apply appended_tight.
Qed.

Lemma injection_keeps_the_text_witness :
  let ops := [OpRegister (Reads (Some (mkConfig (JStr (lit "dice")) JUndefined None
                                                JUndefined))) 0] in
  appended (lit "  roll two") (buildDepthNote (registry_after ops))
  = lit "roll two" ++ [10%N; 10%N] ++ buildDepthNote (registry_after ops).
Proof.
  intros ops.
  refine (proj1 (injection_keeps_the_text ops (lit "  roll two") _)).
  by vm_compute.
Defined.

(** * From a message to its result *)

(** X18. The whole loop, from the model's message to the skill's result. On an
    idle lane, a message whose text carries a call tag for an enabled,
    registered skill, the breaker permitting, is answered in one run of
    the lane: the call the parser extracts is enqueued and started, the
    handler is called with the name, the coerced arguments and their raw
    text, its result goes to the chat as a system message, the
    continuation is triggered, the toast removed, and the lane is idle
    again, with the registry as it was. *)
Theorem message_to_result (h : host) (data : jsval) (w : world) (c : call)
  (s : skill) (v : jsval) :
  ui_works h ->
  settled (queue w) = Some true ->
  extractFirstCall (JStr (message_text data)) = Some c ->
  reaches_handler (w_env w) c s ->
  action s (ctx_of c) = Returns v ->
  (on_message_received data w).2 = [EEnqueue c]
  /\ exists w',
       lane_run h (on_message_received data w).1
         [EStart c;
          EBump (now (w_env w))
                (length (prune (now (w_env w))
                               (recentCallTimestamps (w_env w) ++ [now (w_env w)])));
          EUi (executing_notice (skillName c));
          EInvoke (name s) (mkCtx (skillName c) (args c) (rawArgs c));
          EMessage (result_message (skillName c) v);
          EGenerate; EDispose;
          EEnd c true] w'
       /\ settled (queue w') = Some true
       /\ skills (w_env w') = skills (w_env w).
Proof.
  intros Hui Hidle Hcall (Hcount & Hs & Hen) Hret.
  unfold on_message_received. rewrite Hcall. cbn [fst snd]. split; [done|].
  set (e := w_env w) in *.
  set (ts := prune (now e) (recentCallTimestamps e ++ [now e])) in *.
  assert (exec h e (runSkill c)
          = (mkEnv (now e) ts (skills e),
             [EBump (now e) (length ts); EUi (executing_notice (skillName c));
              EInvoke (name s) (ctx_of c);
              EMessage (result_message (skillName c) v); EGenerate; EDispose],
             Some (inr tt))) as Hexec.
  { rewrite exec_runSkill_ui by done. cbn zeta. fold ts.
    rewrite (proj2 (Nat.ltb_ge _ _) Hcount). unfold permitted_trace.
    rewrite (exec_lookup_and_execute_ui h (mkEnv (now e) ts (skills e)) c s Hui Hs Hen).
    cbn [fst snd]. by rewrite Hret. }
  pose proof (lane_run_call h e _ (queue w) c _ _ Hidle Hexec) as Hrun.
  exists (mkWorld (mkEnv (now e) ts (skills e))
                 (PCatch (PThen (queue w) c TFulfilled) true)).
  split; [|done].
  destruct w as [e0 q0]. cbn [apply_external w_env queue] in *. exact Hrun.
Qed.

Lemma message_to_result_witness :
  let data := JObj [(lit "mes", JStr (lit "One moment. [CALL: hello({})]"))] in
  let w := mkWorld (mkEnv 5 [] demo_registry) PResolved in
  let c := mkCall (lit "hello") (JObj []) (lit "{}") (lit "[CALL: hello({})]") in
  (on_message_received data w).2 = [EEnqueue c]
  /\ exists w',
       lane_run index_ui (on_message_received data w).1
         [EStart c; EBump 5 1;
          EUi (executing_notice (lit "hello"));
          EInvoke (lit "hello") (mkCtx (lit "hello") (JObj []) (lit "{}"));
          EMessage (result_message (lit "hello") (JStr (lit "Hello, X!")));
          EGenerate; EDispose;
          EEnd c true] w'
       /\ settled (queue w') = Some true
       /\ skills (w_env w') = demo_registry.
Proof.
  intros data w c.
  refine (message_to_result index_ui data w c hello_skill (JStr (lit "Hello, X!"))
            index_ui_works eq_refl eq_refl _ eq_refl).
  split_and!; [vm_compute; lia|reflexivity|reflexivity].
Defined.

(** * Delivering a system message *)

Lemma try_calls_spec (calls : list (sink * (list jsval -> bool) * list jsval))
  (P : api_event -> Prop) :
  (forall s f a ok, (s, f, a) ∈ calls -> P (Called s a ok)) ->
  exists failed final,
    (try_calls calls).1 = failed ++ final
    /\ Forall failed_call failed
    /\ Forall P (try_calls calls).1
    /\ (if (try_calls calls).2
        then exists ev, final = [ev] /\ delivery ev
        else final = []).
Proof.
  induction calls as [|[[s f] a] r IH]; intros HP.
  - exists [], []. by split_and!.
  - cbn [try_calls]. destruct (f a) eqn:Ef.
    + exists [], [Called s a true]. cbn. split_and!; [done|done| |by eexists].
      repeat constructor. apply (HP s f). by left.
    + destruct IH as (failed & final & E & Hf & HPs & Hd).
      { intros s' f' a' ok Hin. apply (HP s' f'). by right. }
      destruct (try_calls r) as [evs ok]. cbn [fst snd] in *.
      exists (Called s a false :: failed), final. cbn [app].
      split_and!; [by f_equal|by constructor| |done].
      constructor; [|done]. apply (HP s f). by left.
Qed.

(** X19. A system message reaches the page once at most. [addSystemMessage]
    makes its attempts in a fixed order, every one of them with the text
    of the message; all but the last have failed, and the last, if it did
    not fail too, is the one delivery: a call that succeeded, or the push
    on [window.chat]. An empty text makes no attempt at all. *)
Theorem addSystemMessage_delivers_once (p : page) (content : jsval) :
  exists failed final,
    api_addSystemMessage p content = failed ++ final
    /\ Forall failed_call failed
    /\ (final = [] \/ exists ev, final = [ev] /\ delivery ev)
    /\ Forall (carries (safeString content [])) (api_addSystemMessage p content)
    /\ (safeString content [] = [] -> api_addSystemMessage p content = []).
Proof.
  unfold api_addSystemMessage.
  destruct (safeString content []) as [|c t].
  { exists [], []. split_and!; [done|done|by left|done|done]. }
  set (text := c :: t).
  set (calls1 := List.map _ _).
  destruct (try_calls_spec calls1 (carries text)) as (f1 & l1 & E1 & Hf1 & Hc1 & Hd1).
  { intros s f a ok (x & [= -> -> ->] & _)%list_elem_of_fmap. by destruct x.1. }
  destruct (try_calls calls1) as [evs1 ok1]. cbn [fst snd] in *.
  destruct ok1.
  { destruct Hd1 as (ev & -> & Hev). exists f1, [ev].
    split_and!; [done|done|right; by exists ev|done|done]. }
  subst l1. rewrite app_nil_r in E1. subst f1.
  set (calls2 := match or_value _ _ with
                 | HFunction f => try_calls _
                 | _ => ([], false)
                 end).
  assert (exists f2 l2, calls2.1 = f2 ++ l2 /\ Forall failed_call f2
            /\ Forall (carries text) calls2.1
            /\ (if calls2.2 then exists ev, l2 = [ev] /\ delivery ev else l2 = []))
    as (f2 & l2 & E2 & Hf2 & Hc2 & Hd2).
  { unfold calls2. destruct (or_value _ _) as [| |f]; [by exists [], []..|].
    apply try_calls_spec.
    intros s f' a ok Hin. repeat (apply elem_of_cons in Hin as [[= -> -> ->]|Hin]);
      [done..|by apply elem_of_nil in Hin]. }
  destruct calls2 as [evs2 ok2]. cbn [fst snd] in *.
  destruct ok2.
  { destruct Hd2 as (ev & -> & Hev). exists (evs1 ++ f2), [ev].
    split_and!; [by rewrite E2, app_assoc|by apply Forall_app|right; by exists ev
                 |by apply Forall_app|done]. }
  subst l2. rewrite app_nil_r in E2. subst f2.
  destruct (window_chat_is_array p).
  - eexists (evs1 ++ evs2), [_].
    split_and!; [by rewrite app_assoc|by apply Forall_app|right; by eexists| |done].
    rewrite !Forall_app. split_and!; [done|done|]. by repeat constructor.
  - exists (evs1 ++ evs2), []. rewrite !app_nil_r.
    split_and!; [done|by apply Forall_app|by left|by apply Forall_app|done].
Qed.

(** * Calls that wait in the lane *)

(** X20. A call names its skill; the skill is looked up when the call starts,
    not when it is enqueued. So a call that was enqueued while its skill
    was registered, and starts after the skill has been removed, is
    answered as not found, and the handler it was meant for is not
    called. *)
Theorem queued_call_is_bound_late (h : host) (e : env) (q0 : promise) (c : call) :
  ui_works h ->
  settled q0 = Some true ->
  (length (prune (now e) (recentCallTimestamps e ++ [now e]))
   <= MAX_CALLS_PER_WINDOW)%nat ->
  exists w',
    lane_run h
      (apply_external (XRemove (skillName c))
         (apply_external (XEnqueue c) (mkWorld e q0)))
      [EStart c;
       EBump (now e) (length (prune (now e) (recentCallTimestamps e ++ [now e])));
       EUi (not_found_notice false (skillName c));
       EMessage (not_found_message (skillName c));
       EEnd c true] w'
    /\ settled (queue w') = Some true.
Proof.
  intros Hui Hidle Hcount.
  set (ts := prune (now e) (recentCallTimestamps e ++ [now e])) in *.
  set (e1 := mkEnv (now e) (recentCallTimestamps e)
                   (registry_remove (skillName c) (skills e))).
  assert (exec h e1 (runSkill c)
          = (mkEnv (now e) ts (skills e1),
             [EBump (now e) (length ts);
              EUi (not_found_notice false (skillName c));
              EMessage (not_found_message (skillName c))],
             Some (inr tt))) as Hexec.
  { rewrite exec_runSkill_ui by done. cbn zeta. cbn [now recentCallTimestamps e1].
    fold ts. rewrite (proj2 (Nat.ltb_ge _ _) Hcount). unfold permitted_trace.
    assert (skills e1 !! skillName c = None) as Hgone by apply lookup_delete_eq.
    rewrite (exec_lookup_unavailable h (mkEnv (now e) ts (skills e1)) c Hui).
    - cbn [fst snd skills]. rewrite Hgone.
      rewrite bool_decide_eq_false_2; [done|]. by intros [? [=]].
    - cbn [skills]. intros s Hs. by rewrite Hgone in Hs. }
  pose proof (lane_run_call h e1 _ q0 c _ _ Hidle Hexec) as Hrun.
  eexists. split; [exact Hrun|done].
Qed.

Lemma queued_call_is_bound_late_witness :
  exists w',
    lane_run index_ui
      (apply_external (XRemove (lit "hello"))
         (apply_external (XEnqueue (call_of "hello"))
            (mkWorld (mkEnv 0 [] demo_registry) PResolved)))
      [EStart (call_of "hello");
       EBump 0 1;
       EUi (not_found_notice false (lit "hello"));
       EMessage (not_found_message (lit "hello"));
       EEnd (call_of "hello") true] w'
    /\ settled (queue w') = Some true.
Proof.
  apply (queued_call_is_bound_late index_ui (mkEnv 0 [] demo_registry) PResolved
           (call_of "hello") index_ui_works eq_refl).
  vm_compute. lia.
Defined.

(** * The payload of a structured result *)

(** Data is serialized: [JSON.stringify] does not throw on it. *)
Lemma serialize_plain_data (gap : nat) (v : jsval) :
  plain_data v -> forall indent, serialize gap indent v <> SerThrow.
Proof.
  induction v as [| |b|x|n|str|items IH|fields IH|src] using jsval_induction;
    intros Hv indent; cbn [serialize]; try done.
  - by destruct b.
  - by destruct x.
  - cbn [plain_data] in Hv.
    assert (ser_elements (serialize gap (indent + gap)) items <> None) as Hel.
    { induction IH as [|x r Hx _ IHr]; [done|]. destruct Hv as [Hvx Hvr].
      cbn [ser_elements]. specialize (Hx Hvx (indent + gap)%nat). specialize (IHr Hvr).
      destruct (serialize gap (indent + gap) x); [|by destruct (ser_elements _ r)|done].
      by destruct (ser_elements _ r). }
    by destruct (ser_elements _ items).
  - cbn [plain_data] in Hv. destruct Hv as [_ Hv].
    assert (ser_members (serialize gap (indent + gap)) gap fields <> None) as Hmem.
    { induction IH as [|[k x] r Hx _ IHr]; [done|]. destruct Hv as [Hvx Hvr].
      cbn [ser_members]. cbn [snd] in Hx, Hvx.
      specialize (Hx Hvx (indent + gap)%nat). specialize (IHr Hvr).
      destruct (serialize gap (indent + gap) x); [|done|done].
      by destruct (ser_members _ _ r). }
    by destruct (ser_members _ _ fields).
Qed.



(** * The prompts as messages *)

Lemma call_re_needs_bracket (c : N) (s : jsstring) (caps : captures)
  (k : jsstring -> captures -> option (jsstring * captures)) :
  c <> 91%N -> rmatch CALL_RE (c :: s) caps k = None.
Proof.
  intros Hc. unfold CALL_RE, RChar. cbn [rmatch].
  by destruct (N.eqb_spec 91 c) as [<-|_].
Qed.

Lemma regex_exec_skip (pre s : jsstring) (index : nat) :
  Forall (fun x => x <> 91%N) pre ->
  regex_exec CALL_RE index (pre ++ s) = regex_exec CALL_RE (index + length pre) s.
Proof.
  intros Hpre. revert index. induction Hpre as [|c pre Hc _ IH]; intros index.
  - cbn [app length]. by rewrite Nat.add_0_r.
  - cbn [app regex_exec length]. rewrite call_re_needs_bracket by done.
    rewrite IH. f_equal. lia.
Qed.

(** A tag that is matched alone is matched the same way in a text, when
    nothing before it opens a bracket and the matcher, started on the tag,
    ends on it. *)
Lemma extract_in_context (pre tag post : jsstring) (c : call) :
  Forall (fun x => x <> 91%N) pre ->
  extractFirstCall (JStr tag) = Some c ->
  rawTag c = tag ->
  (exists caps, rmatch CALL_RE (tag ++ post) [] (fun s' caps => Some (s', caps))
                = Some (post, caps)) ->
  extractFirstCall (JStr (pre ++ tag ++ post)) = Some c.
Proof.
  intros Hpre Hc Htag [caps Hlong]. unfold extractFirstCall in *. cbn [safeString] in *.
  destruct (regex_exec CALL_RE 0 tag) as [m|] eqn:Em; [|done].
  injection Hc as <-. cbn [rawTag] in Htag.
  destruct (regex_exec_at _ _ _ _ Em) as (pre' & post' & Hsplit & Hshort).
  rewrite Htag in *.
  assert (pre' = [] /\ post' = []) as [-> ->].
  { apply (f_equal length) in Hsplit. rewrite !length_app in Hsplit.
    split; [destruct pre'|destruct post']; try done; simpl in Hsplit; lia. }
  rewrite app_nil_r in Hshort.
  pose proof (rmatch_local post CALL_RE tag []
                (fun s' caps => Some (s', caps)) (fun s' caps => Some (s', caps))) as Hloc.
  rewrite Hlong, Hshort in Hloc. destruct Hloc as [Hlen|(y & Hy & [= <- <-])].
  - intros s' caps' rest c' [= <- <-]. done.
  - intros x' caps'. right. by exists x'.
  - lia.
  - rewrite regex_exec_skip by done.
    destruct tag as [|t0 tag']; [by vm_compute in Em|].
    cbn [app regex_exec]. cbn [app] in Hlong. rewrite Hlong.
    replace (take (length (t0 :: tag' ++ post) - length post) (t0 :: tag' ++ post))
      with (t0 :: tag').
    2:{ rewrite app_comm_cons, length_app, Nat.add_sub. by rewrite take_app_length. }
    by cbn [m_groups m_text].
Qed.

(** X22. The two prompts hold a well-formed call tag: the example of the
    format. A message that repeats the system prompt, or the depth note,
    is therefore taken for a call of a skill named [skill_name], with the
    text between the parentheses, which is no JSON and no [key=value]
    list, wrapped as [{_raw: ...}]. *)
Theorem prompts_hold_a_call_tag (m : skill_map) :
  listEnabled m <> [] ->
  extractFirstCall (JStr (buildSystemPrompt m))
  = Some (mkCall (lit "skill_name")
                 (JObj [(lit "_raw", JStr (lit "{...json args...}"))])
                 (lit "{...json args...}")
                 (lit "[CALL: skill_name({...json args...})]"))
  /\ extractFirstCall (JStr (buildDepthNote m))
     = Some (mkCall (lit "skill_name")
                    (JObj [(lit "_raw", JStr (lit "{...}"))])
                    (lit "{...}")
                    (lit "[CALL: skill_name({...})]")).
Proof.
  intros Hen. split.
  - unfold buildSystemPrompt. destruct (listEnabled m) as [|s en]; [done|].
    set (rest := [] :: lit "Available skills:" :: List.map skill_line (s :: en) ++ prompt_rules).
    assert (join_with [10%N] (prompt_head ++ List.map skill_line (s :: en) ++ prompt_rules)
            = (lit "You can call external skills via a strict text tag." ++ [10%N]
               ++ lit "When needed, output EXACTLY one call tag in this format:" ++ [10%N])
              ++ lit "[CALL: skill_name({...json args...})]"
              ++ ([10%N] ++ join_with [10%N] rest)) as ->.
    { unfold prompt_head. cbn [app]. fold rest.
      rewrite !join_with_cons. by rewrite <- !app_assoc. }
    apply extract_in_context; [|by vm_compute|done|].
    + apply (bool_decide_unpack _). by vm_compute.
    + generalize ([10%N] ++ join_with [10%N] rest). intros post.
      destruct (rmatch CALL_RE _ [] _) as [[r caps]|] eqn:E;
        vm_compute in E; [|done]. injection E as <- _. by eexists.
  - unfold buildDepthNote. destruct (listEnabled m) as [|s en]; [done|].
    generalize (join_with (lit ", ") (take 24 (List.map name (s :: en)))). intros names.
    change depth_note_head
      with (lit "Author's Note (tool calling): If you need a skill, output a single tag like "
            ++ lit "[CALL: skill_name({...})]" ++ lit ". Skills: ").
    rewrite <- !app_assoc.
    apply extract_in_context; [|by vm_compute|done|].
    + apply (bool_decide_unpack _). by vm_compute.
    + generalize (lit ". Skills: " ++ names). intros post.
      destruct (rmatch CALL_RE _ [] _) as [[r caps]|] eqn:E;
        vm_compute in E; [|done]. injection E as <- _. by eexists.
Qed.

Lemma prompts_hold_a_call_tag_witness :
  extractFirstCall (JStr (buildSystemPrompt [(lit "hello", hello_skill)]))
  = Some (mkCall (lit "skill_name")
                 (JObj [(lit "_raw", JStr (lit "{...json args...}"))])
                 (lit "{...json args...}")
                 (lit "[CALL: skill_name({...json args...})]"))
  /\ extractFirstCall (JStr (buildDepthNote [(lit "hello", hello_skill)]))
     = Some (mkCall (lit "skill_name")
                    (JObj [(lit "_raw", JStr (lit "{...}"))])
                    (lit "{...}")
                    (lit "[CALL: skill_name({...})]")).
Proof. apply prompts_hold_a_call_tag. by vm_compute. Defined.
